(** * Relay pipeline of the Nitter/X bot: a shallow embedding and its properties

    The development follows the TypeScript sources:
    - [TweetRepository] and [DatabaseService.query] (src/db),
    - [RSSParser] (utils/rss-parser),
    - the two [SocialRelayService] classes of the repository: the one whose
      entry point is [poll] (per-post existence recheck, per-post outcome
      list) and the one whose entry point is [process] with the
      failure-streak counter and the first-run special case.

    Collaborators that live outside the orchestration code (the HTTP fetch,
    the chat clients, the PostgreSQL pool, the XML library, the JS date
    parser) are fields of an environment [Env]; every call to one of them is
    appended, with its outcome, to the history of the world. *)

From Stdlib Require Import ZArith String Ascii List Lia Sorted Permutation.
From stdpp Require Import base decidable option list sorting strings gmap pretty.

Import ListNotations.
Local Open Scope Z_scope.
Local Open Scope string_scope.
Local Open Scope list_scope.

(** ** Exceptions and completions *)

(** A thrown JavaScript value: an [Error] instance with its message, or
    anything else. *)
Inductive Thrown : Type :=
| ErrorObj (message : string)
| NonError.

(** [err instanceof Error ? err.message : 'Unknown error'] *)
Definition errorMessage (err : Thrown) : string :=
  match err with
  | ErrorObj m => m
  | NonError => "Unknown error"
  end.

(** How an awaited call ends. *)
Inductive Completion (A : Type) : Type :=
| Normal (a : A)
| Throw (e : Thrown).
Arguments Normal {A} a.
Arguments Throw {A} e.

(** ** Data model *)

(** [ParsedTweet] (clients/telegram-client); [publishedAt] is the [getTime()]
    of the [Date]. *)
Record ParsedTweet : Type := {
  tw_id : string;
  tw_text : string;
  tw_link : string;
  tw_publishedAt : Z
}.

(** [TweetRecord]: one row of [tweets_processed]. *)
Record TweetRecord : Type := {
  rec_id : string;
  published_at : Z;
  created_at : Z
}.

(** The three statements the repository sends through [DatabaseService.query]. *)
Inductive Query : Type :=
| SelectExists (tweetId : string)
    (* SELECT 1 FROM tweets_processed WHERE id = $1 LIMIT 1 *)
| SelectIdIn (tweetIds : list string)
    (* SELECT id FROM tweets_processed WHERE id IN ($1, ..., $n) *)
| InsertProcessed (tweetId : string) (publishedAt : Z).
    (* INSERT INTO tweets_processed (id, published_at) VALUES ($1, $2)
       ON CONFLICT (id) DO NOTHING RETURNING id *)

Inductive Row : Type :=
| RowOne                  (* { '?column?': 1 } *)
| RowId (rid : string).   (* { id } *)

Definition rowId (r : Row) : option string :=
  match r with
  | RowId i => Some i
  | RowOne => None
  end.

(** Calls that leave the orchestrator, each with the way it ended; [DbQuery]
    is a call of [DatabaseService.query]. *)
Inductive Event : Type :=
| FetchRSS (r : Completion string)
| DbQuery (q : Query) (r : Completion (list Row))
| TelegramSend (tweet : ParsedTweet) (r : Completion bool)
| DiscordSend (tweet : ParsedTweet) (r : Completion bool)
| DiscordAlert (title body : string) (r : Completion bool)
| Sleep (ms : Z)
| LogError (msg : string).

(** ** RSS structures *)

Inductive Guid : Type :=
| GuidString (s : string)
| GuidObject (text : option string).

Record RSSItemXml : Type := {
  x_title : option string;
  x_link : option string;
  x_pubDate : option string;
  x_description : option string;
  x_guid : option Guid
}.

Record RSSChannelXml : Type := {
  c_title : option string;
  c_description : option string;
  c_lastBuildDate : option string;
  c_item : option (list RSSItemXml)
}.

(** [parsed.rss?.channel] *)
Record RSSXml : Type := { rss_channel : option RSSChannelXml }.

Record RSSItem : Type := {
  title : string;
  link : string;
  pubDate : string;
  description : option string;
  guid : option string
}.

Record RSSFeed : Type := {
  items : list RSSItem;
  feed_title : option string;
  feed_description : option string;
  lastBuildDate : option string
}.

(** ** The environment *)

Record Env : Type := {
  (* third-party code and the JS runtime *)
  xmlParser : string -> Completion RSSXml;      (* XMLParser.parse *)
  dateParse : string -> option Z;               (* new Date(s).getTime(); None for NaN *)
  (* collaborators: what they answer may depend on all that happened before *)
  nitterFetch : list Event -> Completion string;                    (* NitterClient.fetchRSS *)
  telegramSendTweet : list Event -> ParsedTweet -> Completion bool; (* TelegramClient.sendTweet *)
  discordSendTweet : list Event -> ParsedTweet -> Completion bool;  (* DiscordClient.sendTweet *)
  discordSendAlert : list Event -> string -> string -> Completion bool; (* DiscordClient.sendAlert *)
  poolQuery : list Event -> Query -> option Thrown;  (* pool.query: None, it answers; Some e, it rejects with e *)
  pgNow : list Event -> Z                            (* NOW() of the insert *)
}.

(** ** The world: the table, the pool's shutdown flag, the history *)

Record World : Type := {
  table : list TweetRecord;
  isShuttingDown : bool;
  history : list Event
}.

Definition emit (evs : list Event) (w : World) : World :=
  {| table := table w; isShuttingDown := isShuttingDown w;
     history := history w ++ evs |}.

Definition setTable (t : list TweetRecord) (w : World) : World :=
  {| table := t; isShuttingDown := isShuttingDown w; history := history w |}.

(** ** A state-and-exception monad *)

Definition M (S A : Type) : Type := S -> Completion A * S.

Definition ret {S A : Type} (a : A) : M S A := fun s => (Normal a, s).

Definition throw {S A : Type} (e : Thrown) : M S A := fun s => (Throw e, s).

Definition bind {S A B : Type} (m : M S A) (k : A -> M S B) : M S B :=
  fun s =>
    match m s with
    | (Normal a, s') => k a s'
    | (Throw e, s') => (Throw e, s')
    end.

(** [try { m } catch (e) { h e }]: the state reached when [m] threw is kept. *)
Definition tryCatch {S A : Type} (m : M S A) (h : Thrown -> M S A) : M S A :=
  fun s =>
    match m s with
    | (Normal a, s') => (Normal a, s')
    | (Throw e, s') => h e s'
    end.

Definition modify {S : Type} (f : S -> S) : M S unit := fun s => (Normal tt, f s).

Definition gets {S A : Type} (f : S -> A) : M S A := fun s => (Normal (f s), s).

Declare Scope relay_scope.
Delimit Scope relay_scope with relay.
Notation "x <- c1 ;; c2" := (bind c1 (fun x => c2))
  (at level 100, c1 at next level, right associativity) : relay_scope.
Notation "c1 ;;; c2" := (bind c1 (fun _ => c2))
  (at level 100, right associativity) : relay_scope.
Local Open Scope relay_scope.

(** [for (const x of xs) { await body(x) }] *)
Fixpoint forEach {S A : Type} (xs : list A) (body : A -> M S unit) : M S unit :=
  match xs with
  | [] => ret tt
  | x :: rest => body x ;;; forEach rest body
  end.

(** ** DatabaseService.query and the statements' meaning *)

Definition hasId (tweetId : string) (t : list TweetRecord) : bool :=
  existsb (fun r => bool_decide (rec_id r = tweetId)) t.

Definition execQuery (q : Query) (now : Z) (t : list TweetRecord)
  : list Row * list TweetRecord :=
  match q with
  | SelectExists i => (if hasId i t then [RowOne] else [], t)
  | SelectIdIn ids =>
      (map (fun r => RowId (rec_id r))
         (List.filter (fun r => bool_decide (rec_id r ∈ ids)) t), t)
  | InsertProcessed i p =>
      if hasId i t then ([], t)
      else ([RowId i], t ++ [{| rec_id := i; published_at := p; created_at := now |}])
  end.

Definition query (E : Env) (q : Query) : M World (list Row) :=
  fun w =>
    if isShuttingDown w then
      let err := ErrorObj "Database is shutting down" in
      (Throw err, emit [DbQuery q (Throw err)] w)
    else
      match poolQuery E (history w) q with
      | Some err =>
          (Throw err, emit [DbQuery q (Throw err); LogError "Query failed"] w)
      | None =>
          let '(rows, t) := execQuery q (pgNow E (history w)) (table w) in
          (Normal rows, emit [DbQuery q (Normal rows)] (setTable t w))
      end.

(** ** TweetRepository *)

Module TweetRepository.

Definition exists_ (E : Env) (tweetId : string) : M World bool :=
  rows <- query E (SelectExists tweetId) ;;
  ret (0 <? length rows)%nat.

Definition filterExisting (E : Env) (tweetIds : list string)
  : M World (gset string) :=
  if (length tweetIds =? 0)%nat then ret ∅
  else
    rows <- query E (SelectIdIn tweetIds) ;;
    ret (list_to_set (omap rowId rows)).

Definition markAsProcessed (E : Env) (tweetId : string) (publishedAt : Z)
  : M World bool :=
  tryCatch
    (rows <- query E (InsertProcessed tweetId publishedAt) ;;
     ret (0 <? length rows)%nat)
    (fun err =>
       modify (emit [LogError "Failed to mark tweet as processed"]) ;;;
       throw err).

End TweetRepository.

(** ** String helpers of the JS runtime

    A string is the UTF-8 encoding of the JavaScript string, which is how a
    string literal of this file is read.  The white space that [\s], [trim],
    [trimStart] and [parseInt] recognise is TAB, LF, VT, FF, CR, SP, U+00A0,
    U+1680, U+2000 to U+200A, U+2028, U+2029, U+202F, U+205F, U+3000 and
    U+FEFF; in UTF-8 these take one, two or three bytes. *)

(** TAB, LF, VT, FF, CR and SP. *)
Definition isSpace1 (c : ascii) : bool :=
  let n := nat_of_ascii c in
  ((n =? 32) || ((9 <=? n) && (n <=? 13)))%nat.

(** U+00A0, encoded as C2 A0. *)
Definition isSpace2 (c1 c2 : ascii) : bool :=
  ((nat_of_ascii c1 =? 194) && (nat_of_ascii c2 =? 160))%nat.

(** U+1680 (E1 9A 80), U+2000 to U+200A (E2 80 80 to E2 80 8A), U+2028,
    U+2029 and U+202F (E2 80 A8, A9, AF), U+205F (E2 81 9F), U+3000
    (E3 80 80) and U+FEFF (EF BB BF). *)
Definition isSpace3 (c1 c2 c3 : ascii) : bool :=
  let n1 := nat_of_ascii c1 in
  let n2 := nat_of_ascii c2 in
  let n3 := nat_of_ascii c3 in
  (((n1 =? 225) && (n2 =? 154) && (n3 =? 128))
   || ((n1 =? 226) && (n2 =? 128)
       && (((128 <=? n3) && (n3 <=? 138)) || (n3 =? 168) || (n3 =? 169)
           || (n3 =? 175)))
   || ((n1 =? 226) && (n2 =? 129) && (n3 =? 159))
   || ((n1 =? 227) && (n2 =? 128) && (n3 =? 128))
   || ((n1 =? 239) && (n2 =? 187) && (n3 =? 191)))%nat.

(** What follows the white-space character that [s] starts with, if it
    starts with one. *)
Definition afterSpace (s : string) : option string :=
  match s with
  | String c1 r1 =>
      if isSpace1 c1 then Some r1
      else
        match r1 with
        | String c2 r2 =>
            if isSpace2 c1 c2 then Some r2
            else
              match r2 with
              | String c3 r3 => if isSpace3 c1 c2 c3 then Some r3 else None
              | EmptyString => None
              end
        | EmptyString => None
        end
  | EmptyString => None
  end.

Definition isDigit (c : ascii) : bool :=
  let n := nat_of_ascii c in
  ((48 <=? n) && (n <=? 57))%nat.

Definition isEmpty (s : string) : bool :=
  match s with
  | EmptyString => true
  | String _ _ => false
  end.

Fixpoint strDrop (n : nat) (s : string) : string :=
  match n, s with
  | O, _ => s
  | S k, String _ rest => strDrop k rest
  | S _, EmptyString => EmptyString
  end.

Fixpoint trimStart (s : string) : string :=
  match s with
  | String c1 r1 =>
      if isSpace1 c1 then trimStart r1
      else
        match r1 with
        | String c2 r2 =>
            if isSpace2 c1 c2 then trimStart r2
            else
              match r2 with
              | String c3 r3 => if isSpace3 c1 c2 c3 then trimStart r3 else s
              | EmptyString => s
              end
        | EmptyString => s
        end
  | EmptyString => EmptyString
  end.

(** [s] is made of white space only. *)
Fixpoint allSpace (s : string) : bool :=
  match s with
  | String c1 r1 =>
      if isSpace1 c1 then allSpace r1
      else
        match r1 with
        | String c2 r2 =>
            if isSpace2 c1 c2 then allSpace r2
            else
              match r2 with
              | String c3 r3 => isSpace3 c1 c2 c3 && allSpace r3
              | EmptyString => false
              end
        | EmptyString => false
        end
  | EmptyString => true
  end.

(** The string up to the white space that ends it. *)
Fixpoint trimEnd (s : string) : string :=
  match s with
  | String c rest => if allSpace s then EmptyString else String c (trimEnd rest)
  | EmptyString => EmptyString
  end.

Definition trim (s : string) : string := trimEnd (trimStart s).

(** [s.replace(/pat/g, rep)] for a literal, non-empty [pat]. *)
Fixpoint replaceAllFrom (pat rep : string) (skip : nat) (s : string) : string :=
  match s with
  | EmptyString => EmptyString
  | String c rest =>
      match skip with
      | S k => replaceAllFrom pat rep k rest
      | O =>
          if String.prefix pat s
          then rep +:+ replaceAllFrom pat rep (String.length pat - 1) rest
          else String c (replaceAllFrom pat rep 0 rest)
      end
  end.

Definition replaceAll (pat rep s : string) : string := replaceAllFrom pat rep 0 s.

(** [s.replace(/\s+/g, ' ')] *)
Fixpoint collapseSpaces (inRun : bool) (s : string) : string :=
  let blank (out : string) : string := if inRun then out else String " " out in
  match s with
  | EmptyString => EmptyString
  | String c1 r1 =>
      let kept := String c1 (collapseSpaces false r1) in
      if isSpace1 c1 then blank (collapseSpaces true r1)
      else
        match r1 with
        | String c2 r2 =>
            if isSpace2 c1 c2 then blank (collapseSpaces true r2)
            else
              match r2 with
              | String c3 r3 =>
                  if isSpace3 c1 c2 c3 then blank (collapseSpaces true r3)
                  else kept
              | EmptyString => kept
              end
        | EmptyString => kept
        end
  end.

Fixpoint takeDigits (s : string) : string :=
  match s with
  | String c rest => if isDigit c then String c (takeDigits rest) else EmptyString
  | EmptyString => EmptyString
  end.

Fixpoint takeNonSlash (s : string) : string :=
  match s with
  | String c rest =>
      if Ascii.eqb c "/" then EmptyString else String c (takeNonSlash rest)
  | EmptyString => EmptyString
  end.

(** [s.replace(/#m$/, '')] *)
Fixpoint dropHashMSuffix (s : string) : string :=
  match s with
  | EmptyString => EmptyString
  | String c rest =>
      if String.eqb s "#m" then EmptyString else String c (dropHashMSuffix rest)
  end.

(** [s.replace(/http:\/\/localhost(:\d+)?/, 'https://x.com')] *)
Fixpoint replaceLocalhost (s : string) : string :=
  match s with
  | EmptyString => EmptyString
  | String c rest =>
      if String.prefix "http://localhost" s then
        let after := strDrop 16 s in
        let port :=
          match after with
          | String ":" more => takeDigits more
          | _ => EmptyString
          end in
        if isEmpty port then "https://x.com" +:+ after
        else "https://x.com" +:+ strDrop (1 + String.length port) after
      else String c (replaceLocalhost rest)
  end.

(** [arr.join(sep)] *)
Fixpoint join (sep : string) (parts : list string) : string :=
  match parts with
  | [] => EmptyString
  | [p] => p
  | p :: rest => p +:+ sep +:+ join sep rest
  end.

Definition newline : string := String (ascii_of_nat 10) EmptyString.

(** ** RSSParser *)

Module RSSParser.

Definition emptyFeed : RSSFeed :=
  {| items := []; feed_title := None; feed_description := None;
     lastBuildDate := None |}.

(** [!s] for an optional string: undefined or empty. *)
Definition falsy (s : option string) : bool :=
  match s with
  | None => true
  | Some v => isEmpty v
  end.

Definition parseItem (item : RSSItemXml) : option RSSItem :=
  match x_link item, x_pubDate item with
  | Some l, Some d =>
      if isEmpty l || isEmpty d then None
      else
        Some {| title := default EmptyString (x_title item);
                link := l;
                pubDate := d;
                description := x_description item;
                guid := match x_guid item with
                        | Some (GuidString g) => Some g
                        | Some (GuidObject (Some g)) => Some g
                        | _ => None
                        end |}
  | _, _ => None
  end.

Definition parse (E : Env) (xmlContent : string) : M World RSSFeed :=
  if isEmpty xmlContent || (String.length (trim xmlContent) =? 0)%nat
  then ret emptyFeed
  else
    match xmlParser E xmlContent with
    | Normal parsed =>
        match rss_channel parsed with
        | None => ret emptyFeed
        | Some channel =>
            let itemsArray := default [] (c_item channel) in
            ret {| items := omap parseItem itemsArray;
                   feed_title := c_title channel;
                   feed_description := c_description channel;
                   lastBuildDate := c_lastBuildDate channel |}
        end
    | Throw err =>
        modify (emit [LogError "Failed to parse RSS XML"]) ;;;
        throw (ErrorObj ("RSS parsing failed: " +:+ errorMessage err))
    end.

(** [link.match(/\/status\/(\d+)/)], first group of the leftmost match. *)
Fixpoint extractTweetId (l : string) : option string :=
  match l with
  | EmptyString => None
  | String _ rest =>
      if String.prefix "/status/" l && negb (isEmpty (takeDigits (strDrop 8 l)))
      then Some (takeDigits (strDrop 8 l))
      else extractTweetId rest
  end.

Definition isRetweet (t : string) : bool := String.prefix "RT @" (trimStart t).

Definition isReply (t : string) : bool :=
  let trimmed := trimStart t in
  String.prefix "@" trimmed || String.prefix "R @" trimmed.

Definition parseDate (E : Env) (dateStr : string) : option Z := dateParse E dateStr.

Definition cleanTweetText (t : string) : string :=
  trim (collapseSpaces false
    (replaceAll "&#39;" "'"
      (replaceAll "&quot;" (String (ascii_of_nat 34) EmptyString)
        (replaceAll "&gt;" ">"
          (replaceAll "&lt;" "<"
            (replaceAll "&amp;" "&" t)))))).

(** Leftmost match of [/\/([^\/]+)\/status\/(\d+)/]: user name and status id. *)
Fixpoint matchUserStatus (l : string) : option (string * string) :=
  match l with
  | EmptyString => None
  | String c rest =>
      let user := takeNonSlash rest in
      let after := strDrop (String.length user) rest in
      let digits := takeDigits (strDrop 8 after) in
      if Ascii.eqb c "/" && negb (isEmpty user)
         && String.prefix "/status/" after && negb (isEmpty digits)
      then Some (user, digits)
      else matchUserStatus rest
  end.

Definition convertToTwitterLink (nitterLink : string) : string :=
  match matchUserStatus nitterLink with
  | Some (user, status) => "https://x.com/" +:+ user +:+ "/status/" +:+ status
  | None => dropHashMSuffix (replaceLocalhost nitterLink)
  end.

Definition rssItemToTweet (E : Env) (item : RSSItem) : option ParsedTweet :=
  match extractTweetId (link item) with
  | None => None
  | Some tweetId =>
      match parseDate E (pubDate item) with
      | None => None
      | Some publishedAt =>
          let t := cleanTweetText (title item) in
          if isRetweet t then None
          else if isReply t then None
          else Some {| tw_id := tweetId;
                       tw_text := t;
                       tw_link := convertToTwitterLink (link item);
                       tw_publishedAt := publishedAt |}
      end
  end.

(** [tweets.sort((a, b) => a.publishedAt.getTime() - b.publishedAt.getTime())]:
    the sort of the runtime is stable, so the result is the stable sort by
    ascending time; [insertByTime] puts a tweet before the first one that is
    not older. *)
Fixpoint insertByTime (t : ParsedTweet) (sorted : list ParsedTweet)
  : list ParsedTweet :=
  match sorted with
  | [] => [t]
  | u :: rest =>
      if (tw_publishedAt t <=? tw_publishedAt u)%Z then t :: u :: rest
      else u :: insertByTime t rest
  end.

Fixpoint sortByTime (tweets : list ParsedTweet) : list ParsedTweet :=
  match tweets with
  | [] => []
  | t :: rest => insertByTime t (sortByTime rest)
  end.

Definition toTweets (E : Env) (feed : RSSFeed) : list ParsedTweet :=
  sortByTime (omap (rssItemToTweet E) (items feed)).

End RSSParser.

(** ** Calls to the collaborators *)

Definition fetchRSS (E : Env) : M World string :=
  fun w => let r := nitterFetch E (history w) in (r, emit [FetchRSS r] w).

Definition telegramSend (E : Env) (tweet : ParsedTweet) : M World bool :=
  fun w =>
    let r := telegramSendTweet E (history w) tweet in
    (r, emit [TelegramSend tweet r] w).

Definition discordSend (E : Env) (tweet : ParsedTweet) : M World bool :=
  fun w =>
    let r := discordSendTweet E (history w) tweet in
    (r, emit [DiscordSend tweet r] w).

Definition sendAlert (E : Env) (alertTitle alertBody : string) : M World bool :=
  fun w =>
    let r := discordSendAlert E (history w) alertTitle alertBody in
    (r, emit [DiscordAlert alertTitle alertBody r] w).

Definition sleep (ms : Z) : M World unit := modify (emit [Sleep ms]).

Definition logError (msg : string) : M World unit := modify (emit [LogError msg]).

(** ** ProcessingResult, the result shape shared by both services *)

Record ProcessingResult : Type := {
  totalFetched : nat;
  newTweets : nat;
  telegramSuccess : nat;
  telegramFailed : nat;
  discordSuccess : nat;
  discordFailed : nat;
  errors : list string
}.

Definition emptyResult : ProcessingResult :=
  {| totalFetched := 0; newTweets := 0; telegramSuccess := 0;
     telegramFailed := 0; discordSuccess := 0; discordFailed := 0;
     errors := [] |}.

Definition setTotalFetched (n : nat) (r : ProcessingResult) : ProcessingResult :=
  {| totalFetched := n; newTweets := newTweets r;
     telegramSuccess := telegramSuccess r; telegramFailed := telegramFailed r;
     discordSuccess := discordSuccess r; discordFailed := discordFailed r;
     errors := errors r |}.

Definition setNewTweets (n : nat) (r : ProcessingResult) : ProcessingResult :=
  {| totalFetched := totalFetched r; newTweets := n;
     telegramSuccess := telegramSuccess r; telegramFailed := telegramFailed r;
     discordSuccess := discordSuccess r; discordFailed := discordFailed r;
     errors := errors r |}.

Definition incTelegramSuccess (r : ProcessingResult) : ProcessingResult :=
  {| totalFetched := totalFetched r; newTweets := newTweets r;
     telegramSuccess := S (telegramSuccess r); telegramFailed := telegramFailed r;
     discordSuccess := discordSuccess r; discordFailed := discordFailed r;
     errors := errors r |}.

Definition incTelegramFailed (r : ProcessingResult) : ProcessingResult :=
  {| totalFetched := totalFetched r; newTweets := newTweets r;
     telegramSuccess := telegramSuccess r; telegramFailed := S (telegramFailed r);
     discordSuccess := discordSuccess r; discordFailed := discordFailed r;
     errors := errors r |}.

Definition incDiscordSuccess (r : ProcessingResult) : ProcessingResult :=
  {| totalFetched := totalFetched r; newTweets := newTweets r;
     telegramSuccess := telegramSuccess r; telegramFailed := telegramFailed r;
     discordSuccess := S (discordSuccess r); discordFailed := discordFailed r;
     errors := errors r |}.

Definition incDiscordFailed (r : ProcessingResult) : ProcessingResult :=
  {| totalFetched := totalFetched r; newTweets := newTweets r;
     telegramSuccess := telegramSuccess r; telegramFailed := telegramFailed r;
     discordSuccess := discordSuccess r; discordFailed := S (discordFailed r);
     errors := errors r |}.

(** [result.errors.push(msg)] *)
Definition pushError (msg : string) (r : ProcessingResult) : ProcessingResult :=
  {| totalFetched := totalFetched r; newTweets := newTweets r;
     telegramSuccess := telegramSuccess r; telegramFailed := telegramFailed r;
     discordSuccess := discordSuccess r; discordFailed := discordFailed r;
     errors := errors r ++ [msg] |}.

(** [allTweets.filter((t) => !existingIds.has(t.id))] *)
Definition notIn (existingIds : gset string) (tweets : list ParsedTweet)
  : list ParsedTweet :=
  List.filter (fun t => negb (bool_decide (tw_id t ∈ existingIds))) tweets.

(** ** SocialRelayService with the failure streak: [process] *)

Module ProcessRelay.

Definition FAILURE_THRESHOLD : nat := 3.

(** The service object ([consecutiveFailures], [alertSent]), the world it
    talks to, and the local [result] of the running [process] call, which the
    [catch] block still sees after a throw. *)
Record State : Type := {
  world : World;
  consecutiveFailures : nat;
  alertSent : bool;
  result : ProcessingResult
}.

Definition withWorld (w : World) (st : State) : State :=
  {| world := w; consecutiveFailures := consecutiveFailures st;
     alertSent := alertSent st; result := result st |}.

Definition withResult (r : ProcessingResult) (st : State) : State :=
  {| world := world st; consecutiveFailures := consecutiveFailures st;
     alertSent := alertSent st; result := r |}.

Definition withStreak (n : nat) (sent : bool) (st : State) : State :=
  {| world := world st; consecutiveFailures := n; alertSent := sent;
     result := result st |}.

Definition inWorld {A : Type} (m : M World A) : M State A :=
  fun st => let '(r, w) := m (world st) in (r, withWorld w st).

Definition updResult (f : ProcessingResult -> ProcessingResult) : M State unit :=
  modify (fun st => withResult (f (result st)) st).

Definition setStreak (n : nat) (sent : bool) : M State unit :=
  modify (withStreak n sent).

Definition sendNitterFailureAlert (E : Env) (errorMessage : string) : M State unit :=
  n <- gets consecutiveFailures ;;
  let alertTitle := "Nitter RSS Feed Failure" in
  let alertBody :=
    join newline
      [ "The bot has failed to fetch tweets " +:+ pretty n +:+ " times in a row.";
        "";
        "**Possible causes:**";
        "• Twitter session cookies expired";
        "• Twitter account suspended/banned";
        "• Nitter container stopped or crashed";
        "• Network connectivity issues";
        "";
        "**Last error:** " +:+ errorMessage;
        "";
        "**Action required:** Check Nitter logs and session status.";
        "```bash";
        "docker logs nitter --tail 50";
        "```" ] in
  tryCatch
    (inWorld (sendAlert E alertTitle alertBody) ;;; ret tt)
    (fun alertErr => inWorld (logError "Failed to send Nitter failure alert")).

Definition processSingleTweet (E : Env) (tweet : ParsedTweet) : M State unit :=
  telegramOk <-
    tryCatch
      (ok <- inWorld (telegramSend E tweet) ;;
       (if ok : bool then updResult incTelegramSuccess
        else updResult (fun r =>
               pushError ("Telegram send failed for tweet " +:+ tw_id tweet)
                 (incTelegramFailed r))) ;;;
       ret ok)
      (fun err =>
         updResult (fun r =>
           pushError ("Telegram error for tweet " +:+ tw_id tweet +:+ ": "
                        +:+ errorMessage err)
             (incTelegramFailed r)) ;;;
         inWorld (logError "Telegram send threw exception") ;;;
         ret false) ;;
  discordOk <-
    tryCatch
      (ok <- inWorld (discordSend E tweet) ;;
       (if ok : bool then updResult incDiscordSuccess
        else updResult (fun r =>
               pushError ("Discord send failed for tweet " +:+ tw_id tweet)
                 (incDiscordFailed r))) ;;;
       ret ok)
      (fun err =>
         updResult (fun r =>
           pushError ("Discord error for tweet " +:+ tw_id tweet +:+ ": "
                        +:+ errorMessage err)
             (incDiscordFailed r)) ;;;
         inWorld (logError "Discord send threw exception") ;;;
         ret false) ;;
  (if telegramOk || discordOk then
     tryCatch
       (inWorld (TweetRepository.markAsProcessed E (tw_id tweet) (tw_publishedAt tweet)) ;;;
        ret tt)
       (fun err =>
          updResult (pushError ("DB error for tweet " +:+ tw_id tweet +:+ ": "
                                  +:+ errorMessage err)) ;;;
          inWorld (logError "Failed to mark tweet as processed"))
   else ret tt) ;;;
  inWorld (sleep 1000).

Definition process (E : Env) : M State ProcessingResult :=
  updResult (fun _ => emptyResult) ;;;
  tryCatch
    (xmlContent <- inWorld (fetchRSS E) ;;
     feed <- inWorld (RSSParser.parse E xmlContent) ;;
     let allTweets := RSSParser.toTweets E feed in
     updResult (setTotalFetched (length allTweets)) ;;;
     if (length allTweets =? 0)%nat then gets result
     else
       let tweetIds := map tw_id allTweets in
       existingIds <- inWorld (TweetRepository.filterExisting E tweetIds) ;;
       let newTweets := notIn existingIds allTweets in
       updResult (setNewTweets (length newTweets)) ;;;
       if (length newTweets =? 0)%nat then gets result
       else
         fetched <- gets (fun st => totalFetched (result st)) ;;
         let isFirstRun :=
           (size existingIds =? 0)%nat && (length newTweets =? fetched)%nat in
         (if isFirstRun && (1 <? length newTweets)%nat then
            match newTweets with
            | latestTweet :: olderTweets =>
                forEach olderTweets (fun tweet =>
                  inWorld (TweetRepository.markAsProcessed E
                             (tw_id tweet) (tw_publishedAt tweet)) ;;;
                  ret tt) ;;;
                processSingleTweet E latestTweet ;;;
                updResult (setNewTweets 1)
            | [] => ret tt
            end
          else forEach newTweets (processSingleTweet E)) ;;;
         failures <- gets consecutiveFailures ;;
         (if (0 <? failures)%nat then setStreak 0 false else ret tt) ;;;
         gets result)
    (fun err =>
       let msg := errorMessage err in
       updResult (pushError msg) ;;;
       inWorld (logError "Processing cycle failed") ;;;
       failures <- gets consecutiveFailures ;;
       sent <- gets alertSent ;;
       setStreak (S failures) sent ;;;
       (if (FAILURE_THRESHOLD <=? S failures)%nat && negb sent then
          sendNitterFailureAlert E msg ;;;
          setStreak (S failures) true
        else ret tt) ;;;
       gets result).

(** *** The blocks of [process], named for the statements about them *)

(** The [catch] block. *)
Definition onFailure (E : Env) (err : Thrown) : M State ProcessingResult :=
  let msg := errorMessage err in
  updResult (pushError msg) ;;;
  inWorld (logError "Processing cycle failed") ;;;
  failures <- gets consecutiveFailures ;;
  sent <- gets alertSent ;;
  setStreak (S failures) sent ;;;
  (if (FAILURE_THRESHOLD <=? S failures)%nat && negb sent then
     sendNitterFailureAlert E msg ;;;
     setStreak (S failures) true
   else ret tt) ;;;
  gets result.

(** The first-run test and the two ways of dispatching. *)
Definition dispatch (E : Env) (existingIds : gset string)
    (newTweets : list ParsedTweet) : M State unit :=
  fetched <- gets (fun st => totalFetched (result st)) ;;
  let isFirstRun :=
    (size existingIds =? 0)%nat && (length newTweets =? fetched)%nat in
  if isFirstRun && (1 <? length newTweets)%nat then
    match newTweets with
    | latestTweet :: olderTweets =>
        forEach olderTweets (fun tweet =>
          inWorld (TweetRepository.markAsProcessed E
                     (tw_id tweet) (tw_publishedAt tweet)) ;;;
          ret tt) ;;;
        processSingleTweet E latestTweet ;;;
        updResult (setNewTweets 1)
    | [] => ret tt
    end
  else forEach newTweets (processSingleTweet E).

(** The reset that ends a cycle which ran to the end of the [try] block. *)
Definition resetStreak (st : State) : State :=
  if (0 <? consecutiveFailures st)%nat then withStreak 0 false st else st.

(** A fresh service object in a given world. *)
Definition start (w : World) : State :=
  {| world := w; consecutiveFailures := 0; alertSent := false;
     result := emptyResult |}.

End ProcessRelay.

(** ** SocialRelayService with the existence recheck: [poll] *)

Module PollRelay.

Record TweetProcessingResult : Type := {
  tweetId : string;
  telegram : bool;
  discord : bool;
  dbSaved : bool;
  skipped : bool;
  error : option string
}.

Record PollingResult : Type := {
  success : bool;
  tweetsFound : nat;
  tweetsProcessed : nat;
  results : list TweetProcessingResult;
  pollError : option string
}.

Definition processTweet (E : Env) (tweet : ParsedTweet)
  : M World TweetProcessingResult :=
  present <- TweetRepository.exists_ E (tw_id tweet) ;;
  if present : bool then
    ret {| tweetId := tw_id tweet; telegram := false; discord := false;
           dbSaved := false; skipped := true; error := None |}
  else
    telegramOk <- telegramSend E tweet ;;
    discordOk <- discordSend E tweet ;;
    saved <-
      (if telegramOk || discordOk then
         tryCatch
           (TweetRepository.markAsProcessed E (tw_id tweet) (tw_publishedAt tweet))
           (fun err =>
              logError "Failed to save tweet to database" ;;; ret false)
       else ret false) ;;
    ret {| tweetId := tw_id tweet; telegram := telegramOk; discord := discordOk;
           dbSaved := saved; skipped := false;
           error := if negb telegramOk && negb discordOk
                    then Some "Both Telegram and Discord failed" else None |}.

(** The loop of [poll]: one [processTweet] per new tweet, a pause after each
    but the last. *)
Fixpoint processAll (E : Env) (tweets : list ParsedTweet)
  : M World (list TweetProcessingResult) :=
  match tweets with
  | [] => ret []
  | tweet :: rest =>
      r <- processTweet E tweet ;;
      (if (0 <? length rest)%nat then sleep 1000 else ret tt) ;;;
      rs <- processAll E rest ;;
      ret (r :: rs)
  end.

Definition poll (E : Env) : M World PollingResult :=
  tryCatch
    (rssContent <- fetchRSS E ;;
     feed <- RSSParser.parse E rssContent ;;
     let tweets := RSSParser.toTweets E feed in
     if (length tweets =? 0)%nat then
       ret {| success := true; tweetsFound := 0; tweetsProcessed := 0;
              results := []; pollError := None |}
     else
       let tweetIds := map tw_id tweets in
       existingIds <- TweetRepository.filterExisting E tweetIds ;;
       let newTweets := notIn existingIds tweets in
       if (length newTweets =? 0)%nat then
         ret {| success := true; tweetsFound := length tweets;
                tweetsProcessed := 0; results := []; pollError := None |}
       else
         rs <- processAll E newTweets ;;
         let successCount := length (List.filter dbSaved rs) in
         ret {| success := true; tweetsFound := length tweets;
                tweetsProcessed := successCount; results := rs;
                pollError := None |})
    (fun err =>
       logError "Polling cycle failed" ;;;
       ret {| success := false; tweetsFound := 0; tweetsProcessed := 0;
              results := []; pollError := Some (errorMessage err) |}).

(** What the [catch] block of [poll] returns, and the world it leaves. *)
Definition aborted (err : Thrown) (w : World) : Completion PollingResult * World :=
  (Normal {| success := false; tweetsFound := 0; tweetsProcessed := 0;
             results := []; pollError := Some (errorMessage err) |},
   emit [LogError "Polling cycle failed"] w).

(** [!r.error]: no error, or an empty one. *)
Definition falsyError (r : TweetProcessingResult) : bool :=
  match error r with
  | None => true
  | Some e => isEmpty e
  end.

(** [process]: the projection of a [PollingResult] onto [ProcessingResult]. *)
Definition process (E : Env) : M World ProcessingResult :=
  pollResult <- poll E ;;
  let rs := results pollResult in
  let errs :=
    map (fun r => tweetId r +:+ ": " +:+ default EmptyString (error r))
      (List.filter (fun r => negb (falsyError r)) rs) in
  ret {| totalFetched := tweetsFound pollResult;
         newTweets := tweetsProcessed pollResult;
         telegramSuccess := length (List.filter telegram rs);
         telegramFailed :=
           length (List.filter (fun r => negb (telegram r) && negb (skipped r)) rs);
         discordSuccess := length (List.filter discord rs);
         discordFailed :=
           length (List.filter (fun r => negb (discord r) && negb (skipped r)) rs);
         errors := match pollError pollResult with
                   | Some e => if isEmpty e then errs else e :: errs
                   | None => errs
                   end |}.

End PollRelay.

(** ** Observations on worlds and histories *)

(** The events that [h'] adds to [h]. *)
Definition since (h h' : list Event) : list Event := drop (length h) h'.

Definition storedIds (w : World) : list string := map rec_id (table w).

(** Steps 1 and 2 of a cycle, as [process] and [poll] both run them. *)
Definition fetchTweets (E : Env) : M World (list ParsedTweet) :=
  xml <- fetchRSS E ;;
  feed <- RSSParser.parse E xml ;;
  ret (RSSParser.toTweets E feed).

Definition telegramSends (h : list Event) : list ParsedTweet :=
  omap (fun e => match e with TelegramSend t _ => Some t | _ => None end) h.

Definition discordSends (h : list Event) : list ParsedTweet :=
  omap (fun e => match e with DiscordSend t _ => Some t | _ => None end) h.

Definition alertCalls (h : list Event) : nat :=
  length (List.filter
            (fun e => match e with DiscordAlert _ _ _ => true | _ => false end) h).

(** Ids for which an insert was sent to the database. *)
Definition writeAttempts (h : list Event) : list string :=
  omap (fun e => match e with
                 | DbQuery (InsertProcessed i _) _ => Some i
                 | _ => None
                 end) h.

(** A sink reported success for [t]. *)
Definition sinkOk (h : list Event) (t : ParsedTweet) : Prop :=
  TelegramSend t (Normal true) ∈ h ∨ DiscordSend t (Normal true) ∈ h.

Definition records (i : string) (t : list TweetRecord) : list TweetRecord :=
  List.filter (fun r => bool_decide (rec_id r = i)) t.

(** No sink send, no alert and no insert among the events. *)
Definition quiet (h : list Event) : Prop :=
  telegramSends h = [] ∧ discordSends h = [] ∧ writeAttempts h = []
  ∧ alertCalls h = 0%nat.

(** The cycle started in [w] fails at the fetch stage with [err]. *)
Definition fetchFails (E : Env) (w : World) (err : Thrown) : Prop :=
  ∃ w1, fetchTweets E w = (Throw err, w1).

(** The cycle started in [w] fetches [tweets] and then fails with [err] in
    the bulk existence query. *)
Definition dedupFails (E : Env) (w : World) (tweets : list ParsedTweet)
    (err : Thrown) : Prop :=
  ∃ w1 w2, fetchTweets E w = (Normal tweets, w1)
           ∧ TweetRepository.filterExisting E (map tw_id tweets) w1 = (Throw err, w2).

(** [a] is not newer than [b]. *)
Definition notNewer (a b : ParsedTweet) : Prop :=
  (tw_publishedAt a <= tw_publishedAt b)%Z.

(** In [evs], read with [prev] as the event just before: every Telegram send
    comes right after an existence query for the tweet's id that found
    nothing, and every Discord send right after the Telegram send of the same
    tweet. *)
Fixpoint rechecked (prev : option Event) (evs : list Event) : Prop :=
  match evs with
  | [] => True
  | e :: rest =>
      match e with
      | TelegramSend t _ =>
          prev = Some (DbQuery (SelectExists (tw_id t)) (Normal []))
      | DiscordSend t _ => ∃ r, prev = Some (TelegramSend t r)
      | _ => True
      end ∧ rechecked (Some e) rest
  end.

(** The pool answers every statement. *)
Definition poolUp (E : Env) : Prop := ∀ h q, poolQuery E h q = None.

(** The chat clients keep their contract: [sendTweet] resolves to a boolean. *)
Definition sinksResolve (E : Env) : Prop :=
  ∀ h t, (∃ b, telegramSendTweet E h t = Normal b)
         ∧ (∃ b, discordSendTweet E h t = Normal b).

(** ** Scenarios: concrete environments *)

Module Scenario.

(** A feed entry for status [i] published at [date]. *)
Definition entry (i date : string) : RSSItemXml :=
  {| x_title := Some ("post " +:+ i);
     x_link := Some ("http://localhost:8080/btclight/status/" +:+ i +:+ "#m");
     x_pubDate := Some date;
     x_description := None;
     x_guid := None |}.

Definition document (entries : list RSSItemXml) : RSSXml :=
  {| rss_channel :=
       Some {| c_title := None; c_description := None;
               c_lastBuildDate := None; c_item := Some entries |} |}.

(** Dates of the scenarios are decimal millisecond counts. *)
Fixpoint decimalFrom (acc : Z) (s : string) : option Z :=
  match s with
  | EmptyString => Some acc
  | String c rest =>
      if isDigit c
      then decimalFrom (10 * acc + Z.of_nat (nat_of_ascii c - 48)) rest
      else None
  end.

Definition decimal (s : string) : option Z :=
  if isEmpty s then None else decimalFrom 0 s.

(** The tweet that [entry i date] becomes when [date] reads as [time]. *)
Definition tweet (i : string) (time : Z) : ParsedTweet :=
  {| tw_id := i; tw_text := "post " +:+ i;
     tw_link := "https://x.com/btclight/status/" +:+ i;
     tw_publishedAt := time |}.

(** Number of feed fetches made so far. *)
Definition fetches (h : list Event) : nat :=
  length (List.filter
            (fun e => match e with FetchRSS _ => true | _ => false end) h).

(** Number of database calls made so far. *)
Definition dbCalls (h : list Event) : nat :=
  length (List.filter
            (fun e => match e with DbQuery _ _ => true | _ => false end) h).

(** An environment serving [entries]; the feed is down on the fetches whose
    rank satisfies [feedDown], the pool rejects the database calls whose rank
    satisfies [dbDown], and the sinks answer [tg] and [dc]. *)
Definition env (entries : list RSSItemXml) (feedDown dbDown : nat -> bool)
    (tg dc : ParsedTweet -> Completion bool) (alert : Completion bool) : Env :=
  {| xmlParser := fun _ => Normal (document entries);
     dateParse := decimal;
     nitterFetch := fun h =>
       if feedDown (fetches h)
       then Throw (ErrorObj "Failed to fetch RSS after 3 attempts: timeout")
       else Normal "<rss/>";
     telegramSendTweet := fun _ t => tg t;
     discordSendTweet := fun _ t => dc t;
     discordSendAlert := fun _ _ _ => alert;
     poolQuery := fun h _ =>
       if dbDown (dbCalls h) then Some (ErrorObj "connection refused") else None;
     pgNow := fun h => Z.of_nat (length h) |}.

Definition never : nat -> bool := fun _ => false.
Definition always : nat -> bool := fun _ => true.
Definition delivers : ParsedTweet -> Completion bool := fun _ => Normal true.
Definition refuses : ParsedTweet -> Completion bool := fun _ => Normal false.

Definition emptyWorld : World :=
  {| table := []; isShuttingDown := false; history := [] |}.

Definition worldWith (ids : list string) : World :=
  {| table := map (fun i => {| rec_id := i; published_at := 0; created_at := 0 |}) ids;
     isShuttingDown := false; history := [] |}.

End Scenario.

(** ** Tactics for running the monad *)

Ltac unfold_monad :=
  unfold bind, tryCatch, ret, throw, modify, gets, ProcessRelay.inWorld,
    ProcessRelay.updResult, ProcessRelay.setStreak in *.

Ltac oracle :=
  match goal with
  | |- context [telegramSendTweet ?E ?h ?t] =>
      destruct (telegramSendTweet E h t) as [[|]|?] eqn:?
  | |- context [discordSendTweet ?E ?h ?t] =>
      destruct (discordSendTweet E h t) as [[|]|?] eqn:?
  | |- context [discordSendAlert ?E ?h ?a ?b] =>
      destruct (discordSendAlert E h a b) as [[|]|?] eqn:?
  | |- context [isShuttingDown ?w] =>
      destruct (isShuttingDown w) eqn:?
  | |- context [poolQuery ?E ?h ?q] =>
      destruct (poolQuery E h q) eqn:?
  | |- context [hasId ?i ?t] =>
      destruct (hasId i t) eqn:?
  end.

(** Under [Hres : sinksResolve E] a sink cannot have thrown. *)
Ltac contradict_sinks Hres :=
  match goal with
  | H : telegramSendTweet ?E ?h ?t = Throw _ |- _ =>
      destruct (proj1 (Hres h t)) as [? ?]; congruence
  | H : discordSendTweet ?E ?h ?t = Throw _ |- _ =>
      destruct (proj2 (Hres h t)) as [? ?]; congruence
  end.

(** * Further definitions: observations, clients, configuration, entry point *)

(** ** Shapes of strings *)

Fixpoint allDigits (s : string) : bool :=
  match s with
  | EmptyString => true
  | String c rest => isDigit c && allDigits rest
  end.

Definition startsWithDigit (s : string) : bool :=
  match s with
  | String c _ => isDigit c
  | EmptyString => false
  end.

Definition startsWithSpace (s : string) : bool :=
  match afterSpace s with
  | Some _ => true
  | None => false
  end.

Fixpoint hasChar (c : ascii) (s : string) : bool :=
  match s with
  | EmptyString => false
  | String d rest => Ascii.eqb d c || hasChar c rest
  end.

(** Wherever white space starts in [s], it is a blank that is followed by a
    character which is not white space. *)
Fixpoint singleSpaced (s : string) : bool :=
  match s with
  | EmptyString => true
  | String c rest =>
      (if startsWithSpace s
       then Ascii.eqb c " " && negb (isEmpty rest) && negb (startsWithSpace rest)
       else true)
      && singleSpaced rest
  end.

(** Wherever white space starts in [s], it is a blank that is not followed by
    white space (it may end the string). *)
Fixpoint looseSpaced (s : string) : bool :=
  match s with
  | EmptyString => true
  | String c rest =>
      (if startsWithSpace s
       then Ascii.eqb c " " && negb (startsWithSpace rest)
       else true)
      && looseSpaced rest
  end.

(** ** Numbers of the JS runtime

    A number that holds an integer is the value of a finite double or an
    infinity; [-0] is not told from [0], which print and compare alike. *)

Inductive Num : Type :=
| Finite (z : Z)
| Infinity (negative : bool).

(** The double nearest to the natural number [m], ties to the even
    significand of 53 bits; [None] from [2^1024 - 2^970] on, where the nearest
    double is the infinity. *)
Definition nearestDouble (m : Z) : option Z :=
  let bits := Z.log2 m + 1 in
  if (bits <=? 53)%Z then Some m
  else
    let shift := bits - 53 in
    let q := Z.shiftr m shift in
    let r := m - Z.shiftl q shift in
    let half := Z.shiftl 1 (shift - 1) in
    let q' :=
      if ((half <? r) || ((r =? half) && Z.odd q))%Z then q + 1 else q in
    let v := Z.shiftl q' shift in
    if (Z.shiftl 1 1024 <=? v)%Z then None else Some v.

(** The number for the sign and the digits that [parseInt] has read. *)
Definition toNumber (negative : bool) (m : Z) : Num :=
  match nearestDouble m with
  | Some v => Finite (if negative then - v else v)
  | None => Infinity negative
  end.

Definition readsAs (z v : Z) : bool :=
  match nearestDouble v with
  | Some z' => (z' =? z)%Z
  | None => false
  end.

(** The decimal that [Number::toString] prints the digits of, for the double
    [z > 0]: among the decimals whose nearest double is [z], one with the
    fewest digits before its zeros at the end, of these the closest to [z],
    and of two equally close the one whose last digit is even.  [exp] is the
    number of zeros at the end that is tried first. *)
Fixpoint shortestDecimal (z : Z) (exp : nat) : Z :=
  let u := 10 ^ Z.of_nat exp in
  let lo := z / u * u in
  let hi := lo + u in
  match readsAs z lo, readsAs z hi with
  | true, true =>
      if (z - lo <? hi - z)%Z then lo
      else if (hi - z <? z - lo)%Z then hi
      else if Z.even (lo / u) then lo else hi
  | true, false => lo
  | false, true => hi
  | false, false =>
      match exp with
      | S exp' => shortestDecimal z exp'
      | O => z
      end
  end.

Fixpoint dropZerosAtEnd (s : string) : string :=
  match s with
  | EmptyString => EmptyString
  | String c rest =>
      let rest' := dropZerosAtEnd rest in
      if Ascii.eqb c "0" && isEmpty rest' then EmptyString else String c rest'
  end.

(** [String(z)] for [z > 0]: the digits up to 21 of them, the exponent form
    beyond. *)
Definition positiveToString (z : Z) : string :=
  let digits := pretty (shortestDecimal z (String.length (pretty z) - 1)) in
  let n := String.length digits in
  if (n <=? 21)%nat then digits
  else
    match dropZerosAtEnd digits with
    | String c rest =>
        String c (if isEmpty rest then EmptyString else "." +:+ rest)
          +:+ "e+" +:+ pretty (n - 1)%nat
    | EmptyString => digits
    end.

(** [String(z)], as a template string puts a number that holds the integer
    [z]. *)
Definition numberToString (z : Z) : string :=
  if (z =? 0)%Z then "0"
  else if (z <? 0)%Z then "-" +:+ positiveToString (- z)
  else positiveToString z.

(** ** Sample inputs *)

Module Sample.

(** An environment in which everything works and the feed is empty. *)
Definition quietEnv : Env :=
  Scenario.env [] Scenario.never Scenario.never
    Scenario.delivers Scenario.delivers (Normal true).

(** A feed of one ordinary post and one retweet. *)
Definition feed : RSSFeed :=
  {| items := [ {| title := "post 42";
                   link := "http://localhost:8080/btclight/status/42#m";
                   pubDate := "1000"; description := None; guid := None |};
                {| title := "RT @someone: hello";
                   link := "http://localhost:8080/btclight/status/43#m";
                   pubDate := "2000"; description := None; guid := None |} ];
     feed_title := None; feed_description := None; lastBuildDate := None |}.

(** An environment whose feed has one usable entry and one without a link. *)
Definition oneEntryEnv : Env :=
  Scenario.env [Scenario.entry "42" "1000";
                {| x_title := Some "no link"; x_link := None;
                   x_pubDate := Some "2000"; x_description := None;
                   x_guid := None |}]
    Scenario.never Scenario.never
    Scenario.delivers Scenario.delivers (Normal true).

(** An environment serving [entries] in which everything works. *)
Definition serving (entries : list RSSItemXml) : Env :=
  Scenario.env entries Scenario.never Scenario.never
    Scenario.delivers Scenario.delivers (Normal true).

(** Two posts in the feed, everything works. *)
Definition twoPosts : Env :=
  serving [Scenario.entry "2" "200"; Scenario.entry "1" "100"].

(** Two posts in the feed; both chats accept post 2 only. *)
Definition picky : Env :=
  Scenario.env [Scenario.entry "2" "200"; Scenario.entry "1" "100"]
    Scenario.never Scenario.never
    (fun t => Normal (String.eqb (tw_id t) "2"))
    (fun t => Normal (String.eqb (tw_id t) "2"))
    (Normal true).

(** One post in the feed that both chats decline. *)
Definition declined : Env :=
  Scenario.env [Scenario.entry "1" "100"] Scenario.never Scenario.never
    Scenario.refuses Scenario.refuses (Normal true).

(** The feed is down for good. *)
Definition feedDown : Env :=
  Scenario.env [] Scenario.always Scenario.never
    Scenario.delivers Scenario.delivers (Normal true).

(** The feed is empty, and down on the fetches whose rank satisfies [down]. *)
Definition flaky (down : nat → bool) : Env :=
  Scenario.env [] down Scenario.never
    Scenario.delivers Scenario.delivers (Normal true).

(** Telegram accepts every post and Discord declines it; the pool rejects
    the database calls whose rank satisfies [dbDown]. *)
Definition oneChat (dbDown : nat → bool) : Env :=
  Scenario.env [] Scenario.never dbDown
    Scenario.delivers Scenario.refuses (Normal true).

(** Both chats decline every post; the database answers. *)
Definition noChat : Env :=
  Scenario.env [] Scenario.never Scenario.never
    Scenario.refuses Scenario.refuses (Normal true).

(** U+00A0, the no-break space, and U+FEFF, the byte order mark. *)
Definition nbsp : string :=
  String (ascii_of_nat 194) (String (ascii_of_nat 160) EmptyString).

Definition bom : string :=
  String (ascii_of_nat 239)
    (String (ascii_of_nat 187) (String (ascii_of_nat 191) EmptyString)).

End Sample.

(** ** Relations between the worlds before and after a computation *)

(** [w'] extends [w]: the table and the history have only been appended to,
    the shutdown flag is the same, and ids are still unique if they were. *)
Definition extends (w w' : World) : Prop :=
  (∃ added, table w' = table w ++ added)
  ∧ (∃ d, history w' = history w ++ d)
  ∧ isShuttingDown w' = isShuttingDown w
  ∧ (NoDup (storedIds w) → NoDup (storedIds w')).

(** [m] only ever moves the state along [R]. *)
Definition along {S A : Type} (R : S → S → Prop) (m : M S A) : Prop :=
  ∀ s, R s (m s).2.

(** The relation [extends] on the worlds of two states of the service with
    the failure streak. *)
Definition extendsState (st st' : ProcessRelay.State) : Prop :=
  extends (ProcessRelay.world st) (ProcessRelay.world st').

(** The database answers: it is not shutting down and the pool is up. *)
Definition dbUp (E : Env) (w : World) : Prop :=
  isShuttingDown w = false ∧ poolUp E.

(** ** Counting and pacing events *)

Definition count (f : Event → bool) (h : list Event) : nat :=
  length (List.filter f h).

Definition isTelegramOk (e : Event) : bool :=
  match e with TelegramSend _ (Normal true) => true | _ => false end.

Definition isTelegramKo (e : Event) : bool :=
  match e with
  | TelegramSend _ (Normal true) => false
  | TelegramSend _ _ => true
  | _ => false
  end.

Definition isDiscordOk (e : Event) : bool :=
  match e with DiscordSend _ (Normal true) => true | _ => false end.

Definition isDiscordKo (e : Event) : bool :=
  match e with
  | DiscordSend _ (Normal true) => false
  | DiscordSend _ _ => true
  | _ => false
  end.

Definition isInsertKo (e : Event) : bool :=
  match e with DbQuery (InsertProcessed _ _) (Throw _) => true | _ => false end.

(** An insert that added a record. *)
Definition isInsertNew (e : Event) : bool :=
  match e with
  | DbQuery (InsertProcessed _ _) (Normal (_ :: _)) => true
  | _ => false
  end.

(** Reads the events in order, starting rested or not: a Telegram send needs
    a rested service and tires it, a sleep of a second or more rests it.
    [None] when some Telegram send found the service not rested, otherwise
    whether it is rested at the end. *)
Fixpoint pace (rested : bool) (evs : list Event) : option bool :=
  match evs with
  | [] => Some rested
  | TelegramSend _ _ :: rest => if rested then pace false rest else None
  | Sleep ms :: rest => pace (rested || (1000 <=? ms)%Z) rest
  | _ :: rest => pace rested rest
  end.

Definition paced (evs : list Event) : Prop := is_Some (pace true evs).

(** Events that neither reach a chat with a post, nor pause, nor insert:
    fetches, reads of the table, log lines and alerts. *)
Definition isBookkeeping (e : Event) : bool :=
  match e with
  | FetchRSS _ | LogError _ | DiscordAlert _ _ _ => true
  | DbQuery (InsertProcessed _ _) _ => false
  | DbQuery _ _ => true
  | TelegramSend _ _ | DiscordSend _ _ | Sleep _ => false
  end.

Definition bookkeeping (evs : list Event) : Prop :=
  Forall (fun e => isBookkeeping e = true) evs.

(** Events that are no send of a post and no pause. *)
Definition isSend (e : Event) : bool :=
  match e with
  | TelegramSend _ _ | DiscordSend _ _ | Sleep _ => true
  | _ => false
  end.

Definition sendless (evs : list Event) : Prop :=
  Forall (fun e => isSend e = false) evs.

(** ** Several cycles in a row *)

(** The world after [n] cycles of [poll]. *)
Fixpoint polls (E : Env) (n : nat) (w : World) : World :=
  match n with
  | O => w
  | S k => polls E k (PollRelay.poll E w).2
  end.

(** The service after [n] cycles of [process]. *)
Fixpoint cycles (E : Env) (n : nat) (st : ProcessRelay.State) : ProcessRelay.State :=
  match n with
  | O => st
  | S k => cycles E k (ProcessRelay.process E st).2
  end.

(** The feed stage fails in each of the [n] cycles that start from [st]. *)
Fixpoint fetchKeepsFailing (E : Env) (n : nat) (st : ProcessRelay.State) : Prop :=
  match n with
  | O => True
  | S k => (∃ e, fetchFails E (ProcessRelay.world st) e)
           ∧ fetchKeepsFailing E k (ProcessRelay.process E st).2
  end.

(** [e] is what a stage of a [poll] cycle started in [w] throws: the feed
    stage, the bulk query, or the loop over the new posts. *)
Definition pollFailure (E : Env) (w : World) (e : Thrown) : Prop :=
  (∃ w1, fetchTweets E w = (Throw e, w1))
  ∨ (∃ tweets w1 w2,
       fetchTweets E w = (Normal tweets, w1) ∧ tweets ≠ []
       ∧ TweetRepository.filterExisting E (map tw_id tweets) w1 = (Throw e, w2))
  ∨ (∃ tweets w1 existing w2 w3,
       fetchTweets E w = (Normal tweets, w1)
       ∧ TweetRepository.filterExisting E (map tw_id tweets) w1 = (Normal existing, w2)
       ∧ PollRelay.processAll E (notIn existing tweets) w2 = (Throw e, w3)).

(** ** NitterClient.fetchRSS: the retry loop (clients/nitter-client)

    The numbers of the configuration are finite and hold integers; the client
    talks to the HTTP library only, and [http] gives the outcome of [client.get] from the
    steps made so far. *)

Module NitterClient.

Record RetryConfig : Type := { maxRetries : Z; retryDelayMs : Z }.

(** What [client.get] threw: an [AxiosError] without response, an
    [AxiosError] with the status of its response, or anything else. *)
Inductive Cause : Type :=
| NoResponse
| Status (status : Z)
| NotAxios.

(** [message] is [err.message] for an [Error] and [String(err)] otherwise. *)
Record Failure : Type := { cause : Cause; message : string }.

Inductive GetOutcome : Type :=
| Body (data : string)
| Failed (f : Failure).

Inductive Step : Type :=
| Get (r : GetOutcome)
| Pause (ms : Z).

Definition isRetryableError (f : Failure) : bool :=
  match cause f with
  | NoResponse => true
  | Status s => ((500 <=? s)%Z && (s <? 600)%Z) || (s =? 429)%Z
  | NotAxios => false
  end.

Definition get (http : list Step → GetOutcome) : M (list Step) GetOutcome :=
  fun tr => let r := http tr in (Normal r, tr ++ [Get r]).

Definition pause (ms : Z) : M (list Step) unit :=
  modify (fun tr => tr ++ [Pause ms]).

(** [!response.data || response.data.trim().length === 0] *)
Definition isBlank (data : string) : bool :=
  isEmpty data || (String.length (trim data) =? 0)%nat.

(** The [Error] thrown by the body of the [try] for a blank response. *)
Definition emptyResponse : Failure :=
  {| cause := NotAxios; message := "Empty RSS feed response" |}.

(** The [Error] thrown after the loop; [lastError] is [null] when the loop
    body never ran. *)
Definition giveUp (cfg : RetryConfig) (lastError : option string) : Thrown :=
  ErrorObj ("Failed to fetch RSS after " +:+ numberToString (maxRetries cfg)
            +:+ " attempts: " +:+ default "undefined" lastError).

(** The loop from [attempt] on, with [left] iterations before
    [attempt <= maxRetries] turns false. *)
Fixpoint attempts (http : list Step → GetOutcome) (cfg : RetryConfig)
    (left : nat) (attempt : Z) (lastError : option string)
  : M (list Step) string :=
  match left with
  | O => throw (giveUp cfg lastError)
  | S left' =>
      r <- get http ;;
      let failed (f : Failure) : M (list Step) string :=
        let isRetryable := isRetryableError f in
        let isLastAttempt := (attempt =? maxRetries cfg)%Z in
        if negb isRetryable || isLastAttempt
        then throw (giveUp cfg (Some (message f)))
        else
          pause (retryDelayMs cfg * 2 ^ (attempt - 1)) ;;;
          attempts http cfg left' (attempt + 1) (Some (message f)) in
      match r with
      | Body data => if isBlank data then failed emptyResponse else ret data
      | Failed f => failed f
      end
  end.

Definition fetchRSS (http : list Step → GetOutcome) (cfg : RetryConfig)
  : M (list Step) string :=
  attempts http cfg (Z.to_nat (maxRetries cfg)) 1 None.

(** The steps of a call whose requests ended as [gets], the first of them
    being attempt number [attempt]: a pause between any two requests, doubled
    each time. *)
Fixpoint traceOf (cfg : RetryConfig) (attempt : Z) (gets : list GetOutcome)
  : list Step :=
  match gets with
  | [] => []
  | g :: rest =>
      Get g ::
      match rest with
      | [] => []
      | _ :: _ =>
          Pause (retryDelayMs cfg * 2 ^ (attempt - 1))
            :: traceOf cfg (attempt + 1) rest
      end
  end.

(** A request that the loop follows with another one. *)
Definition retried (g : GetOutcome) : bool :=
  match g with
  | Failed f => isRetryableError f
  | Body _ => false
  end.

(** What the call ends with, from its last request. *)
Definition outcomeOf (cfg : RetryConfig) (gets : list GetOutcome)
  : Completion string :=
  match last gets with
  | None => Throw (giveUp cfg None)
  | Some (Body data) =>
      if isBlank data then Throw (giveUp cfg (Some (message emptyResponse)))
      else Normal data
  | Some (Failed f) => Throw (giveUp cfg (Some (message f)))
  end.

(** What a loop that made the requests [gets] ends with; [lastError] is the
    error it started with. *)
Definition ending (cfg : RetryConfig) (lastError : option string)
    (gets : list GetOutcome) : Completion string :=
  match gets with
  | [] => Throw (giveUp cfg lastError)
  | _ :: _ => outcomeOf cfg gets
  end.

(** The time spent in pauses. *)
Fixpoint waited (steps : list Step) : Z :=
  match steps with
  | [] => 0
  | Pause ms :: rest => ms + waited rest
  | Get _ :: rest => waited rest
  end.

Definition requests (steps : list Step) : list GetOutcome :=
  omap (fun s => match s with Get r => Some r | Pause _ => None end) steps.

End NitterClient.

(** ** TelegramClient (clients/telegram-client) *)

Module TelegramClient.

Definition escapeHtml (text : string) : string :=
  replaceAll ">" "&gt;" (replaceAll "<" "&lt;" (replaceAll "&" "&amp;" text)).

Definition formatMessage (tweet : ParsedTweet) : string :=
  join newline
    [ "<b>Bitcoin Light New Post</b>";
      "";
      escapeHtml (tw_text tweet);
      "";
      "𝕏 : " +:+ escapeHtml (tw_link tweet) ].

(** A call of [bot.telegram.sendMessage] in HTML parse mode; [r] is [None]
    when it resolved and the thrown value when it rejected. *)
Inductive Call : Type :=
| SendMessage (channelId message : string) (r : option Thrown).

(** The bot API: how [sendMessage] ends, given the calls made so far. *)
Definition Api : Type := list Call → string → string → option Thrown.

Definition sendMessage (api : Api) (channelId message : string)
  : M (list Call) unit :=
  fun calls =>
    let r := api calls channelId message in
    (match r with None => Normal tt | Some e => Throw e end,
     calls ++ [SendMessage channelId message r]).

Definition sendTweet (api : Api) (channelId : string) (tweet : ParsedTweet)
  : M (list Call) bool :=
  let message := formatMessage tweet in
  tryCatch
    (sendMessage api channelId message ;;; ret true)
    (fun err => ret false).

(** The escape of one character. *)
Definition escapeChar (c : ascii) : string :=
  if Ascii.eqb c "&" then "&amp;"
  else if Ascii.eqb c "<" then "&lt;"
  else if Ascii.eqb c ">" then "&gt;"
  else String c EmptyString.

End TelegramClient.

(** ** DiscordClient (clients/discord-client)

    Log lines are left out; [api] gives the outcome of the calls into the
    Discord library from the calls made so far. *)

Module DiscordClient.

Inductive ChannelType : Type :=
| GuildText
| OtherType.

Record Channel : Type := { ch_id : string; ch_type : ChannelType }.

Inductive Call : Type :=
| ChannelsFetch (id : string) (r : Completion (option Channel))
| ChannelSend (ch : Channel) (message : string) (r : option Thrown).

Record Api : Type := {
  channelsFetch : list Call → string → Completion (option Channel);
  channelSend : list Call → Channel → string → option Thrown;
  nowIso : list Call → string        (* new Date().toISOString() *)
}.

Record DiscordConfig : Type := {
  channelId : string;
  alertChannelId : option string
}.

(** The fields of the client that change, and the calls it has made. *)
Record State : Type := {
  isReady : bool;
  channel : option Channel;
  calls : list Call
}.

Definition logCall (c : Call) (st : State) : State :=
  {| isReady := isReady st; channel := channel st; calls := calls st ++ [c] |}.

Definition setChannel (ch : option Channel) (st : State) : State :=
  {| isReady := isReady st; channel := ch; calls := calls st |}.

(** The handlers of the [ready] and [disconnect] events, and [close]. *)
Definition onReady (st : State) : State :=
  {| isReady := true; channel := channel st; calls := calls st |}.

Definition onDisconnect (st : State) : State :=
  {| isReady := false; channel := None; calls := calls st |}.

Definition close (st : State) : State :=
  {| isReady := false; channel := None; calls := calls st |}.

Definition fetch (api : Api) (id : string) : M State (option Channel) :=
  fun st =>
    let r := channelsFetch api (calls st) id in
    (r, logCall (ChannelsFetch id r) st).

Definition send (api : Api) (ch : Channel) (message : string) : M State unit :=
  fun st =>
    let r := channelSend api (calls st) ch message in
    (match r with None => Normal tt | Some e => Throw e end,
     logCall (ChannelSend ch message r) st).

Definition isGuildText (ch : Channel) : bool :=
  match ch_type ch with
  | GuildText => true
  | OtherType => false
  end.

Definition fetchChannel (api : Api) (cfg : DiscordConfig) : M State Channel :=
  cached <- gets channel ;;
  match cached with
  | Some ch => ret ch
  | None =>
      tryCatch
        (found <- fetch api (channelId cfg) ;;
         match found with
         | None => throw (ErrorObj ("Channel not found: " +:+ channelId cfg))
         | Some ch =>
             if negb (isGuildText ch)
             then throw (ErrorObj ("Channel is not a text channel: "
                                   +:+ channelId cfg))
             else modify (setChannel (Some ch)) ;;; ret ch
         end)
        (fun err => throw err)
  end.

Definition formatMessage (tweet : ParsedTweet) : string :=
  join newline
    [ "**Bitcoin Light New Post**";
      "";
      tw_text tweet;
      "";
      "𝕏 : " +:+ tw_link tweet ].

Definition sendTweet (api : Api) (cfg : DiscordConfig) (tweet : ParsedTweet)
  : M State bool :=
  ready <- gets isReady ;;
  if negb ready then ret false
  else
    tryCatch
      (ch <- fetchChannel api cfg ;;
       let message := formatMessage tweet in
       send api ch message ;;;
       ret true)
      (fun err => ret false).

(** [!alertChannelId]: undefined or empty. *)
Definition unset (s : option string) : bool :=
  match s with
  | None => true
  | Some v => isEmpty v
  end.

Definition sendAlert (api : Api) (cfg : DiscordConfig) (alertTitle message : string)
  : M State bool :=
  ready <- gets isReady ;;
  if negb ready then ret false
  else if unset (alertChannelId cfg) then ret false
  else
    let alertChannel := default EmptyString (alertChannelId cfg) in
    tryCatch
      (found <- fetch api alertChannel ;;
       match found with
       | None => ret false
       | Some ch =>
           if negb (isGuildText ch) then ret false
           else
             now <- gets (fun st => nowIso api (calls st)) ;;
             let alertMessage :=
               join newline
                 [ "⚠️ **ALERT: BTCLight Nitter Bot**";
                   "";
                   "**" +:+ alertTitle +:+ "**";
                   "";
                   message;
                   "";
                   "🕐 " +:+ now ] in
             send api ch alertMessage ;;;
             ret true
       end)
      (fun err => ret false).

(** The cached channel, if any, is a text channel. *)
Definition cacheOk (st : State) : Prop :=
  ∀ ch, channel st = Some ch → isGuildText ch = true.

(** Every message of [cs] went to a text channel. *)
Definition toTextChannels (cs : list Call) : Prop :=
  ∀ ch msg r, ChannelSend ch msg r ∈ cs → isGuildText ch = true.

End DiscordClient.

(** ** Configuration (config/index)

    [process.env] is the state the functions read; [validUrl] tells whether
    [new URL(url)] accepts a string. *)

Module Config.

(** [parseInt(value, 10)]: white space, a sign, then the digits up to the
    first character that is not one; the result is the double nearest to the
    integer read, and [None] is NaN. *)
Fixpoint digitsValue (acc : Z) (s : string) : Z :=
  match s with
  | String c rest =>
      if isDigit c
      then digitsValue (10 * acc + Z.of_nat (nat_of_ascii c - 48)) rest
      else acc
  | EmptyString => acc
  end.

Definition parseInt10 (s : string) : option Num :=
  let t := trimStart s in
  let '(negative, body) :=
    match t with
    | String "-" rest => (true, rest)
    | String "+" rest => (false, rest)
    | _ => (false, t)
    end in
  if startsWithDigit body
  then Some (toNumber negative (digitsValue 0 body))
  else None.

(** [value.toLowerCase()], which is only compared with ['true']: the letters
    A to Z are lowered, and no other character is lowered into a letter of
    ['true']. *)
Definition lowerChar (c : ascii) : ascii :=
  let n := nat_of_ascii c in
  if ((65 <=? n) && (n <=? 90))%nat then ascii_of_nat (n + 32) else c.

Fixpoint toLowerCase (s : string) : string :=
  match s with
  | EmptyString => EmptyString
  | String c rest => String (lowerChar c) (toLowerCase rest)
  end.

Definition configError (msg : string) : Thrown := ErrorObj msg.

Definition requireEnv (key : string) : M (gmap string string) string :=
  value <- gets (fun env : gmap string string => env !! key) ;;
  match value with
  | None => throw (configError ("Missing required environment variable: " +:+ key))
  | Some v =>
      if isEmpty v
      then throw (configError ("Missing required environment variable: " +:+ key))
      else ret v
  end.

Definition optionalEnv (key defaultValue : string) : M (gmap string string) string :=
  value <- gets (fun env : gmap string string => env !! key) ;;
  match value with
  | Some v => if negb (isEmpty v) then ret v else ret defaultValue
  | None => ret defaultValue
  end.

Definition parseIntEnv (key : string) (defaultValue : Num)
  : M (gmap string string) Num :=
  value <- gets (fun env : gmap string string => env !! key) ;;
  match value with
  | None => ret defaultValue
  | Some v =>
      if isEmpty v then ret defaultValue
      else
        match parseInt10 v with
        | None => throw (configError ("Invalid integer for " +:+ key +:+ ": " +:+ v))
        | Some parsed => ret parsed
        end
  end.

Definition parseBoolEnv (key : string) (defaultValue : bool) : M (gmap string string) bool :=
  value <- gets (fun env : gmap string string => env !! key) ;;
  match value with
  | None => ret defaultValue
  | Some v =>
      if isEmpty v then ret defaultValue
      else ret (String.eqb (toLowerCase v) "true" || String.eqb v "1")
  end.

Definition validateUrl (validUrl : string → bool) (url name : string)
  : M (gmap string string) string :=
  if validUrl url then ret url
  else throw (configError ("Invalid URL for " +:+ name +:+ ": " +:+ url)).

Record NitterConfig : Type := { baseUrl : string; username : string }.

Record DatabaseConfig : Type := {
  connectionString : string;
  poolMax : Num;
  idleTimeoutMs : Num;
  connectionTimeoutMs : Num
}.

Record RetryConfig : Type := { maxRetries : Num; retryDelayMs : Num }.

Record TelegramConfig : Type := { tg_botToken : string; tg_channelId : string }.

Record DiscordSecrets : Type := {
  dc_botToken : string;
  dc_channels : DiscordClient.DiscordConfig
}.

Record LogConfig : Type := { level : string; pretty : bool }.

Record AppConfig : Type := {
  nodeEnv : string;
  nitter : NitterConfig;
  database : DatabaseConfig;
  telegram : TelegramConfig;
  discord : DiscordSecrets;
  cronExpression : string;
  retry : RetryConfig;
  log : LogConfig
}.

Definition loadConfig (validUrl : string → bool) : M (gmap string string) AppConfig :=
  nodeEnv <- optionalEnv "NODE_ENV" "development" ;;
  rawBaseUrl <- requireEnv "NITTER_BASE_URL" ;;
  baseUrl <- validateUrl validUrl rawBaseUrl "NITTER_BASE_URL" ;;
  username <- requireEnv "NITTER_USERNAME" ;;
  connectionString <- requireEnv "DATABASE_URL" ;;
  poolMax <- parseIntEnv "DB_POOL_MAX" (Finite 10) ;;
  idleTimeoutMs <- parseIntEnv "DB_POOL_IDLE_TIMEOUT_MS" (Finite 30000) ;;
  connectionTimeoutMs <- parseIntEnv "DB_CONNECTION_TIMEOUT_MS" (Finite 5000) ;;
  telegramToken <- requireEnv "TELEGRAM_BOT_TOKEN" ;;
  telegramChannel <- requireEnv "TELEGRAM_CHANNEL_ID" ;;
  discordToken <- requireEnv "DISCORD_BOT_TOKEN" ;;
  discordChannel <- requireEnv "DISCORD_CHANNEL_ID" ;;
  alertChannel <- optionalEnv "DISCORD_ALERT_CHANNEL_ID" "" ;;
  cron <- optionalEnv "POLL_CRON_EXPRESSION" "*/10 9-20 * * 1-5" ;;
  maxRetries <- parseIntEnv "MAX_RETRIES" (Finite 3) ;;
  retryDelayMs <- parseIntEnv "RETRY_DELAY_MS" (Finite 1000) ;;
  logLevel <- optionalEnv "LOG_LEVEL" "info" ;;
  logPretty <- parseBoolEnv "LOG_PRETTY" false ;;
  ret {| nodeEnv := nodeEnv;
         nitter := {| baseUrl := baseUrl; username := username |};
         database := {| connectionString := connectionString;
                        poolMax := poolMax;
                        idleTimeoutMs := idleTimeoutMs;
                        connectionTimeoutMs := connectionTimeoutMs |};
         telegram := {| tg_botToken := telegramToken;
                        tg_channelId := telegramChannel |};
         discord := {| dc_botToken := discordToken;
                       dc_channels :=
                         {| DiscordClient.channelId := discordChannel;
                            DiscordClient.alertChannelId := Some alertChannel |} |};
         cronExpression := cron;
         retry := {| maxRetries := maxRetries; retryDelayMs := retryDelayMs |};
         log := {| level := logLevel; pretty := logPretty |} |}.

(** The retry configuration that [main] hands to the Nitter client, when its
    two numbers are finite. *)
Definition clientRetry (cfg : AppConfig) : option NitterClient.RetryConfig :=
  match maxRetries (retry cfg), retryDelayMs (retry cfg) with
  | Finite m, Finite d =>
      Some {| NitterClient.maxRetries := m; NitterClient.retryDelayMs := d |}
  | _, _ => None
  end.

(** The value of a variable that is set and not empty. *)
Definition setting (env : gmap string string) (key : string) : option string :=
  match env !! key with
  | Some v => if isEmpty v then None else Some v
  | None => None
  end.

Definition requiredKeys : list string :=
  [ "NITTER_BASE_URL"; "NITTER_USERNAME"; "DATABASE_URL"; "TELEGRAM_BOT_TOKEN";
    "TELEGRAM_CHANNEL_ID"; "DISCORD_BOT_TOKEN"; "DISCORD_CHANNEL_ID" ].

Definition integerKeys : list string :=
  [ "DB_POOL_MAX"; "DB_POOL_IDLE_TIMEOUT_MS"; "DB_CONNECTION_TIMEOUT_MS";
    "MAX_RETRIES"; "RETRY_DELAY_MS" ].

(** Every required variable is set, the base URL is one, and every integer
    variable that is set starts with a number. *)
Definition wellFormed (validUrl : string → bool) (env : gmap string string) : Prop :=
  Forall (fun k => is_Some (setting env k)) requiredKeys
  ∧ (∀ v, setting env "NITTER_BASE_URL" = Some v → validUrl v = true)
  ∧ Forall (fun k => ∀ v, setting env k = Some v → is_Some (parseInt10 v))
      integerKeys.

(** The messages of the errors that [loadConfig] can throw in [env]. *)
Definition complaint (validUrl : string → bool) (env : gmap string string) (msg : string)
  : Prop :=
  (∃ k, k ∈ requiredKeys ∧ setting env k = None
        ∧ msg = "Missing required environment variable: " +:+ k)
  ∨ (∃ v, setting env "NITTER_BASE_URL" = Some v ∧ validUrl v = false
          ∧ msg = "Invalid URL for NITTER_BASE_URL: " +:+ v)
  ∨ (∃ k v, k ∈ integerKeys ∧ setting env k = Some v ∧ parseInt10 v = None
            ∧ msg = "Invalid integer for " +:+ k +:+ ": " +:+ v).

(** [m] reads the variables through [setting] only, and changes none. *)
Definition readsSettings {A : Type} (m : M (gmap string string) A) : Prop :=
  ∀ env1 env2,
    (∀ key, setting env1 key = setting env2 key) →
    (m env1).1 = (m env2).1 ∧ (m env1).2 = env1 ∧ (m env2).2 = env2.

End Config.

(** ** The entry point (index): one processing cycle

    [relayService] is the polling service; [discordClient] is set before the
    first cycle and never cleared. Lines logged below the error level are
    left out. *)

Module App.

(** The globals [isShuttingDown] and [isProcessing], and the world. *)
Record AppState : Type := {
  shuttingDown : bool;
  isProcessing : bool;
  world : World
}.

Definition withWorld (w : World) (st : AppState) : AppState :=
  {| shuttingDown := shuttingDown st; isProcessing := isProcessing st; world := w |}.

Definition inWorld {A : Type} (m : M World A) : M AppState A :=
  fun st => let '(r, w) := m (world st) in (r, withWorld w st).

Definition setProcessing (b : bool) : M AppState unit :=
  modify (fun st => {| shuttingDown := shuttingDown st; isProcessing := b;
                       world := world st |}).

(** [try { body } finally { fin }] *)
Definition tryFinally {S A : Type} (body : M S A) (fin : M S unit) : M S A :=
  fun s =>
    let '(c, s1) := body s in
    match fin s1 with
    | (Normal _, s2) => (c, s2)
    | (Throw e, s2) => (Throw e, s2)
    end.

(** The message of the alert for a cycle that reported [errors]. *)
Definition errorAlertBody (errors : list string) : string :=
  let errorSummary := join (newline +:+ "• ") (take 5 errors) in
  let moreErrors :=
    if (5 <? length errors)%nat
    then newline +:+ "...and " +:+ pretty (length errors - 5)%nat +:+ " more"
    else EmptyString in
  "Encountered " +:+ pretty (length errors) +:+ " error(s) during processing:"
    +:+ newline +:+ newline +:+ "• " +:+ errorSummary +:+ moreErrors.

(** [err instanceof Error ? err.message : String(err)]; [other] is
    [String(err)] for a thrown value that is no [Error]. *)
Definition unhandledMessage (other : string) (err : Thrown) : string :=
  match err with
  | ErrorObj m => m
  | NonError => other
  end.

Definition runProcessingCycle (E : Env) (other : string) : M AppState unit :=
  busy <- gets isProcessing ;;
  if busy : bool then ret tt
  else
    setProcessing true ;;;
    tryFinally
      (tryCatch
         (result <- inWorld (PollRelay.process E) ;;
          if (0 <? length (errors result))%nat then
            inWorld (sendAlert E "Processing Errors" (errorAlertBody (errors result))) ;;;
            ret tt
          else ret tt)
         (fun err =>
            inWorld (logError "Processing cycle failed with unhandled error") ;;;
            inWorld (sendAlert E "Processing Cycle Failed"
                       ("The bot encountered an unhandled error:" +:+ newline
                        +:+ newline +:+ "```" +:+ newline
                        +:+ unhandledMessage other err +:+ newline +:+ "```")) ;;;
            ret tt))
      (setProcessing false).

(** The callback given to [cron.schedule]. *)
Definition scheduledRun (E : Env) (other : string) : M AppState unit :=
  stopping <- gets shuttingDown ;;
  if stopping : bool then ret tt else runProcessingCycle E other.

(** The Discord client keeps its contract: [sendAlert] resolves. *)
Definition alertsResolve (E : Env) : Prop :=
  ∀ h a b, ∃ r, discordSendAlert E h a b = Normal r.

End App.

(** ** DatabaseService.close *)

(** [close] raises the shutdown flag before it ends the pool. *)
Definition closeDatabase (w : World) : World :=
  {| table := table w; isShuttingDown := true; history := history w |}.

Definition shutdownError : Thrown := ErrorObj "Database is shutting down".

(** No call reached the pool: every database call of [evs] was refused
    because of the shutdown. *)
Definition poolUntouched (evs : list Event) : Prop :=
  ∀ q r, DbQuery q r ∈ evs → r = Throw shutdownError.

(** * Properties *)

#[local] Set Warnings "-clear-no-such-hyp".
Local Arguments String.append : simpl never.

(** ** Basic facts *)

Lemma since_app (h d : list Event) : since h (h ++ d) = d.
Proof. unfold since. by rewrite drop_app_length. Qed.

Lemma since_self (h : list Event) : since h h = [].
Proof. unfold since. by rewrite drop_all. Qed.

Lemma hasId_true (i : string) (t : list TweetRecord) :
  hasId i t = true ↔ i ∈ map rec_id t.
Proof.
  unfold hasId. rewrite existsb_exists, list_elem_of_fmap. split.
  - intros (r & Hin & Hr). apply bool_decide_eq_true in Hr.
    exists r. split; [done | by apply list_elem_of_In].
  - intros (r & -> & Hin). exists r. split; [by apply list_elem_of_In |].
    by apply bool_decide_eq_true.
Qed.

Lemma hasId_false (i : string) (t : list TweetRecord) :
  hasId i t = false ↔ i ∉ map rec_id t.
Proof.
  rewrite <- hasId_true. destruct (hasId i t); split; congruence.
Qed.

Lemma records_absent (i : string) (t : list TweetRecord) :
  i ∉ map rec_id t → records i t = [].
Proof.
  unfold records. induction t as [| r t IH]; [done |].
  intros Hni. simpl in *. rewrite not_elem_of_cons in Hni. destruct Hni as [Hne Hni].
  rewrite bool_decide_eq_false_2 by congruence. by apply IH.
Qed.

Lemma records_app (i : string) (t u : list TweetRecord) :
  records i (t ++ u) = records i t ++ records i u.
Proof. unfold records. apply List.filter_app. Qed.

(** ** The parser on concrete inputs *)

Example extractTweetId_nitter_link :
  RSSParser.extractTweetId
    "http://localhost:8080/NEARMobile_app/status/1234567890123456789#m"
  = Some "1234567890123456789".
Proof. reflexivity. Qed.

Example extractTweetId_no_status :
  RSSParser.extractTweetId "http://localhost:8080/NEARMobile_app" = None.
Proof. reflexivity. Qed.

Example convertToTwitterLink_nitter_link :
  RSSParser.convertToTwitterLink
    "http://localhost:8080/NEARMobile_app/status/1234567890123456789#m"
  = "https://x.com/NEARMobile_app/status/1234567890123456789".
Proof. reflexivity. Qed.

Example cleanTweetText_entities :
  RSSParser.cleanTweetText "  Fees &lt; 1 sat &amp;   rising  " = "Fees < 1 sat & rising".
Proof. reflexivity. Qed.

Example retweets_and_replies_are_dropped :
  let E := Scenario.env [] Scenario.never Scenario.never
             Scenario.delivers Scenario.delivers (Normal true) in
  let item (t : string) :=
    {| title := t; link := "http://localhost:8080/btclight/status/42#m";
       pubDate := "1000"; description := None; guid := None |} in
  RSSParser.rssItemToTweet E (item "RT @someone: hello") = None
  ∧ RSSParser.rssItemToTweet E (item "@someone thanks") = None
  ∧ RSSParser.rssItemToTweet E (item "R @someone thanks") = None
  ∧ RSSParser.rssItemToTweet E (item "hello @someone")
    = Some {| tw_id := "42"; tw_text := "hello @someone";
              tw_link := "https://x.com/btclight/status/42";
              tw_publishedAt := 1000 |}.
Proof. by repeat split. Qed.

Example toTweets_sorts_and_keeps_ties_in_feed_order :
  let E := Scenario.env [] Scenario.never Scenario.never
             Scenario.delivers Scenario.delivers (Normal true) in
  let item (i d : string) :=
    {| title := "post " +:+ i;
       link := "http://localhost:8080/btclight/status/" +:+ i +:+ "#m";
       pubDate := d; description := None; guid := None |} in
  map tw_id
    (RSSParser.toTweets E
       {| items := [item "4" "300"; item "3" "100"; item "2" "200"; item "1" "100"];
          feed_title := None; feed_description := None; lastBuildDate := None |})
  = ["3"; "1"; "2"; "4"].
Proof. reflexivity. Qed.

(** ** The repository *)

(** C10: [filterExisting] of no ids answers the empty set and leaves the
    world as it is: no call of [DatabaseService.query] is made, whatever the
    table holds and whether or not the database could answer. *)
Theorem filterExisting_empty_short_circuit (E : Env) (w : World) :
  TweetRepository.filterExisting E [] w = (Normal ∅, w)
  ∧ since (history w) (history (TweetRepository.filterExisting E [] w).2) = [].
Proof.
  split; [reflexivity |]. simpl. apply since_self.
Qed.

Lemma markAsProcessed_fresh (E : Env) (i : string) (p : Z) (w : World) :
  isShuttingDown w = false → poolQuery E (history w) (InsertProcessed i p) = None →
  i ∉ storedIds w →
  TweetRepository.markAsProcessed E i p w =
    (Normal true,
     emit [DbQuery (InsertProcessed i p) (Normal [RowId i])]
       (setTable (table w ++ [{| rec_id := i; published_at := p;
                                 created_at := pgNow E (history w) |}]) w)).
Proof.
  intros Hs Hp Hi. apply hasId_false in Hi.
  unfold TweetRepository.markAsProcessed, tryCatch, bind, query.
  rewrite Hs, Hp. simpl. by rewrite Hi.
Qed.

Lemma markAsProcessed_present (E : Env) (i : string) (p : Z) (w : World) :
  isShuttingDown w = false → poolQuery E (history w) (InsertProcessed i p) = None →
  i ∈ storedIds w →
  TweetRepository.markAsProcessed E i p w =
    (Normal false, emit [DbQuery (InsertProcessed i p) (Normal [])] (setTable (table w) w)).
Proof.
  intros Hs Hp Hi. apply hasId_true in Hi.
  unfold TweetRepository.markAsProcessed, tryCatch, bind, query.
  rewrite Hs, Hp. simpl. by rewrite Hi.
Qed.

(** C9: starting from a table without [i], with the database answering, the
    first [markAsProcessed] of [i] returns true, the second returns false
    without throwing and without touching the table, and the table then holds
    exactly one record for [i]. *)
Theorem markAsProcessed_idempotent (E : Env) (i : string) (p1 p2 : Z) (w : World) :
  isShuttingDown w = false → poolUp E → i ∉ storedIds w →
  let '(r1, w1) := TweetRepository.markAsProcessed E i p1 w in
  let '(r2, w2) := TweetRepository.markAsProcessed E i p2 w1 in
  r1 = Normal true ∧ r2 = Normal false ∧ table w2 = table w1
  ∧ length (records i (table w2)) = 1%nat.
Proof.
  intros Hs Hp Hi.
  rewrite (markAsProcessed_fresh E i p1 w Hs (Hp _ _) Hi).
  rewrite markAsProcessed_present; [| done | apply Hp |].
  - simpl. repeat split; try done.
    rewrite records_app, (records_absent i (table w) Hi). simpl.
    by rewrite bool_decide_eq_true_2.
  - unfold storedIds. simpl. rewrite map_app. set_solver.
Qed.

Lemma markAsProcessed_idempotent_witness :
  let E := Scenario.env [] Scenario.never Scenario.never
             Scenario.delivers Scenario.delivers (Normal true) in
  let w := Scenario.worldWith ["3"] in
  (isShuttingDown w = false ∧ poolUp E ∧ "7" ∉ storedIds w)
  ∧ (let '(r1, w1) := TweetRepository.markAsProcessed E "7" 100 w in
     let '(r2, w2) := TweetRepository.markAsProcessed E "7" 200 w1 in
     r1 = Normal true ∧ r2 = Normal false ∧ table w2 = table w1
     ∧ length (records "7" (table w2)) = 1%nat).
Proof.
  assert (poolUp (Scenario.env [] Scenario.never Scenario.never
                    Scenario.delivers Scenario.delivers (Normal true))) as Hup.
  { intros h q. reflexivity. }
  assert ("7" ∉ storedIds (Scenario.worldWith ["3"])) as Hfresh.
  { intros Hin. apply list_elem_of_singleton in Hin. discriminate. }
  split; [split; [reflexivity | split; [exact Hup | exact Hfresh]] |].
  exact (markAsProcessed_idempotent
           (Scenario.env [] Scenario.never Scenario.never
              Scenario.delivers Scenario.delivers (Normal true))
           "7" 100 200 (Scenario.worldWith ["3"]) eq_refl Hup Hfresh).
Defined.


(** ** Observations distribute over concatenation *)

Lemma telegramSends_app (a b : list Event) :
  telegramSends (a ++ b) = telegramSends a ++ telegramSends b.
Proof. apply omap_app. Qed.

Lemma discordSends_app (a b : list Event) :
  discordSends (a ++ b) = discordSends a ++ discordSends b.
Proof. apply omap_app. Qed.

Lemma writeAttempts_app (a b : list Event) :
  writeAttempts (a ++ b) = writeAttempts a ++ writeAttempts b.
Proof. apply omap_app. Qed.

Lemma alertCalls_app (a b : list Event) :
  alertCalls (a ++ b) = (alertCalls a + alertCalls b)%nat.
Proof. unfold alertCalls. by rewrite List.filter_app, length_app. Qed.

Lemma quiet_nil : quiet [].
Proof. by repeat split. Qed.

Lemma quiet_app (a b : list Event) : quiet a → quiet b → quiet (a ++ b).
Proof.
  intros (Ha1 & Ha2 & Ha3 & Ha4) (Hb1 & Hb2 & Hb3 & Hb4). unfold quiet.
  rewrite telegramSends_app, discordSends_app, writeAttempts_app, alertCalls_app.
  rewrite Ha1, Ha2, Ha3, Ha4, Hb1, Hb2, Hb3, Hb4. by repeat split.
Qed.

(** ** Fetching and the bulk existence query *)

Lemma parse_spec (E : Env) (xml : string) (w : World) :
  (∃ feed, RSSParser.parse E xml w = (Normal feed, w))
  ∨ (∃ e, RSSParser.parse E xml w = (Throw e, emit [LogError "Failed to parse RSS XML"] w)).
Proof.
  unfold RSSParser.parse.
  destruct (isEmpty xml || (String.length (trim xml) =? 0)%nat); [left; by eexists |].
  destruct (xmlParser E xml) as [parsed | e].
  - destruct (rss_channel parsed); left; by eexists.
  - right. by eexists.
Qed.

Lemma fetchTweets_spec (E : Env) (w : World) :
  ∃ d, history (fetchTweets E w).2 = history w ++ FetchRSS (nitterFetch E (history w)) :: d
       ∧ quiet d
       ∧ table (fetchTweets E w).2 = table w
       ∧ isShuttingDown (fetchTweets E w).2 = isShuttingDown w.
Proof.
  unfold fetchTweets, fetchRSS. unfold_monad.
  destruct (nitterFetch E (history w)) as [xml | e]; simpl.
  - destruct (parse_spec E xml (emit [FetchRSS (Normal xml)] w)) as [[feed ->] | [e ->]]; simpl.
    + exists []. by repeat split.
    + exists [LogError "Failed to parse RSS XML"]. rewrite <- app_assoc. by repeat split.
  - exists []. by repeat split.
Qed.

Lemma elem_of_filter_rows (ids : list string) (t : list TweetRecord) (i : string) :
  i ∈ omap rowId (map (fun r => RowId (rec_id r))
                    (List.filter (fun r => bool_decide (rec_id r ∈ ids)) t))
  ↔ i ∈ ids ∧ i ∈ map rec_id t.
Proof.
  induction t as [| r t IH]; simpl.
  - set_solver.
  - destruct (bool_decide (rec_id r ∈ ids)) eqn:Hb; simpl.
    + apply bool_decide_eq_true in Hb. rewrite !elem_of_cons, IH. naive_solver.
    + apply bool_decide_eq_false in Hb. rewrite !elem_of_cons, IH. naive_solver.
Qed.

Lemma filterExisting_outcomes (E : Env) (ids : list string) (w : World) :
  ids ≠ [] →
  let q := SelectIdIn ids in
  (∃ ex rows, TweetRepository.filterExisting E ids w
              = (Normal ex, emit [DbQuery q (Normal rows)] (setTable (table w) w))
              ∧ isShuttingDown w = false ∧ poolQuery E (history w) q = None
              ∧ ∀ i, i ∈ ex ↔ i ∈ ids ∧ i ∈ storedIds w)
  ∨ (∃ e logs, TweetRepository.filterExisting E ids w
               = (Throw e, emit (DbQuery q (Throw e) :: logs) w)
               ∧ quiet logs
               ∧ (isShuttingDown w = true ∨ poolQuery E (history w) q = Some e)).
Proof.
  intros Hne q. unfold TweetRepository.filterExisting.
  destruct ids as [| i0 ids']; [done |].
  change ((length (i0 :: ids') =? 0)%nat) with false. cbv iota.
  unfold bind, ret, query. subst q.
  destruct (isShuttingDown w) eqn:Hs.
  - right. eexists _, []. split; [reflexivity |]. split; [apply quiet_nil | by left].
  - destruct (poolQuery E (history w) (SelectIdIn (i0 :: ids'))) as [e |] eqn:Hp.
    + right. eexists _, [_]. split; [reflexivity |]. split; [by repeat split | by right].
    + left. simpl. eexists _, _. split; [reflexivity |].
      split; [done |]. split; [done |].
      intros i. rewrite elem_of_list_to_set. apply elem_of_filter_rows.
Qed.

(** ** The service with the failure streak *)

Import ProcessRelay.

Lemma processSingleTweet_spec (E : Env) (t : ParsedTweet) (st : State) :
  ∃ st' d,
    processSingleTweet E t st = (Normal tt, st')
    ∧ consecutiveFailures st' = consecutiveFailures st
    ∧ alertSent st' = alertSent st
    ∧ isShuttingDown (world st') = isShuttingDown (world st)
    ∧ history (world st') = history (world st) ++ d
    ∧ telegramSends d = [t] ∧ discordSends d = [t] ∧ alertCalls d = 0%nat
    ∧ (tw_id t ∈ writeAttempts d ↔ sinkOk d t)
    ∧ (¬ sinkOk d t → table (world st') = table (world st))
    ∧ (∀ e, DbQuery (InsertProcessed (tw_id t) (tw_publishedAt t)) (Throw e) ∈ d →
            ("DB error for tweet " +:+ tw_id t +:+ ": " +:+ errorMessage e)
              ∈ errors (result st')
            ∧ sinkOk d t)
    ∧ (∀ rows, DbQuery (InsertProcessed (tw_id t) (tw_publishedAt t)) (Normal rows) ∈ d →
            tw_id t ∈ storedIds (world st'))
    ∧ (∀ i r, DbQuery (SelectExists i) r ∉ d).
Proof.
  unfold processSingleTweet, TweetRepository.markAsProcessed, query,
    telegramSend, discordSend, sleep, logError.
  unfold_monad. simpl.
  repeat (oracle; simpl).
  all: eexists; eexists; split; [reflexivity |]; simpl.
  all: repeat rewrite <- app_assoc; simpl.
  all: do 9 (split; [first [reflexivity | unfold sinkOk; simpl; set_solver] |]).
  all: split; [unfold sinkOk; simpl; set_solver |].
  all: split; [| intros i r Hin; set_solver].
  all: intros rows Hin; unfold storedIds; simpl.
  all: first [ by apply hasId_true
             | rewrite map_app; simpl; set_solver
             | exfalso; set_solver ].
Qed.

Lemma onFailure_spec (E : Env) (err : Thrown) (st : State) :
  ∃ st' d,
    onFailure E err st = (Normal (pushError (errorMessage err) (result st)), st')
    ∧ result st' = pushError (errorMessage err) (result st)
    ∧ consecutiveFailures st' = S (consecutiveFailures st)
    ∧ alertSent st'
      = (alertSent st || (FAILURE_THRESHOLD <=? S (consecutiveFailures st))%nat)
    ∧ table (world st') = table (world st)
    ∧ isShuttingDown (world st') = isShuttingDown (world st)
    ∧ history (world st') = history (world st) ++ d
    ∧ telegramSends d = [] ∧ discordSends d = [] ∧ writeAttempts d = []
    ∧ alertCalls d
      = (if (FAILURE_THRESHOLD <=? S (consecutiveFailures st))%nat
            && negb (alertSent st) then 1 else 0)%nat.
Proof.
  unfold onFailure, sendNitterFailureAlert, sendAlert, logError.
  unfold_monad. destruct st as [w [| [| n]] [|] r]; simpl.
  all: try oracle; simpl.
  all: eexists; eexists; split; [reflexivity |]; simpl.
  all: repeat rewrite <- app_assoc; simpl.
  all: repeat split; try reflexivity; try done.
Qed.

Lemma process_eq (E : Env) (st : State) :
  process E st =
  let st0 := withResult emptyResult st in
  match fetchTweets E (world st) with
  | (Throw e, w1) => onFailure E e (withWorld w1 st0)
  | (Normal tweets, w1) =>
      let st1 := withResult (setTotalFetched (length tweets) emptyResult)
                   (withWorld w1 st0) in
      if (length tweets =? 0)%nat then (Normal (result st1), st1)
      else
        match TweetRepository.filterExisting E (map tw_id tweets) w1 with
        | (Throw e, w2) => onFailure E e (withWorld w2 st1)
        | (Normal existing, w2) =>
            let fresh := notIn existing tweets in
            let st2 := withResult (setNewTweets (length fresh) (result st1))
                         (withWorld w2 st1) in
            if (length fresh =? 0)%nat then (Normal (result st2), st2)
            else
              match dispatch E existing fresh st2 with
              | (Throw e, st3) => onFailure E e st3
              | (Normal _, st3) =>
                  (Normal (result st3), resetStreak st3)
              end
        end
  end.
Proof.
  unfold process, fetchTweets, fetchRSS. unfold_monad. simpl.
  destruct (nitterFetch E (history (world st))) as [xml | e]; simpl; [| reflexivity].
  destruct (parse_spec E xml (emit [FetchRSS (Normal xml)] (world st)))
    as [[feed ->] | [e ->]]; simpl; [| reflexivity].
  destruct (length (RSSParser.toTweets E feed) =? 0)%nat eqn:Hn; [reflexivity |].
  destruct (TweetRepository.filterExisting E _ _) as [[existing | e] w2]; simpl;
    [| reflexivity].
  destruct (length (notIn existing (RSSParser.toTweets E feed)) =? 0)%nat eqn:Hf;
    [reflexivity |].
  unfold dispatch. unfold_monad. simpl.
  match goal with
  | |- context [if ?c then _ else _] => destruct c eqn:Hfirst
  end.
  - destruct (notIn existing (RSSParser.toTweets E feed)) as [| latest older]; simpl.
    + unfold resetStreak, withStreak. simpl. by destruct (0 <? consecutiveFailures st)%nat.
    + destruct (forEach older _ _) as [[[] | e] st3]; simpl; [| reflexivity].
      destruct (processSingleTweet E latest st3) as [[[] | e] st4]; simpl; [| reflexivity].
      unfold resetStreak, withStreak. simpl. by destruct (0 <? consecutiveFailures st4)%nat.
  - destruct (forEach _ _ _) as [[[] | e] st3]; simpl; [| reflexivity].
    unfold resetStreak, withStreak. simpl. by destruct (0 <? consecutiveFailures st3)%nat.
Qed.

(** ** Sorting by publication time *)

Lemma insertByTime_Permutation (t : ParsedTweet) (l : list ParsedTweet) :
  RSSParser.insertByTime t l ≡ₚ t :: l.
Proof.
  induction l as [| u l IH]; simpl; [done |].
  destruct (tw_publishedAt t <=? tw_publishedAt u)%Z; [done |].
  rewrite IH. apply Permutation_swap.
Qed.

Lemma sortByTime_Permutation (l : list ParsedTweet) : RSSParser.sortByTime l ≡ₚ l.
Proof.
  induction l as [| t l IH]; simpl; [done |].
  by rewrite insertByTime_Permutation, IH.
Qed.

Lemma insertByTime_sorted (t : ParsedTweet) (l : list ParsedTweet) :
  StronglySorted notNewer l → StronglySorted notNewer (RSSParser.insertByTime t l).
Proof.
  induction l as [| u l IH]; intros Hs; simpl.
  - repeat constructor.
  - apply StronglySorted_inv in Hs as [Hl Hu].
    destruct (tw_publishedAt t <=? tw_publishedAt u)%Z eqn:Hle.
    + apply Z.leb_le in Hle. constructor; [by constructor |].
      constructor; [done |].
      eapply Forall_impl; [exact Hu |]. unfold notNewer in *. intros v Hv. simpl in *. lia.
    + apply Z.leb_gt in Hle. constructor; [by apply IH |].
      rewrite insertByTime_Permutation. constructor; [| done].
      unfold notNewer. lia.
Qed.

Lemma sortByTime_sorted (l : list ParsedTweet) :
  StronglySorted notNewer (RSSParser.sortByTime l).
Proof.
  induction l as [| t l IH]; simpl; [constructor |]. by apply insertByTime_sorted.
Qed.

Lemma sorted_sublist (k l : list ParsedTweet) :
  k `sublist_of` l → StronglySorted notNewer l → StronglySorted notNewer k.
Proof.
  induction 1 as [| x k l Hsub IH | x k l Hsub IH]; intros Hs.
  - constructor.
  - apply StronglySorted_inv in Hs as [Hl Hx]. constructor; [by apply IH |].
    rewrite Forall_forall in *. intros y Hy. apply Hx.
    eapply elem_of_sublist; [exact Hy | exact Hsub].
  - apply StronglySorted_inv in Hs as [Hl _]. by apply IH.
Qed.

Lemma notIn_sublist (ex : gset string) (l : list ParsedTweet) :
  notIn ex l `sublist_of` l.
Proof.
  unfold notIn. induction l as [| t l IH]; simpl; [constructor |].
  destruct (negb _); by constructor.
Qed.

(** ** The service with the existence recheck *)

Lemma rechecked_quiet (p : option Event) (d : list Event) :
  telegramSends d = [] → discordSends d = [] → rechecked p d.
Proof.
  revert p. induction d as [| e d IH]; intros p Ht Hd; simpl; [done |].
  destruct e; simpl in *; try discriminate; split; try done; by apply IH.
Qed.

Lemma rechecked_any (p : option Event) (d : list Event) :
  rechecked None d → rechecked p d.
Proof.
  destruct d as [| e d]; simpl; [done |].
  intros [He Hd]. split; [| done].
  destruct e; try done. by destruct He.
Qed.

Lemma rechecked_app (p : option Event) (a b : list Event) :
  rechecked p a → rechecked None b → rechecked p (a ++ b).
Proof.
  revert p. induction a as [| e a IH]; intros p Ha Hb; simpl in *.
  - by apply rechecked_any.
  - destruct Ha as [He Ha]. split; [done |]. by apply IH.
Qed.

Import PollRelay.

Lemma processTweet_spec (E : Env) (t : ParsedTweet) (w : World) :
  ∃ c w' qr rest,
    processTweet E t w = (c, w')
    ∧ history w' = history w ++ DbQuery (SelectExists (tw_id t)) qr :: rest
    ∧ isShuttingDown w' = isShuttingDown w
    ∧ alertCalls rest = 0%nat
    ∧ rechecked None (DbQuery (SelectExists (tw_id t)) qr :: rest)
    ∧ telegramSends rest `sublist_of` [t]
    ∧ (∀ rows, qr = Normal rows → rows ≠ [] →
         c = Normal {| tweetId := tw_id t; telegram := false; discord := false;
                       dbSaved := false; skipped := true; error := None |}
         ∧ rest = [] ∧ table w' = table w)
    ∧ (sinksResolve E →
         (tw_id t ∈ writeAttempts rest ↔ sinkOk rest t)
         ∧ (¬ sinkOk rest t → table w' = table w)
         ∧ (∀ e, DbQuery (InsertProcessed (tw_id t) (tw_publishedAt t)) (Throw e)
                   ∈ rest →
              (∃ r, c = Normal r ∧ dbSaved r = false ∧ skipped r = false)
              ∧ LogError "Failed to save tweet to database" ∈ rest
              ∧ sinkOk rest t)
         ∧ (∀ rows, DbQuery (InsertProcessed (tw_id t) (tw_publishedAt t))
                      (Normal rows) ∈ rest →
              tw_id t ∈ storedIds w')).
Proof.
  unfold processTweet, TweetRepository.exists_, TweetRepository.markAsProcessed,
    query, telegramSend, discordSend, logError.
  unfold_monad. simpl.
  repeat (oracle; simpl).
  all: do 4 eexists; split; [reflexivity |]; simpl.
  all: repeat rewrite <- app_assoc; simpl.
  all: split; [reflexivity |].
  all: split; [simpl; congruence |].
  all: split; [reflexivity |].
  all: split; [repeat split; eauto |].
  all: split; [repeat constructor |].
  all: split; [intros rows Hr Hne; try discriminate;
               try (by inversion Hr; subst); by repeat split |].
  all: intros Hres; try contradict_sinks Hres.
  all: unfold sinkOk; simpl.
  all: do 3 (split; [try set_solver |]).
  all: try (by repeat split; eauto; set_solver).
  all: intros rows Hin; unfold storedIds; simpl.
  all: first [ by apply hasId_true
             | rewrite map_app; simpl; set_solver
             | exfalso; set_solver ].
Qed.

Lemma processAll_spec (E : Env) (tweets : list ParsedTweet) (w : World) :
  ∃ c w' d, processAll E tweets w = (c, w')
            ∧ history w' = history w ++ d
            ∧ rechecked None d
            ∧ telegramSends d `sublist_of` tweets
            ∧ alertCalls d = 0%nat
            ∧ isShuttingDown w' = isShuttingDown w.
Proof.
  revert w. induction tweets as [| t rest IH]; intros w; simpl.
  - exists (Normal []), w, []. rewrite app_nil_r. by repeat split.
  - unfold bind at 1.
    destruct (processTweet_spec E t w)
      as (c & w1 & qr & d1 & -> & Hh & Hs & Ha & Hr & Hsub & _).
    change (telegramSends d1)
      with (telegramSends (DbQuery (SelectExists (tw_id t)) qr :: d1)) in Hsub.
    change (alertCalls d1)
      with (alertCalls (DbQuery (SelectExists (tw_id t)) qr :: d1)) in Ha.
    revert Hh Ha Hr Hsub. generalize (DbQuery (SelectExists (tw_id t)) qr :: d1).
    clear d1. intros d1 Hh Ha Hr Hsub.
    destruct c as [r | e]; simpl.
    + unfold bind at 1.
      set (pause := if (0 <? length rest)%nat then sleep 1000 else ret tt).
      assert (∃ p, pause w1 = (Normal tt, emit p w1) ∧ quiet p) as (p & -> & Hp).
      { subst pause. destruct (0 <? length rest)%nat.
        - exists [Sleep 1000]. by repeat split.
        - exists []. unfold ret, emit. simpl. rewrite app_nil_r. split; [by destruct w1 |].
          apply quiet_nil. }
      destruct Hp as (Hp1 & Hp2 & _ & Hp4).
      destruct (IH (emit p w1)) as (c2 & w2 & d2 & Hrun & Hh2 & Hr2 & Hsub2 & Ha2 & Hs2).
      unfold bind, ret. rewrite Hrun. simpl in *.
      exists (match c2 with Normal rs => Normal (r :: rs) | Throw e => Throw e end),
        w2, (d1 ++ p ++ d2).
      split; [by destruct c2 |].
      rewrite Hh2, Hh, <- !app_assoc. split; [done |].
      split; [apply rechecked_app; [done |];
              apply rechecked_app; [by apply rechecked_quiet | done] |].
      rewrite !telegramSends_app, !alertCalls_app, Hp1, Hp4, Ha, Ha2. simpl.
      split; [| split; [done | congruence]].
      change (t :: rest) with ([t] ++ rest). by apply sublist_app.
    + exists (Throw e), w1, d1. repeat split; try done.
      by apply (sublist_inserts_r rest) in Hsub.
Qed.

Lemma poll_eq (E : Env) (w : World) :
  poll E w =
  match fetchTweets E w with
  | (Throw e, w1) => aborted e w1
  | (Normal tweets, w1) =>
      if (length tweets =? 0)%nat then
        (Normal {| success := true; tweetsFound := 0; tweetsProcessed := 0;
                   results := []; pollError := None |}, w1)
      else
        match TweetRepository.filterExisting E (map tw_id tweets) w1 with
        | (Throw e, w2) => aborted e w2
        | (Normal existing, w2) =>
            let fresh := notIn existing tweets in
            if (length fresh =? 0)%nat then
              (Normal {| success := true; tweetsFound := length tweets;
                         tweetsProcessed := 0; results := []; pollError := None |},
               w2)
            else
              match processAll E fresh w2 with
              | (Throw e, w3) => aborted e w3
              | (Normal rs, w3) =>
                  (Normal {| success := true; tweetsFound := length tweets;
                             tweetsProcessed := length (List.filter dbSaved rs);
                             results := rs; pollError := None |}, w3)
              end
        end
  end.
Proof.
  unfold poll, fetchTweets, fetchRSS, aborted, logError. unfold_monad. simpl.
  destruct (nitterFetch E (history w)) as [xml | e]; simpl; [| reflexivity].
  destruct (parse_spec E xml (emit [FetchRSS (Normal xml)] w))
    as [[feed ->] | [e ->]]; simpl; [| reflexivity].
  destruct (length (RSSParser.toTweets E feed) =? 0)%nat eqn:Hn; [reflexivity |].
  destruct (TweetRepository.filterExisting E _ _) as [[existing | e] w2]; simpl;
    [| reflexivity].
  destruct (length (notIn existing (RSSParser.toTweets E feed)) =? 0)%nat eqn:Hf;
    [reflexivity |].
  by destruct (processAll E _ w2) as [[rs | e] w3].
Qed.

(** ** Whole cycles of the service with the failure streak *)

Lemma forEach_processSingleTweet (E : Env) (tweets : list ParsedTweet) (st : State) :
  ∃ st' d,
    forEach tweets (processSingleTweet E) st = (Normal tt, st')
    ∧ consecutiveFailures st' = consecutiveFailures st
    ∧ alertSent st' = alertSent st
    ∧ history (world st') = history (world st) ++ d
    ∧ telegramSends d = tweets ∧ discordSends d = tweets ∧ alertCalls d = 0%nat.
Proof.
  revert st. induction tweets as [| t rest IH]; intros st; simpl.
  - exists st, []. rewrite app_nil_r. by repeat split.
  - destruct (processSingleTweet_spec E t st)
      as (st1 & d1 & Hrun & Hc & Ha & _ & Hh & Ht & Hd & Hal & _).
    destruct (IH st1) as (st2 & d2 & Hrun2 & Hc2 & Ha2 & Hh2 & Ht2 & Hd2 & Hal2).
    exists st2, (d1 ++ d2). unfold bind. rewrite Hrun, Hrun2.
    rewrite telegramSends_app, discordSends_app, alertCalls_app.
    rewrite Ht, Ht2, Hd, Hd2, Hal, Hal2, Hh2, Hh, <- app_assoc.
    repeat split; congruence.
Qed.

Lemma forEach_markAsProcessed (E : Env) (tweets : list ParsedTweet) (st : State) :
  ∃ c st' d,
    forEach tweets
      (fun tweet =>
         inWorld (TweetRepository.markAsProcessed E (tw_id tweet) (tw_publishedAt tweet)) ;;;
         ret tt) st = (c, st')
    ∧ consecutiveFailures st' = consecutiveFailures st
    ∧ alertSent st' = alertSent st
    ∧ result st' = result st
    ∧ history (world st') = history (world st) ++ d
    ∧ telegramSends d = [] ∧ discordSends d = [] ∧ alertCalls d = 0%nat.
Proof.
  revert st. induction tweets as [| t rest IH]; intros st; simpl.
  - exists (Normal tt), st, []. rewrite app_nil_r. by repeat split.
  - assert (∃ c1 st1 d1,
      (inWorld (TweetRepository.markAsProcessed E (tw_id t) (tw_publishedAt t)) ;;;
       ret tt) st = (c1, st1)
      ∧ consecutiveFailures st1 = consecutiveFailures st
      ∧ alertSent st1 = alertSent st ∧ result st1 = result st
      ∧ history (world st1) = history (world st) ++ d1
      ∧ telegramSends d1 = [] ∧ discordSends d1 = [] ∧ alertCalls d1 = 0%nat)
      as (c1 & st1 & d1 & Hrun & Hc & Ha & Hres & Hh & Ht & Hd & Hal).
    { unfold TweetRepository.markAsProcessed, query. unfold_monad. simpl.
      repeat (oracle; simpl).
      all: do 3 eexists; split; [reflexivity |]; simpl.
      all: repeat rewrite <- app_assoc; by repeat split. }
    unfold bind at 1. rewrite Hrun. destruct c1 as [[] | e].
    + destruct (IH st1) as (c2 & st2 & d2 & Hrun2 & Hc2 & Ha2 & Hres2 & Hh2 & Ht2 & Hd2 & Hal2).
      exists c2, st2, (d1 ++ d2). rewrite Hrun2.
      rewrite telegramSends_app, discordSends_app, alertCalls_app.
      rewrite Ht, Ht2, Hd, Hd2, Hal, Hal2, Hh2, Hh, <- app_assoc.
      repeat split; congruence.
    + exists (Throw e), st1, d1. by repeat split.
Qed.

Lemma dispatch_normal (E : Env) (existing : gset string)
    (fresh : list ParsedTweet) (st : State) :
  existing ≠ ∅ ∨ (length fresh ≤ 1)%nat →
  dispatch E existing fresh st = forEach fresh (processSingleTweet E) st.
Proof.
  intros Hn. unfold dispatch. unfold_monad.
  assert (((size existing =? 0)%nat
           && (length fresh =? totalFetched (result st))%nat
           && (1 <? length fresh)%nat) = false) as ->; [| done].
  destruct Hn as [Hne | Hle].
  - assert ((size existing =? 0)%nat = false) as ->; [| done].
    apply Nat.eqb_neq. intros Hz. by apply size_empty_inv, leibniz_equiv in Hz.
  - assert ((1 <? length fresh)%nat = false) as ->.
    { apply Nat.ltb_ge. lia. }
    by rewrite andb_false_r.
Qed.

Lemma dispatch_spec (E : Env) (existing : gset string)
    (fresh : list ParsedTweet) (st : State) :
  ∃ c st' d,
    dispatch E existing fresh st = (c, st')
    ∧ history (world st') = history (world st) ++ d
    ∧ telegramSends d `sublist_of` fresh
    ∧ alertCalls d = 0%nat.
Proof.
  unfold dispatch. unfold_monad.
  match goal with
  | |- context [if ?c then _ else _] => destruct c
  end.
  - destruct fresh as [| latest older].
    + exists (Normal tt), st, []. rewrite app_nil_r. by repeat split.
    + destruct (forEach_markAsProcessed E older st)
        as (c1 & st1 & d1 & Hrun & _ & _ & _ & Hh & Ht & _ & Hal).
      unfold bind, ret, ProcessRelay.inWorld in Hrun. rewrite Hrun.
      destruct c1 as [[] | e].
      * destruct (processSingleTweet_spec E latest st1)
          as (st2 & d2 & Hrun2 & _ & _ & _ & Hh2 & Ht2 & _ & Hal2 & _).
        rewrite Hrun2. simpl. do 2 eexists. exists (d1 ++ d2).
        split; [reflexivity |]. simpl.
        rewrite telegramSends_app, alertCalls_app, Ht, Ht2, Hal, Hal2, Hh2, Hh, <- app_assoc.
        repeat split; try done. simpl.
        apply sublist_skip. apply sublist_nil_l.
      * exists (Throw e), st1, d1. rewrite Ht. repeat split; try done.
        apply sublist_nil_l.
  - destruct (forEach_processSingleTweet E fresh st)
      as (st1 & d1 & Hrun & _ & _ & Hh & Ht & _ & Hal).
    exists (Normal tt), st1, d1. rewrite Ht. by repeat split.
Qed.

(** ** Histories of whole cycles *)

Lemma fetchTweets_outcome (E : Env) (w : World) :
  ∃ c w1 d,
    fetchTweets E w = (c, w1)
    ∧ history w1 = history w ++ FetchRSS (nitterFetch E (history w)) :: d
    ∧ quiet d
    ∧ table w1 = table w
    ∧ isShuttingDown w1 = isShuttingDown w
    ∧ (∀ tweets, c = Normal tweets → StronglySorted notNewer tweets).
Proof.
  destruct (fetchTweets_spec E w) as (d & Hh & Hq & Ht & Hs).
  destruct (fetchTweets E w) as [c w1] eqn:Hrun. simpl in *.
  exists c, w1, d. repeat split; try done; try apply Hq.
  intros tweets ->. unfold fetchTweets, fetchRSS in Hrun. unfold_monad.
  destruct (nitterFetch E (history w)) as [xml | e]; [| discriminate].
  destruct (RSSParser.parse E xml _) as [[feed | e] w2]; [| discriminate].
  inversion Hrun; subst. apply sortByTime_sorted.
Qed.

Lemma filterExisting_quiet (E : Env) (ids : list string) (w : World) :
  ∃ c w' d,
    TweetRepository.filterExisting E ids w = (c, w')
    ∧ history w' = history w ++ d
    ∧ quiet d
    ∧ table w' = table w
    ∧ isShuttingDown w' = isShuttingDown w.
Proof.
  destruct ids as [| i ids'].
  - exists (Normal ∅), w, []. rewrite app_nil_r. repeat split; try done.
  - destruct (filterExisting_outcomes E (i :: ids') w) as
      [(ex & rows & -> & _) | (e & logs & -> & Hq & _)]; [done | |].
    + do 2 eexists. exists [DbQuery (SelectIdIn (i :: ids')) (Normal rows)].
      by repeat split.
    + do 2 eexists. exists (DbQuery (SelectIdIn (i :: ids')) (Throw e) :: logs).
      repeat split; try done; apply Hq.
Qed.

Lemma resetStreak_world (st : State) : world (resetStreak st) = world st.
Proof. unfold resetStreak. by destruct (0 <? consecutiveFailures st)%nat. Qed.

Lemma process_history (E : Env) (st : State) :
  ∃ r st' d,
    ProcessRelay.process E st = (Normal r, st')
    ∧ history (world st') = history (world st) ++ d
    ∧ StronglySorted notNewer (telegramSends d).
Proof.
  rewrite process_eq.
  destruct (fetchTweets_outcome E (world st))
    as (c & w1 & d1 & -> & Hh1 & (Hq1 & _) & _ & _ & Hsorted).
  cbv zeta. destruct c as [tweets | e].
  - destruct (length tweets =? 0)%nat.
    { do 2 eexists. eexists (_ :: d1). split; [reflexivity |]. split; [exact Hh1 |].
      simpl. rewrite Hq1. constructor. }
    destruct (filterExisting_quiet E (map tw_id tweets) w1)
      as (c2 & w2 & d2 & -> & Hh2 & (Hq2 & _) & _).
    destruct c2 as [existing | e].
    + destruct (length (notIn existing tweets) =? 0)%nat.
      { do 2 eexists. eexists ((_ :: d1) ++ d2). split; [reflexivity |]. simpl.
        rewrite Hh2, Hh1, <- app_assoc. split; [done |].
        rewrite telegramSends_app, Hq2. simpl. rewrite Hq1. constructor. }
      match goal with
      | |- context [dispatch E existing ?f ?s] =>
          destruct (dispatch_spec E existing f s) as (c3 & st3 & d3 & -> & Hh3 & Hsub & _)
      end.
      simpl in Hh3.
      assert (StronglySorted notNewer (telegramSends d3)) as Hs3.
      { eapply sorted_sublist; [exact Hsub |].
        eapply sorted_sublist; [apply notIn_sublist | by apply Hsorted]. }
      destruct c3 as [[] | e].
      * do 2 eexists. eexists ((_ :: d1) ++ d2 ++ d3). split; [reflexivity |].
        rewrite resetStreak_world, Hh3, Hh2, Hh1, <- !app_assoc. split; [done |].
        rewrite !telegramSends_app, Hq2. simpl. by rewrite Hq1.
      * destruct (onFailure_spec E e st3)
          as (st4 & d4 & -> & _ & _ & _ & _ & _ & Hh4 & Ht4 & _).
        do 2 eexists. eexists ((_ :: d1) ++ d2 ++ d3 ++ d4). split; [reflexivity |].
        rewrite Hh4, Hh3, Hh2, Hh1, <- !app_assoc. split; [done |].
        rewrite !telegramSends_app, Hq2, Ht4, app_nil_r. simpl. by rewrite Hq1.
    + match goal with
      | |- context [onFailure E e ?s] =>
          destruct (onFailure_spec E e s)
            as (st4 & d4 & -> & _ & _ & _ & _ & _ & Hh4 & Ht4 & _)
      end.
      simpl in Hh4.
      do 2 eexists. eexists ((_ :: d1) ++ d2 ++ d4). split; [reflexivity |].
      rewrite Hh4, Hh2, Hh1, <- !app_assoc. split; [done |].
      rewrite !telegramSends_app, Hq2, Ht4. simpl. rewrite Hq1. constructor.
  - match goal with
    | |- context [onFailure E e ?s] =>
        destruct (onFailure_spec E e s)
          as (st4 & d4 & -> & _ & _ & _ & _ & _ & Hh4 & Ht4 & _)
    end.
    simpl in Hh4.
    do 2 eexists. eexists ((_ :: d1) ++ d4). split; [reflexivity |].
    rewrite Hh4, Hh1, <- !app_assoc. split; [done |].
    rewrite !telegramSends_app, Ht4. simpl. rewrite Hq1. constructor.
Qed.

Lemma poll_history (E : Env) (w : World) :
  ∃ r w' d,
    poll E w = (Normal r, w')
    ∧ history w' = history w ++ d
    ∧ rechecked None d
    ∧ StronglySorted notNewer (telegramSends d).
Proof.
  rewrite poll_eq.
  destruct (fetchTweets_outcome E w)
    as (c & w1 & d1 & -> & Hh1 & (Hq1 & Hq1' & _) & _ & _ & Hsorted).
  assert (∀ p, rechecked p (FetchRSS (nitterFetch E (history w)) :: d1)) as Hr1.
  { intros p. by apply rechecked_quiet. }
  destruct c as [tweets | e]; unfold aborted.
  - destruct (length tweets =? 0)%nat.
    { do 2 eexists. eexists (_ :: d1). split; [reflexivity |]. split; [exact Hh1 |].
      split; [apply Hr1 |]. simpl. rewrite Hq1. constructor. }
    destruct (filterExisting_quiet E (map tw_id tweets) w1)
      as (c2 & w2 & d2 & -> & Hh2 & (Hq2 & Hq2' & _) & _).
    destruct c2 as [existing | e]; cbv zeta.
    + destruct (length (notIn existing tweets) =? 0)%nat.
      { do 2 eexists. eexists ((_ :: d1) ++ d2). split; [reflexivity |].
        rewrite Hh2, Hh1, <- app_assoc. split; [done |].
        split; [apply rechecked_app; [apply Hr1 | by apply rechecked_quiet] |].
        rewrite telegramSends_app, Hq2. simpl. rewrite Hq1. constructor. }
      destruct (processAll_spec E (notIn existing tweets) w2)
        as (c3 & w3 & d3 & -> & Hh3 & Hr3 & Hsub & _).
      assert (StronglySorted notNewer (telegramSends d3)) as Hs3.
      { eapply sorted_sublist; [exact Hsub |].
        eapply sorted_sublist; [apply notIn_sublist | by apply Hsorted]. }
      destruct c3 as [rs | e].
      * do 2 eexists. eexists ((_ :: d1) ++ d2 ++ d3). split; [reflexivity |].
        rewrite Hh3, Hh2, Hh1, <- !app_assoc. split; [done |].
        split.
        { apply rechecked_app; [apply Hr1 |].
          apply rechecked_app; [by apply rechecked_quiet | done]. }
        rewrite !telegramSends_app, Hq2. simpl. by rewrite Hq1.
      * do 2 eexists. eexists ((_ :: d1) ++ d2 ++ d3 ++ [LogError "Polling cycle failed"]).
        split; [reflexivity |]. unfold emit; cbn [history].
        rewrite Hh3, Hh2, Hh1, <- !app_assoc. split; [done |].
        split.
        { apply rechecked_app; [apply Hr1 |].
          apply rechecked_app; [by apply rechecked_quiet |].
          apply rechecked_app; [done | by apply rechecked_quiet]. }
        rewrite !telegramSends_app, Hq2. simpl. by rewrite Hq1, app_nil_r.
    + do 2 eexists. eexists ((_ :: d1) ++ d2 ++ [LogError "Polling cycle failed"]).
      split; [reflexivity |]. unfold emit; cbn [history].
      rewrite Hh2, Hh1, <- !app_assoc. split; [done |].
      split.
      { apply rechecked_app; [apply Hr1 |].
        apply rechecked_app; by apply rechecked_quiet. }
      rewrite !telegramSends_app, Hq2. simpl. rewrite Hq1. constructor.
  - do 2 eexists. eexists ((_ :: d1) ++ [LogError "Polling cycle failed"]).
    split; [reflexivity |]. unfold emit; cbn [history].
    rewrite Hh1, <- !app_assoc. split; [done |].
    split; [apply rechecked_app; [apply Hr1 | by apply rechecked_quiet] |].
    rewrite !telegramSends_app. simpl. rewrite Hq1. constructor.
Qed.

(** * The properties C1 to C10 *)

(** ** Store-write policy per post *)

(** With the database answering and the sinks resolving, [processTweet]
    returns; it sends nothing for a stored id and sends the post to both sinks
    otherwise. *)
Lemma processTweet_live (E : Env) (t : ParsedTweet) (w : World) :
  dbUp E w → sinksResolve E →
  ∃ r w' d,
    processTweet E t w = (Normal r, w')
    ∧ history w' = history w ++ d
    ∧ ((tw_id t ∈ storedIds w ∧ telegramSends d = [] ∧ discordSends d = []
        ∧ table w' = table w)
       ∨ ((tw_id t ∉ storedIds w) ∧ telegramSends d = [t] ∧ discordSends d = [t]
          ∧ ∀ i, i ∈ storedIds w' → i ∈ storedIds w ∨ i = tw_id t)).
Proof.
  intros [Hs Hp] Hres.
  unfold processTweet, TweetRepository.exists_, TweetRepository.markAsProcessed,
    query, execQuery, telegramSend, discordSend, logError.
  unfold_monad. simpl. rewrite Hs. simpl. rewrite !Hp. simpl.
  destruct (hasId (tw_id t) (table w)) eqn:Hid; simpl.
  - do 3 eexists. split; [reflexivity |]. simpl. split; [reflexivity |].
    left. by apply hasId_true in Hid.
  - apply hasId_false in Hid.
    destruct (proj1 (Hres (history w ++ [DbQuery (SelectExists (tw_id t)) (Normal [])]) t))
      as [b1 Hb1].
    rewrite Hb1. simpl.
    match goal with
    | |- context [discordSendTweet E ?h t] =>
        destruct (proj2 (Hres h t)) as [b2 Hb2]; rewrite Hb2; simpl
    end.
    destruct b1, b2; simpl; rewrite ?Hp, ?Hs; simpl.
    all: repeat (rewrite Hp; simpl).
    all: destruct (hasId (tw_id t) (table w)) eqn:Hid2;
           [apply hasId_true in Hid2; contradiction |]; simpl.
    all: do 3 eexists; split; [reflexivity |]; simpl.
    all: repeat rewrite <- app_assoc; simpl.
    all: split; [reflexivity |]; right; split; [done |]; split; [done |];
           split; [done |].
    all: intros i; unfold storedIds; simpl; rewrite ?map_app; simpl; set_solver.
Qed.

Ltac in_events :=
  repeat first [apply list_elem_of_here | apply list_elem_of_further].

Ltac not_in_events H :=
  repeat (apply elem_of_cons in H as [H | H]; [discriminate |]);
  by apply elem_of_nil in H.

(** C4: in both services the per-post function sends an insert for the post
    exactly when one of the two sinks reported success; when neither did, the
    table is left as it was, so the id is still absent for the next bulk
    query; when the insert throws after a successful send, the function still
    completes, the failure is recorded (in [errors] by [processSingleTweet],
    in the error log and in [dbSaved = false] by [processTweet]) and the sends
    stay in the history; an insert that the database answered leaves the id
    stored.  [processSingleTweet] always sends the post to both sinks, and so
    does [processTweet] for an id that is not stored when the database
    answers.  For [processTweet] the sinks are taken to keep their contract of
    resolving to a boolean. *)
Theorem store_write_policy (E : Env) (t : ParsedTweet) :
  (∀ st,
     let '(c, st') := processSingleTweet E t st in
     let d := since (history (world st)) (history (world st')) in
     c = Normal tt
     ∧ telegramSends d = [t] ∧ discordSends d = [t]
     ∧ (tw_id t ∈ writeAttempts d ↔ sinkOk d t)
     ∧ (¬ sinkOk d t → table (world st') = table (world st))
     ∧ (∀ e, DbQuery (InsertProcessed (tw_id t) (tw_publishedAt t)) (Throw e) ∈ d →
          ("DB error for tweet " +:+ tw_id t +:+ ": " +:+ errorMessage e)
            ∈ errors (result st')
          ∧ sinkOk d t)
     ∧ (∀ rows, DbQuery (InsertProcessed (tw_id t) (tw_publishedAt t)) (Normal rows) ∈ d →
          tw_id t ∈ storedIds (world st')))
  ∧ (sinksResolve E →
     ∀ w,
       let '(c, w') := processTweet E t w in
       let d := since (history w) (history w') in
       (dbUp E w → tw_id t ∉ storedIds w →
          telegramSends d = [t] ∧ discordSends d = [t])
       ∧ (tw_id t ∈ writeAttempts d ↔ sinkOk d t)
       ∧ (¬ sinkOk d t → table w' = table w)
       ∧ (∀ e, DbQuery (InsertProcessed (tw_id t) (tw_publishedAt t)) (Throw e) ∈ d →
            (∃ r, c = Normal r ∧ dbSaved r = false ∧ skipped r = false)
            ∧ LogError "Failed to save tweet to database" ∈ d
            ∧ sinkOk d t)
       ∧ (∀ rows, DbQuery (InsertProcessed (tw_id t) (tw_publishedAt t)) (Normal rows) ∈ d →
            tw_id t ∈ storedIds w')).
Proof.
  split.
  - intros st.
    destruct (processSingleTweet_spec E t st)
      as (st' & d & -> & _ & _ & _ & Hh & Ht & Hd & _ & Hiff & Hno & Hthrow & Hok & _).
    cbv beta iota zeta. rewrite Hh, since_app.
    split; [done |]. split; [exact Ht |]. split; [exact Hd |].
    split; [exact Hiff |]. split; [exact Hno |].
    split; [exact Hthrow | exact Hok].
  - intros Hres w.
    pose proof (processTweet_live E t w) as Hlive.
    destruct (processTweet_spec E t w)
      as (c & w' & qr & rest & Hrun & Hh & _ & _ & _ & _ & _ & Hpol).
    rewrite Hrun in *.
    destruct (Hpol Hres) as (Hiff & Hno & Hthrow & Hok).
    cbv beta iota zeta. rewrite Hh, since_app.
    split.
    { intros Hup Hnew.
      destruct (Hlive Hup Hres) as (r & w1 & d1 & [= -> <-] & Hh1 & Hcase).
      rewrite Hh in Hh1. apply app_inv_head in Hh1. rewrite Hh1.
      destruct Hcase as [(Hin & _) | (_ & Ht & Hd & _)]; [contradiction | done]. }
    set (q := DbQuery (SelectExists (tw_id t)) qr).
    assert (writeAttempts (q :: rest) = writeAttempts rest) as -> by done.
    assert (∀ x, sinkOk (q :: rest) x ↔ sinkOk rest x) as Hsk.
    { intros x. unfold sinkOk. rewrite !elem_of_cons. subst q. naive_solver. }
    rewrite !Hsk. split; [exact Hiff |]. split; [exact Hno |]. split.
    + intros e He. apply elem_of_cons in He as [He | He]; [discriminate |].
      destruct (Hthrow e He) as (Hr & Hl & Hs). split; [done |].
      split; [by apply elem_of_cons; right | by apply Hsk].
    + intros rows He. apply elem_of_cons in He as [He | He]; [discriminate |].
      by apply (Hok rows).
Qed.

Lemma store_write_policy_witness :
  let t := Scenario.tweet "7" 700 in
  let w := Scenario.emptyWorld in
  let insert := InsertProcessed (tw_id t) (tw_publishedAt t) in
  let refused := ErrorObj "connection refused" in
  let up := Sample.oneChat Scenario.never in
  let second := Sample.oneChat (Nat.eqb 1) in
  let down := Sample.oneChat Scenario.always in
  (sinksResolve up ∧ sinksResolve Sample.noChat ∧ sinksResolve second
   ∧ dbUp up w ∧ dbUp Sample.noChat w ∧ tw_id t ∉ storedIds w)
  (* [processTweet]: Telegram accepts, the insert lands *)
  ∧ (let '(c, w') := processTweet up t w in
     let d := since (history w) (history w') in
     telegramSends d = [t] ∧ discordSends d = [t] ∧ sinkOk d t
     ∧ tw_id t ∈ writeAttempts d ∧ tw_id t ∈ storedIds w')
  (* [processTweet]: both chats decline *)
  ∧ (let '(c, w') := processTweet Sample.noChat t w in
     let d := since (history w) (history w') in
     telegramSends d = [t] ∧ discordSends d = [t] ∧ ¬ sinkOk d t
     ∧ (tw_id t ∉ writeAttempts d) ∧ table w' = table w)
  (* [processTweet]: Telegram accepts, the insert is rejected *)
  ∧ (let '(c, w') := processTweet second t w in
     let d := since (history w) (history w') in
     DbQuery insert (Throw refused) ∈ d
     ∧ sinkOk d t ∧ tw_id t ∈ writeAttempts d
     ∧ (∃ r, c = Normal r ∧ dbSaved r = false ∧ skipped r = false)
     ∧ LogError "Failed to save tweet to database" ∈ d)
  (* [processSingleTweet]: Telegram accepts, the insert lands *)
  ∧ (let '(c, st') := processSingleTweet up t (start w) in
     let d := since (history w) (history (world st')) in
     c = Normal tt ∧ telegramSends d = [t] ∧ discordSends d = [t] ∧ sinkOk d t
     ∧ tw_id t ∈ writeAttempts d ∧ tw_id t ∈ storedIds (world st'))
  (* [processSingleTweet]: both chats decline *)
  ∧ (let '(c, st') := processSingleTweet Sample.noChat t (start w) in
     let d := since (history w) (history (world st')) in
     c = Normal tt ∧ telegramSends d = [t] ∧ discordSends d = [t] ∧ ¬ sinkOk d t
     ∧ (tw_id t ∉ writeAttempts d) ∧ table (world st') = table w)
  (* [processSingleTweet]: Telegram accepts, the insert is rejected *)
  ∧ (let '(c, st') := processSingleTweet down t (start w) in
     let d := since (history w) (history (world st')) in
     c = Normal tt ∧ DbQuery insert (Throw refused) ∈ d
     ∧ sinkOk d t ∧ tw_id t ∈ writeAttempts d
     ∧ "DB error for tweet 7: connection refused" ∈ errors (result st')).
Proof.
  intros t w insert refused up second down.
  assert (R1 : sinksResolve up) by (intros h u; split; by eexists).
  assert (R2 : sinksResolve Sample.noChat) by (intros h u; split; by eexists).
  assert (R3 : sinksResolve second) by (intros h u; split; by eexists).
  assert (U1 : dbUp up w) by (by split).
  assert (U2 : dbUp Sample.noChat w) by (by split).
  assert (N : tw_id t ∉ storedIds w) by (intros H; by apply elem_of_nil in H).
  split; [exact (conj R1 (conj R2 (conj R3 (conj U1 (conj U2 N))))) |].
  split; [| split; [| split; [| split; [| split]]]].
  - pose proof (proj2 (store_write_policy up t) R1 w) as H.
    destruct (processTweet up t w) as [c w'] eqn:Hrun.
    vm_compute in Hrun. injection Hrun as <- <-. cbv zeta in H |- *.
    destruct H as (Hsend & Hiff & _ & _ & Hok).
    destruct (Hsend U1 N) as [Ht Hd].
    split; [exact Ht |]. split; [exact Hd |].
    match goal with
    | |- sinkOk ?d t ∧ _ =>
        assert (Hs : sinkOk d t) by (left; vm_compute; in_events)
    end.
    split; [exact Hs |]. split; [exact (proj2 Hiff Hs) |].
    apply (Hok [RowId "7"]). vm_compute. in_events.
  - pose proof (proj2 (store_write_policy Sample.noChat t) R2 w) as H.
    destruct (processTweet Sample.noChat t w) as [c w'] eqn:Hrun.
    vm_compute in Hrun. injection Hrun as <- <-. cbv zeta in H |- *.
    destruct H as (Hsend & Hiff & Hno & _).
    destruct (Hsend U2 N) as [Ht Hd].
    split; [exact Ht |]. split; [exact Hd |].
    match goal with
    | |- ¬ sinkOk ?d t ∧ _ =>
        assert (Hs : ¬ sinkOk d t)
          by (intros [Hin | Hin]; vm_compute in Hin; not_in_events Hin)
    end.
    split; [exact Hs |]. split; [intros Hin; exact (Hs (proj1 Hiff Hin)) |].
    exact (Hno Hs).
  - pose proof (proj2 (store_write_policy second t) R3 w) as H.
    destruct (processTweet second t w) as [c w'] eqn:Hrun.
    vm_compute in Hrun. injection Hrun as <- <-. cbv zeta in H |- *.
    destruct H as (_ & Hiff & _ & Hthrow & _).
    match goal with
    | |- ?P ∧ _ => assert (Hin : P) by (vm_compute; in_events)
    end.
    split; [exact Hin |].
    destruct (Hthrow refused Hin) as (Hr & Hlog & Hs).
    split; [exact Hs |]. split; [exact (proj2 Hiff Hs) |].
    split; [exact Hr | exact Hlog].
  - pose proof (proj1 (store_write_policy up t) (start w)) as H.
    destruct (processSingleTweet up t (start w)) as [c st'] eqn:Hrun.
    vm_compute in Hrun. injection Hrun as <- <-. cbv zeta in H |- *.
    destruct H as (Hc & Ht & Hd & Hiff & _ & _ & Hok).
    split; [exact Hc |]. split; [exact Ht |]. split; [exact Hd |].
    match goal with
    | |- sinkOk ?d t ∧ _ =>
        assert (Hs : sinkOk d t) by (left; vm_compute; in_events)
    end.
    split; [exact Hs |]. split; [exact (proj2 Hiff Hs) |].
    apply (Hok [RowId "7"]). vm_compute. in_events.
  - pose proof (proj1 (store_write_policy Sample.noChat t) (start w)) as H.
    destruct (processSingleTweet Sample.noChat t (start w)) as [c st'] eqn:Hrun.
    vm_compute in Hrun. injection Hrun as <- <-. cbv zeta in H |- *.
    destruct H as (Hc & Ht & Hd & Hiff & Hno & _).
    split; [exact Hc |]. split; [exact Ht |]. split; [exact Hd |].
    match goal with
    | |- ¬ sinkOk ?d t ∧ _ =>
        assert (Hs : ¬ sinkOk d t)
          by (intros [Hin | Hin]; vm_compute in Hin; not_in_events Hin)
    end.
    split; [exact Hs |]. split; [intros Hin; exact (Hs (proj1 Hiff Hin)) |].
    exact (Hno Hs).
  - pose proof (proj1 (store_write_policy down t) (start w)) as H.
    destruct (processSingleTweet down t (start w)) as [c st'] eqn:Hrun.
    vm_compute in Hrun. injection Hrun as <- <-. cbv zeta in H |- *.
    destruct H as (Hc & _ & _ & Hiff & _ & Hthrow & _).
    split; [exact Hc |].
    match goal with
    | |- ?P ∧ _ => assert (Hin : P) by (vm_compute; in_events)
    end.
    split; [exact Hin |].
    destruct (Hthrow refused Hin) as (Herr & Hs).
    split; [exact Hs |]. split; [exact (proj2 Hiff Hs) | exact Herr].
Defined.

(** ** Existence recheck before sending *)

(** C5 (as amended): in a [poll] cycle every Telegram send comes right after
    an existence query for that tweet's id which found nothing, and every
    Discord send right after the Telegram send of the same tweet; when the
    recheck finds the id, the outcome is the skipped one and the recheck is
    the only event of that post.  [processSingleTweet], the per-post function
    of [process], makes no existence query: it calls both sinks once for
    every tweet it is given. *)
Theorem existence_recheck_policy (E : Env) :
  (∀ w, let '(_, w') := poll E w in
        rechecked None (since (history w) (history w')))
  ∧ (∀ t w,
       isShuttingDown w = false →
       poolQuery E (history w) (SelectExists (tw_id t)) = None →
       tw_id t ∈ storedIds w →
       let '(c, w') := processTweet E t w in
       c = Normal {| tweetId := tw_id t; telegram := false; discord := false;
                     dbSaved := false; skipped := true; error := None |}
       ∧ since (history w) (history w')
         = [DbQuery (SelectExists (tw_id t)) (Normal [RowOne])]
       ∧ table w' = table w)
  ∧ (∀ t st,
       let '(_, st') := processSingleTweet E t st in
       let d := since (history (world st)) (history (world st')) in
       telegramSends d = [t] ∧ discordSends d = [t]
       ∧ ∀ i r, DbQuery (SelectExists i) r ∉ d).
Proof.
  split; [| split].
  - intros w. destruct (poll_history E w) as (r & w' & d & -> & Hh & Hr & _).
    by rewrite Hh, since_app.
  - intros t w Hs Hp Hin. apply hasId_true in Hin.
    unfold processTweet, TweetRepository.exists_, query. unfold_monad.
    rewrite Hs, Hp. simpl. rewrite Hin. simpl. by rewrite since_app.
  - intros t st.
    destruct (processSingleTweet_spec E t st)
      as (st' & d & -> & _ & _ & _ & Hh & Ht & Hd & _ & _ & _ & _ & _ & Hno).
    cbv beta iota zeta. by rewrite Hh, since_app.
Qed.

Lemma existence_recheck_policy_witness :
  let E := Scenario.env [Scenario.entry "2" "200"; Scenario.entry "1" "100"]
             Scenario.never Scenario.never
             Scenario.delivers Scenario.delivers (Normal true) in
  let t := Scenario.tweet "1" 100 in
  let w := Scenario.worldWith ["1"] in
  isShuttingDown w = false
  ∧ poolQuery E (history w) (SelectExists (tw_id t)) = None
  ∧ tw_id t ∈ storedIds w
  ∧ (let '(c, w') := processTweet E t w in
     c = Normal {| tweetId := tw_id t; telegram := false; discord := false;
                   dbSaved := false; skipped := true; error := None |}
     ∧ since (history w) (history w')
       = [DbQuery (SelectExists (tw_id t)) (Normal [RowOne])]
     ∧ table w' = table w).
Proof.
  assert ("1" ∈ storedIds (Scenario.worldWith ["1"])) as Hin.
  { apply list_elem_of_here. }
  split; [reflexivity |]. split; [reflexivity |]. split; [exact Hin |].
  exact (proj1 (proj2 (existence_recheck_policy
                  (Scenario.env [Scenario.entry "2" "200"; Scenario.entry "1" "100"]
                     Scenario.never Scenario.never
                     Scenario.delivers Scenario.delivers (Normal true))))
           (Scenario.tweet "1" 100) (Scenario.worldWith ["1"])
           eq_refl eq_refl Hin).
Defined.

(** C5, the claim as stated: [process] dispatches without any existence
    query.  The feed lists status 2 twice and status 1 is already stored, so
    the cycle takes the normal path; the second copy of status 2 is sent to
    both sinks although the first copy has just been stored. *)
Lemma process_sends_without_recheck :
  let E := Scenario.env
             [Scenario.entry "2" "200"; Scenario.entry "2" "200";
              Scenario.entry "1" "100"]
             Scenario.never Scenario.never
             Scenario.delivers Scenario.delivers (Normal true) in
  let '(_, st') := ProcessRelay.process E (start (Scenario.worldWith ["1"])) in
  telegramSends (history (world st'))
    = [Scenario.tweet "2" 200; Scenario.tweet "2" 200]
  ∧ discordSends (history (world st'))
    = [Scenario.tweet "2" 200; Scenario.tweet "2" 200]
  ∧ storedIds (world st') = ["1"; "2"]
  ∧ ¬ rechecked None (history (world st')).
Proof.
  vm_compute. repeat split; try reflexivity.
  intros H. decompose [and] H. discriminate.
Qed.

(** ** Cycles that fail at the fetch stage *)

Lemma dedupFails_nonempty (E : Env) (w : World) (tweets : list ParsedTweet)
    (e : Thrown) :
  dedupFails E w tweets e → (length tweets =? 0)%nat = false.
Proof.
  intros (w1 & w2 & _ & Hf). destruct tweets; [discriminate | done].
Qed.

Lemma process_fetch_failure (E : Env) (st : State) (e : Thrown) :
  fetchFails E (world st) e →
  ∃ st' d,
    ProcessRelay.process E st = (Normal (pushError (errorMessage e) emptyResult), st')
    ∧ consecutiveFailures st' = S (consecutiveFailures st)
    ∧ alertSent st'
      = (alertSent st || (FAILURE_THRESHOLD <=? S (consecutiveFailures st))%nat)
    ∧ table (world st') = table (world st)
    ∧ history (world st') = history (world st) ++ d
    ∧ telegramSends d = [] ∧ discordSends d = [] ∧ writeAttempts d = []
    ∧ alertCalls d
      = (if (FAILURE_THRESHOLD <=? S (consecutiveFailures st))%nat
            && negb (alertSent st) then 1 else 0)%nat.
Proof.
  intros [w1 Hf]. rewrite process_eq.
  destruct (fetchTweets_outcome E (world st))
    as (c & w1' & d1 & Hrun & Hh1 & (Hq1 & Hq2 & Hq3 & Hq4) & Ht1 & _).
  rewrite Hf in Hrun. inversion Hrun; subst c w1'. rewrite Hf. cbv zeta.
  match goal with
  | |- context [onFailure E e ?s] =>
      destruct (onFailure_spec E e s)
        as (st4 & d4 & -> & _ & Hc & Ha & Ht & _ & Hh4 & Ht4 & Hd4 & Hw4 & Hal4)
  end.
  simpl in *. exists st4, ((FetchRSS (nitterFetch E (history (world st))) :: d1) ++ d4).
  split; [done |]. split; [done |]. split; [done |]. split; [congruence |].
  rewrite Hh4, Hh1, <- app_assoc. split; [done |].
  rewrite telegramSends_app, discordSends_app, writeAttempts_app, alertCalls_app.
  rewrite Ht4, Hd4, Hw4, Hal4. simpl. rewrite Hq1, Hq2, Hq3.
  unfold alertCalls in *. simpl. rewrite Hq4. by repeat split.
Qed.

Lemma process_dedup_failure (E : Env) (st : State) (tweets : list ParsedTweet)
    (e : Thrown) :
  dedupFails E (world st) tweets e →
  ∃ st' d,
    ProcessRelay.process E st
    = (Normal (pushError (errorMessage e)
                 (setTotalFetched (length tweets) emptyResult)), st')
    ∧ consecutiveFailures st' = S (consecutiveFailures st)
    ∧ table (world st') = table (world st)
    ∧ history (world st') = history (world st) ++ d
    ∧ telegramSends d = [] ∧ discordSends d = [] ∧ writeAttempts d = [].
Proof.
  intros Hd. pose proof (dedupFails_nonempty _ _ _ _ Hd) as Hne.
  destruct Hd as (w1 & w2 & Hf & Hx). rewrite process_eq.
  destruct (fetchTweets_outcome E (world st))
    as (c & w1' & d1 & Hrun & Hh1 & (Hq1 & Hq2 & Hq3 & Hq4) & Ht1 & _).
  rewrite Hf in Hrun. inversion Hrun; subst c w1'. rewrite Hf. cbv zeta.
  rewrite Hne.
  destruct (filterExisting_quiet E (map tw_id tweets) w1)
    as (c2 & w2' & d2 & Hrun2 & Hh2 & (Hp1 & Hp2 & Hp3 & Hp4) & Ht2 & _).
  rewrite Hx in Hrun2. inversion Hrun2; subst c2 w2'. rewrite Hx.
  match goal with
  | |- context [onFailure E e ?s] =>
      destruct (onFailure_spec E e s)
        as (st4 & d4 & -> & _ & Hc & Ha & Ht & _ & Hh4 & Ht4 & Hd4 & Hw4 & Hal4)
  end.
  simpl in *.
  exists st4, ((FetchRSS (nitterFetch E (history (world st))) :: d1) ++ d2 ++ d4).
  split; [done |]. split; [done |]. split; [congruence |].
  rewrite Hh4, Hh2, Hh1, <- !app_assoc. split; [done |].
  rewrite !telegramSends_app, !discordSends_app, !writeAttempts_app.
  rewrite Ht4, Hd4, Hw4, Hp1, Hp2, Hp3. simpl. by rewrite Hq1, Hq2, Hq3.
Qed.

Lemma poll_fetch_failure (E : Env) (w : World) (e : Thrown) :
  fetchFails E w e →
  ∃ w' d,
    poll E w = (Normal {| success := false; tweetsFound := 0; tweetsProcessed := 0;
                          results := []; pollError := Some (errorMessage e) |}, w')
    ∧ table w' = table w
    ∧ history w' = history w ++ d
    ∧ quiet d.
Proof.
  intros [w1 Hf]. rewrite poll_eq.
  destruct (fetchTweets_outcome E w)
    as (c & w1' & d1 & Hrun & Hh1 & Hq & Ht1 & _).
  rewrite Hf in Hrun. inversion Hrun; subst c w1'. rewrite Hf. unfold aborted.
  do 2 eexists. split; [reflexivity |]. split; [done |].
  unfold emit; cbn [history]. rewrite Hh1, <- app_assoc. split; [done |].
  apply (quiet_app [_]); [by repeat split |].
  apply quiet_app; [done | by repeat split].
Qed.

Lemma poll_dedup_failure (E : Env) (w : World) (tweets : list ParsedTweet)
    (e : Thrown) :
  dedupFails E w tweets e →
  ∃ w' d,
    poll E w = (Normal {| success := false; tweetsFound := 0; tweetsProcessed := 0;
                          results := []; pollError := Some (errorMessage e) |}, w')
    ∧ table w' = table w
    ∧ history w' = history w ++ d
    ∧ quiet d.
Proof.
  intros Hd. pose proof (dedupFails_nonempty _ _ _ _ Hd) as Hne.
  destruct Hd as (w1 & w2 & Hf & Hx). rewrite poll_eq.
  destruct (fetchTweets_outcome E w)
    as (c & w1' & d1 & Hrun & Hh1 & Hq & Ht1 & _).
  rewrite Hf in Hrun. inversion Hrun; subst c w1'. rewrite Hf, Hne.
  destruct (filterExisting_quiet E (map tw_id tweets) w1)
    as (c2 & w2' & d2 & Hrun2 & Hh2 & Hp & Ht2 & _).
  rewrite Hx in Hrun2. inversion Hrun2; subst c2 w2'. rewrite Hx. unfold aborted.
  do 2 eexists. split; [reflexivity |]. split; [simpl; congruence |].
  unfold emit; cbn [history]. rewrite Hh2, Hh1, <- !app_assoc. split; [done |].
  apply (quiet_app [_]); [by repeat split |].
  apply quiet_app; [done |]. apply quiet_app; [done | by repeat split].
Qed.

(** ** Failure-streak alerting *)

(** C3: from a streak of zero with no alert sent, three cycles in a row that
    fail at the fetch stage make exactly one alert call, in the third cycle;
    a fourth failing cycle makes none; [alertSent] is true after the third
    and the fourth cycle whatever the alert call answered, because
    [sendNitterFailureAlert] completes normally and leaves the streak alone
    even when the call throws, and [process] then sets the flag. *)
Theorem failure_streak_alerting (E : Env) (st0 : State) (e1 e2 e3 e4 : Thrown) :
  consecutiveFailures st0 = 0%nat → alertSent st0 = false →
  let '(_, st1) := ProcessRelay.process E st0 in
  let '(_, st2) := ProcessRelay.process E st1 in
  let '(c3, st3) := ProcessRelay.process E st2 in
  let '(c4, st4) := ProcessRelay.process E st3 in
  fetchFails E (world st0) e1 → fetchFails E (world st1) e2 →
  fetchFails E (world st2) e3 → fetchFails E (world st3) e4 →
  alertCalls (since (history (world st0)) (history (world st2))) = 0%nat
  ∧ alertCalls (since (history (world st2)) (history (world st3))) = 1%nat
  ∧ consecutiveFailures st3 = 3%nat ∧ alertSent st3 = true
  ∧ c3 = Normal (pushError (errorMessage e3) emptyResult)
  ∧ alertCalls (since (history (world st3)) (history (world st4))) = 0%nat
  ∧ consecutiveFailures st4 = 4%nat ∧ alertSent st4 = true
  ∧ (∀ msg st, ∃ st', sendNitterFailureAlert E msg st = (Normal tt, st')
                      ∧ alertSent st' = alertSent st
                      ∧ consecutiveFailures st' = consecutiveFailures st).
Proof.
  intros Hc0 Ha0.
  destruct (ProcessRelay.process E st0) as [c1 st1] eqn:H1.
  destruct (ProcessRelay.process E st1) as [c2 st2] eqn:H2.
  destruct (ProcessRelay.process E st2) as [c3 st3] eqn:H3.
  destruct (ProcessRelay.process E st3) as [c4 st4] eqn:H4.
  intros F0 F1 F2 F3.
  destruct (process_fetch_failure E st0 e1 F0)
    as (st1' & d1 & R1 & C1 & A1 & _ & Hh1 & _ & _ & _ & L1).
  rewrite H1 in R1. inversion R1; subst c1 st1'. clear R1.
  destruct (process_fetch_failure E st1 e2 F1)
    as (st2' & d2 & R2 & C2 & A2 & _ & Hh2 & _ & _ & _ & L2).
  rewrite H2 in R2. inversion R2; subst c2 st2'. clear R2.
  destruct (process_fetch_failure E st2 e3 F2)
    as (st3' & d3 & R3 & C3 & A3 & _ & Hh3 & _ & _ & _ & L3).
  rewrite H3 in R3. inversion R3; subst c3 st3'. clear R3.
  destruct (process_fetch_failure E st3 e4 F3)
    as (st4' & d4 & R4 & C4 & A4 & _ & Hh4 & _ & _ & _ & L4).
  rewrite H4 in R4. inversion R4; subst c4 st4'. clear R4.
  rewrite Hc0 in *. rewrite Ha0 in *. rewrite C1 in *. rewrite C2 in *.
  rewrite C3 in *. simpl in *. rewrite A1 in *. simpl in *. rewrite A2 in *.
  rewrite A3 in *. simpl in *.
  rewrite Hh4, since_app, L4. rewrite Hh3, since_app, L3.
  rewrite Hh2, Hh1, <- app_assoc, since_app, alertCalls_app, L1, L2.
  repeat split; try done.
  intros msg st. unfold sendNitterFailureAlert, sendAlert, logError. unfold_monad.
  simpl. destruct (discordSendAlert E _ _ _); eexists; by repeat split.
Qed.

Lemma failure_streak_alerting_witness :
  let E := Scenario.env [] Scenario.always Scenario.never
             Scenario.delivers Scenario.delivers (Throw NonError) in
  let e := ErrorObj "Failed to fetch RSS after 3 attempts: timeout" in
  let st0 := start Scenario.emptyWorld in
  let '(_, st1) := ProcessRelay.process E st0 in
  let '(_, st2) := ProcessRelay.process E st1 in
  let '(c3, st3) := ProcessRelay.process E st2 in
  let '(c4, st4) := ProcessRelay.process E st3 in
  (fetchFails E (world st0) e ∧ fetchFails E (world st1) e
   ∧ fetchFails E (world st2) e ∧ fetchFails E (world st3) e)
  ∧ alertCalls (since (history (world st0)) (history (world st2))) = 0%nat
  ∧ alertCalls (since (history (world st2)) (history (world st3))) = 1%nat
  ∧ consecutiveFailures st3 = 3%nat ∧ alertSent st3 = true
  ∧ c3 = Normal (pushError (errorMessage e) emptyResult)
  ∧ alertCalls (since (history (world st3)) (history (world st4))) = 0%nat
  ∧ consecutiveFailures st4 = 4%nat ∧ alertSent st4 = true
  ∧ (∀ msg st, ∃ st', sendNitterFailureAlert E msg st = (Normal tt, st')
                      ∧ alertSent st' = alertSent st
                      ∧ consecutiveFailures st' = consecutiveFailures st).
Proof.
  pose proof (failure_streak_alerting
                (Scenario.env [] Scenario.always Scenario.never
                   Scenario.delivers Scenario.delivers (Throw NonError))
                (start Scenario.emptyWorld)
                (ErrorObj "Failed to fetch RSS after 3 attempts: timeout")
                (ErrorObj "Failed to fetch RSS after 3 attempts: timeout")
                (ErrorObj "Failed to fetch RSS after 3 attempts: timeout")
                (ErrorObj "Failed to fetch RSS after 3 attempts: timeout")
                eq_refl eq_refl) as H.
  cbv zeta.
  destruct (ProcessRelay.process _ (start Scenario.emptyWorld)) as [c1 st1] eqn:H1.
  destruct (ProcessRelay.process _ st1) as [c2 st2] eqn:H2.
  destruct (ProcessRelay.process _ st2) as [c3 st3] eqn:H3.
  destruct (ProcessRelay.process _ st3) as [c4 st4] eqn:H4.
  vm_compute in H1. inversion H1; subst c1 st1. clear H1.
  vm_compute in H2. inversion H2; subst c2 st2. clear H2.
  vm_compute in H3. inversion H3; subst c3 st3. clear H3.
  vm_compute in H4. inversion H4; subst c4 st4. clear H4.
  assert (∀ w, fetchFails
                 (Scenario.env [] Scenario.always Scenario.never
                    Scenario.delivers Scenario.delivers (Throw NonError)) w
                 (ErrorObj "Failed to fetch RSS after 3 attempts: timeout")) as F.
  { intros w. eexists. reflexivity. }
  split.
  - repeat split; apply F.
  - apply H; apply F.
Defined.

(** ** Failure at the fetch stage *)

(** C7 (as amended): a cycle whose fetch stage fails stops there: [poll]
    returns [success = false] with zero counts, no results and the error
    message, [process] returns zero counts with the message as its only error
    and counts one more failure; no sink send, no insert, and the table is
    untouched.  A failing bulk existence query stops the cycle in the same
    way, except that [process] keeps in [totalFetched] the number of fetched
    tweets it had already recorded. *)
Theorem fetch_stage_failure_aborts (E : Env) (w : World) (e : Thrown) :
  (fetchFails E w e →
   (let '(c, w') := poll E w in
    let d := since (history w) (history w') in
    c = Normal {| success := false; tweetsFound := 0; tweetsProcessed := 0;
                  results := []; pollError := Some (errorMessage e) |}
    ∧ telegramSends d = [] ∧ discordSends d = [] ∧ writeAttempts d = []
    ∧ table w' = table w)
   ∧ (∀ st, world st = w →
      let '(c, st') := ProcessRelay.process E st in
      let d := since (history w) (history (world st')) in
      c = Normal {| totalFetched := 0; newTweets := 0; telegramSuccess := 0;
                    telegramFailed := 0; discordSuccess := 0; discordFailed := 0;
                    errors := [errorMessage e] |}
      ∧ telegramSends d = [] ∧ discordSends d = [] ∧ writeAttempts d = []
      ∧ table (world st') = table w
      ∧ consecutiveFailures st' = S (consecutiveFailures st)))
  ∧ (∀ tweets, dedupFails E w tweets e →
     (let '(c, w') := poll E w in
      let d := since (history w) (history w') in
      c = Normal {| success := false; tweetsFound := 0; tweetsProcessed := 0;
                    results := []; pollError := Some (errorMessage e) |}
      ∧ telegramSends d = [] ∧ discordSends d = [] ∧ writeAttempts d = []
      ∧ table w' = table w)
     ∧ (∀ st, world st = w →
        let '(c, st') := ProcessRelay.process E st in
        let d := since (history w) (history (world st')) in
        c = Normal {| totalFetched := length tweets; newTweets := 0;
                      telegramSuccess := 0; telegramFailed := 0;
                      discordSuccess := 0; discordFailed := 0;
                      errors := [errorMessage e] |}
        ∧ telegramSends d = [] ∧ discordSends d = [] ∧ writeAttempts d = []
        ∧ table (world st') = table w
        ∧ consecutiveFailures st' = S (consecutiveFailures st))).
Proof.
  split.
  - intros Hf. split.
    + destruct (poll_fetch_failure E w e Hf) as (w' & d & -> & Ht & Hh & Hq1 & Hq2 & Hq3 & _).
      cbv beta iota zeta. rewrite Hh, since_app. by repeat split.
    + intros st <-.
      destruct (process_fetch_failure E st e Hf)
        as (st' & d & -> & Hc & _ & Ht & Hh & Hq1 & Hq2 & Hq3 & _).
      cbv beta iota zeta. rewrite Hh, since_app. by repeat split.
  - intros tweets Hf. split.
    + destruct (poll_dedup_failure E w tweets e Hf)
        as (w' & d & -> & Ht & Hh & Hq1 & Hq2 & Hq3 & _).
      cbv beta iota zeta. rewrite Hh, since_app. by repeat split.
    + intros st <-.
      destruct (process_dedup_failure E st tweets e Hf)
        as (st' & d & -> & Hc & Ht & Hh & Hq1 & Hq2 & Hq3).
      cbv beta iota zeta. rewrite Hh, since_app. by repeat split.
Qed.

Lemma fetch_stage_failure_aborts_witness :
  let E := Scenario.env [Scenario.entry "2" "200"; Scenario.entry "1" "100"]
             Scenario.always Scenario.never
             Scenario.delivers Scenario.delivers (Normal true) in
  let e := ErrorObj "Failed to fetch RSS after 3 attempts: timeout" in
  let w := Scenario.emptyWorld in
  fetchFails E w e
  ∧ (let '(c, w') := poll E w in
     let d := since (history w) (history w') in
     c = Normal {| success := false; tweetsFound := 0; tweetsProcessed := 0;
                   results := []; pollError := Some (errorMessage e) |}
     ∧ telegramSends d = [] ∧ discordSends d = [] ∧ writeAttempts d = []
     ∧ table w' = table w).
Proof.
  assert (fetchFails
            (Scenario.env [Scenario.entry "2" "200"; Scenario.entry "1" "100"]
               Scenario.always Scenario.never
               Scenario.delivers Scenario.delivers (Normal true))
            Scenario.emptyWorld
            (ErrorObj "Failed to fetch RSS after 3 attempts: timeout")) as F.
  { eexists. reflexivity. }
  split; [exact F |].
  exact (proj1 (proj1 (fetch_stage_failure_aborts _ _ _) F)).
Defined.

(** C7, the claim as stated.  First scenario: two tweets are fetched and the
    bulk existence query fails; [process] reports [totalFetched = 2], not
    zero counts.  Second scenario: fetch and bulk query succeed on a first run
    with three tweets and the second backfill insert fails; the cycle is
    aborted and counted as a failure although one insert had been made.
    Third scenario: in [poll] the existence recheck of the second tweet
    fails; the cycle is aborted with zero counts although the first tweet
    has been sent and stored. *)
Lemma abort_counterexample :
  (let E := Scenario.env [Scenario.entry "2" "200"; Scenario.entry "1" "100"]
              Scenario.never Scenario.always
              Scenario.delivers Scenario.delivers (Normal true) in
   dedupFails E Scenario.emptyWorld
     [Scenario.tweet "1" 100; Scenario.tweet "2" 200]
     (ErrorObj "connection refused")
   ∧ (ProcessRelay.process E (start Scenario.emptyWorld)).1
     = Normal {| totalFetched := 2; newTweets := 0; telegramSuccess := 0;
                 telegramFailed := 0; discordSuccess := 0; discordFailed := 0;
                 errors := ["connection refused"] |})
  ∧ (let E := Scenario.env
                [Scenario.entry "3" "300"; Scenario.entry "2" "200";
                 Scenario.entry "1" "100"]
                Scenario.never (fun n => (n =? 2)%nat)
                Scenario.delivers Scenario.delivers (Normal true) in
     let '(c, st') := ProcessRelay.process E (start Scenario.emptyWorld) in
     (∃ w1, fetchTweets E Scenario.emptyWorld
            = (Normal [Scenario.tweet "1" 100; Scenario.tweet "2" 200;
                       Scenario.tweet "3" 300], w1)
            ∧ ∃ w2, TweetRepository.filterExisting E ["1"; "2"; "3"] w1
                    = (Normal ∅, w2))
     ∧ c = Normal {| totalFetched := 3; newTweets := 3; telegramSuccess := 0;
                     telegramFailed := 0; discordSuccess := 0; discordFailed := 0;
                     errors := ["connection refused"] |}
     ∧ consecutiveFailures st' = 1%nat
     ∧ storedIds (world st') = ["2"]
     ∧ telegramSends (history (world st')) = [])
  ∧ (let E := Scenario.env [Scenario.entry "2" "200"; Scenario.entry "1" "100"]
                Scenario.never (fun n => (n =? 3)%nat)
                Scenario.delivers Scenario.delivers (Normal true) in
     let '(c, w') := poll E Scenario.emptyWorld in
     c = Normal {| success := false; tweetsFound := 0; tweetsProcessed := 0;
                   results := []; pollError := Some "connection refused" |}
     ∧ telegramSends (history w') = [Scenario.tweet "1" 100]
     ∧ storedIds w' = ["1"]).
Proof.
  split; [| split].
  - split; [| by vm_compute].
    eexists _, _. split; by vm_compute.
  - vm_compute. split; [| by repeat split].
    eexists. split; [reflexivity |]. eexists. reflexivity.
  - by vm_compute.
Qed.

(** ** Deduplication *)



(** ** Dispatch order *)

Lemma process_normal_path (E : Env) (st : State) (tweets : list ParsedTweet)
    (w1 w2 : World) (existing : gset string) :
  fetchTweets E (world st) = (Normal tweets, w1) →
  TweetRepository.filterExisting E (map tw_id tweets) w1 = (Normal existing, w2) →
  existing ≠ ∅ ∨ (length (notIn existing tweets) ≤ 1)%nat →
  ∃ r st' d,
    ProcessRelay.process E st = (Normal r, st')
    ∧ history (world st') = history (world st) ++ d
    ∧ telegramSends d = notIn existing tweets
    ∧ discordSends d = notIn existing tweets
    ∧ (notIn existing tweets ≠ [] →
       consecutiveFailures st' = 0%nat
       ∧ ((alertSent st = true → (0 < consecutiveFailures st)%nat) →
          alertSent st' = false)).
Proof.
  intros Hf Hx Hn. rewrite process_eq, Hf. cbv zeta.
  destruct (fetchTweets_outcome E (world st))
    as (c & w1' & d1 & Hrun & Hh1 & (Hq1 & Hq1' & _) & _).
  rewrite Hf in Hrun. inversion Hrun; subst c w1'. clear Hrun.
  destruct (filterExisting_quiet E (map tw_id tweets) w1)
    as (c2 & w2' & d2 & Hrun2 & Hh2 & (Hq2 & Hq2' & _) & _).
  rewrite Hx in Hrun2. inversion Hrun2; subst c2 w2'. clear Hrun2.
  destruct (length tweets =? 0)%nat eqn:Hlen.
  { destruct tweets; [| discriminate]. do 2 eexists. eexists (_ :: d1).
    split; [reflexivity |]. split; [exact Hh1 |]. simpl. rewrite Hq1, Hq1'.
    by repeat split. }
  rewrite Hx.
  destruct (length (notIn existing tweets) =? 0)%nat eqn:Hfresh.
  { destruct (notIn existing tweets); [| discriminate].
    do 2 eexists. eexists ((_ :: d1) ++ d2). split; [reflexivity |].
    simpl. rewrite Hh2, Hh1, <- app_assoc. split; [done |].
    rewrite telegramSends_app, discordSends_app, Hq2, Hq2'. simpl.
    rewrite Hq1, Hq1'. by repeat split. }
  rewrite dispatch_normal by done.
  match goal with
  | |- context [forEach ?f (processSingleTweet E) ?s] =>
      destruct (forEach_processSingleTweet E f s)
        as (st3 & d3 & -> & Hc3 & Ha3 & Hh3 & Ht3 & Hd3 & _)
  end.
  simpl in Hh3, Hc3, Ha3. do 2 eexists. eexists ((_ :: d1) ++ d2 ++ d3).
  split; [reflexivity |]. rewrite resetStreak_world, Hh3, Hh2, Hh1, <- !app_assoc.
  split; [done |].
  rewrite !telegramSends_app, !discordSends_app, Hq2, Hq2', Ht3, Hd3. simpl.
  rewrite Hq1, Hq1'. split; [done |]. split; [done |].
  intros _. unfold resetStreak. rewrite Hc3.
  destruct (0 <? consecutiveFailures st)%nat eqn:Hpos; simpl.
  - by split.
  - apply Nat.ltb_ge in Hpos. split; [lia |]. intros Hinv. rewrite Ha3.
    destruct (alertSent st); [| done]. specialize (Hinv eq_refl). lia.
Qed.

Lemma sortByTime_three (t1 t2 t3 : ParsedTweet) (l : list ParsedTweet) :
  (tw_publishedAt t3 > tw_publishedAt t1)%Z →
  (tw_publishedAt t1 > tw_publishedAt t2)%Z →
  l ≡ₚ [t1; t2; t3] →
  RSSParser.sortByTime l = [t2; t1; t3].
Proof.
  intros H31 H12 Hp.
  apply (StronglySorted_unique_strong notNewer).
  - intros x y Hx Hy Hxy Hyx. unfold notNewer in *.
    rewrite sortByTime_Permutation, Hp in Hx.
    rewrite !elem_of_cons in Hx, Hy.
    destruct Hx as [-> | [-> | [-> | Hx]]]; [| | | by apply elem_of_nil in Hx].
    all: destruct Hy as [-> | [-> | [-> | Hy]]]; [| | | by apply elem_of_nil in Hy].
    all: first [reflexivity | lia].
  - apply sortByTime_sorted.
  - repeat constructor; unfold notNewer; lia.
  - rewrite sortByTime_Permutation, Hp. apply Permutation_swap.
Qed.

(** C8 (as amended): [toTweets] returns the surviving candidates sorted by
    publication time, oldest first; in every cycle of either service the
    Telegram sends are in that order; on the normal path of [process] (some
    candidate already stored, or at most one new candidate) both sinks
    receive exactly the new candidates in that order; and candidates with
    times T3 > T1 > T2, in whatever order the feed lists them, are sorted to
    T2, T1, T3. *)
Theorem dispatch_oldest_first (E : Env) :
  (∀ feed, StronglySorted notNewer (RSSParser.toTweets E feed)
           ∧ RSSParser.toTweets E feed ≡ₚ omap (RSSParser.rssItemToTweet E) (items feed))
  ∧ (∀ w, let '(_, w') := poll E w in
          StronglySorted notNewer (telegramSends (since (history w) (history w'))))
  ∧ (∀ st, let '(_, st') := ProcessRelay.process E st in
           StronglySorted notNewer
             (telegramSends (since (history (world st)) (history (world st')))))
  ∧ (∀ st tweets w1 w2 existing,
       fetchTweets E (world st) = (Normal tweets, w1) →
       TweetRepository.filterExisting E (map tw_id tweets) w1 = (Normal existing, w2) →
       existing ≠ ∅ ∨ (length (notIn existing tweets) ≤ 1)%nat →
       let '(_, st') := ProcessRelay.process E st in
       let d := since (history (world st)) (history (world st')) in
       telegramSends d = notIn existing tweets
       ∧ discordSends d = notIn existing tweets
       ∧ StronglySorted notNewer (notIn existing tweets))
  ∧ (∀ t1 t2 t3 l,
       (tw_publishedAt t3 > tw_publishedAt t1)%Z →
       (tw_publishedAt t1 > tw_publishedAt t2)%Z →
       l ≡ₚ [t1; t2; t3] →
       RSSParser.sortByTime l = [t2; t1; t3]).
Proof.
  split; [| split; [| split; [| split]]].
  - intros feed. split; [apply sortByTime_sorted | apply sortByTime_Permutation].
  - intros w. destruct (poll_history E w) as (r & w' & d & -> & Hh & _ & Hs).
    by rewrite Hh, since_app.
  - intros st. destruct (process_history E st) as (r & st' & d & -> & Hh & Hs).
    by rewrite Hh, since_app.
  - intros st tweets w1 w2 existing Hf Hx Hn.
    destruct (process_normal_path E st tweets w1 w2 existing Hf Hx Hn)
      as (r & st' & d & -> & Hh & Ht & Hd & _).
    cbv beta iota zeta. rewrite Hh, since_app. split; [done |]. split; [done |].
    eapply sorted_sublist; [apply notIn_sublist |].
    destruct (fetchTweets_outcome E (world st)) as (c & w1' & d1 & Hrun & _ & _ & _ & _ & Hs).
    rewrite Hf in Hrun. inversion Hrun; subst. by apply Hs.
  - intros t1 t2 t3 l. apply sortByTime_three.
Qed.

Lemma dispatch_oldest_first_witness :
  let E := Scenario.env
             [Scenario.entry "3" "300"; Scenario.entry "1" "200";
              Scenario.entry "2" "100"; Scenario.entry "0" "50"]
             Scenario.never Scenario.never
             Scenario.delivers Scenario.delivers (Normal true) in
  let st := start (Scenario.worldWith ["0"]) in
  let tweets := [Scenario.tweet "0" 50; Scenario.tweet "2" 100;
                 Scenario.tweet "1" 200; Scenario.tweet "3" 300] in
  let w1 := emit [FetchRSS (Normal "<rss/>")] (world st) in
  let existing : gset string := {[ "0" ]} in
  let w2 := emit [DbQuery (SelectIdIn ["0"; "2"; "1"; "3"]) (Normal [RowId "0"])]
              (setTable (table w1) w1) in
  (fetchTweets E (world st) = (Normal tweets, w1)
   ∧ TweetRepository.filterExisting E (map tw_id tweets) w1 = (Normal existing, w2)
   ∧ (existing ≠ ∅ ∨ (length (notIn existing tweets) ≤ 1)%nat))
  ∧ (let '(_, st') := ProcessRelay.process E st in
     let d := since (history (world st)) (history (world st')) in
     telegramSends d = notIn existing tweets
     ∧ discordSends d = notIn existing tweets
     ∧ StronglySorted notNewer (notIn existing tweets)).
Proof.
  assert (({[ "0" ]} : gset string) ≠ ∅) as Hne.
  { apply non_empty_singleton_L. }
  split; [split; [reflexivity | split; [reflexivity | by left]] |].
  exact (proj1 (proj2 (proj2 (proj2 (dispatch_oldest_first
           (Scenario.env
              [Scenario.entry "3" "300"; Scenario.entry "1" "200";
               Scenario.entry "2" "100"; Scenario.entry "0" "50"]
              Scenario.never Scenario.never
              Scenario.delivers Scenario.delivers (Normal true))))))
           (start (Scenario.worldWith ["0"])) _ _ _ _
           eq_refl eq_refl (or_introl Hne)).
Defined.

(** C8, the claim as stated: with published times T3 = 300 > T1 = 200 >
    T2 = 100 the posts are dispatched in the order T2, T1, T3, not T1, T2,
    T3, by [poll] and by the normal path of [process]. *)
Lemma dispatch_order_counterexample :
  let t1 := Scenario.tweet "1" 200 in
  let t2 := Scenario.tweet "2" 100 in
  let t3 := Scenario.tweet "3" 300 in
  let E := Scenario.env
             [Scenario.entry "3" "300"; Scenario.entry "1" "200";
              Scenario.entry "2" "100"; Scenario.entry "0" "50"]
             Scenario.never Scenario.never
             Scenario.delivers Scenario.delivers (Normal true) in
  (tw_publishedAt t3 > tw_publishedAt t1)%Z
  ∧ (tw_publishedAt t1 > tw_publishedAt t2)%Z
  ∧ telegramSends (history (poll E (Scenario.worldWith ["0"])).2) = [t2; t1; t3]
  ∧ telegramSends
      (history (world (ProcessRelay.process E (start (Scenario.worldWith ["0"]))).2))
    = [t2; t1; t3]
  ∧ [t2; t1; t3] ≠ [t1; t2; t3].
Proof.
  cbv zeta. split; [reflexivity |]. split; [reflexivity |].
  split; [by vm_compute |]. split; [by vm_compute |]. discriminate.
Qed.

(** ** First run *)

(** On the first-run path no tweet but the head of the sorted candidates, the
    oldest one, reaches a sink. *)
Lemma first_run_sends_head (E : Env) (st : State) (tweets : list ParsedTweet)
    (w1 w2 : World) :
  fetchTweets E (world st) = (Normal tweets, w1) →
  TweetRepository.filterExisting E (map tw_id tweets) w1 = (Normal ∅, w2) →
  (1 < length tweets)%nat →
  ∃ first rest r st' d,
    tweets = first :: rest
    ∧ Forall (notNewer first) rest
    ∧ ProcessRelay.process E st = (Normal r, st')
    ∧ history (world st') = history (world st) ++ d
    ∧ telegramSends d `sublist_of` [first]
    ∧ discordSends d `sublist_of` [first].
Proof.
  intros Hf Hx Hlen.
  destruct (fetchTweets_outcome E (world st))
    as (c & w1' & d1 & Hrun & Hh1 & (Hq1 & Hq1' & _) & _ & _ & Hsorted).
  rewrite Hf in Hrun. inversion Hrun; subst c w1'. clear Hrun.
  destruct (filterExisting_quiet E (map tw_id tweets) w1)
    as (c2 & w2' & d2 & Hrun2 & Hh2 & (Hq2 & Hq2' & _) & _).
  rewrite Hx in Hrun2. inversion Hrun2; subst c2 w2'. clear Hrun2.
  assert (notIn ∅ tweets = tweets) as Hall.
  { unfold notIn. clear. induction tweets as [| t l IH]; simpl; [done |].
    rewrite bool_decide_eq_false_2 by set_solver. simpl. by rewrite IH. }
  destruct tweets as [| first rest]; [simpl in Hlen; lia |].
  destruct rest as [| second rest]; [simpl in Hlen; lia |].
  exists first, (second :: rest).
  specialize (Hsorted _ eq_refl). apply StronglySorted_inv in Hsorted as [_ Hmin].
  rewrite process_eq, Hf. cbv zeta.
  change ((length (first :: second :: rest) =? 0)%nat) with false. cbv iota.
  rewrite Hx, Hall.
  change ((length (first :: second :: rest) =? 0)%nat) with false. cbv iota.
  unfold dispatch. unfold_monad. cbn [result withResult withWorld totalFetched setNewTweets].
  rewrite size_empty.
  match goal with
  | |- context [if ?c then _ else _] => assert (c = true) as ->
  end.
  { cbn [totalFetched setTotalFetched]. by rewrite !Nat.eqb_refl. }
  cbv beta iota.
  match goal with
  | |- context [forEach (second :: rest) ?f ?s] =>
      destruct (forEach_markAsProcessed E (second :: rest) s)
        as (c3 & st3 & d3 & Hrun3 & _ & _ & _ & Hh3 & Ht3 & Hd3 & _)
  end.
  unfold bind, ret, ProcessRelay.inWorld in Hrun3. rewrite Hrun3. simpl in Hh3.
  destruct c3 as [[] | e].
  - destruct (processSingleTweet_spec E first st3)
      as (st4 & d4 & -> & _ & _ & _ & Hh4 & Ht4 & Hd4 & _).
    cbv beta iota. do 2 eexists. exists ((FetchRSS (nitterFetch E (history (world st))) :: d1) ++ d2 ++ d3 ++ d4).
    split; [done |]. split; [done |]. split; [reflexivity |].
    rewrite resetStreak_world. cbn [world withResult].
    rewrite Hh4, Hh3, Hh2, Hh1, <- !app_assoc. split; [done |].
    rewrite !telegramSends_app, !discordSends_app, Hq2, Hq2', Ht3, Hd3, Ht4, Hd4.
    simpl. by rewrite Hq1, Hq1'.
  - match goal with
    | |- context [onFailure E e ?s] =>
        destruct (onFailure_spec E e s)
          as (st4 & d4 & -> & _ & _ & _ & _ & _ & Hh4 & Ht4 & Hd4 & _)
    end.
    do 2 eexists. exists ((FetchRSS (nitterFetch E (history (world st))) :: d1) ++ d2 ++ d3 ++ d4).
    split; [done |]. split; [done |]. split; [reflexivity |].
    rewrite Hh4, Hh3, Hh2, Hh1, <- !app_assoc. split; [done |].
    rewrite !telegramSends_app, !discordSends_app, Hq2, Hq2', Ht3, Hd3, Ht4, Hd4.
    simpl. rewrite Hq1, Hq1'. split; apply sublist_nil_l.
Qed.

(** C1, the code at a first run with two tweets in the feed and an empty
    table: the tweet that is relayed is the one published at 100, the older
    one; the tweet published at 200, the most recent, is inserted into the
    table before any send and never reaches a sink. *)
Theorem first_run_relays_oldest :
  let older := Scenario.tweet "1" 100 in
  let newest := Scenario.tweet "2" 200 in
  let E := Scenario.env [Scenario.entry "2" "200"; Scenario.entry "1" "100"]
             Scenario.never Scenario.never
             Scenario.delivers Scenario.delivers (Normal true) in
  let '(c, st') := ProcessRelay.process E (start Scenario.emptyWorld) in
  let h := history (world st') in
  (tw_publishedAt older < tw_publishedAt newest)%Z
  ∧ c = Normal {| totalFetched := 2; newTweets := 1; telegramSuccess := 1;
                  telegramFailed := 0; discordSuccess := 1; discordFailed := 0;
                  errors := [] |}
  ∧ telegramSends h = [older]
  ∧ discordSends h = [older]
  ∧ writeAttempts h = ["2"; "1"]
  ∧ storedIds (world st') = ["2"; "1"].
Proof. by vm_compute. Qed.

(** ** Early returns and the failure streak *)

(** A cycle that returns early, on an empty feed or with nothing new, leaves
    the streak as it found it. *)
Lemma early_return_keeps_streak (E : Env) (st : State) (tweets : list ParsedTweet)
    (w1 : World) :
  fetchTweets E (world st) = (Normal tweets, w1) →
  (tweets = []
   ∨ ∃ existing w2,
       TweetRepository.filterExisting E (map tw_id tweets) w1 = (Normal existing, w2)
       ∧ notIn existing tweets = []) →
  ∃ r st',
    ProcessRelay.process E st = (Normal r, st')
    ∧ errors r = []
    ∧ consecutiveFailures st' = consecutiveFailures st
    ∧ alertSent st' = alertSent st.
Proof.
  intros Hf Hcase. rewrite process_eq, Hf. cbv zeta.
  destruct Hcase as [-> | (existing & w2 & Hx & Hnone)].
  - simpl. by do 2 eexists.
  - destruct (length tweets =? 0)%nat; [by do 2 eexists |].
    rewrite Hx, Hnone. simpl. by do 2 eexists.
Qed.

(** C2, the code on two early returns.  Two failed fetches are followed by a
    cycle that completes without any exception, on an empty feed in the first
    run and with nothing new in the second: the counter is still 2 after it,
    and the next failed fetch raises the alert for three failures in a row. *)
Theorem early_return_keeps_failure_count :
  let down := fun n => (n <? 2)%nat || (n =? 3)%nat in
  (let E := Scenario.env [] down Scenario.never
              Scenario.delivers Scenario.delivers (Normal true) in
   let '(_, st1) := ProcessRelay.process E (start Scenario.emptyWorld) in
   let '(_, st2) := ProcessRelay.process E st1 in
   let '(c3, st3) := ProcessRelay.process E st2 in
   let '(_, st4) := ProcessRelay.process E st3 in
   consecutiveFailures st2 = 2%nat
   ∧ c3 = Normal emptyResult
   ∧ consecutiveFailures st3 = 2%nat
   ∧ consecutiveFailures st4 = 3%nat ∧ alertSent st4 = true
   ∧ alertCalls (history (world st4)) = 1%nat)
  ∧ (let E := Scenario.env [Scenario.entry "1" "100"] down Scenario.never
                Scenario.delivers Scenario.delivers (Normal true) in
     let '(_, st1) := ProcessRelay.process E (start (Scenario.worldWith ["1"])) in
     let '(_, st2) := ProcessRelay.process E st1 in
     let '(c3, st3) := ProcessRelay.process E st2 in
     let '(_, st4) := ProcessRelay.process E st3 in
     consecutiveFailures st2 = 2%nat
     ∧ c3 = Normal (setTotalFetched 1 emptyResult)
     ∧ consecutiveFailures st3 = 2%nat
     ∧ consecutiveFailures st4 = 3%nat ∧ alertSent st4 = true
     ∧ alertCalls (history (world st4)) = 1%nat).
Proof. by vm_compute. Qed.

(** * Further properties *)

Local Arguments String.append !s1 s2 : simpl nomatch.

(** ** Strings *)

Lemma append_nil_r (s : string) : s +:+ "" = s.
Proof. induction s as [| c s IH]; simpl; [done | by rewrite IH]. Qed.

Lemma append_assoc (a b c : string) : (a +:+ b) +:+ c = a +:+ b +:+ c.
Proof. induction a as [| x a IH]; simpl; [done | by rewrite IH]. Qed.

Lemma prefix_append (p r : string) : String.prefix p (p +:+ r) = true.
Proof.
  induction p as [| c p IH]; simpl; [by destruct r |].
  destruct (ascii_dec c c); [done | congruence].
Qed.

Lemma prefix_inv (p s : string) :
  String.prefix p s = true → ∃ r, s = p +:+ r.
Proof.
  revert s. induction p as [| c p IH]; intros s H; simpl in *.
  - exists s. by destruct s.
  - destruct s as [| d s]; simpl in H; [done |].
    destruct (ascii_dec c d) as [-> |]; [| done].
    destruct (IH s H) as [r ->]. by exists r.
Qed.

Lemma strDrop_append (p r : string) : strDrop (String.length p) (p +:+ r) = r.
Proof. induction p as [| c p IH]; simpl; [by destruct r | done]. Qed.

Lemma takeDigits_split (s : string) :
  ∃ rest, s = takeDigits s +:+ rest ∧ startsWithDigit rest = false
          ∧ allDigits (takeDigits s) = true.
Proof.
  induction s as [| c s (rest & Hs & Hr & Hd)]; simpl.
  - by exists "".
  - destruct (isDigit c) eqn:Hc; simpl.
    + exists rest. rewrite Hc, Hd. by rewrite <- Hs.
    + exists (String c s). simpl. by rewrite Hc.
Qed.

Lemma takeDigits_append (d rest : string) :
  allDigits d = true → startsWithDigit rest = false →
  takeDigits (d +:+ rest) = d.
Proof.
  induction d as [| c d IH]; simpl; intros Hd Hr.
  - destruct rest as [| x rest]; [done |]. simpl in *. by rewrite Hr.
  - apply andb_true_iff in Hd as [Hc Hd]. rewrite Hc. by rewrite IH.
Qed.

(** ** The tweet id of a link *)

Lemma extractTweetId_sound (l i : string) :
  RSSParser.extractTweetId l = Some i →
  i ≠ "" ∧ allDigits i = true
  ∧ ∃ pre post, l = pre +:+ "/status/" +:+ i +:+ post
                ∧ startsWithDigit post = false.
Proof.
  revert i. induction l as [| c l IH]; intros i H; [done |].
  unfold RSSParser.extractTweetId in H. fold RSSParser.extractTweetId in H.
  destruct (String.prefix "/status/" (String c l)) eqn:Hp.
  - apply prefix_inv in Hp as [r Hr]. rewrite Hr in H.
    change 8%nat with (String.length "/status/") in H.
    rewrite strDrop_append in H.
    destruct (takeDigits_split r) as (post & Hs & Hpost & Hd).
    destruct (isEmpty (takeDigits r)) eqn:He; simpl in H.
    + destruct l as [| c' l']; [done |].
      destruct (IH i H) as (Hne & Hdi & pre & post' & -> & Hpost').
      split; [done |]. split; [done |]. by exists (String c pre), post'.
    + assert (i = takeDigits r) as -> by congruence.
      split; [by destruct (takeDigits r) |]. split; [done |].
      exists "", post. rewrite Hr. simpl. split; [| done]. by rewrite <- Hs.
  - simpl in H. destruct l as [| c' l']; [done |].
    destruct (IH i H) as (Hne & Hdi & pre & post' & -> & Hpost').
    split; [done |]. split; [done |]. by exists (String c pre), post'.
Qed.

Lemma extractTweetId_complete (pre rest : string) :
  startsWithDigit rest = true →
  ∃ i, RSSParser.extractTweetId (pre +:+ "/status/" +:+ rest) = Some i.
Proof.
  intros Hd. induction pre as [| c pre IH].
  - destruct rest as [| d rest]; [done |]. simpl in Hd.
    eexists. simpl. rewrite Hd. simpl. reflexivity.
  - destruct IH as [i IH].
    change (String c pre +:+ "/status/" +:+ rest)
      with (String c (pre +:+ "/status/" +:+ rest)).
    unfold RSSParser.extractTweetId; fold RSSParser.extractTweetId.
    destruct (_ && _); eauto.
Qed.

(** ** What [toTweets] lets through *)

Lemma rssItemToTweet_spec (E : Env) (item : RSSItem) (t : ParsedTweet) :
  RSSParser.rssItemToTweet E item = Some t ↔
  RSSParser.extractTweetId (link item) = Some (tw_id t)
  ∧ dateParse E (pubDate item) = Some (tw_publishedAt t)
  ∧ tw_text t = RSSParser.cleanTweetText (title item)
  ∧ RSSParser.isRetweet (tw_text t) = false
  ∧ RSSParser.isReply (tw_text t) = false
  ∧ tw_link t = RSSParser.convertToTwitterLink (link item).
Proof.
  unfold RSSParser.rssItemToTweet, RSSParser.parseDate. split.
  - destruct (RSSParser.extractTweetId (link item)) as [i |]; [| done].
    destruct (dateParse E (pubDate item)) as [d |]; [| done].
    destruct (RSSParser.isRetweet _) eqn:Hrt; [done |].
    destruct (RSSParser.isReply _) eqn:Hrp; [done |].
    intros H. inversion H; subst t. simpl. by repeat split.
  - intros (Hi & Hd & Ht & Hrt & Hrp & Hl). rewrite Hi, Hd, <- Ht, Hrt, Hrp.
    destruct t; simpl in *. by subst.
Qed.

(** X1: a tweet is in the output of [toTweets] exactly when some feed item
    has an extractable status id, a date the runtime can parse and a cleaned
    title that is neither a retweet nor a reply; the tweet carries that id,
    that date, the cleaned title and the converted link.  Its id is a
    non-empty string of digits, and the output is never longer than the
    feed. *)
Theorem toTweets_exactly_the_usable_items (E : Env) (feed : RSSFeed) :
  (∀ t, t ∈ RSSParser.toTweets E feed ↔
        ∃ item, item ∈ items feed
          ∧ RSSParser.extractTweetId (link item) = Some (tw_id t)
          ∧ dateParse E (pubDate item) = Some (tw_publishedAt t)
          ∧ tw_text t = RSSParser.cleanTweetText (title item)
          ∧ RSSParser.isRetweet (tw_text t) = false
          ∧ RSSParser.isReply (tw_text t) = false
          ∧ tw_link t = RSSParser.convertToTwitterLink (link item))
  ∧ (∀ t, t ∈ RSSParser.toTweets E feed →
          tw_id t ≠ "" ∧ allDigits (tw_id t) = true)
  ∧ (length (RSSParser.toTweets E feed) ≤ length (items feed))%nat.
Proof.
  assert (∀ t, t ∈ RSSParser.toTweets E feed ↔
               ∃ item, item ∈ items feed ∧ RSSParser.rssItemToTweet E item = Some t)
    as Hmem.
  { intros t. unfold RSSParser.toTweets.
    rewrite sortByTime_Permutation, list_elem_of_omap. done. }
  split; [| split].
  - intros t. rewrite Hmem. split.
    + intros (item & Hin & Hsome). exists item. split; [done |].
      by apply rssItemToTweet_spec.
    + intros (item & Hin & Hrest). exists item. split; [done |].
      by apply rssItemToTweet_spec.
  - intros t Ht. apply Hmem in Ht as (item & _ & Hsome).
    apply rssItemToTweet_spec in Hsome as (Hi & _).
    apply extractTweetId_sound in Hi. tauto.
  - unfold RSSParser.toTweets. rewrite sortByTime_Permutation. clear Hmem.
    induction (items feed) as [| x l IH]; simpl; [done |].
    destruct (RSSParser.rssItemToTweet E x); simpl;
      [apply le_n_S, IH | apply le_S, IH].
Qed.

(** ** What [parse] returns *)

Lemma parseItem_spec (x : RSSItemXml) (item : RSSItem) :
  RSSParser.parseItem x = Some item →
  x_link x = Some (link item) ∧ x_pubDate x = Some (pubDate item)
  ∧ link item ≠ "" ∧ pubDate item ≠ ""
  ∧ title item = default "" (x_title x).
Proof.
  unfold RSSParser.parseItem.
  destruct (x_link x) as [l |]; [| done].
  destruct (x_pubDate x) as [d |]; [| done].
  destruct l as [| c l]; [done |]. destruct d as [| c' d]; [done |]. simpl.
  intros H. inversion H; subst item. simpl. by repeat split.
Qed.

(** X2: [parse] answers the empty feed for a blank document without asking
    the XML library; when it returns a feed the world is untouched and every
    item has a non-empty link and a non-empty date taken from one entry of
    the channel; it throws only when the XML library threw, and then with
    the message prefixed by "RSS parsing failed: ". *)
Theorem parse_outcomes (E : Env) (xml : string) (w : World) :
  (String.length (trim xml) = 0%nat →
   RSSParser.parse E xml w = (Normal RSSParser.emptyFeed, w))
  ∧ (∀ feed w', RSSParser.parse E xml w = (Normal feed, w') →
       w' = w
       ∧ ∀ item, item ∈ items feed →
           link item ≠ "" ∧ pubDate item ≠ ""
           ∧ ∃ parsed channel entries x,
               xmlParser E xml = Normal parsed
               ∧ rss_channel parsed = Some channel
               ∧ c_item channel = Some entries ∧ x ∈ entries
               ∧ x_link x = Some (link item) ∧ x_pubDate x = Some (pubDate item))
  ∧ (∀ e w', RSSParser.parse E xml w = (Throw e, w') →
       ∃ cause, xmlParser E xml = Throw cause
                ∧ e = ErrorObj ("RSS parsing failed: " +:+ errorMessage cause)
                ∧ w' = emit [LogError "Failed to parse RSS XML"] w).
Proof.
  unfold RSSParser.parse. split; [| split].
  - intros Hb. rewrite Hb. by rewrite orb_true_r.
  - intros feed w'.
    destruct (isEmpty xml || (String.length (trim xml) =? 0)%nat).
    { intros H. inversion H; subst. split; [done |]. intros item Hin.
      by apply elem_of_nil in Hin. }
    destruct (xmlParser E xml) as [parsed | cause] eqn:Hx; [| by unfold_monad].
    destruct (rss_channel parsed) as [channel |] eqn:Hc.
    + intros H. inversion H; subst. split; [done |]. intros item Hin. simpl in Hin.
      apply list_elem_of_omap in Hin as (x & Hin & Hx').
      destruct (c_item channel) as [entries |] eqn:Hi; simpl in Hin;
        [| by apply elem_of_nil in Hin].
      apply parseItem_spec in Hx' as (Hl & Hd & Hnl & Hnd & _).
      split; [done |]. split; [done |].
      exists parsed, channel, entries, x. by repeat split.
    + intros H. inversion H; subst. split; [done |]. intros item Hin.
      by apply elem_of_nil in Hin.
  - intros e w'.
    destruct (isEmpty xml || (String.length (trim xml) =? 0)%nat); [done |].
    destruct (xmlParser E xml) as [parsed | cause] eqn:Hx.
    + by destruct (rss_channel parsed).
    + unfold_monad. intros H. inversion H; subst. by exists cause.
Qed.

(** ** The cleaned text *)

Lemma string_length_ind (P : string → Prop) :
  (∀ s, (∀ r, (String.length r < String.length s)%nat → P r) → P s) →
  ∀ s, P s.
Proof.
  intros H s. remember (String.length s) as n eqn:Hn. revert s Hn.
  induction n as [n IH] using lt_wf_ind. intros s ->.
  apply H. intros r Hr. by apply (IH (String.length r)).
Qed.

Lemma isSpace_blank (c1 c2 : ascii) :
  isSpace1 " " = true ∧ isSpace2 c1 " " = false
  ∧ isSpace3 c1 " " c2 = false ∧ isSpace3 c1 c2 " " = false.
Proof.
  split; [reflexivity |]. split; [| split].
  - unfold isSpace2. change (nat_of_ascii " ") with 32%nat.
    by rewrite andb_false_r.
  - unfold isSpace3. change (nat_of_ascii " ") with 32%nat. cbv zeta.
    generalize (nat_of_ascii c1) (nat_of_ascii c2). intros n m.
    change (32 =? 154)%nat with false. change (32 =? 128)%nat with false.
    change (32 =? 129)%nat with false. change (32 =? 187)%nat with false.
    by rewrite !andb_false_r.
  - unfold isSpace3. change (nat_of_ascii " ") with 32%nat. cbv zeta.
    generalize (nat_of_ascii c1) (nat_of_ascii c2). intros n m.
    change (32 =? 128)%nat with false. change (32 =? 159)%nat with false.
    change (32 =? 191)%nat with false. change (32 =? 168)%nat with false.
    change (32 =? 169)%nat with false. change (32 =? 175)%nat with false.
    change (128 <=? 32)%nat with false.
    by rewrite ?andb_false_r, ?orb_false_r, ?andb_false_l, ?andb_false_r.
Qed.

(** The cases of [afterSpace s]: [fin] closes each of them. *)
Ltac space_cases s fin :=
  let c1 := fresh "c" in
  let c2 := fresh "c" in
  let c3 := fresh "c" in
  let r1 := fresh "r" in
  let r2 := fresh "r" in
  let r3 := fresh "r" in
  destruct s as [| c1 r1]; [fin |];
  cbn [afterSpace trimStart allSpace collapseSpaces String.append];
  destruct (isSpace1 c1); [fin |];
  destruct r1 as [| c2 r2]; [fin |];
  cbn [String.append];
  destruct (isSpace2 c1 c2); [fin |];
  destruct r2 as [| c3 r3]; [fin |];
  cbn [String.append];
  destruct (isSpace3 c1 c2 c3); fin.

Lemma afterSpace_length (s r : string) :
  afterSpace s = Some r → (String.length r < String.length s)%nat.
Proof. space_cases s ltac:(try done; intros [= <-]; simpl; lia). Qed.

Lemma afterSpace_append (s r x : string) :
  afterSpace s = Some r → afterSpace (s +:+ x) = Some (r +:+ x).
Proof. space_cases s ltac:(try done; by intros [= <-]). Qed.

Lemma trimStart_eq (s : string) :
  trimStart s = match afterSpace s with Some r => trimStart r | None => s end.
Proof. space_cases s ltac:(done). Qed.

Lemma allSpace_eq (s : string) :
  allSpace s = match s with
               | EmptyString => true
               | String _ _ =>
                   match afterSpace s with Some r => allSpace r | None => false end
               end.
Proof. space_cases s ltac:(done). Qed.

Lemma collapseSpaces_eq (b : bool) (s : string) :
  collapseSpaces b s
  = match s with
    | EmptyString => EmptyString
    | String c r1 =>
        match afterSpace s with
        | Some r => if b then collapseSpaces true r
                    else String " " (collapseSpaces true r)
        | None => String c (collapseSpaces false r1)
        end
    end.
Proof. space_cases s ltac:(done). Qed.

Lemma startsWithSpace_blank (s : string) : startsWithSpace (String " " s) = true.
Proof. done. Qed.

Lemma looseSpaced_tail (c : ascii) (s : string) :
  looseSpaced (String c s) = true → looseSpaced s = true.
Proof. simpl. intros H. by apply andb_true_iff in H as [_ H]. Qed.

Lemma looseSpaced_afterSpace (s r : string) :
  afterSpace s = Some r → looseSpaced s = true → looseSpaced r = true.
Proof.
  space_cases s ltac:(try done; intros [= <-] H;
                      repeat (apply looseSpaced_tail in H); done).
Qed.

(** A character that starts no white space in the input starts none in the
    output either. *)
Lemma collapseSpaces_kept (c : ascii) (s : string) :
  afterSpace (String c s) = None →
  startsWithSpace (String c (collapseSpaces false s)) = false.
Proof.
  intros Hnone. unfold startsWithSpace.
  destruct (isSpace_blank c c) as (_ & Hb2 & _).
  rewrite (collapseSpaces_eq false s).
  destruct s as [| c2 r2].
  { simpl in *. by destruct (isSpace1 c). }
  destruct (afterSpace (String c2 r2)) as [r |] eqn:H2.
  { simpl. simpl in Hnone. destruct (isSpace1 c); [done |]. rewrite Hb2.
    destruct (collapseSpaces true r) as [| c3 ?]; [done |].
    by destruct (isSpace_blank c c3) as (_ & _ & -> & _). }
  rewrite (collapseSpaces_eq false r2).
  destruct r2 as [| c3 r3].
  { simpl in *. destruct (isSpace1 c); [done |]. by destruct (isSpace2 c c2). }
  destruct (afterSpace (String c3 r3)) as [r |] eqn:H3.
  - simpl. simpl in Hnone. destruct (isSpace1 c); [done |].
    destruct (isSpace2 c c2); [done |].
    by destruct (isSpace_blank c c2) as (_ & _ & _ & ->).
  - simpl. simpl in Hnone. destruct (isSpace1 c); [done |].
    destruct (isSpace2 c c2); [done |]. by destruct (isSpace3 c c2 c3).
Qed.

Lemma collapseSpaces_loose (b : bool) (s : string) :
  looseSpaced (collapseSpaces b s) = true
  ∧ (b = true → startsWithSpace (collapseSpaces b s) = false).
Proof.
  revert b. induction s as [s IH] using string_length_ind. intros b.
  rewrite collapseSpaces_eq. destruct s as [| c r1]; [done |].
  destruct (afterSpace (String c r1)) as [r |] eqn:Hs.
  - destruct (IH r (afterSpace_length _ _ Hs) true) as [H1 H2].
    destruct b; [split; [done | by intros _; apply H2] |].
    split; [| done].
    change (looseSpaced (String " " (collapseSpaces true r)))
      with ((if startsWithSpace (String " " (collapseSpaces true r))
             then Ascii.eqb " " " " && negb (startsWithSpace (collapseSpaces true r))
             else true) && looseSpaced (collapseSpaces true r)).
    by rewrite startsWithSpace_blank, H1, H2.
  - destruct (IH r1 ltac:(simpl; lia) false) as [H1 _].
    pose proof (collapseSpaces_kept c r1 Hs) as Hk.
    split; [| done].
    change (looseSpaced (String c (collapseSpaces false r1)))
      with ((if startsWithSpace (String c (collapseSpaces false r1))
             then Ascii.eqb c " " && negb (startsWithSpace (collapseSpaces false r1))
             else true) && looseSpaced (collapseSpaces false r1)).
    by rewrite Hk, H1.
Qed.

Lemma trimStart_loose (s : string) :
  looseSpaced s = true →
  looseSpaced (trimStart s) = true ∧ startsWithSpace (trimStart s) = false.
Proof.
  induction s as [s IH] using string_length_ind. intros H.
  rewrite trimStart_eq. destruct (afterSpace s) as [r |] eqn:Hs.
  - apply IH; [by apply afterSpace_length | by eapply looseSpaced_afterSpace].
  - split; [done |]. unfold startsWithSpace. by rewrite Hs.
Qed.

Lemma trimStart_id (s : string) : startsWithSpace s = false → trimStart s = s.
Proof.
  unfold startsWithSpace. rewrite trimStart_eq. by destruct (afterSpace s).
Qed.

Lemma allSpace_append (a x : string) :
  allSpace a = true → allSpace x = true → allSpace (a +:+ x) = true.
Proof.
  induction a as [a IH] using string_length_ind. intros Ha Hx.
  destruct a as [| c r1]; [by destruct x |].
  rewrite allSpace_eq in Ha. rewrite allSpace_eq.
  change (String c r1 +:+ x) with (String c (r1 +:+ x)).
  change (String c (r1 +:+ x)) with (String c r1 +:+ x) at 2.
  destruct (afterSpace (String c r1)) as [r |] eqn:Hs; [| done].
  rewrite (afterSpace_append _ _ x Hs).
  apply IH; [by apply afterSpace_length | done | done].
Qed.

Lemma trimEnd_split (s : string) :
  ∃ x, s = trimEnd s +:+ x ∧ allSpace x = true.
Proof.
  induction s as [| c s (x & Hs & Hx)]; [by exists "" |].
  cbn [trimEnd]. destruct (allSpace (String c s)) eqn:Ha.
  - by exists (String c s).
  - exists x. split; [| done]. simpl. by rewrite <- Hs.
Qed.

Lemma trimEnd_empty (s : string) : trimEnd s = "" → allSpace s = true.
Proof.
  destruct s as [| c s]; [done |]. cbn [trimEnd].
  by destruct (allSpace (String c s)).
Qed.

Lemma trimEnd_head (s : string) :
  startsWithSpace s = false → startsWithSpace (trimEnd s) = false.
Proof.
  unfold startsWithSpace. destruct (trimEnd_split s) as (x & Hs & _).
  destruct (afterSpace (trimEnd s)) as [r |] eqn:Hr; [| done].
  rewrite Hs at 1. by rewrite (afterSpace_append _ _ x Hr).
Qed.

Lemma trimEnd_idempotent (s : string) : trimEnd (trimEnd s) = trimEnd s.
Proof.
  induction s as [| c s IH]; [done |]. cbn [trimEnd].
  destruct (allSpace (String c s)) eqn:Ha; [done |]. cbn [trimEnd].
  destruct (allSpace (String c (trimEnd s))) eqn:Hb; [| by rewrite IH].
  destruct (trimEnd_split s) as (x & Hs & Hx).
  pose proof (allSpace_append _ _ Hb Hx) as H.
  change (String c (trimEnd s) +:+ x) with (String c (trimEnd s +:+ x)) in H.
  rewrite <- Hs in H. congruence.
Qed.

Lemma trimEnd_single (s : string) :
  looseSpaced s = true → singleSpaced (trimEnd s) = true.
Proof.
  induction s as [| c s IH]; [done |]. intros H.
  pose proof (looseSpaced_tail _ _ H) as Hs. specialize (IH Hs).
  cbn [trimEnd]. destruct (allSpace (String c s)) eqn:Ha; [done |].
  cbn [singleSpaced]. rewrite IH, andb_true_r.
  destruct (startsWithSpace (String c (trimEnd s))) eqn:Hw; [| done].
  assert (Hw' : startsWithSpace (String c s) = true).
  { destruct (startsWithSpace (String c s)) eqn:Hx; [done |].
    apply trimEnd_head in Hx. cbn [trimEnd] in Hx. rewrite Ha in Hx. congruence. }
  cbn [looseSpaced] in H. rewrite Hw' in H.
  apply andb_true_iff in H as [H _]. apply andb_true_iff in H as [Hblank Hnext].
  apply negb_true_iff in Hnext.
  rewrite Hblank, (trimEnd_head s Hnext). simpl.
  destruct (trimEnd s) eqn:He; [| done].
  apply trimEnd_empty in He. apply Ascii.eqb_eq in Hblank. subst c.
  rewrite allSpace_eq in Ha. simpl in Ha. congruence.
Qed.

(** X3: the cleaned text of a tweet has no leading and no trailing white
    space, the white space being JavaScript's; white space starts in it only
    at a blank that stands between two characters which start none, and
    trimming it again changes nothing. *)
Theorem cleanTweetText_is_tidy (t : string) :
  let c := RSSParser.cleanTweetText t in
  startsWithSpace c = false ∧ singleSpaced c = true ∧ trim c = c.
Proof.
  unfold RSSParser.cleanTweetText, trim.
  set (y := replaceAll "&#39;" "'" _).
  destruct (collapseSpaces_loose false y) as [Hl _].
  destruct (trimStart_loose _ Hl) as [Hl2 Hs2].
  cbv zeta. split; [by apply trimEnd_head |]. split; [by apply trimEnd_single |].
  rewrite (trimStart_id (trimEnd _)) by by apply trimEnd_head.
  apply trimEnd_idempotent.
Qed.

(** The no-break space and the byte order mark are white space: they are
    trimmed, collapsed into a blank, and make a body blank. *)
Example white_space_of_javascript :
  trim (Sample.nbsp +:+ " a" +:+ Sample.bom) = "a"
  ∧ RSSParser.cleanTweetText ("a" +:+ Sample.nbsp +:+ Sample.nbsp +:+ "b") = "a b"
  ∧ RSSParser.isReply (RSSParser.cleanTweetText (Sample.nbsp +:+ "@user hi")) = true
  ∧ RSSParser.isRetweet (RSSParser.cleanTweetText (Sample.bom +:+ "RT @user: hi"))
    = true
  ∧ NitterClient.isBlank Sample.nbsp = true.
Proof. vm_compute. by repeat split. Qed.

(** ** The converted link *)

Lemma takeNonSlash_split (s : string) :
  hasChar "/" (takeNonSlash s) = false
  ∧ ∃ rest, s = takeNonSlash s +:+ rest
            ∧ strDrop (String.length (takeNonSlash s)) s = rest.
Proof.
  induction s as [| c s (Hn & rest & Hs & Hd)]; simpl.
  - split; [done |]. by exists "".
  - destruct (Ascii.eqb c "/") eqn:Hc; simpl.
    + split; [done |]. by exists (String c s).
    + rewrite Hc, Hn. split; [done |]. exists rest. by rewrite <- Hs.
Qed.

Lemma takeDigits_all (d : string) : allDigits d = true → takeDigits d = d.
Proof.
  induction d as [| c d IH]; simpl; [done |]. intros H.
  apply andb_true_iff in H as [Hc Hd]. by rewrite Hc, IH.
Qed.

Lemma matchUserStatus_sound (l user status : string) :
  RSSParser.matchUserStatus l = Some (user, status) →
  user ≠ "" ∧ hasChar "/" user = false
  ∧ status ≠ "" ∧ allDigits status = true.
Proof.
  induction l as [| c l IH]; [done |].
  unfold RSSParser.matchUserStatus; fold RSSParser.matchUserStatus.
  cbv zeta.
  destruct (Ascii.eqb c "/" && negb (isEmpty (takeNonSlash l))
            && String.prefix "/status/"
                 (strDrop (String.length (takeNonSlash l)) l)
            && negb (isEmpty (takeDigits
                 (strDrop 8 (strDrop (String.length (takeNonSlash l)) l)))))
    eqn:Hm; [| exact IH].
  intros H. inversion H; subst user status. clear H.
  apply andb_true_iff in Hm as [Hm Hd]. apply andb_true_iff in Hm as [Hm Hp].
  apply andb_true_iff in Hm as [Hc Hu].
  destruct (takeNonSlash_split l) as (Hns & _).
  destruct (takeDigits_split
              (strDrop 8 (strDrop (String.length (takeNonSlash l)) l)))
    as (rest & _ & _ & Hall).
  split; [by destruct (takeNonSlash l) |]. split; [done |].
  split; [by destruct (takeDigits _) | done].
Qed.

Lemma extractTweetId_after_user (user status : string) :
  hasChar "/" user = false → status ≠ "" → allDigits status = true →
  RSSParser.extractTweetId (user +:+ "/status/" +:+ status) = Some status.
Proof.
  intros Hu Hne Hd. induction user as [| c user IH].
  - simpl. rewrite (takeDigits_all status Hd). by destruct status.
  - simpl in Hu. apply orb_false_iff in Hu as [Hc Hu].
    change (String c user +:+ "/status/" +:+ status)
      with (String c (user +:+ "/status/" +:+ status)).
    unfold RSSParser.extractTweetId; fold RSSParser.extractTweetId.
    assert (String.prefix "/status/" (String c (user +:+ "/status/" +:+ status))
            = false) as ->.
    { cbn [String.prefix]. destruct (ascii_dec "/" c) as [<- |]; [| done].
      by rewrite Ascii.eqb_refl in Hc. }
    cbn [andb]. by apply IH.
Qed.

Lemma no_status_match_at_user (user tail : string) :
  hasChar "/" user = false →
  String.prefix "/status/" (String "/" (user +:+ "/status/" +:+ tail))
  && negb (isEmpty (takeDigits
                      (strDrop 8 (String "/" (user +:+ "/status/" +:+ tail)))))
  = false.
Proof.
  intros Hu.
  destruct user as [| c1 [| c2 [| c3 [| c4 [| c5 [| c6 [| c7 user]]]]]]].
  all: repeat (cbn [String.prefix String.append];
               match goal with
               | |- context [ascii_dec ?a ?b] =>
                   destruct (ascii_dec a b) as [? | ?]; try congruence; try subst
               end).
  all: first [ vm_compute in Hu; discriminate Hu | vm_compute; reflexivity ].
Qed.

Lemma extractTweetId_skip (c : ascii) (s : string) :
  String.prefix "/status/" (String c s)
  && negb (isEmpty (takeDigits (strDrop 8 (String c s)))) = false →
  RSSParser.extractTweetId (String c s) = RSSParser.extractTweetId s.
Proof.
  intros H. unfold RSSParser.extractTweetId at 1; fold RSSParser.extractTweetId.
  by rewrite H.
Qed.

(** X4: when a link has the shape [/user/status/digits], the converted link
    is [https://x.com/user/status/digits] with a non-empty user name free of
    slashes and a non-empty run of digits, and the status id read back from
    the converted link is that run of digits. *)
Theorem convertToTwitterLink_keeps_status (l user status : string) :
  RSSParser.matchUserStatus l = Some (user, status) →
  RSSParser.convertToTwitterLink l
  = "https://x.com/" +:+ user +:+ "/status/" +:+ status
  ∧ user ≠ "" ∧ hasChar "/" user = false
  ∧ status ≠ "" ∧ allDigits status = true
  ∧ RSSParser.extractTweetId (RSSParser.convertToTwitterLink l) = Some status.
Proof.
  intros Hm. destruct (matchUserStatus_sound l user status Hm) as (Hu & Hs & Hd & Ha).
  unfold RSSParser.convertToTwitterLink. rewrite Hm.
  split; [done |]. do 4 (split; [done |]).
  cbn [String.append].
  do 13 (rewrite extractTweetId_skip;
         [| repeat (cbn [String.prefix];
                    match goal with
                    | |- context [ascii_dec ?a ?b] =>
                        destruct (ascii_dec a b); try congruence
                    end); reflexivity]).
  rewrite extractTweetId_skip by by apply no_status_match_at_user.
  by apply extractTweetId_after_user.
Qed.

Lemma convertToTwitterLink_keeps_status_witness :
  let l := "http://localhost:8080/btclight/status/1234567890#m" in
  RSSParser.matchUserStatus l = Some ("btclight", "1234567890")
  ∧ RSSParser.convertToTwitterLink l = "https://x.com/btclight/status/1234567890"
  ∧ RSSParser.extractTweetId (RSSParser.convertToTwitterLink l) = Some "1234567890".
Proof.
  split; [reflexivity |].
  pose proof (convertToTwitterLink_keeps_status
                "http://localhost:8080/btclight/status/1234567890#m"
                "btclight" "1234567890" eq_refl) as (H1 & _ & _ & _ & _ & H2).
  split; [exact H1 | exact H2].
Defined.

(** X5: a status id is extracted exactly when the link contains "/status/"
    followed by a digit; the id is then a non-empty run of digits that
    follows an occurrence of "/status/" and is not followed by a digit. *)
Theorem extractTweetId_characterization (l : string) :
  (∀ i, RSSParser.extractTweetId l = Some i →
        i ≠ "" ∧ allDigits i = true
        ∧ ∃ pre post, l = pre +:+ "/status/" +:+ i +:+ post
                      ∧ startsWithDigit post = false)
  ∧ (∀ pre rest, l = pre +:+ "/status/" +:+ rest →
                 startsWithDigit rest = true →
                 ∃ i, RSSParser.extractTweetId l = Some i).
Proof.
  split.
  - intros i. apply extractTweetId_sound.
  - intros pre rest -> Hd. by apply extractTweetId_complete.
Qed.

Lemma extractTweetId_characterization_witness :
  let l := "http://localhost:8080/btclight/status/1234567890#m" in
  RSSParser.extractTweetId l = Some "1234567890"
  ∧ ("1234567890" ≠ "" ∧ allDigits "1234567890" = true
     ∧ ∃ pre post, l = pre +:+ "/status/" +:+ "1234567890" +:+ post
                   ∧ startsWithDigit post = false).
Proof.
  split; [reflexivity |].
  exact (proj1 (extractTweetId_characterization
                  "http://localhost:8080/btclight/status/1234567890#m")
           "1234567890" eq_refl).
Defined.

Lemma toTweets_exactly_the_usable_items_witness :
  let t := Scenario.tweet "42" 1000 in
  t ∈ RSSParser.toTweets Sample.quietEnv Sample.feed
  ∧ (tw_id t ≠ "" ∧ allDigits (tw_id t) = true).
Proof.
  cbv zeta.
  assert (Scenario.tweet "42" 1000
            ∈ RSSParser.toTweets Sample.quietEnv Sample.feed) as Hin.
  { apply list_elem_of_here. }
  split; [exact Hin |].
  exact (proj1 (proj2 (toTweets_exactly_the_usable_items
                         Sample.quietEnv Sample.feed)) _ Hin).
Defined.

Lemma parse_outcomes_witness :
  let w := Scenario.emptyWorld in
  (String.length (trim "   ") = 0%nat
   ∧ RSSParser.parse Sample.oneEntryEnv "   " w = (Normal RSSParser.emptyFeed, w))
  ∧ (∃ feed, RSSParser.parse Sample.oneEntryEnv "<rss/>" w = (Normal feed, w)
             ∧ length (items feed) = 1%nat
             ∧ ∀ item, item ∈ items feed → link item ≠ "" ∧ pubDate item ≠ "").
Proof.
  cbv zeta. split.
  - split; [reflexivity |].
    exact (proj1 (parse_outcomes Sample.oneEntryEnv "   " Scenario.emptyWorld)
             eq_refl).
  - eexists. split; [reflexivity |]. split; [reflexivity |].
    intros item Hin.
    destruct (proj1 (proj2 (parse_outcomes Sample.oneEntryEnv "<rss/>"
                              Scenario.emptyWorld)) _ _ eq_refl) as [_ Hitems].
    destruct (Hitems item Hin) as (Hl & Hd & _). by split.
Defined.

(** ** Computations only extend the world *)

Lemma extends_refl (w : World) : extends w w.
Proof.
  repeat split; try done; exists []; by rewrite app_nil_r.
Qed.

Lemma extends_trans (w1 w2 w3 : World) :
  extends w1 w2 → extends w2 w3 → extends w1 w3.
Proof.
  intros ([a1 H1] & [d1 G1] & S1 & N1) ([a2 H2] & [d2 G2] & S2 & N2).
  repeat split.
  - exists (a1 ++ a2). by rewrite H2, H1, app_assoc.
  - exists (d1 ++ d2). by rewrite G2, G1, app_assoc.
  - congruence.
  - auto.
Qed.

Lemma extends_emit (evs : list Event) (w : World) : extends w (emit evs w).
Proof.
  repeat split; try done; [exists []; by rewrite app_nil_r | by exists evs].
Qed.

Lemma extends_stored (w w' : World) (i : string) :
  extends w w' → i ∈ storedIds w → i ∈ storedIds w'.
Proof.
  intros ([a H] & _) Hi. unfold storedIds in *. rewrite H, map_app.
  apply elem_of_app. by left.
Qed.

Section Along.
Context {S : Type} (R : S → S → Prop).
Hypothesis R_refl : ∀ s, R s s.
Hypothesis R_trans : ∀ s1 s2 s3, R s1 s2 → R s2 s3 → R s1 s3.

Lemma along_ret {A : Type} (a : A) : along R (ret a).
Proof. intros s. apply R_refl. Qed.

Lemma along_throw {A : Type} (e : Thrown) : along R (throw (A := A) e).
Proof. intros s. apply R_refl. Qed.

Lemma along_gets {A : Type} (f : S → A) : along R (gets f).
Proof. intros s. apply R_refl. Qed.

Lemma along_modify (f : S → S) : (∀ s, R s (f s)) → along R (modify f).
Proof. intros H s. apply H. Qed.

Lemma along_bind {A B : Type} (m : M S A) (k : A → M S B) :
  along R m → (∀ a, along R (k a)) → along R (bind m k).
Proof.
  intros Hm Hk s. unfold bind. specialize (Hm s).
  destruct (m s) as [[a | e] s1]; simpl in *; [| done].
  eapply R_trans; [exact Hm | apply Hk].
Qed.

Lemma along_tryCatch {A : Type} (m : M S A) (h : Thrown → M S A) :
  along R m → (∀ e, along R (h e)) → along R (tryCatch m h).
Proof.
  intros Hm Hh s. unfold tryCatch. specialize (Hm s).
  destruct (m s) as [[a | e] s1]; simpl in *; [done |].
  eapply R_trans; [exact Hm | apply Hh].
Qed.

Lemma along_forEach {A : Type} (xs : list A) (body : A → M S unit) :
  (∀ x, along R (body x)) → along R (forEach xs body).
Proof.
  intros Hb. induction xs as [| x xs IH]; simpl.
  - apply along_ret.
  - apply along_bind; [apply Hb | intros _; exact IH].
Qed.

End Along.

Lemma execQuery_extends (q : Query) (now : Z) (t : list TweetRecord) :
  (∃ added, (execQuery q now t).2 = t ++ added)
  ∧ (NoDup (map rec_id t) → NoDup (map rec_id (execQuery q now t).2)).
Proof.
  destruct q as [i | ids | i p]; simpl.
  - split; [exists []; by rewrite app_nil_r | done].
  - split; [exists []; by rewrite app_nil_r | done].
  - destruct (hasId i t) eqn:Hi; simpl.
    + split; [exists []; by rewrite app_nil_r | done].
    + split; [by eexists |]. intros Hn. rewrite map_app. simpl.
      apply NoDup_app. split; [done |]. split; [| apply NoDup_singleton].
      intros x Hx Hx'. apply list_elem_of_singleton in Hx'. subst x.
      by apply hasId_false in Hi.
Qed.

Lemma query_extends (E : Env) (q : Query) : along extends (query E q).
Proof.
  intros w. unfold query.
  destruct (isShuttingDown w) eqn:Hs; [apply extends_emit |].
  destruct (poolQuery E (history w) q); [apply extends_emit |].
  destruct (execQuery_extends q (pgNow E (history w)) (table w)) as [[a Ha] Hn].
  destruct (execQuery q (pgNow E (history w)) (table w)) as [rows t]. simpl in *.
  repeat split; simpl; try done; [by exists a | by eexists].
Qed.

Create HintDb along discriminated.

Ltac along :=
  repeat first
    [ progress intros
    | apply (along_ret extends extends_refl)
    | apply (along_throw extends extends_refl)
    | apply (along_gets extends extends_refl)
    | apply (along_bind extends extends_trans)
    | apply (along_tryCatch extends extends_trans)
    | apply (along_modify extends); apply extends_emit
    | apply query_extends
    | solve [auto with along]
    | match goal with
      | |- along _ (if ?c then _ else _) => destruct c
      | |- along _ (match ?x with _ => _ end) => destruct x
      end
    | progress cbv zeta ].

Lemma exists_extends (E : Env) (i : string) :
  along extends (TweetRepository.exists_ E i).
Proof. unfold TweetRepository.exists_. along. Qed.

Lemma filterExisting_extends (E : Env) (ids : list string) :
  along extends (TweetRepository.filterExisting E ids).
Proof. unfold TweetRepository.filterExisting. along. Qed.

Lemma markAsProcessed_extends (E : Env) (i : string) (p : Z) :
  along extends (TweetRepository.markAsProcessed E i p).
Proof. unfold TweetRepository.markAsProcessed. along. Qed.

Lemma fetchRSS_extends (E : Env) : along extends (fetchRSS E).
Proof. intros w. apply extends_emit. Qed.

Lemma telegramSend_extends (E : Env) (t : ParsedTweet) :
  along extends (telegramSend E t).
Proof. intros w. apply extends_emit. Qed.

Lemma discordSend_extends (E : Env) (t : ParsedTweet) :
  along extends (discordSend E t).
Proof. intros w. apply extends_emit. Qed.

Lemma sendAlert_extends (E : Env) (a b : string) : along extends (sendAlert E a b).
Proof. intros w. apply extends_emit. Qed.

Lemma sleep_extends (ms : Z) : along extends (sleep ms).
Proof. intros w. apply extends_emit. Qed.

Lemma logError_extends (msg : string) : along extends (logError msg).
Proof. intros w. apply extends_emit. Qed.

Lemma parse_extends (E : Env) (xml : string) : along extends (RSSParser.parse E xml).
Proof. unfold RSSParser.parse. along. Qed.

#[export] Hint Resolve exists_extends filterExisting_extends markAsProcessed_extends
  fetchRSS_extends telegramSend_extends discordSend_extends sendAlert_extends
  sleep_extends logError_extends parse_extends : along.

Lemma processTweet_extends (E : Env) (t : ParsedTweet) :
  along extends (processTweet E t).
Proof. unfold processTweet. along. Qed.

#[export] Hint Resolve processTweet_extends : along.

Lemma processAll_extends (E : Env) (tweets : list ParsedTweet) :
  along extends (processAll E tweets).
Proof. induction tweets as [| t rest IH]; simpl; along. Qed.

#[export] Hint Resolve processAll_extends : along.

Lemma poll_extends (E : Env) : along extends (poll E).
Proof. unfold poll. along. Qed.

Lemma extendsState_refl (st : State) : extendsState st st.
Proof. apply extends_refl. Qed.

Lemma extendsState_trans (s1 s2 s3 : State) :
  extendsState s1 s2 → extendsState s2 s3 → extendsState s1 s3.
Proof. apply extends_trans. Qed.

Lemma inWorld_extends {A : Type} (m : M World A) :
  along extends m → along extendsState (inWorld m).
Proof.
  intros H st. unfold inWorld, extendsState. specialize (H (world st)).
  by destruct (m (world st)) as [c w].
Qed.

Lemma updResult_extends (f : ProcessingResult → ProcessingResult) :
  along extendsState (updResult f).
Proof. intros st. apply extends_refl. Qed.

Lemma setStreak_extends (n : nat) (b : bool) : along extendsState (setStreak n b).
Proof. intros st. apply extends_refl. Qed.

Ltac alongState :=
  repeat first
    [ progress intros
    | apply (along_ret extendsState extendsState_refl)
    | apply (along_throw extendsState extendsState_refl)
    | apply (along_gets extendsState extendsState_refl)
    | apply (along_bind extendsState extendsState_trans)
    | apply (along_tryCatch extendsState extendsState_trans)
    | apply (along_forEach extendsState extendsState_refl extendsState_trans)
    | apply updResult_extends
    | apply setStreak_extends
    | apply inWorld_extends; solve [auto with along]
    | solve [auto with along]
    | match goal with
      | |- along _ (if ?c then _ else _) => destruct c
      | |- along _ (match ?x with _ => _ end) => destruct x
      end
    | progress cbv zeta ].

Lemma processSingleTweet_extends (E : Env) (t : ParsedTweet) :
  along extendsState (processSingleTweet E t).
Proof. unfold processSingleTweet. alongState. Qed.

#[export] Hint Resolve processSingleTweet_extends : along.

Lemma sendNitterFailureAlert_extends (E : Env) (msg : string) :
  along extendsState (sendNitterFailureAlert E msg).
Proof. unfold sendNitterFailureAlert. alongState. Qed.

#[export] Hint Resolve sendNitterFailureAlert_extends : along.

Lemma process_extends (E : Env) : along extendsState (ProcessRelay.process E).
Proof. unfold ProcessRelay.process. alongState. Qed.

Lemma pollProcess_extends (E : Env) : along extends (PollRelay.process E).
Proof.
  unfold PollRelay.process.
  apply (along_bind extends extends_trans); [apply poll_extends |].
  intros r. apply (along_ret extends extends_refl).
Qed.

(** X6: a cycle of either service only appends to the table and to the
    history: no stored record is removed or changed, the pool's shutdown flag
    is left alone, and ids that were unique in the table are unique after. *)
Theorem cycles_only_append (E : Env) :
  (∀ w, extends w (poll E w).2)
  ∧ (∀ w, extends w (PollRelay.process E w).2)
  ∧ (∀ st, extends (world st) (world (ProcessRelay.process E st).2)).
Proof.
  split; [exact (poll_extends E) |].
  split; [exact (pollProcess_extends E) | exact (process_extends E)].
Qed.

(** ** The repository against the table *)

Lemma exists_reads (E : Env) (i : string) (w : World) :
  dbUp E w →
  ∃ w', TweetRepository.exists_ E i w = (Normal (hasId i (table w)), w')
        ∧ table w' = table w ∧ isShuttingDown w' = false.
Proof.
  intros [Hs Hp]. unfold TweetRepository.exists_, bind, query, ret.
  rewrite Hs, Hp. simpl.
  destruct (hasId i (table w)); eexists; (split; [reflexivity | done]).
Qed.

Lemma dbUp_extends (E : Env) (w w' : World) : dbUp E w → extends w w' → dbUp E w'.
Proof.
  intros [Hs Hp] (_ & _ & Hs' & _). split; [congruence | done].
Qed.

(** X7: while the database answers, both reads of the repository tell the
    truth about the table and leave it as it is: [exists] answers whether the
    id is stored, and [filterExisting] returns exactly those of the asked ids
    that are stored. *)
Theorem store_reads_agree (E : Env) (i : string) (ids : list string) (w : World) :
  dbUp E w →
  (∃ w', TweetRepository.exists_ E i w = (Normal (bool_decide (i ∈ storedIds w)), w')
         ∧ table w' = table w)
  ∧ (∃ ex w', TweetRepository.filterExisting E ids w = (Normal ex, w')
              ∧ table w' = table w
              ∧ ∀ j, j ∈ ex ↔ j ∈ ids ∧ j ∈ storedIds w).
Proof.
  intros Hup. split.
  - destruct (exists_reads E i w Hup) as (w' & Heq & Ht & _).
    exists w'. split; [| done]. rewrite Heq. do 2 f_equal.
    destruct (hasId i (table w)) eqn:Hi.
    + apply hasId_true in Hi. by rewrite bool_decide_eq_true_2.
    + apply hasId_false in Hi. by rewrite bool_decide_eq_false_2.
  - destruct ids as [| j0 ids].
    + exists ∅, w. split; [done |]. split; [done |]. intros j. split.
      * intros Hj. set_solver.
      * intros [Hj _]. by apply elem_of_nil in Hj.
    + destruct (filterExisting_outcomes E (j0 :: ids) w) as
        [(ex & rows & Heq & _ & _ & Hex) | (e & logs & Heq & _ & [Hs | Hq])];
        [done | | |].
      * exists ex. eexists. split; [exact Heq |]. split; [done | exact Hex].
      * destruct Hup as [Hs' _]. congruence.
      * destruct Hup as [_ Hp]. rewrite Hp in Hq. discriminate.
Qed.

Lemma store_reads_agree_witness :
  let E := Sample.quietEnv in
  let w := Scenario.worldWith ["3"; "5"] in
  dbUp E w
  ∧ (∃ w', TweetRepository.exists_ E "5" w
           = (Normal (bool_decide ("5" ∈ storedIds w)), w')
           ∧ table w' = table w)
  ∧ (∃ ex w', TweetRepository.filterExisting E ["5"; "7"] w = (Normal ex, w')
              ∧ table w' = table w
              ∧ ∀ j, j ∈ ex ↔ j ∈ ["5"; "7"] ∧ j ∈ storedIds w).
Proof.
  intros E w.
  assert (Hup : dbUp E w) by (split; [reflexivity | intros h q; reflexivity]).
  split; [exact Hup |]. exact (store_reads_agree E "5" ["5"; "7"] w Hup).
Defined.

(** X8: the first write wins. While the database answers, marking an id
    appends one record with the given publication time when the id is not
    stored and changes nothing when it is; the call reports which of the two
    happened; and afterwards both reads find the id. *)
Theorem mark_then_read (E : Env) (i : string) (p : Z) (w : World) :
  dbUp E w →
  let '(r1, w1) := TweetRepository.markAsProcessed E i p w in
  let '(r2, w2) := TweetRepository.exists_ E i w1 in
  let '(r3, w3) := TweetRepository.filterExisting E [i] w2 in
  r1 = Normal (negb (bool_decide (i ∈ storedIds w)))
  ∧ (i ∈ storedIds w → table w1 = table w)
  ∧ (i ∉ storedIds w →
     table w1 = table w ++ [{| rec_id := i; published_at := p;
                               created_at := pgNow E (history w) |}])
  ∧ r2 = Normal true
  ∧ r3 = Normal {[ i ]}
  ∧ table w3 = table w1.
Proof.
  intros Hup. pose proof Hup as [Hs Hp].
  assert (H1 : ∃ w1, TweetRepository.markAsProcessed E i p w
                     = (Normal (negb (bool_decide (i ∈ storedIds w))), w1)
                     ∧ (i ∈ storedIds w → table w1 = table w)
                     ∧ (i ∉ storedIds w →
                        table w1 = table w ++ [{| rec_id := i; published_at := p;
                                                  created_at := pgNow E (history w) |}])
                     ∧ i ∈ storedIds w1 ∧ isShuttingDown w1 = false).
  { destruct (decide (i ∈ storedIds w)) as [Hin | Hout].
    - rewrite (markAsProcessed_present E i p w Hs (Hp _ _) Hin).
      eexists. split; [by rewrite bool_decide_eq_true_2 |]. simpl.
      repeat split; try done.
    - rewrite (markAsProcessed_fresh E i p w Hs (Hp _ _) Hout).
      eexists. split; [by rewrite bool_decide_eq_false_2 |]. simpl.
      repeat split; try done.
      unfold storedIds. simpl. rewrite map_app. apply elem_of_app. right.
      simpl. apply list_elem_of_here. }
  destruct H1 as (w1 & -> & Hin & Hout & Hi1 & Hs1).
  assert (Hup1 : dbUp E w1) by done.
  destruct (exists_reads E i w1 Hup1) as (w2 & -> & Ht2 & Hs2).
  assert (Hup2 : dbUp E w2) by done.
  destruct (filterExisting_outcomes E [i] w2) as
    [(ex & rows & -> & _ & _ & Hex) | (e & logs & _ & _ & [Hs' | Hq])]; [done | | |].
  - split; [done |]. split; [done |]. split; [done |]. split.
    + do 2 f_equal. by apply hasId_true.
    + split; [| simpl; done]. f_equal. apply set_eq. intros j.
      rewrite Hex, elem_of_singleton, list_elem_of_singleton.
      unfold storedIds. rewrite Ht2. split; [by intros [? ?] |].
      intros ->. done.
  - congruence.
  - rewrite Hp in Hq. discriminate.
Qed.

Lemma mark_then_read_witness :
  let E := Sample.quietEnv in
  let w := Scenario.worldWith ["3"] in
  dbUp E w
  ∧ (let '(r1, w1) := TweetRepository.markAsProcessed E "7" 100 w in
     let '(r2, w2) := TweetRepository.exists_ E "7" w1 in
     let '(r3, w3) := TweetRepository.filterExisting E ["7"] w2 in
     r1 = Normal (negb (bool_decide ("7" ∈ storedIds w)))
     ∧ ("7" ∈ storedIds w → table w1 = table w)
     ∧ ("7" ∉ storedIds w →
        table w1 = table w ++ [{| rec_id := "7"; published_at := 100;
                                  created_at := pgNow E (history w) |}])
     ∧ r2 = Normal true
     ∧ r3 = Normal {[ "7" ]}
     ∧ table w3 = table w1).
Proof.
  intros E w.
  assert (Hup : dbUp E w) by (split; [reflexivity | intros h q; reflexivity]).
  split; [exact Hup |]. exact (mark_then_read E "7" 100 w Hup).
Defined.

(** ** One tweet, seen from the events *)

Lemma processTweet_block (E : Env) (t : ParsedTweet) (w : World) :
  ∃ c w' d,
    processTweet E t w = (c, w')
    ∧ history w' = history w ++ d
    ∧ telegramSends d `sublist_of` [t]
    ∧ discordSends d `sublist_of` [t]
    ∧ (telegramSends d ≠ [] ∨ discordSends d ≠ [] → tw_id t ∉ storedIds w)
    ∧ (∀ t', sinkOk d t' → t' = t)
    ∧ (dbUp E w → sinksResolve E → sinkOk d t → tw_id t ∈ storedIds w')
    ∧ (∃ b, pace true d = Some b)
    ∧ (∀ ms, Sleep ms ∉ d)
    ∧ (∀ r, c = Normal r →
         tweetId r = tw_id t
         ∧ count isTelegramOk d = (if telegram r then 1 else 0)%nat
         ∧ count isTelegramKo d
           = (if negb (telegram r) && negb (skipped r) then 1 else 0)%nat
         ∧ count isDiscordOk d = (if discord r then 1 else 0)%nat
         ∧ count isDiscordKo d
           = (if negb (discord r) && negb (skipped r) then 1 else 0)%nat
         ∧ count isInsertNew d = (if dbSaved r then 1 else 0)%nat
         ∧ (dbSaved r = true → tw_id t ∈ storedIds w')
         ∧ (skipped r = true ↔ d = [DbQuery (SelectExists (tw_id t)) (Normal [RowOne])])
         ∧ (error r = None ∨ error r = Some "Both Telegram and Discord failed")
         ∧ (error r = None ↔ skipped r = true ∨ telegram r = true ∨ discord r = true)).
Proof.
  unfold processTweet, TweetRepository.exists_, TweetRepository.markAsProcessed,
    query, execQuery, telegramSend, discordSend, logError.
  unfold_monad. simpl.
  repeat (oracle; simpl).
  all: eexists; eexists; eexists; split; [reflexivity |]; simpl.
  all: repeat rewrite <- app_assoc; simpl.
  all: split; [reflexivity |].
  all: do 2 (split; [repeat constructor |]).
  all: split; [first [ intros _; by apply hasId_false | intros [? | ?]; done ] |].
  all: split; [unfold sinkOk; intros t'; set_solver |].
  all: split; [intros [Hs Hp] Hres Hok;
               try contradict_sinks Hres; try congruence;
               try (rewrite Hp in *; discriminate);
               try (unfold storedIds; simpl; rewrite map_app; simpl; set_solver);
               try (unfold sinkOk in Hok; exfalso; set_solver) |].
  all: split; [by eexists |].
  all: split; [intros ms; set_solver |].
  all: intros r Hr; try discriminate; inversion Hr; subst r; simpl.
  all: repeat split; try done; try (intros; discriminate);
         try (intros _; unfold storedIds; simpl; rewrite map_app; simpl; set_solver);
         try (by left); try (by right); try tauto; try naive_solver.
Qed.

(** ** Events in sequence *)

Lemma count_app (f : Event → bool) (a b : list Event) :
  count f (a ++ b) = (count f a + count f b)%nat.
Proof. unfold count. by rewrite List.filter_app, length_app. Qed.

Lemma sinkOk_app (a b : list Event) (t : ParsedTweet) :
  sinkOk (a ++ b) t ↔ sinkOk a t ∨ sinkOk b t.
Proof. unfold sinkOk. rewrite !elem_of_app. tauto. Qed.

Lemma pace_app (b : bool) (a c : list Event) :
  pace b (a ++ c) = match pace b a with Some b' => pace b' c | None => None end.
Proof.
  revert b. induction a as [| e a IH]; intros b; [done |].
  destruct e; simpl; try apply IH. destruct b; [apply IH | done].
Qed.

Lemma bookkeeping_spec (d : list Event) :
  bookkeeping d →
  telegramSends d = [] ∧ discordSends d = [] ∧ writeAttempts d = []
  ∧ count isTelegramOk d = 0%nat ∧ count isTelegramKo d = 0%nat
  ∧ count isDiscordOk d = 0%nat ∧ count isDiscordKo d = 0%nat
  ∧ count isInsertNew d = 0%nat ∧ count isInsertKo d = 0%nat
  ∧ (∀ b, pace b d = Some b)
  ∧ (∀ t, ¬ sinkOk d t).
Proof.
  induction 1 as [| e d He _ IH]; [by repeat split; try done; intros t [H | H]; inversion H |].
  destruct IH as (I1 & I2 & I3 & I4 & I5 & I6 & I7 & I8 & I9 & I10 & I11).
  unfold count in *.
  destruct e as [r | q r | t r | t r | a b r | ms | msg]; try discriminate;
    try (destruct q; try discriminate); simpl.
  all: repeat split; try done.
  all: intros t [H | H]; apply elem_of_cons in H as [H | H]; try discriminate;
         apply (I11 t); (by left) || (by right).
Qed.

Lemma bookkeeping_app (a b : list Event) :
  bookkeeping a → bookkeeping b → bookkeeping (a ++ b).
Proof. apply Forall_app_2. Qed.

Lemma fetchTweets_bookkeeping (E : Env) (w : World) :
  ∃ c w1 d, fetchTweets E w = (c, w1)
            ∧ history w1 = history w ++ d ∧ bookkeeping d
            ∧ table w1 = table w ∧ isShuttingDown w1 = isShuttingDown w.
Proof.
  unfold fetchTweets, fetchRSS, bind, ret.
  destruct (nitterFetch E (history w)) as [xml | e] eqn:Hf.
  - destruct (parse_spec E xml (emit [FetchRSS (Normal xml)] w))
      as [[feed ->] | [e ->]].
    + do 3 eexists. split; [done |]. simpl. split; [done |].
      split; [| done]. by repeat constructor.
    + do 3 eexists. split; [done |]. simpl. rewrite <- app_assoc.
      split; [done |]. split; [| done]. by repeat constructor.
  - do 3 eexists. split; [done |]. simpl. split; [done |].
    split; [| done]. by repeat constructor.
Qed.

Lemma filterExisting_bookkeeping (E : Env) (ids : list string) (w : World) :
  ∃ c w' d, TweetRepository.filterExisting E ids w = (c, w')
            ∧ history w' = history w ++ d ∧ bookkeeping d
            ∧ table w' = table w ∧ isShuttingDown w' = isShuttingDown w
            ∧ (∀ ex, c = Normal ex → ∀ i, i ∈ ex → i ∈ ids ∧ i ∈ storedIds w)
            ∧ (∀ ex, c = Normal ex → ∀ i, i ∈ ids → i ∈ storedIds w → i ∈ ex).
Proof.
  destruct ids as [| j ids].
  - exists (Normal ∅), w, []. rewrite app_nil_r.
    split; [done |]. split; [done |]. split; [constructor |].
    split; [done |]. split; [done |].
    split; intros ex [= <-] i Hi; [set_solver | by apply elem_of_nil in Hi].
  - unfold TweetRepository.filterExisting, bind, ret, query. simpl.
    destruct (isShuttingDown w) eqn:Hs.
    + do 3 eexists. split; [done |]. simpl. split; [done |].
      split; [by repeat constructor |]. split; [done |]. split; [done |].
      split; intros ex [=].
    + destruct (poolQuery E (history w) (SelectIdIn (j :: ids))) eqn:Hq.
      * do 3 eexists. split; [done |]. simpl. split; [done |].
        split; [by repeat constructor |]. split; [done |]. split; [done |].
        split; intros ex [=].
      * do 3 eexists. split; [done |]. simpl. split; [done |].
        split; [by repeat constructor |]. split; [done |]. split; [done |].
        split; intros ex [= <-] i.
        -- rewrite elem_of_list_to_set. apply elem_of_filter_rows.
        -- intros H1 H2. rewrite elem_of_list_to_set. by apply elem_of_filter_rows.
Qed.

Lemma sends_own (l : list ParsedTweet) (t t' : ParsedTweet) :
  l `sublist_of` [t] → t' ∈ l → t' = t ∧ l ≠ [].
Proof.
  intros Hsub Hin. split.
  - eapply elem_of_sublist in Hin; [| exact Hsub]. by apply list_elem_of_singleton in Hin.
  - intros ->. by apply elem_of_nil in Hin.
Qed.

Lemma processAll_block (E : Env) (tweets : list ParsedTweet) (w : World) :
  ∃ c w' d,
    processAll E tweets w = (c, w')
    ∧ history w' = history w ++ d
    ∧ (∀ t, t ∈ telegramSends d ∨ t ∈ discordSends d →
            t ∈ tweets ∧ tw_id t ∉ storedIds w)
    ∧ (dbUp E w → sinksResolve E → ∀ t, sinkOk d t → tw_id t ∈ storedIds w')
    ∧ (∃ b, pace true d = Some b)
    ∧ (∀ rs, c = Normal rs →
         map tweetId rs = map tw_id tweets
         ∧ count isTelegramOk d = length (List.filter telegram rs)
         ∧ count isTelegramKo d
           = length (List.filter (fun r => negb (telegram r) && negb (skipped r)) rs)
         ∧ count isDiscordOk d = length (List.filter discord rs)
         ∧ count isDiscordKo d
           = length (List.filter (fun r => negb (discord r) && negb (skipped r)) rs)
         ∧ count isInsertNew d = length (List.filter dbSaved rs)
         ∧ Forall (fun r => (error r = None
                             ∨ error r = Some "Both Telegram and Discord failed")
                            ∧ (error r = None ↔ skipped r = true ∨ telegram r = true
                                                ∨ discord r = true)) rs).
Proof.
  revert w. induction tweets as [| t rest IH]; intros w; simpl.
  - exists (Normal []), w, []. rewrite app_nil_r. split; [done |]. split; [done |].
    split; [intros t [H | H]; by apply elem_of_nil in H |].
    split; [intros _ _ t [H | H]; by apply elem_of_nil in H |].
    split; [by eexists |].
    intros rs [= <-]. by repeat split.
  - unfold bind at 1.
    pose proof (processTweet_extends E t w) as Hext.
    destruct (processTweet_block E t w)
      as (c & w1 & d1 & Hrun & Hh & Ht & Hd & Hnew & Hown & Hsaved & [b1 Hb1] & Hnosleep & Hres).
    rewrite Hrun in *. simpl in Hext.
    destruct c as [r | e]; simpl.
    + unfold bind at 1.
      set (pause := if (0 <? length rest)%nat then sleep 1000 else ret tt).
      assert (∃ p, pause w1 = (Normal tt, emit p w1) ∧ bookkeeping (List.filter isBookkeeping p)
                   ∧ (p = [Sleep 1000] ∨ p = [] ∧ rest = []))
        as (p & -> & _ & Hp).
      { subst pause. destruct rest as [| t2 rest]; simpl.
        - exists []. unfold ret, emit. simpl. rewrite app_nil_r.
          split; [by destruct w1 |]. split; [constructor | by right].
        - exists [Sleep 1000]. split; [done |]. split; [constructor | by left]. }
      assert (Hext1 : extends w (emit p w1))
        by (eapply extends_trans; [exact Hext | apply extends_emit]).
      destruct (IH (emit p w1))
        as (c2 & w2 & d2 & Hrun2 & Hh2 & Hsend2 & Hsaved2 & [b2 Hb2] & Hres2).
      pose proof (processAll_extends E rest (emit p w1)) as Hext2.
      rewrite Hrun2 in Hext2. simpl in Hext2.
      unfold bind, ret. rewrite Hrun2. simpl in Hh2.
      exists (match c2 with Normal rs => Normal (r :: rs) | Throw e => Throw e end),
        w2, (d1 ++ p ++ d2).
      split; [by destruct c2 |].
      split; [by rewrite Hh2, Hh, <- !app_assoc |].
      assert (Hp_sends : telegramSends p = [] ∧ discordSends p = []
                         ∧ (∀ f, f (Sleep 1000) = false → count f p = 0%nat)
                         ∧ (∀ t', ¬ sinkOk p t')).
      { destruct Hp as [-> | [-> _]].
        - repeat split; try done.
          + intros f Hf. unfold count. simpl. by rewrite Hf.
          + intros t' [H | H]; apply list_elem_of_singleton in H; discriminate.
        - repeat split; try done. intros t' [H | H]; by apply elem_of_nil in H. }
      destruct Hp_sends as (Hp1 & Hp2 & Hp3 & Hp4).
      split.
      { intros t'. rewrite !telegramSends_app, !discordSends_app, Hp1, Hp2. simpl.
        rewrite !elem_of_app. intros [[H | H] | [H | H]].
        - destruct (sends_own _ _ _ Ht H) as [-> Hne].
          split; [apply list_elem_of_here |]. apply Hnew. by left.
        - destruct (Hsend2 t' (or_introl H)) as [Hin Hno].
          split; [by apply list_elem_of_further |].
          intros Hst. apply Hno. by eapply extends_stored.
        - destruct (sends_own _ _ _ Hd H) as [-> Hne].
          split; [apply list_elem_of_here |]. apply Hnew. by right.
        - destruct (Hsend2 t' (or_intror H)) as [Hin Hno].
          split; [by apply list_elem_of_further |].
          intros Hst. apply Hno. by eapply extends_stored. }
      split.
      { intros Hup Hsinks t'. rewrite !sinkOk_app. intros [H | [H | H]].
        - pose proof (Hown t' H) as ->.
          eapply extends_stored; [| by apply Hsaved].
          eapply extends_trans; [apply extends_emit | exact Hext2].
        - by apply Hp4 in H.
        - apply Hsaved2; [| done | done]. by eapply dbUp_extends. }
      split.
      { rewrite pace_app, Hb1. destruct Hp as [-> | [-> ->]].
        - simpl. rewrite orb_true_r. by eexists.
        - simpl in *. injection Hrun2 as <- <-.
          assert (d2 = []) as ->.
          { apply (f_equal length) in Hh2. rewrite !length_app in Hh2.
            simpl in Hh2. rewrite !length_app in Hh2.
            destruct d2; [done | simpl in Hh2; lia]. }
          by eexists. }
      intros rs Hrs. destruct c2 as [rs2 |]; [| discriminate].
      injection Hrs as <-.
      destruct (Hres r eq_refl) as (R0 & R1 & R2 & R3 & R4 & R5 & _ & _ & R8 & R9).
      destruct (Hres2 rs2 eq_refl) as (S0 & S1 & S2 & S3 & S4 & S5 & S6).
      rewrite !count_app, R1, R2, R3, R4, R5, S1, S2, S3, S4, S5, !Hp3 by done.
      simpl. rewrite R0, S0.
      split; [done |].
      split; [by destruct (telegram r) |].
      split; [by destruct (negb (telegram r) && negb (skipped r)) |].
      split; [by destruct (discord r) |].
      split; [by destruct (negb (discord r) && negb (skipped r)) |].
      split; [by destruct (dbSaved r) |].
      by constructor.
    + exists (Throw e), w1, d1. split; [done |]. split; [done |].
      split.
      { intros t' [H | H].
        - destruct (sends_own _ _ _ Ht H) as [-> Hne].
          split; [apply list_elem_of_here |]. apply Hnew. by left.
        - destruct (sends_own _ _ _ Hd H) as [-> Hne].
          split; [apply list_elem_of_here |]. apply Hnew. by right. }
      split; [intros Hup Hsinks t' H; pose proof (Hown t' H) as ->; by apply Hsaved |].
      split; [by eexists |]. intros rs [=].
Qed.

(** ** The shape of a cycle of [poll] *)

Lemma poll_shape (E : Env) (w : World) :
  ∃ r w' pre w2 fresh c d w3 post,
    poll E w = (Normal r, w')
    ∧ history w2 = history w ++ pre ∧ bookkeeping pre
    ∧ table w2 = table w ∧ isShuttingDown w2 = isShuttingDown w
    ∧ processAll E fresh w2 = (c, w3) ∧ history w3 = history w2 ++ d
    ∧ history w' = history w3 ++ post ∧ bookkeeping post
    ∧ table w' = table w3
    ∧ (success r = true →
         ∃ rs, c = Normal rs ∧ results r = rs
               ∧ tweetsProcessed r = length (List.filter dbSaved rs)
               ∧ (length fresh ≤ tweetsFound r)%nat ∧ pollError r = None)
    ∧ (success r = false →
         results r = [] ∧ tweetsFound r = 0%nat ∧ tweetsProcessed r = 0%nat
         ∧ ∃ e, pollError r = Some (errorMessage e)).
Proof.
  rewrite poll_eq.
  destruct (fetchTweets_bookkeeping E w) as (c1 & w1 & d1 & -> & Hh1 & Hb1 & Ht1 & Hs1).
  assert (Hnil : ∀ v, processAll E [] v = (Normal [], v)) by done.
  assert (Hr : ∀ v : World, history v = history v ++ [])
    by (intros v; by rewrite app_nil_r).
  destruct c1 as [tweets | e].
  2: { exists {| success := false; tweetsFound := 0; tweetsProcessed := 0;
                 results := []; pollError := Some (errorMessage e) |},
         (emit [LogError "Polling cycle failed"] w1), d1, w1, [], (Normal []), [], w1,
         [LogError "Polling cycle failed"].
       split; [done |]. do 4 (split; [done |]). split; [apply Hnil |].
       split; [apply Hr |]. split; [done |]. split; [by repeat constructor |].
       split; [done |]. split; [done |]. intros _. repeat split; by eauto. }
  destruct (length tweets =? 0)%nat eqn:Hlen.
  { exists {| success := true; tweetsFound := 0; tweetsProcessed := 0;
              results := []; pollError := None |},
      w1, d1, w1, [], (Normal []), [], w1, [].
    split; [done |]. do 4 (split; [done |]). split; [apply Hnil |].
    split; [apply Hr |]. split; [apply Hr |]. split; [constructor |].
    split; [done |]. split; [| done]. intros _. exists []. by repeat split. }
  destruct (filterExisting_bookkeeping E (map tw_id tweets) w1)
    as (c2 & w2 & d2 & -> & Hh2 & Hb2 & Ht2 & Hs2 & _).
  assert (Hpre : history w2 = history w ++ d1 ++ d2)
    by (by rewrite Hh2, Hh1, <- app_assoc).
  assert (Hbpre : bookkeeping (d1 ++ d2)) by (by apply bookkeeping_app).
  destruct c2 as [existing | e].
  2: { exists {| success := false; tweetsFound := 0; tweetsProcessed := 0;
                 results := []; pollError := Some (errorMessage e) |},
         (emit [LogError "Polling cycle failed"] w2), (d1 ++ d2), w2, [], (Normal []),
         [], w2, [LogError "Polling cycle failed"].
       split; [done |]. split; [done |]. split; [done |].
       split; [congruence |]. split; [congruence |]. split; [apply Hnil |].
       split; [apply Hr |]. split; [done |]. split; [by repeat constructor |].
       split; [done |]. split; [done |]. intros _. repeat split; by eauto. }
  simpl. destruct (length (notIn existing tweets) =? 0)%nat eqn:Hfresh.
  { exists {| success := true; tweetsFound := length tweets; tweetsProcessed := 0;
              results := []; pollError := None |},
      w2, (d1 ++ d2), w2, [], (Normal []), [], w2, [].
    split; [done |]. split; [done |]. split; [done |].
    split; [congruence |]. split; [congruence |]. split; [apply Hnil |].
    split; [apply Hr |]. split; [apply Hr |]. split; [constructor |].
    split; [done |]. split; [| done]. intros _. exists [].
    repeat split; try done. simpl. lia. }
  destruct (processAll_block E (notIn existing tweets) w2)
    as (c3 & w3 & d3 & Hrun & Hh3 & _).
  rewrite Hrun. destruct c3 as [rs | e].
  - do 2 eexists. exists (d1 ++ d2), w2, (notIn existing tweets), (Normal rs), d3, w3, [].
    split; [done |]. split; [done |]. split; [done |].
    split; [congruence |]. split; [congruence |]. split; [done |].
    split; [done |]. split; [apply Hr |]. split; [constructor |].
    split; [done |]. split; [| done]. intros _. exists rs.
    repeat split; try done. simpl. apply sublist_length, notIn_sublist.
  - do 2 eexists. exists (d1 ++ d2), w2, (notIn existing tweets), (Throw e), d3, w3,
      [LogError "Polling cycle failed"].
    split; [done |]. split; [done |]. split; [done |].
    split; [congruence |]. split; [congruence |]. split; [done |].
    split; [done |]. split; [done |]. split; [by repeat constructor |].
    split; [done |]. split; [done |]. intros _. repeat split; by eauto.
Qed.

(** ** One tweet and the dispatch of [process], seen from the events *)

Lemma sendless_spec (d : list Event) :
  sendless d →
  telegramSends d = [] ∧ discordSends d = []
  ∧ count isTelegramOk d = 0%nat ∧ count isTelegramKo d = 0%nat
  ∧ count isDiscordOk d = 0%nat ∧ count isDiscordKo d = 0%nat
  ∧ (∀ b, pace b d = Some b)
  ∧ (∀ t, ¬ sinkOk d t).
Proof.
  induction 1 as [| e d He _ IH];
    [by repeat split; try done; intros t [H | H]; inversion H |].
  destruct IH as (I1 & I2 & I3 & I4 & I5 & I6 & I7 & I8).
  unfold count in *.
  destruct e as [r | q r | t r | t r | a b r | ms | msg]; try discriminate; simpl.
  all: repeat split; try done.
  all: intros t [H | H]; apply elem_of_cons in H as [H | H]; try discriminate;
         apply (I8 t); (by left) || (by right).
Qed.

Lemma bookkeeping_sendless (d : list Event) : bookkeeping d → sendless d.
Proof.
  intros H. eapply Forall_impl; [exact H |].
  intros [r | [] r | t r | t r | a b r | ms | msg]; by simpl.
Qed.

Lemma sendless_app (a b : list Event) : sendless a → sendless b → sendless (a ++ b).
Proof. apply Forall_app_2. Qed.

Lemma count_sends (d : list Event) :
  (count isTelegramOk d + count isTelegramKo d)%nat = length (telegramSends d)
  ∧ (count isDiscordOk d + count isDiscordKo d)%nat = length (discordSends d).
Proof.
  unfold count. induction d as [| e d [IH1 IH2]]; [done |].
  destruct e as [r | q r | t [[|] | ?] | t [[|] | ?] | a b r | ms | msg]; simpl;
    split; lia.
Qed.

Lemma processSingleTweet_block (E : Env) (t : ParsedTweet) (st : State) :
  ∃ st' d,
    processSingleTweet E t st = (Normal tt, st')
    ∧ history (world st') = history (world st) ++ d
    ∧ telegramSends d = [t] ∧ discordSends d = [t]
    ∧ (∀ t', sinkOk d t' → t' = t)
    ∧ (dbUp E (world st) → sinkOk d t → tw_id t ∈ storedIds (world st'))
    ∧ pace true d = Some true
    ∧ consecutiveFailures st' = consecutiveFailures st
    ∧ alertSent st' = alertSent st
    ∧ totalFetched (result st') = totalFetched (result st)
    ∧ newTweets (result st') = newTweets (result st)
    ∧ telegramSuccess (result st')
      = (telegramSuccess (result st) + count isTelegramOk d)%nat
    ∧ telegramFailed (result st')
      = (telegramFailed (result st) + count isTelegramKo d)%nat
    ∧ discordSuccess (result st')
      = (discordSuccess (result st) + count isDiscordOk d)%nat
    ∧ discordFailed (result st')
      = (discordFailed (result st) + count isDiscordKo d)%nat
    ∧ length (errors (result st'))
      = (length (errors (result st)) + count isTelegramKo d + count isDiscordKo d
         + count isInsertKo d)%nat.
Proof.
  unfold processSingleTweet, TweetRepository.markAsProcessed, query, execQuery,
    telegramSend, discordSend, sleep, logError.
  unfold_monad. simpl.
  repeat (oracle; simpl).
  all: eexists; eexists; split; [reflexivity |]; simpl.
  all: repeat rewrite <- app_assoc; simpl.
  all: do 3 (split; [reflexivity |]).
  all: split; [unfold sinkOk; intros t'; set_solver |].
  all: split; [intros [Hs Hp] Hok; try congruence;
               try (rewrite Hp in *; discriminate);
               try (unfold storedIds; simpl; rewrite map_app; simpl; set_solver);
               try (by apply hasId_true);
               try (unfold sinkOk in Hok; exfalso; set_solver) |].
  all: unfold count; simpl; rewrite ?length_app; simpl.
  all: repeat split; try done; try lia.
Qed.

Lemma forEach_processSingleTweet_extends (E : Env) (tweets : list ParsedTweet) :
  along extendsState (forEach tweets (processSingleTweet E)).
Proof. alongState. Qed.

Lemma forEach_processSingleTweet_block (E : Env) (tweets : list ParsedTweet)
    (st : State) :
  ∃ st' d,
    forEach tweets (processSingleTweet E) st = (Normal tt, st')
    ∧ history (world st') = history (world st) ++ d
    ∧ telegramSends d = tweets ∧ discordSends d = tweets
    ∧ (dbUp E (world st) → ∀ t, sinkOk d t → tw_id t ∈ storedIds (world st'))
    ∧ pace true d = Some true
    ∧ consecutiveFailures st' = consecutiveFailures st
    ∧ alertSent st' = alertSent st
    ∧ totalFetched (result st') = totalFetched (result st)
    ∧ newTweets (result st') = newTweets (result st)
    ∧ telegramSuccess (result st')
      = (telegramSuccess (result st) + count isTelegramOk d)%nat
    ∧ telegramFailed (result st')
      = (telegramFailed (result st) + count isTelegramKo d)%nat
    ∧ discordSuccess (result st')
      = (discordSuccess (result st) + count isDiscordOk d)%nat
    ∧ discordFailed (result st')
      = (discordFailed (result st) + count isDiscordKo d)%nat
    ∧ length (errors (result st'))
      = (length (errors (result st)) + count isTelegramKo d + count isDiscordKo d
         + count isInsertKo d)%nat.
Proof.
  revert st. induction tweets as [| t rest IH]; intros st; simpl.
  - exists st, []. rewrite app_nil_r. unfold count. simpl.
    split; [done |]. split; [done |]. split; [done |]. split; [done |].
    split; [intros _ t [H | H]; by apply elem_of_nil in H |].
    repeat split; try done; lia.
  - unfold bind.
    pose proof (processSingleTweet_extends E t st) as Hext.
    destruct (processSingleTweet_block E t st)
      as (st1 & d1 & Hrun & Hh & Ht & Hd & Hown & Hsaved & Hp
          & A1 & A2 & A3 & A4 & A5 & A6 & A7 & A8 & A9).
    rewrite Hrun in *. simpl in Hext.
    pose proof (forEach_processSingleTweet_extends E rest st1) as Hext2.
    destruct (IH st1)
      as (st2 & d2 & Hrun2 & Hh2 & Ht2 & Hd2 & Hsaved2 & Hp2
          & B1 & B2 & B3 & B4 & B5 & B6 & B7 & B8 & B9).
    rewrite Hrun2 in *. simpl in Hext2.
    exists st2, (d1 ++ d2). split; [done |].
    split; [by rewrite Hh2, Hh, <- app_assoc |].
    rewrite telegramSends_app, discordSends_app, Ht, Hd, Ht2, Hd2.
    split; [done |]. split; [done |].
    split.
    { intros Hup t'. rewrite sinkOk_app. intros [H | H].
      - pose proof (Hown t' H) as ->.
        eapply extends_stored; [exact Hext2 | by apply Hsaved].
      - apply Hsaved2; [| done]. by eapply dbUp_extends. }
    split; [by rewrite pace_app, Hp |].
    rewrite !count_app. repeat split; try congruence; lia.
Qed.

Lemma markOlder_block (E : Env) (tweets : list ParsedTweet) (st : State) :
  ∃ c st' d,
    forEach tweets
      (fun tweet =>
         inWorld (TweetRepository.markAsProcessed E (tw_id tweet) (tw_publishedAt tweet)) ;;;
         ret tt) st = (c, st')
    ∧ history (world st') = history (world st) ++ d
    ∧ sendless d
    ∧ result st' = result st
    ∧ consecutiveFailures st' = consecutiveFailures st
    ∧ alertSent st' = alertSent st.
Proof.
  revert st. induction tweets as [| t rest IH]; intros st; simpl.
  - exists (Normal tt), st, []. rewrite app_nil_r. repeat split; try done. constructor.
  - assert (∃ c1 st1 d1,
      (inWorld (TweetRepository.markAsProcessed E (tw_id t) (tw_publishedAt t)) ;;;
       ret tt) st = (c1, st1)
      ∧ history (world st1) = history (world st) ++ d1 ∧ sendless d1
      ∧ result st1 = result st
      ∧ consecutiveFailures st1 = consecutiveFailures st
      ∧ alertSent st1 = alertSent st)
      as (c1 & st1 & d1 & Hrun & Hh & Hs & R & F & A).
    { unfold TweetRepository.markAsProcessed, query, execQuery.
      unfold_monad. simpl. repeat (oracle; simpl).
      all: do 3 eexists; split; [reflexivity |]; simpl.
      all: repeat rewrite <- app_assoc; simpl.
      all: split; [reflexivity |]; split; [by repeat constructor | done]. }
    unfold bind at 1. rewrite Hrun. destruct c1 as [[] | e].
    + destruct (IH st1) as (c2 & st2 & d2 & Hrun2 & Hh2 & Hs2 & R2 & F2 & A2).
      exists c2, st2, (d1 ++ d2). rewrite Hrun2. split; [done |].
      split; [by rewrite Hh2, Hh, <- app_assoc |].
      split; [by apply sendless_app |]. repeat split; congruence.
    + exists (Throw e), st1, d1. by repeat split.
Qed.

Lemma markOlder_extends (E : Env) (tweets : list ParsedTweet) :
  along extendsState
    (forEach tweets
       (fun tweet =>
          inWorld (TweetRepository.markAsProcessed E (tw_id tweet) (tw_publishedAt tweet)) ;;;
          ret tt)).
Proof. alongState. Qed.

Lemma dispatch_block (E : Env) (existing : gset string)
    (fresh : list ParsedTweet) (st : State) :
  ∃ c st' d,
    dispatch E existing fresh st = (c, st')
    ∧ history (world st') = history (world st) ++ d
    ∧ telegramSends d `sublist_of` fresh
    ∧ discordSends d = telegramSends d
    ∧ (dbUp E (world st) → ∀ t, sinkOk d t → tw_id t ∈ storedIds (world st'))
    ∧ (∃ b, pace true d = Some b)
    ∧ consecutiveFailures st' = consecutiveFailures st
    ∧ alertSent st' = alertSent st
    ∧ totalFetched (result st') = totalFetched (result st)
    ∧ (newTweets (result st) = length fresh →
       (length (telegramSends d) ≤ newTweets (result st')
        ∧ newTweets (result st') ≤ length fresh)%nat)
    ∧ telegramSuccess (result st')
      = (telegramSuccess (result st) + count isTelegramOk d)%nat
    ∧ telegramFailed (result st')
      = (telegramFailed (result st) + count isTelegramKo d)%nat
    ∧ discordSuccess (result st')
      = (discordSuccess (result st) + count isDiscordOk d)%nat
    ∧ discordFailed (result st')
      = (discordFailed (result st) + count isDiscordKo d)%nat
    ∧ (length (errors (result st)) + count isTelegramKo d + count isDiscordKo d
       ≤ length (errors (result st')))%nat.
Proof.
  assert (Hplain :
    ∃ c st' d,
      forEach fresh (processSingleTweet E) st = (c, st')
      ∧ history (world st') = history (world st) ++ d
      ∧ telegramSends d `sublist_of` fresh
      ∧ discordSends d = telegramSends d
      ∧ (dbUp E (world st) → ∀ t, sinkOk d t → tw_id t ∈ storedIds (world st'))
      ∧ (∃ b, pace true d = Some b)
      ∧ consecutiveFailures st' = consecutiveFailures st
      ∧ alertSent st' = alertSent st
      ∧ totalFetched (result st') = totalFetched (result st)
      ∧ (newTweets (result st) = length fresh →
         (length (telegramSends d) ≤ newTweets (result st')
          ∧ newTweets (result st') ≤ length fresh)%nat)
      ∧ telegramSuccess (result st')
        = (telegramSuccess (result st) + count isTelegramOk d)%nat
      ∧ telegramFailed (result st')
        = (telegramFailed (result st) + count isTelegramKo d)%nat
      ∧ discordSuccess (result st')
        = (discordSuccess (result st) + count isDiscordOk d)%nat
      ∧ discordFailed (result st')
        = (discordFailed (result st) + count isDiscordKo d)%nat
      ∧ (length (errors (result st)) + count isTelegramKo d + count isDiscordKo d
         ≤ length (errors (result st')))%nat).
  { destruct (forEach_processSingleTweet_block E fresh st)
      as (st' & d & Hrun & Hh & Ht & Hd & Hsaved & Hp
          & A1 & A2 & A3 & A4 & A5 & A6 & A7 & A8 & A9).
    exists (Normal tt), st', d. rewrite Ht, Hd.
    repeat split; try done; try lia. by eexists. }
  unfold dispatch, bind at 1, gets at 1.
  destruct ((size existing =? 0)%nat && (length fresh =? totalFetched (result st))%nat
            && (1 <? length fresh)%nat) eqn:Hfirst; [| exact Hplain].
  destruct fresh as [| latest older];
    [simpl in Hfirst; by rewrite andb_false_r in Hfirst |]. clear Hplain.
  assert (Hlen : (1 ≤ length older)%nat).
  { apply andb_prop in Hfirst as [_ H]. apply Nat.ltb_lt in H. simpl in H. lia. }
  unfold bind at 1.
  destruct (markOlder_block E older st) as (c1 & st1 & d1 & Hrun1 & Hh1 & Hs1 & R1 & F1 & A1).
  pose proof (sendless_spec d1 Hs1) as (S1 & S2 & S3 & S4 & S5 & S6 & S7 & S8).
  rewrite Hrun1. destruct c1 as [[] | e].
  - unfold bind at 1.
    pose proof (processSingleTweet_extends E latest st1) as Hext.
    destruct (processSingleTweet_block E latest st1)
      as (st2 & d2 & Hrun2 & Hh2 & Ht2 & Hd2 & Hown & Hsaved & Hp
          & B1 & B2 & B3 & B4 & B5 & B6 & B7 & B8 & B9).
    rewrite Hrun2. unfold updResult, modify. simpl.
    exists (Normal tt), (withResult (setNewTweets 1 (result st2)) st2), (d1 ++ d2).
    simpl. split; [done |]. split; [by rewrite Hh2, Hh1, <- app_assoc |].
    rewrite telegramSends_app, discordSends_app, S1, S2, Ht2, Hd2. simpl.
    split; [apply sublist_skip, sublist_nil_l |].
    split; [done |].
    split.
    { intros Hup t'. rewrite sinkOk_app. intros [H | H]; [by apply S8 in H |].
      pose proof (Hown t' H) as ->. apply Hsaved; [| done].
      destruct Hup as [Hs Hq]. split; [| done].
      assert (Hm : extendsState st st1).
      { pose proof (markOlder_extends E older st) as Hm. by rewrite Hrun1 in Hm. }
      destruct Hm as (_ & _ & Hsd & _). congruence. }
    split; [rewrite pace_app, S7, Hp; by eexists |].
    rewrite !count_app, S3, S4, S5, S6. simpl.
    repeat split; try congruence; try lia.
    rewrite B9, R1. lia.
  - exists (Throw e), st1, d1. split; [done |]. split; [done |].
    rewrite S1, S2, S3, S4, S5, S6, R1. simpl.
    split; [apply sublist_nil_l |]. split; [done |].
    split; [intros _ t' H; by apply S8 in H |].
    split; [rewrite S7; by eexists |].
    repeat split; try done; lia.
Qed.

(** ** The shape of a cycle of [process] *)

Lemma onFailure_bookkeeping (E : Env) (err : Thrown) (st : State) :
  ∃ st' d,
    onFailure E err st = (Normal (pushError (errorMessage err) (result st)), st')
    ∧ result st' = pushError (errorMessage err) (result st)
    ∧ history (world st') = history (world st) ++ d ∧ bookkeeping d
    ∧ table (world st') = table (world st).
Proof.
  unfold onFailure, sendNitterFailureAlert, sendAlert, logError.
  unfold_monad. destruct st as [w [| [| n]] [|] r]; simpl.
  all: repeat (oracle; simpl).
  all: eexists; eexists; split; [reflexivity |]; simpl.
  all: repeat rewrite <- app_assoc; simpl.
  all: split; [reflexivity |]; split; [reflexivity |].
  all: split; [by repeat constructor | reflexivity].
Qed.

Lemma dispatch_nil (E : Env) (existing : gset string) (st : State) :
  dispatch E existing [] st = (Normal tt, st).
Proof.
  unfold dispatch, bind, gets. simpl. by rewrite andb_false_r.
Qed.

Lemma process_shape (E : Env) (st : State) :
  ∃ r st' pre st2 existing fresh c st3 post,
    ProcessRelay.process E st = (Normal r, st') ∧ r = result st'
    ∧ history (world st2) = history (world st) ++ pre ∧ bookkeeping pre
    ∧ table (world st2) = table (world st)
    ∧ isShuttingDown (world st2) = isShuttingDown (world st)
    ∧ (∀ t, t ∈ fresh → tw_id t ∉ storedIds (world st))
    ∧ newTweets (result st2) = length fresh
    ∧ (length fresh ≤ totalFetched (result st2))%nat
    ∧ telegramSuccess (result st2) = 0%nat ∧ telegramFailed (result st2) = 0%nat
    ∧ discordSuccess (result st2) = 0%nat ∧ discordFailed (result st2) = 0%nat
    ∧ errors (result st2) = []
    ∧ dispatch E existing fresh st2 = (c, st3)
    ∧ history (world st') = history (world st3) ++ post ∧ bookkeeping post
    ∧ table (world st') = table (world st3)
    ∧ (result st' = result st3 ∨ ∃ msg, result st' = pushError msg (result st3)).
Proof.
  rewrite process_eq. cbv zeta.
  destruct (fetchTweets_bookkeeping E (world st))
    as (c1 & w1 & d1 & -> & Hh1 & Hb1 & Ht1 & Hs1).
  assert (Hr : ∀ v : World, history v = history v ++ [])
    by (intros v; by rewrite app_nil_r).
  assert (Hno : ∀ t : ParsedTweet, t ∈ [] → tw_id t ∉ storedIds (world st))
    by (intros t H; by apply elem_of_nil in H).
  destruct c1 as [tweets | e].
  2: { set (st2 := withWorld w1 (withResult emptyResult st)).
       destruct (onFailure_bookkeeping E e st2) as (st' & d & Hfail & Hres & Hh & Hb & Ht).
       rewrite Hfail, <- Hres.
       exists (result st'), st', d1, st2, ∅, [], (Normal tt), st2, d.
       split; [done |]. split; [done |]. split; [done |]. split; [done |].
       split; [done |]. split; [done |]. split; [exact Hno |].
       do 7 (split; [done |]). split; [apply dispatch_nil |].
       split; [done |]. split; [done |]. split; [done |]. right. by eexists. }
  destruct (length tweets =? 0)%nat eqn:Hlen.
  { set (st1 := withResult (setTotalFetched (length tweets) emptyResult)
                  (withWorld w1 (withResult emptyResult st))).
    exists (result st1), st1, d1, st1, ∅, [], (Normal tt), st1, [].
    split; [reflexivity |]. split; [done |]. simpl.
    split; [done |]. split; [done |]. split; [done |]. split; [done |].
    split; [exact Hno |]. split; [done |]. split; [lia |].
    do 5 (split; [done |]). split; [apply dispatch_nil |].
    split; [apply Hr |]. split; [constructor |]. split; [done |]. by left. }
  destruct (filterExisting_bookkeeping E (map tw_id tweets) w1)
    as (c2 & w2 & d2 & -> & Hh2 & Hb2 & Ht2 & Hs2 & _ & Hex).
  assert (Hpre : history w2 = history (world st) ++ d1 ++ d2)
    by (by rewrite Hh2, Hh1, <- app_assoc).
  assert (Hbpre : bookkeeping (d1 ++ d2)) by (by apply bookkeeping_app).
  destruct c2 as [existing | e].
  2: { set (st2 := withWorld w2
                     (withResult (setTotalFetched (length tweets) emptyResult)
                        (withWorld w1 (withResult emptyResult st)))).
       destruct (onFailure_bookkeeping E e st2) as (st' & d & Hfail & Hres & Hh & Hb & Ht).
       rewrite Hfail, <- Hres.
       exists (result st'), st', (d1 ++ d2), st2, ∅, [], (Normal tt), st2, d.
       split; [done |]. split; [done |]. split; [done |]. split; [done |].
       split; [simpl; congruence |]. split; [simpl; congruence |].
       split; [exact Hno |]. split; [done |]. split; [simpl; lia |].
       do 5 (split; [done |]). split; [apply dispatch_nil |].
       split; [done |]. split; [done |]. split; [done |]. right. by eexists. }
  set (fresh := notIn existing tweets).
  assert (Hfresh : ∀ t, t ∈ fresh → tw_id t ∉ storedIds (world st)).
  { intros t Hin Hst. unfold fresh, notIn in Hin.
    apply list_elem_of_In, List.filter_In in Hin as [Hin Hb].
    apply negb_true_iff, bool_decide_eq_false in Hb. apply Hb.
    apply (Hex existing eq_refl).
    - apply list_elem_of_fmap. exists t. split; [done | by apply list_elem_of_In].
    - unfold storedIds in *. by rewrite Ht1. }
  set (st2 := withResult _ (withWorld w2 _)).
  destruct (length fresh =? 0)%nat eqn:Hlf.
  { exists (result st2), st2, (d1 ++ d2), st2, existing, fresh, (Normal tt), st2, [].
    split; [done |]. split; [done |]. split; [done |]. split; [done |].
    split; [simpl; congruence |]. split; [simpl; congruence |].
    split; [exact Hfresh |]. split; [done |].
    split; [simpl; apply sublist_length, notIn_sublist |].
    do 5 (split; [done |]).
    split; [destruct fresh; [apply dispatch_nil | discriminate] |].
    split; [apply Hr |]. split; [constructor |]. split; [done |]. by left. }
  destruct (dispatch E existing fresh st2) as [[[] | e] st3] eqn:Hrun.
  - exists (result st3), (resetStreak st3), (d1 ++ d2), st2, existing, fresh,
      (Normal tt), st3, [].
    assert (Hrs : result (resetStreak st3) = result st3)
      by (unfold resetStreak; by destruct (0 <? consecutiveFailures st3)%nat).
    rewrite resetStreak_world, Hrs.
    split; [done |]. split; [done |]. split; [done |]. split; [done |].
    split; [simpl; congruence |]. split; [simpl; congruence |].
    split; [exact Hfresh |]. split; [done |].
    split; [simpl; apply sublist_length, notIn_sublist |].
    do 5 (split; [done |]). split; [done |].
    split; [apply Hr |]. split; [constructor |]. split; [done |]. by left.
  - destruct (onFailure_bookkeeping E e st3) as (st' & d & Hfail & Hres & Hh & Hb & Ht).
       rewrite Hfail, <- Hres.
    exists (result st'), st', (d1 ++ d2), st2, existing, fresh, (Throw e), st3, d.
    split; [done |]. split; [done |]. split; [done |]. split; [done |].
    split; [simpl; congruence |]. split; [simpl; congruence |].
    split; [exact Hfresh |]. split; [done |].
    split; [simpl; apply sublist_length, notIn_sublist |].
    do 5 (split; [done |]). split; [done |].
    split; [done |]. split; [done |]. split; [done |]. right. by eexists.
Qed.

(** ** Cycles, seen from the events *)

Lemma since_app3 (h a b c : list Event) :
  since h (((h ++ a) ++ b) ++ c) = a ++ b ++ c.
Proof. by rewrite <- !app_assoc, since_app. Qed.

Lemma poll_cycle (E : Env) (w : World) :
  ∃ r w' pre w2 fresh d w3 post,
    poll E w = (Normal r, w')
    ∧ since (history w) (history w') = pre ++ d ++ post
    ∧ bookkeeping pre ∧ bookkeeping post
    ∧ table w2 = table w ∧ isShuttingDown w2 = isShuttingDown w
    ∧ table w' = table w3
    ∧ (∀ t, t ∈ telegramSends d ∨ t ∈ discordSends d →
            t ∈ fresh ∧ tw_id t ∉ storedIds w2)
    ∧ (dbUp E w2 → sinksResolve E → ∀ t, sinkOk d t → tw_id t ∈ storedIds w3)
    ∧ (∃ b, pace true d = Some b)
    ∧ (success r = true →
         (length fresh ≤ tweetsFound r)%nat ∧ pollError r = None
         ∧ tweetsProcessed r = length (List.filter dbSaved (results r))
         ∧ map tweetId (results r) = map tw_id fresh
         ∧ count isTelegramOk d = length (List.filter telegram (results r))
         ∧ count isTelegramKo d
           = length (List.filter (fun r => negb (telegram r) && negb (skipped r))
                       (results r))
         ∧ count isDiscordOk d = length (List.filter discord (results r))
         ∧ count isDiscordKo d
           = length (List.filter (fun r => negb (discord r) && negb (skipped r))
                       (results r))
         ∧ count isInsertNew d = length (List.filter dbSaved (results r))
         ∧ Forall (fun r => (error r = None
                             ∨ error r = Some "Both Telegram and Discord failed")
                            ∧ (error r = None ↔ skipped r = true ∨ telegram r = true
                                                ∨ discord r = true)) (results r))
    ∧ (success r = false →
         results r = [] ∧ tweetsFound r = 0%nat ∧ tweetsProcessed r = 0%nat
         ∧ ∃ e, pollError r = Some (errorMessage e)).
Proof.
  destruct (poll_shape E w)
    as (r & w' & pre & w2 & fresh & c & d & w3 & post & Hpoll & Hh2 & Hbpre & Ht2 & Hs2
        & Hrun & Hh3 & Hh' & Hbpost & Ht' & Hok & Hko).
  destruct (processAll_block E fresh w2)
    as (c' & w3' & d' & Hrun' & Hh3' & Hsends & Hsaved & Hpace & Hres).
  rewrite Hrun in Hrun'. injection Hrun' as <- <-.
  assert (d' = d) as -> by (apply (app_inv_head (history w2)); congruence).
  exists r, w', pre, w2, fresh, d, w3, post.
  split; [done |]. split; [by rewrite Hh', Hh3, Hh2, since_app3 |].
  do 5 (split; [done |]). do 3 (split; [done |]).
  split; [| done]. intros Hs. destruct (Hok Hs) as (rs & -> & Hrs & Hn & Hlen & Herr).
  destruct (Hres rs eq_refl) as (R0 & R1 & R2 & R3 & R4 & R5 & R6).
  rewrite Hrs. by repeat split.
Qed.

Lemma process_cycle (E : Env) (st : State) :
  ∃ r st' pre st2 fresh st3 d post,
    ProcessRelay.process E st = (Normal r, st') ∧ r = result st'
    ∧ since (history (world st)) (history (world st')) = pre ++ d ++ post
    ∧ bookkeeping pre ∧ bookkeeping post
    ∧ table (world st2) = table (world st)
    ∧ isShuttingDown (world st2) = isShuttingDown (world st)
    ∧ table (world st') = table (world st3)
    ∧ (∀ t, t ∈ fresh → tw_id t ∉ storedIds (world st))
    ∧ telegramSends d `sublist_of` fresh
    ∧ discordSends d = telegramSends d
    ∧ (dbUp E (world st2) → ∀ t, sinkOk d t → tw_id t ∈ storedIds (world st3))
    ∧ (∃ b, pace true d = Some b)
    ∧ totalFetched r = totalFetched (result st2)
    ∧ (length fresh ≤ totalFetched r)%nat
    ∧ (length (telegramSends d) ≤ newTweets r ∧ newTweets r ≤ length fresh)%nat
    ∧ telegramSuccess r = count isTelegramOk d
    ∧ telegramFailed r = count isTelegramKo d
    ∧ discordSuccess r = count isDiscordOk d
    ∧ discordFailed r = count isDiscordKo d
    ∧ (count isTelegramKo d + count isDiscordKo d ≤ length (errors r))%nat.
Proof.
  destruct (process_shape E st)
    as (r & st' & pre & st2 & existing & fresh & c & st3 & post & Hrun & Hr & Hh2 & Hbpre
        & Ht2 & Hs2 & Hfresh & Hnew & Hlen & Z1 & Z2 & Z3 & Z4 & Z5 & Hdisp & Hh' & Hbpost
        & Ht' & Hres).
  destruct (dispatch_block E existing fresh st2)
    as (c' & st3' & d & Hdisp' & Hh3 & Hsub & Hsame & Hsaved & Hpace & _ & _
        & D1 & D2 & D3 & D4 & D5 & D6 & D7).
  rewrite Hdisp in Hdisp'. injection Hdisp' as <- <-.
  exists r, st', pre, st2, fresh, st3, d, post.
  split; [done |]. split; [done |].
  split; [by rewrite Hh', Hh3, Hh2, since_app3 |].
  do 5 (split; [done |]). do 5 (split; [done |]).
  specialize (D2 Hnew). subst r.
  assert (Hfields : totalFetched (result st') = totalFetched (result st3)
                    ∧ newTweets (result st') = newTweets (result st3)
                    ∧ telegramSuccess (result st') = telegramSuccess (result st3)
                    ∧ telegramFailed (result st') = telegramFailed (result st3)
                    ∧ discordSuccess (result st') = discordSuccess (result st3)
                    ∧ discordFailed (result st') = discordFailed (result st3)
                    ∧ (length (errors (result st3)) ≤ length (errors (result st')))%nat).
  { destruct Hres as [-> | [msg ->]]; simpl; [by repeat split |].
    repeat split; try done. rewrite length_app. lia. }
  destruct Hfields as (F1 & F2 & F3 & F4 & F5 & F6 & F7).
  rewrite F1, F2, F3, F4, F5, F6, D1, D3, D4, D5, D6, Z1, Z2, Z3, Z4.
  rewrite Z5 in D7. simpl in *. repeat split; try done; lia.
Qed.

(** ** Deduplication across cycles *)

Lemma poll_sends_unstored (E : Env) (w : World) (t : ParsedTweet) :
  let d := since (history w) (history (poll E w).2) in
  t ∈ telegramSends d ∨ t ∈ discordSends d → tw_id t ∉ storedIds w.
Proof.
  destruct (poll_cycle E w)
    as (r & w' & pre & w2 & fresh & d & w3 & post & Hrun & Hd & Hbpre & Hbpost & Ht2 & _
        & _ & Hsends & _).
  cbv zeta. rewrite Hrun. cbn [snd]. rewrite Hd.
  rewrite !telegramSends_app, !discordSends_app.
  destruct (bookkeeping_spec pre Hbpre) as (-> & -> & _).
  destruct (bookkeeping_spec post Hbpost) as (-> & -> & _).
  rewrite !app_nil_r. simpl. intros H. destruct (Hsends t H) as [_ Hno].
  unfold storedIds in *. by rewrite <- Ht2.
Qed.

Lemma process_sends_unstored (E : Env) (st : State) (t : ParsedTweet) :
  let d := since (history (world st)) (history (world (ProcessRelay.process E st).2)) in
  t ∈ telegramSends d ∨ t ∈ discordSends d → tw_id t ∉ storedIds (world st).
Proof.
  destruct (process_cycle E st)
    as (r & st' & pre & st2 & fresh & st3 & d & post & Hrun & _ & Hd & Hbpre & Hbpost & _ & _
        & _ & Hfresh & Hsub & Hsame & _).
  cbv zeta. rewrite Hrun. cbn [snd]. rewrite Hd.
  rewrite !telegramSends_app, !discordSends_app.
  destruct (bookkeeping_spec pre Hbpre) as (-> & -> & _).
  destruct (bookkeeping_spec post Hbpost) as (-> & -> & _).
  rewrite !app_nil_r, Hsame. simpl. intros H. apply Hfresh.
  eapply elem_of_sublist; [| exact Hsub]. tauto.
Qed.

Lemma poll_delivered_stored (E : Env) (w : World) (t : ParsedTweet) :
  dbUp E w → sinksResolve E →
  sinkOk (since (history w) (history (poll E w).2)) t →
  tw_id t ∈ storedIds (poll E w).2.
Proof.
  intros Hup Hres.
  destruct (poll_cycle E w)
    as (r & w' & pre & w2 & fresh & d & w3 & post & Hrun & Hd & Hbpre & Hbpost & Ht2 & Hs2
        & Ht' & _ & Hsaved & _).
  rewrite Hrun. cbn [snd]. rewrite Hd, !sinkOk_app.
  destruct (bookkeeping_spec pre Hbpre) as (_ & _ & _ & _ & _ & _ & _ & _ & _ & _ & Hpre).
  destruct (bookkeeping_spec post Hbpost) as (_ & _ & _ & _ & _ & _ & _ & _ & _ & _ & Hpost).
  intros [H | [H | H]]; [by apply Hpre in H | | by apply Hpost in H].
  unfold storedIds in *. rewrite Ht'. apply Hsaved; [| done | done].
  destruct Hup as [Hs Hp]. split; [congruence | done].
Qed.

Lemma process_delivered_stored (E : Env) (st : State) (t : ParsedTweet) :
  dbUp E (world st) →
  sinkOk (since (history (world st))
            (history (world (ProcessRelay.process E st).2))) t →
  tw_id t ∈ storedIds (world (ProcessRelay.process E st).2).
Proof.
  intros Hup.
  destruct (process_cycle E st)
    as (r & st' & pre & st2 & fresh & st3 & d & post & Hrun & _ & Hd & Hbpre & Hbpost & Ht2
        & Hs2 & Ht' & _ & _ & _ & Hsaved & _).
  rewrite Hrun. cbn [snd]. rewrite Hd, !sinkOk_app.
  destruct (bookkeeping_spec pre Hbpre) as (_ & _ & _ & _ & _ & _ & _ & _ & _ & _ & Hpre).
  destruct (bookkeeping_spec post Hbpost) as (_ & _ & _ & _ & _ & _ & _ & _ & _ & _ & Hpost).
  intros [H | [H | H]]; [by apply Hpre in H | | by apply Hpost in H].
  unfold storedIds in *. rewrite Ht'. apply Hsaved; [| done].
  destruct Hup as [Hs Hp]. split; [congruence | done].
Qed.

Lemma polls_extends (E : Env) (n : nat) (w : World) : extends w (polls E n w).
Proof.
  revert w. induction n as [| n IH]; intros w; simpl; [apply extends_refl |].
  eapply extends_trans; [apply poll_extends | apply IH].
Qed.

Lemma cycles_extends (E : Env) (n : nat) (st : State) : extendsState st (cycles E n st).
Proof.
  revert st. induction n as [| n IH]; intros st; simpl; [apply extends_refl |].
  eapply extendsState_trans; [apply process_extends | apply IH].
Qed.

(** X9: no cycle sends a post whose id is in the table when the cycle
    starts, whatever the feed, the database and the chats do. *)
Theorem stored_posts_are_not_sent (E : Env) :
  (∀ w t,
     let d := since (history w) (history (poll E w).2) in
     t ∈ telegramSends d ∨ t ∈ discordSends d → tw_id t ∉ storedIds w)
  ∧ (∀ st t,
     let d := since (history (world st))
                (history (world (ProcessRelay.process E st).2)) in
     t ∈ telegramSends d ∨ t ∈ discordSends d → tw_id t ∉ storedIds (world st)).
Proof.
  split; [apply poll_sends_unstored | apply process_sends_unstored].
Qed.

(** X10: while the database answers, every post that a chat accepted in a
    cycle is in the table when the cycle ends; [poll] needs the chat clients
    to resolve for this, [process] does not. *)
Theorem delivered_posts_are_stored (E : Env) :
  (∀ w t, dbUp E w → sinksResolve E →
     sinkOk (since (history w) (history (poll E w).2)) t →
     tw_id t ∈ storedIds (poll E w).2)
  ∧ (∀ st t, dbUp E (world st) →
     sinkOk (since (history (world st))
               (history (world (ProcessRelay.process E st).2))) t →
     tw_id t ∈ storedIds (world (ProcessRelay.process E st).2)).
Proof.
  split; [apply poll_delivered_stored | apply process_delivered_stored].
Qed.

(** X11: while the database answers, a post that a chat accepted in one
    cycle is sent to no chat in any later cycle. *)
Theorem delivered_posts_are_not_sent_again (E : Env) (n : nat) :
  (∀ w t t', dbUp E w → sinksResolve E →
     let w1 := (poll E w).2 in
     let wn := polls E n w1 in
     let later := since (history wn) (history (poll E wn).2) in
     sinkOk (since (history w) (history w1)) t →
     t' ∈ telegramSends later ∨ t' ∈ discordSends later →
     tw_id t' ≠ tw_id t)
  ∧ (∀ st t t', dbUp E (world st) →
     let st1 := (ProcessRelay.process E st).2 in
     let stn := cycles E n st1 in
     let later := since (history (world stn))
                    (history (world (ProcessRelay.process E stn).2)) in
     sinkOk (since (history (world st)) (history (world st1))) t →
     t' ∈ telegramSends later ∨ t' ∈ discordSends later →
     tw_id t' ≠ tw_id t).
Proof.
  split.
  - intros w t t' Hup Hres w1 wn later Hok Hsent Heq.
    apply (poll_sends_unstored E wn t' Hsent). rewrite Heq.
    eapply extends_stored; [apply polls_extends |].
    by apply poll_delivered_stored.
  - intros st t t' Hup st1 stn later Hok Hsent Heq.
    apply (process_sends_unstored E stn t' Hsent). rewrite Heq.
    eapply extends_stored; [apply cycles_extends |].
    by apply process_delivered_stored.
Qed.

(** ** Pacing *)

Lemma pace_rested (mid : list Event) :
  pace false mid = Some true → ∃ ms, Sleep ms ∈ mid ∧ (1000 ≤ ms)%Z.
Proof.
  induction mid as [| e mid IH]; [done |].
  destruct e as [r | q r | t r | t r | a b r | ms | msg]; simpl; try done.
  all: try (intros H; destruct (IH H) as (ms' & Hin & Hle); exists ms';
            split; [by apply list_elem_of_further | done]).
  destruct (1000 <=? ms)%Z eqn:Hms.
  - intros _. exists ms. split; [apply list_elem_of_here | by apply Z.leb_le].
  - intros H. destruct (IH H) as (ms' & Hin & Hle). exists ms'.
    split; [by apply list_elem_of_further | done].
Qed.

Lemma paced_between (d : list Event) :
  paced d →
  ∀ a t1 r1 mid t2 r2 c,
    d = a ++ TelegramSend t1 r1 :: mid ++ TelegramSend t2 r2 :: c →
    ∃ ms, Sleep ms ∈ mid ∧ (1000 ≤ ms)%Z.
Proof.
  intros [b Hb] a t1 r1 mid t2 r2 c ->.
  rewrite pace_app in Hb. destruct (pace true a) as [[|] |]; simpl in Hb; try done.
  rewrite pace_app in Hb. destruct (pace false mid) as [[|] |] eqn:Hmid; simpl in Hb;
    try done.
  by apply pace_rested.
Qed.

Lemma poll_paced (E : Env) (w : World) :
  paced (since (history w) (history (poll E w).2)).
Proof.
  destruct (poll_cycle E w)
    as (r & w' & pre & w2 & fresh & d & w3 & post & Hrun & Hd & Hbpre & Hbpost & _ & _
        & _ & _ & _ & [b Hb] & _).
  unfold paced. rewrite Hrun. cbn [snd]. rewrite Hd.
  destruct (bookkeeping_spec pre Hbpre) as (_ & _ & _ & _ & _ & _ & _ & _ & _ & Hpre & _).
  destruct (bookkeeping_spec post Hbpost) as (_ & _ & _ & _ & _ & _ & _ & _ & _ & Hpost & _).
  rewrite pace_app, Hpre, pace_app, Hb, Hpost. by eexists.
Qed.

Lemma process_paced (E : Env) (st : State) :
  paced (since (history (world st)) (history (world (ProcessRelay.process E st).2))).
Proof.
  destruct (process_cycle E st)
    as (r & st' & pre & st2 & fresh & st3 & d & post & Hrun & _ & Hd & Hbpre & Hbpost & _ & _
        & _ & _ & _ & _ & _ & [b Hb] & _).
  unfold paced. rewrite Hrun. cbn [snd]. rewrite Hd.
  destruct (bookkeeping_spec pre Hbpre) as (_ & _ & _ & _ & _ & _ & _ & _ & _ & Hpre & _).
  destruct (bookkeeping_spec post Hbpost) as (_ & _ & _ & _ & _ & _ & _ & _ & _ & Hpost & _).
  rewrite pace_app, Hpre, pace_app, Hb, Hpost. by eexists.
Qed.

(** X12: in a cycle of either service, any two Telegram sends have a pause
    of at least one second between them, whatever fails in between. *)
Theorem telegram_sends_are_paced (E : Env) :
  (∀ w a t1 r1 mid t2 r2 c,
     since (history w) (history (poll E w).2)
     = a ++ TelegramSend t1 r1 :: mid ++ TelegramSend t2 r2 :: c →
     ∃ ms, Sleep ms ∈ mid ∧ (1000 ≤ ms)%Z)
  ∧ (∀ st a t1 r1 mid t2 r2 c,
     since (history (world st)) (history (world (ProcessRelay.process E st).2))
     = a ++ TelegramSend t1 r1 :: mid ++ TelegramSend t2 r2 :: c →
     ∃ ms, Sleep ms ∈ mid ∧ (1000 ≤ ms)%Z).
Proof.
  split.
  - intros w. apply paced_between, poll_paced.
  - intros st. apply paced_between, process_paced.
Qed.

(** ** What a cycle reports *)

(** X13: [process] always returns a result, and its counters are the events
    of the cycle: successes and failures per chat are the sends that were and
    were not accepted, both chats get the same number of sends, no more posts
    are sent than counted new, no more counted new than fetched, and every
    failed send left an error message. *)
Theorem process_reports_its_events (E : Env) (st : State) :
  ∃ r st',
    ProcessRelay.process E st = (Normal r, st') ∧ result st' = r
    ∧ let d := since (history (world st)) (history (world st')) in
      telegramSuccess r = count isTelegramOk d
      ∧ telegramFailed r = count isTelegramKo d
      ∧ discordSuccess r = count isDiscordOk d
      ∧ discordFailed r = count isDiscordKo d
      ∧ (telegramSuccess r + telegramFailed r = discordSuccess r + discordFailed r)%nat
      ∧ (telegramSuccess r + telegramFailed r ≤ newTweets r)%nat
      ∧ (newTweets r ≤ totalFetched r)%nat
      ∧ (telegramFailed r + discordFailed r ≤ length (errors r))%nat.
Proof.
  destruct (process_cycle E st)
    as (r & st' & pre & st2 & fresh & st3 & d & post & Hrun & Hr & Hd & Hbpre & Hbpost & _ & _
        & _ & _ & Hsub & Hsame & _ & _ & Htot & Hlen & [Hn1 Hn2] & C1 & C2 & C3 & C4 & C5).
  exists r, st'. split; [done |]. split; [done |]. cbv zeta. rewrite Hd, !count_app.
  destruct (bookkeeping_spec pre Hbpre) as (_ & _ & _ & -> & -> & -> & -> & _).
  destruct (bookkeeping_spec post Hbpost) as (_ & _ & _ & -> & -> & -> & -> & _).
  destruct (count_sends d) as [Ht Hdc]. rewrite Hsame in Hdc.
  rewrite C1, C2, C3, C4 in *. simpl. rewrite !Nat.add_0_r.
  repeat split; try done; lia.
Qed.

Lemma falsyError_spec (r : TweetProcessingResult) :
  (error r = None ∨ error r = Some "Both Telegram and Discord failed")
  ∧ (error r = None ↔ skipped r = true ∨ telegram r = true ∨ discord r = true) →
  negb (falsyError r) = negb (telegram r) && negb (discord r) && negb (skipped r)
  ∧ (negb (falsyError r) = true →
     default EmptyString (error r) = "Both Telegram and Discord failed").
Proof.
  unfold falsyError. intros [[He | He] Hiff]; rewrite He in *; simpl.
  - destruct (proj1 Hiff eq_refl) as [-> | [-> | ->]]; simpl;
      rewrite ?andb_false_r; by split.
  - split; [| done].
    destruct (telegram r), (discord r), (skipped r); try done;
      discriminate (proj2 Hiff ltac:(tauto)).
Qed.

Lemma errors_of_results (rs : list TweetProcessingResult) :
  Forall (fun r => (error r = None
                    ∨ error r = Some "Both Telegram and Discord failed")
                   ∧ (error r = None ↔ skipped r = true ∨ telegram r = true
                                       ∨ discord r = true)) rs →
  map (fun r => tweetId r +:+ ": " +:+ default EmptyString (error r))
    (List.filter (fun r => negb (falsyError r)) rs)
  = map (fun r => tweetId r +:+ ": Both Telegram and Discord failed")
      (List.filter (fun r => negb (telegram r) && negb (discord r) && negb (skipped r))
         rs).
Proof.
  induction 1 as [| r rs Hr _ IH]; [done |].
  destruct (falsyError_spec r Hr) as [Heq Hmsg]. cbn [List.filter]. rewrite <- Heq.
  destruct (negb (falsyError r)); [| exact IH].
  cbn [map]. rewrite IH. f_equal. by rewrite Hmsg.
Qed.

Lemma poll_aborted (E : Env) (w : World) (pr : PollingResult) (w' : World) :
  poll E w = (Normal pr, w') → success pr = false →
  ∃ e, pollFailure E w e ∧ pollError pr = Some (errorMessage e).
Proof.
  rewrite poll_eq. unfold pollFailure, aborted.
  destruct (fetchTweets E w) as [[tweets | e] w1] eqn:Hfetch.
  2: { intros [= <- <-] _. exists e. split; [left; by exists w1 | done]. }
  destruct (length tweets =? 0)%nat eqn:Hlen; [by intros [= <- <-] |].
  destruct (TweetRepository.filterExisting E (map tw_id tweets) w1)
    as [[existing | e] w2] eqn:Hfilter.
  2: { intros [= <- <-] _. exists e. split; [| done].
       right. left. exists tweets, w1, w2. split; [done |]. split; [| done].
       by intros ->. }
  cbv zeta. destruct (length (notIn existing tweets) =? 0)%nat;
    [by intros [= <- <-] |].
  destruct (processAll E (notIn existing tweets) w2) as [[rs | e] w3] eqn:Hloop;
    [by intros [= <- <-] |].
  intros [= <- <-] _. exists e. split; [| done].
  right. right. by exists tweets, w1, existing, w2, w3.
Qed.

(** X14: what [process] of the polling service reports. It always returns
    a result. After a cycle that ran to its end the counters are the events of
    the cycle, the posts counted new are those whose insert added a record,
    and there is one error line per post that both chats declined. After an
    aborted cycle every counter is zero, whatever was sent before the abort,
    and the only error line is the message of what the failing stage threw,
    which is also the error of the polling result; the line is dropped when
    the message is empty. *)
Theorem pollProcess_reports_its_events (E : Env) (w : World) :
  ∃ pr r w',
    poll E w = (Normal pr, w') ∧ PollRelay.process E w = (Normal r, w')
    ∧ let d := since (history w) (history w') in
      (newTweets r ≤ totalFetched r)%nat
      ∧ (success pr = true →
           totalFetched r = tweetsFound pr
           ∧ telegramSuccess r = count isTelegramOk d
           ∧ telegramFailed r = count isTelegramKo d
           ∧ discordSuccess r = count isDiscordOk d
           ∧ discordFailed r = count isDiscordKo d
           ∧ newTweets r = count isInsertNew d
           ∧ errors r
             = map (fun x => tweetId x +:+ ": Both Telegram and Discord failed")
                 (List.filter
                    (fun x => negb (telegram x) && negb (discord x) && negb (skipped x))
                    (results pr)))
      ∧ (success pr = false →
           totalFetched r = 0%nat ∧ newTweets r = 0%nat
           ∧ telegramSuccess r = 0%nat ∧ telegramFailed r = 0%nat
           ∧ discordSuccess r = 0%nat ∧ discordFailed r = 0%nat
           ∧ ∃ e, pollFailure E w e
                  ∧ pollError pr = Some (errorMessage e)
                  ∧ errors r = if isEmpty (errorMessage e) then []
                               else [errorMessage e]).
Proof.
  destruct (poll_cycle E w)
    as (pr & w' & pre & w2 & fresh & d & w3 & post & Hrun & Hd & Hbpre & Hbpost & _ & _
        & _ & _ & _ & _ & Hok & Hko).
  pose proof (poll_aborted E w pr w' Hrun) as Hab.
  unfold PollRelay.process, bind, ret. rewrite Hrun.
  do 3 eexists. split; [reflexivity |]. split; [reflexivity |].
  cbv zeta. rewrite Hd, !count_app.
  destruct (bookkeeping_spec pre Hbpre) as (_ & _ & _ & -> & -> & -> & -> & -> & _).
  destruct (bookkeeping_spec post Hbpost) as (_ & _ & _ & -> & -> & -> & -> & -> & _).
  simpl. rewrite !Nat.add_0_r.
  split; [| split].
  - destruct (success pr) eqn:Hs.
    + destruct (Hok eq_refl) as (Hlen & _ & -> & Hids & _).
      etrans; [apply filter_length_le |].
      apply (f_equal length) in Hids. rewrite !length_map in Hids. lia.
    + destruct (Hko eq_refl) as (_ & -> & -> & _). lia.
  - intros Hs. destruct (Hok Hs) as (_ & -> & -> & _ & -> & -> & -> & -> & -> & HF).
    by rewrite errors_of_results.
  - intros Hs. destruct (Hab Hs) as (e & Hfail & He).
    destruct (Hko Hs) as (-> & -> & -> & _). rewrite He. simpl.
    repeat split; try done. by exists e.
Qed.

(** ** The failure streak over many cycles *)

Lemma process_streak (E : Env) (st : State) :
  ∃ r st' d,
    ProcessRelay.process E st = (Normal r, st')
    ∧ history (world st') = history (world st) ++ d
    ∧ ((consecutiveFailures st' = S (consecutiveFailures st)
        ∧ alertSent st'
          = (alertSent st || (FAILURE_THRESHOLD <=? S (consecutiveFailures st))%nat)
        ∧ alertCalls d
          = (if (FAILURE_THRESHOLD <=? S (consecutiveFailures st))%nat
                && negb (alertSent st) then 1 else 0)%nat)
       ∨ (alertCalls d = 0%nat
          ∧ consecutiveFailures st' = consecutiveFailures st
          ∧ alertSent st' = alertSent st)
       ∨ (alertCalls d = 0%nat
          ∧ consecutiveFailures st' = 0%nat
          ∧ alertSent st'
            = if (0 <? consecutiveFailures st)%nat then false else alertSent st)).
Proof.
  rewrite process_eq. cbv zeta.
  destruct (fetchTweets_outcome E (world st))
    as (c1 & w1 & d1 & -> & Hh1 & (_ & _ & _ & Ha1) & _).
  set (d1' := FetchRSS _ :: d1) in Hh1.
  assert (Ha1' : alertCalls d1' = 0%nat) by done. clearbody d1'. clear Ha1.
  destruct c1 as [tweets | e].
  2: { set (st2 := withWorld w1 (withResult emptyResult st)).
       destruct (onFailure_spec E e st2)
         as (st' & d & Hrun & _ & Hc & Hs & _ & _ & Hh & _ & _ & _ & Ha).
       rewrite Hrun. do 3 eexists. split; [reflexivity |].
       split; [by rewrite Hh; simpl; rewrite Hh1, <- app_assoc |].
       left. rewrite alertCalls_app, Ha1', Ha. by repeat split. }
  destruct (length tweets =? 0)%nat.
  { do 3 eexists. split; [reflexivity |]. split; [exact Hh1 |]. right. left. by repeat split. }
  destruct (filterExisting_quiet E (map tw_id tweets) w1)
    as (c2 & w2 & d2 & -> & Hh2 & (_ & _ & _ & Ha2) & _).
  destruct c2 as [existing | e].
  2: { set (st2 := withWorld w2 _).
       destruct (onFailure_spec E e st2)
         as (st' & d & Hrun & _ & Hc & Hs & _ & _ & Hh & _ & _ & _ & Ha).
       rewrite Hrun. do 3 eexists. split; [reflexivity |].
       split; [by rewrite Hh; simpl; rewrite Hh2, Hh1, <- !app_assoc |].
       left. rewrite !alertCalls_app, Ha1', Ha2, Ha. by repeat split. }
  destruct (length (notIn existing tweets) =? 0)%nat.
  { do 3 eexists. split; [reflexivity |].
    split; [by simpl; rewrite Hh2, Hh1, <- !app_assoc |].
    right. left. rewrite alertCalls_app, Ha1', Ha2. by repeat split. }
  set (st2 := withResult _ (withWorld w2 _)).
  destruct (dispatch_spec E existing (notIn existing tweets) st2)
    as (c3 & st3 & d3 & Hrun & Hh3 & _ & Ha3).
  destruct (dispatch_block E existing (notIn existing tweets) st2)
    as (c3' & st3' & d3' & Hrun' & _ & _ & _ & _ & _ & Hc3 & Hs3 & _).
  rewrite Hrun in Hrun'. injection Hrun' as <- <-. rewrite Hrun.
  subst st2. simpl in Hc3, Hs3, Hh3.
  destruct c3 as [[] | e].
  - do 3 eexists. split; [reflexivity |].
    split; [by rewrite resetStreak_world, Hh3, Hh2, Hh1, <- !app_assoc |].
    right. right. rewrite !alertCalls_app, Ha1', Ha2, Ha3.
    split; [done |]. unfold resetStreak. rewrite Hc3.
    destruct (0 <? consecutiveFailures st)%nat eqn:Hpos; simpl; [done |].
    apply Nat.ltb_ge in Hpos. split; [lia | done].
  - destruct (onFailure_spec E e st3)
      as (st' & d & Hfail & _ & Hc & Hs & _ & _ & Hh & _ & _ & _ & Ha).
    rewrite Hfail. do 3 eexists. split; [reflexivity |].
    split; [by rewrite Hh, Hh3, Hh2, Hh1, <- !app_assoc |].
    left. rewrite !alertCalls_app, Ha1', Ha2, Ha3, Ha, Hc, Hs, Hc3, Hs3. by repeat split.
Qed.

Lemma streak_step (E : Env) (st : State) :
  alertSent st = (FAILURE_THRESHOLD <=? consecutiveFailures st)%nat →
  let st' := (ProcessRelay.process E st).2 in
  let d := since (history (world st)) (history (world st')) in
  alertSent st' = (FAILURE_THRESHOLD <=? consecutiveFailures st')%nat
  ∧ (alertCalls d ≤ 1)%nat
  ∧ (alertCalls d = 1%nat ↔
     consecutiveFailures st = 2%nat ∧ consecutiveFailures st' = 3%nat).
Proof.
  intros Hinv. cbv zeta.
  destruct (process_streak E st) as (r & st' & d & -> & Hh & Hcases). simpl.
  rewrite Hh, since_app. unfold FAILURE_THRESHOLD in *.
  destruct Hcases as [(Hc & Hs & Ha) | [(Ha & Hc & Hs) | (Ha & Hc & Hs)]];
    rewrite Ha, Hc, Hs, ?Hinv.
  - destruct (consecutiveFailures st) as [| [| [| n]]]; simpl; repeat split; lia.
  - repeat split; try done; lia.
  - destruct (consecutiveFailures st) as [| n]; simpl; repeat split; try done; lia.
Qed.

Lemma cycles_invariant (E : Env) (n : nat) (st : State) :
  alertSent st = (FAILURE_THRESHOLD <=? consecutiveFailures st)%nat →
  alertSent (cycles E n st)
  = (FAILURE_THRESHOLD <=? consecutiveFailures (cycles E n st))%nat.
Proof.
  revert st. induction n as [| n IH]; intros st Hinv; simpl; [done |].
  apply IH. by apply streak_step.
Qed.

(** X15: at any time in the life of the service, the alert flag is set
    exactly when the failure counter is three or more; a cycle makes at most
    one alert call, and it makes one exactly when it takes the counter from
    two to three.  A cycle adds one to the counter, leaves it or resets it to
    zero: a failed feed stage adds one, and a cycle that returns early, on an
    empty feed or with nothing new, leaves the counter and the flag.  So the
    counter counts the failures since the last reset and not the failures in
    a row. *)
Theorem alert_exactly_when_counter_reaches_three (E : Env) (n : nat) (w : World) :
  let st := cycles E n (start w) in
  let st' := (ProcessRelay.process E st).2 in
  let d := since (history (world st)) (history (world st')) in
  alertSent st = (FAILURE_THRESHOLD <=? consecutiveFailures st)%nat
  ∧ (alertCalls d ≤ 1)%nat
  ∧ (alertCalls d = 1%nat ↔
     consecutiveFailures st = 2%nat ∧ consecutiveFailures st' = 3%nat)
  ∧ (consecutiveFailures st' = S (consecutiveFailures st)
     ∨ consecutiveFailures st' = consecutiveFailures st
     ∨ consecutiveFailures st' = 0%nat)
  ∧ (∀ e, fetchFails E (world st) e →
          consecutiveFailures st' = S (consecutiveFailures st))
  ∧ (∀ tweets w1,
       fetchTweets E (world st) = (Normal tweets, w1) →
       (tweets = []
        ∨ ∃ existing w2,
            TweetRepository.filterExisting E (map tw_id tweets) w1
            = (Normal existing, w2)
            ∧ notIn existing tweets = []) →
       consecutiveFailures st' = consecutiveFailures st
       ∧ alertSent st' = alertSent st).
Proof.
  cbv zeta.
  assert (Hinv : alertSent (cycles E n (start w))
                 = (FAILURE_THRESHOLD <=? consecutiveFailures (cycles E n (start w)))%nat)
    by (by apply cycles_invariant).
  split; [exact Hinv |].
  destruct (streak_step E (cycles E n (start w)) Hinv) as (_ & Hle & Hiff).
  split; [exact Hle |]. split; [exact Hiff |].
  split; [| split].
  - destruct (process_streak E (cycles E n (start w)))
      as (r & st' & d & -> & _ & [(Hc & _) | [(_ & Hc & _) | (_ & Hc & _)]]);
      simpl; tauto.
  - intros e He.
    by destruct (process_fetch_failure E _ e He) as (st' & d & -> & Hc & _).
  - intros tweets w1 Hf Hcase.
    by destruct (early_return_keeps_streak E _ tweets w1 Hf Hcase)
      as (r & st' & -> & _ & Hc & Hs).
Qed.

Lemma failing_cycles (E : Env) (n : nat) (st : State) :
  alertSent st = (FAILURE_THRESHOLD <=? consecutiveFailures st)%nat →
  fetchKeepsFailing E n st →
  let st' := cycles E n st in
  let d := since (history (world st)) (history (world st')) in
  consecutiveFailures st' = (consecutiveFailures st + n)%nat
  ∧ alertSent st' = (FAILURE_THRESHOLD <=? consecutiveFailures st + n)%nat
  ∧ (∃ d', history (world st') = history (world st) ++ d')
  ∧ alertCalls d
    = (if (FAILURE_THRESHOLD <=? consecutiveFailures st + n)%nat
          && negb (FAILURE_THRESHOLD <=? consecutiveFailures st)%nat
       then 1 else 0)%nat
  ∧ telegramSends d = [] ∧ discordSends d = []
  ∧ table (world st') = table (world st).
Proof.
  revert st. induction n as [| n IH]; intros st Hinv Hfail; cbv zeta;
    cbn [cycles fetchKeepsFailing] in *.
  - rewrite since_self, !Nat.add_0_r.
    split; [done |]. split; [done |].
    split; [exists []; by rewrite app_nil_r |].
    split; [by destruct (FAILURE_THRESHOLD <=? consecutiveFailures st)%nat |]. done.
  - destruct Hfail as [[e He] Hrest].
    destruct (process_fetch_failure E st e He)
      as (st1 & d1 & Hrun & Hc & Hs & Ht & Hh & Hs1 & Hs2 & _ & Ha).
    rewrite Hrun in *. cbn [snd] in *.
    assert (Hinv1 : alertSent st1
                    = (FAILURE_THRESHOLD <=? consecutiveFailures st1)%nat).
    { rewrite Hs, Hc, Hinv. unfold FAILURE_THRESHOLD.
      destruct (consecutiveFailures st) as [| [| [| k]]]; done. }
    destruct (IH st1 Hinv1 Hrest) as (Ic & Is & [d2 Ih] & Ia & It & Id & Itab).
    rewrite Ih, since_app in Ia, It, Id.
    rewrite Ic, Is, Hc, Ih, Hh, <- app_assoc, since_app, Itab, Ht.
    rewrite alertCalls_app, telegramSends_app, discordSends_app, Ha, Ia, It, Id, Hs1, Hs2,
      Hinv, Hc.
    replace (S (consecutiveFailures st) + n)%nat
      with (consecutiveFailures st + S n)%nat by lia.
    split; [done |]. split; [done |]. split; [by eexists |].
    split; [| done]. unfold FAILURE_THRESHOLD.
    destruct (3 <=? consecutiveFailures st + S n)%nat eqn:H1;
      destruct (3 <=? consecutiveFailures st)%nat eqn:H2;
      destruct (3 <=? S (consecutiveFailures st))%nat eqn:H3; simpl; try done;
      rewrite ?Nat.leb_le, ?Nat.leb_gt in *; lia.
Qed.

(** X16: when the feed stage fails in [n] cycles in a row from a fresh
    service, the failure count is [n], exactly one alert call is made if [n]
    is three or more and none otherwise, nothing is sent to the chats and the
    table is untouched. *)
Theorem failing_feed_alerts_once (E : Env) (n : nat) (w : World) :
  fetchKeepsFailing E n (start w) →
  let st' := cycles E n (start w) in
  let d := since (history w) (history (world st')) in
  consecutiveFailures st' = n
  ∧ alertSent st' = (FAILURE_THRESHOLD <=? n)%nat
  ∧ alertCalls d = (if (FAILURE_THRESHOLD <=? n)%nat then 1 else 0)%nat
  ∧ telegramSends d = [] ∧ discordSends d = []
  ∧ table (world st') = table w.
Proof.
  intros Hfail.
  destruct (failing_cycles E n (start w) eq_refl Hfail) as (Hc & Hs & _ & Ha & Ht & Hd & Htab).
  simpl in *. rewrite andb_true_r in Ha. by repeat split.
Qed.

(** ** The retry loop of the feed client *)

Section NitterFacts.
Import NitterClient.

Lemma attempts_spec (http : list Step → GetOutcome) (cfg : RetryConfig)
    (left : nat) (attempt : Z) (lastError : option string) (tr : list Step) :
  (attempt + Z.of_nat left = maxRetries cfg + 1)%Z →
  ∃ gets,
    attempts http cfg left attempt lastError tr
    = (ending cfg lastError gets, tr ++ traceOf cfg attempt gets)
    ∧ (length gets ≤ left)%nat
    ∧ (gets = [] ↔ left = 0%nat)
    ∧ Forall (fun g => retried g = true) (removelast gets)
    ∧ (∀ g, last gets = Some g → retried g = true → length gets = left)
    ∧ Forall (fun g => ∃ steps, http steps = g) gets.
Proof.
  revert attempt lastError tr. induction left as [| left IH];
    intros attempt lastError tr Hinv.
  - exists []. simpl. rewrite app_nil_r. repeat split; try done; lia.
  - cbn [attempts]. unfold bind at 1, get at 1.
    assert (Hlast : (attempt =? maxRetries cfg)%Z = true ↔ left = 0%nat)
      by (rewrite Z.eqb_eq; lia).
    destruct (http tr) as [data | f] eqn:Hhttp.
    + exists [Body data]. unfold ending, outcomeOf. cbn [last traceOf].
      destruct (isBlank data) eqn:Hblank; cbn.
      all: split; [done |]; split; [lia |]; split; [done |]; split; [constructor |].
      all: split; [intros g [= <-]; discriminate | repeat constructor; by exists tr].
    + destruct (isRetryableError f) eqn:Hretry; cbn [negb orb].
      * destruct (attempt =? maxRetries cfg)%Z eqn:Hl.
        -- exists [Failed f]. unfold ending, outcomeOf. cbn.
           split; [done |]. split; [lia |]. split; [done |]. split; [constructor |].
           split; [| repeat constructor; by exists tr].
           intros g _ _. f_equal. symmetry. by apply Hlast.
        -- assert (Hleft : left ≠ 0%nat)
             by (intros H0; apply Hlast in H0; congruence).
           unfold bind, pause, modify.
           destruct (IH (attempt + 1)%Z (Some (message f))
                       ((tr ++ [Get (Failed f)])
                          ++ [Pause (retryDelayMs cfg * 2 ^ (attempt - 1))]))
             as (gets & -> & Hlen & Hnil & Hall & Hfull & Hans); [lia |].
           destruct gets as [| g2 gets]; [exfalso; apply Hleft; by apply Hnil |].
           exists (Failed f :: g2 :: gets). split.
           ++ unfold ending, outcomeOf. rewrite !last_cons_cons.
              cbn [traceOf]. by rewrite <- !app_assoc.
           ++ split; [simpl in *; lia |]. split; [done |].
              split; [by constructor |].
              split; [| constructor; [by exists tr | done]].
              intros g' Hg' Hr. rewrite last_cons_cons in Hg'.
              simpl. f_equal. by apply (Hfull g').
      * exists [Failed f]. unfold ending, outcomeOf. cbn.
        split; [done |]. split; [lia |]. split; [done |]. split; [constructor |].
        split; [| repeat constructor; by exists tr].
        intros g [= <-]. simpl. congruence.
Qed.

Lemma traceOf_cons (cfg : RetryConfig) (attempt : Z) (g g2 : GetOutcome)
    (gets : list GetOutcome) :
  traceOf cfg attempt (g :: g2 :: gets)
  = Get g :: Pause (retryDelayMs cfg * 2 ^ (attempt - 1))
      :: traceOf cfg (attempt + 1) (g2 :: gets).
Proof. done. Qed.

Lemma requests_traceOf (cfg : RetryConfig) (attempt : Z) (gets : list GetOutcome) :
  requests (traceOf cfg attempt gets) = gets.
Proof.
  revert attempt. induction gets as [| g gets IH]; intros attempt; [done |].
  destruct gets as [| g2 gets]; [done |].
  rewrite traceOf_cons. unfold requests in *. cbn [omap list_omap]. f_equal.
  apply (IH (attempt + 1)%Z).
Qed.

Lemma waited_traceOf (cfg : RetryConfig) (attempt : Z) (gets : list GetOutcome) :
  (1 ≤ attempt)%Z →
  waited (traceOf cfg attempt gets)
  = (retryDelayMs cfg * 2 ^ (attempt - 1) * (2 ^ Z.of_nat (length gets - 1) - 1))%Z.
Proof.
  revert attempt. induction gets as [| g gets IH]; intros attempt Ha.
  - simpl. lia.
  - destruct gets as [| g2 gets]; [simpl; lia |].
    rewrite traceOf_cons. cbn [waited]. rewrite (IH (attempt + 1)%Z) by lia.
    replace (attempt + 1 - 1)%Z with (Z.succ (attempt - 1)) by lia.
    rewrite Z.pow_succ_r by lia.
    replace (Z.of_nat (length (g :: g2 :: gets) - 1))
      with (Z.succ (Z.of_nat (length (g2 :: gets) - 1))) by (simpl; lia).
    rewrite Z.pow_succ_r by lia. lia.
Qed.

(** X17: what a call of [fetchRSS] does. It makes at most [maxRetries]
    requests, none at all when [maxRetries] is zero or less; between two
    requests it pauses, [retryDelayMs] the first time and twice as long each
    further time, and it pauses nowhere else; every request but the last
    failed in a way that can be retried; it returns the body of the last
    request when that is not blank, and otherwise throws an error whose
    message names [maxRetries] and the last failure; and a last request that
    could have been retried is the [maxRetries]-th. *)
Theorem fetchRSS_retries (http : list Step → GetOutcome) (cfg : RetryConfig)
    (tr : list Step) :
  ∃ gets,
    fetchRSS http cfg tr = (outcomeOf cfg gets, tr ++ traceOf cfg 1 gets)
    ∧ Forall (fun g => ∃ steps, http steps = g) gets
    ∧ (Z.of_nat (length gets) ≤ Z.max 0 (maxRetries cfg))%Z
    ∧ (gets = [] ↔ (maxRetries cfg ≤ 0)%Z)
    ∧ Forall (fun g => retried g = true) (removelast gets)
    ∧ (∀ g, last gets = Some g → retried g = true →
            Z.of_nat (length gets) = maxRetries cfg).
Proof.
  unfold fetchRSS. destruct (Z.le_gt_cases (maxRetries cfg) 0) as [Hle | Hgt].
  - replace (Z.to_nat (maxRetries cfg)) with 0%nat by lia.
    exists []. simpl. rewrite app_nil_r. repeat split; try done; lia.
  - destruct (attempts_spec http cfg (Z.to_nat (maxRetries cfg)) 1 None tr)
      as (gets & Hrun & Hlen & Hnil & Hall & Hfull & Hans); [lia |].
    exists gets. split; [rewrite Hrun; by destruct gets |].
    split; [done |]. split; [lia |]. split; [rewrite Hnil; lia |]. split; [done |].
    intros g Hg Hr. rewrite (Hfull g Hg Hr). lia.
Qed.

(** X18: when every request fails in a way that can be retried and
    [maxRetries] is one or more, [fetchRSS] makes exactly [maxRetries]
    requests, waits [retryDelayMs * (2^(maxRetries - 1) - 1)] in all, and
    throws. *)
Theorem fetchRSS_gives_up (http : list Step → GetOutcome) (cfg : RetryConfig)
    (tr : list Step) :
  (∀ steps, retried (http steps) = true) → (1 ≤ maxRetries cfg)%Z →
  ∃ e d,
    fetchRSS http cfg tr = (Throw e, tr ++ d)
    ∧ Z.of_nat (length (requests d)) = maxRetries cfg
    ∧ waited d = (retryDelayMs cfg * (2 ^ (maxRetries cfg - 1) - 1))%Z.
Proof.
  intros Hfail Hmax. unfold fetchRSS.
  destruct (attempts_spec http cfg (Z.to_nat (maxRetries cfg)) 1 None tr)
    as (gets & Hrun & Hlen & Hnil & Hall & Hfull & Hans); [lia |].
  assert (Hne : gets ≠ []) by (rewrite Hnil; lia).
  destruct (last gets) as [g |] eqn:Hg; [| by apply last_None in Hg].
  assert (Hretried : retried g = true).
  { apply last_Some in Hg as [front ->].
    apply Forall_app in Hans as [_ Hans]. apply Forall_singleton in Hans as [steps <-].
    apply Hfail. }
  exists (giveUp cfg (Some (match g with Failed f => message f | Body _ => "" end))),
    (traceOf cfg 1 gets).
  rewrite Hrun, requests_traceOf, waited_traceOf by lia.
  rewrite (Hfull g eq_refl Hretried).
  split.
  - f_equal. unfold ending, outcomeOf. destruct gets; [done |]. rewrite Hg.
    destruct g as [data | f]; [discriminate | done].
  - split; [lia |].
    replace (Z.of_nat (Z.to_nat (maxRetries cfg) - 1)) with (maxRetries cfg - 1)%Z by lia.
    simpl. lia.
Qed.

Lemma fetchRSS_gives_up_witness :
  let http : list Step → GetOutcome :=
    fun _ => Failed {| cause := Status 503; message := "Request failed with status code 503" |} in
  let cfg := {| maxRetries := 3; retryDelayMs := 1000 |} in
  ((∀ steps, retried (http steps) = true) ∧ (1 ≤ maxRetries cfg)%Z)
  ∧ ∃ e d,
      fetchRSS http cfg [] = (Throw e, [] ++ d)
      ∧ Z.of_nat (length (requests d)) = maxRetries cfg
      ∧ waited d = (retryDelayMs cfg * (2 ^ (maxRetries cfg - 1) - 1))%Z.
Proof.
  intros http cfg.
  assert (H1 : ∀ steps, retried (http steps) = true) by (intros steps; reflexivity).
  assert (H2 : (1 ≤ maxRetries cfg)%Z) by (simpl; lia).
  split; [by split |]. exact (fetchRSS_gives_up http cfg [] H1 H2).
Defined.

End NitterFacts.

(** ** The Telegram client *)

Section TelegramFacts.
Import TelegramClient.

Lemma replaceAll_char_nil (c : ascii) (rep : string) :
  replaceAll (String c EmptyString) rep EmptyString = EmptyString.
Proof. done. Qed.

Lemma replaceAll_char_cons (c a : ascii) (rep s : string) :
  replaceAll (String c EmptyString) rep (String a s)
  = (if Ascii.eqb a c then rep else String a EmptyString)
      +:+ replaceAll (String c EmptyString) rep s.
Proof.
  unfold replaceAll. cbn [replaceAllFrom String.prefix String.length Nat.sub].
  destruct (ascii_dec c a) as [-> | Hne].
  - rewrite Ascii.eqb_refl. by destruct s.
  - destruct (Ascii.eqb a c) eqn:Heq; [apply Ascii.eqb_eq in Heq; congruence | done].
Qed.

Lemma replaceAll_char_app (c : ascii) (rep s1 s2 : string) :
  replaceAll (String c EmptyString) rep (s1 +:+ s2)
  = replaceAll (String c EmptyString) rep s1
      +:+ replaceAll (String c EmptyString) rep s2.
Proof.
  induction s1 as [| a s1 IH]; [done |].
  change (String a s1 +:+ s2) with (String a (s1 +:+ s2)).
  by rewrite !replaceAll_char_cons, IH, append_assoc.
Qed.

Lemma escapeHtml_nil : escapeHtml EmptyString = EmptyString.
Proof. done. Qed.

Lemma escapeHtml_cons (a : ascii) (s : string) :
  escapeHtml (String a s) = escapeChar a +:+ escapeHtml s.
Proof.
  unfold escapeHtml, escapeChar.
  rewrite (replaceAll_char_cons "&"), !replaceAll_char_app.
  destruct (Ascii.eqb a "&") eqn:H1; [done |].
  rewrite (replaceAll_char_cons "<"), replaceAll_char_nil, append_nil_r.
  destruct (Ascii.eqb a "<") eqn:H2; [done |].
  rewrite (replaceAll_char_cons ">"), replaceAll_char_nil, append_nil_r.
  by destruct (Ascii.eqb a ">") eqn:H3.
Qed.

Lemma hasChar_app (c : ascii) (s1 s2 : string) :
  hasChar c (s1 +:+ s2) = hasChar c s1 || hasChar c s2.
Proof.
  induction s1 as [| a s1 IH]; [done |]. simpl. by rewrite IH, orb_assoc.
Qed.

Lemma escapeHtml_injective (s1 s2 : string) :
  escapeHtml s1 = escapeHtml s2 → s1 = s2.
Proof.
  revert s2. induction s1 as [| a s1 IH]; intros [| b s2] H; [done | | |].
  - rewrite escapeHtml_cons in H. unfold escapeChar in H.
    by destruct (Ascii.eqb b "&"), (Ascii.eqb b "<"), (Ascii.eqb b ">").
  - rewrite escapeHtml_cons in H. unfold escapeChar in H.
    by destruct (Ascii.eqb a "&"), (Ascii.eqb a "<"), (Ascii.eqb a ">").
  - rewrite !escapeHtml_cons in H. unfold escapeChar in H.
    destruct (Ascii.eqb a "&") eqn:A1;
      [apply Ascii.eqb_eq in A1; subst a
      | destruct (Ascii.eqb a "<") eqn:A2;
        [apply Ascii.eqb_eq in A2; subst a
        | destruct (Ascii.eqb a ">") eqn:A3;
          [apply Ascii.eqb_eq in A3; subst a |]]].
    all: destruct (Ascii.eqb b "&") eqn:B1;
      [apply Ascii.eqb_eq in B1; subst b
      | destruct (Ascii.eqb b "<") eqn:B2;
        [apply Ascii.eqb_eq in B2; subst b
        | destruct (Ascii.eqb b ">") eqn:B3;
          [apply Ascii.eqb_eq in B3; subst b |]]].
    all: simpl in H; try discriminate.
    all: try (injection H as H; f_equal; by apply IH).
    all: injection H as Hc H; subst; try discriminate.
    f_equal. by apply IH.
Qed.

(** X19: [escapeHtml] is safe and loses nothing: its result holds no [<] and
    no [>], two different texts have different escapes, and a text without
    [&], [<] and [>] is left as it is. *)
Theorem escapeHtml_safe_and_lossless (s : string) :
  hasChar "<" (escapeHtml s) = false
  ∧ hasChar ">" (escapeHtml s) = false
  ∧ (∀ s', escapeHtml s = escapeHtml s' → s = s')
  ∧ (hasChar "&" s = false → hasChar "<" s = false → hasChar ">" s = false →
     escapeHtml s = s).
Proof.
  split; [| split; [| split]].
  - induction s as [| a s IH]; [done |].
    rewrite escapeHtml_cons, hasChar_app, IH, orb_false_r. unfold escapeChar.
    destruct (Ascii.eqb a "&"); [done |].
    destruct (Ascii.eqb a "<") eqn:H2; [done |].
    destruct (Ascii.eqb a ">"); [done |]. simpl. by rewrite H2.
  - induction s as [| a s IH]; [done |].
    rewrite escapeHtml_cons, hasChar_app, IH, orb_false_r. unfold escapeChar.
    destruct (Ascii.eqb a "&"); [done |].
    destruct (Ascii.eqb a "<"); [done |].
    destruct (Ascii.eqb a ">") eqn:H3; [done |]. simpl. by rewrite H3.
  - intros s'. apply escapeHtml_injective.
  - induction s as [| a s IH]; [done |]. simpl.
    intros H1 H2 H3.
    apply orb_false_elim in H1 as [H1 H1'], H2 as [H2 H2'], H3 as [H3 H3'].
    rewrite escapeHtml_cons, IH by done. unfold escapeChar. by rewrite H1, H2, H3.
Qed.

Lemma escapeHtml_safe_and_lossless_witness :
  let s := "fees < 1 sat & rising" in
  escapeHtml s = "fees &lt; 1 sat &amp; rising"
  ∧ hasChar "<" (escapeHtml s) = false
  ∧ (∀ s', escapeHtml s = escapeHtml s' → s = s')
  ∧ escapeHtml "plain text" = "plain text".
Proof.
  intros s.
  destruct (escapeHtml_safe_and_lossless s) as (H1 & _ & H3 & _).
  destruct (escapeHtml_safe_and_lossless "plain text") as (_ & _ & _ & H4).
  split; [reflexivity |]. split; [exact H1 |]. split; [exact H3 |].
  apply H4; reflexivity.
Defined.

End TelegramFacts.

(** ** The Discord client *)

Section DiscordFacts.
Import DiscordClient.

Lemma discord_sendTweet_spec (api : Api) (cfg : DiscordConfig) (tweet : ParsedTweet)
    (st : State) :
  ∃ b st' d,
    sendTweet api cfg tweet st = (Normal b, st')
    ∧ calls st' = calls st ++ d
    ∧ isReady st' = isReady st
    ∧ (cacheOk st → cacheOk st' ∧ toTextChannels d)
    ∧ (isReady st = false → b = false ∧ st' = st)
    ∧ (∀ ch, isReady st = true → channel st = Some ch →
         let r := channelSend api (calls st) ch (formatMessage tweet) in
         channel st' = Some ch
         ∧ d = [ChannelSend ch (formatMessage tweet) r]
         ∧ b = bool_decide (r = None))
    ∧ (b = true →
         ∃ ch, channel st' = Some ch
               ∧ last d = Some (ChannelSend ch (formatMessage tweet) None)).
Proof.
  unfold sendTweet, fetchChannel, fetch, send.
  unfold bind, tryCatch, gets, ret, throw, modify.
  destruct st as [[|] [ch |] cs]; simpl.
  - destruct (channelSend api cs ch (formatMessage tweet)) eqn:Hs; simpl.
    all: do 3 eexists; split; [reflexivity |]; simpl.
    all: split; [reflexivity |]; split; [done |].
    all: split; [intros Hcache; split; [done |];
                 pose proof (Hcache ch eq_refl) as Hch;
                 intros c m r Hin; apply list_elem_of_singleton in Hin;
                 by injection Hin as -> _ _ |].
    all: split; [done |].
    all: split; [intros c _ [= <-]; by rewrite Hs |].
    + done.
    + intros _. by exists ch.
  - destruct (channelsFetch api cs (channelId cfg)) as [[ch |] | e] eqn:Hf; simpl.
    + destruct (isGuildText ch) eqn:Hg; simpl.
      * destruct (channelSend api _ ch (formatMessage tweet)) eqn:Hs; simpl.
        all: do 3 eexists; split; [reflexivity |]; simpl.
        all: rewrite <- ?app_assoc; simpl.
        all: split; [reflexivity |]; split; [done |].
        all: split; [intros _; split; [by intros c [= <-] |];
                     intros c m r Hin; apply elem_of_cons in Hin as [Hin | Hin];
                     [discriminate |];
                     apply list_elem_of_singleton in Hin; by injection Hin as -> _ _ |].
        all: split; [done |]. all: split; [done |].
        -- done.
        -- intros _. by exists ch.
      * do 3 eexists. split; [reflexivity |]. simpl.
        split; [reflexivity |]. split; [done |].
        split; [intros Hc; split; [done |];
                intros c m r Hin; apply list_elem_of_singleton in Hin; discriminate |].
        by repeat split.
    + do 3 eexists. split; [reflexivity |]. simpl.
      split; [reflexivity |]. split; [done |].
      split; [intros Hc; split; [done |];
              intros c m r Hin; apply list_elem_of_singleton in Hin; discriminate |].
      by repeat split.
    + do 3 eexists. split; [reflexivity |]. simpl.
      split; [reflexivity |]. split; [done |].
      split; [intros Hc; split; [done |];
              intros c m r Hin; apply list_elem_of_singleton in Hin; discriminate |].
      by repeat split.
  - exists false. do 2 eexists. split; [reflexivity |]. simpl.
    rewrite app_nil_r. split; [reflexivity |]. split; [done |].
    split; [intros Hc; split; [done |];
            intros c m r Hin; by apply elem_of_nil in Hin |].
    by repeat split.
  - exists false. do 2 eexists. split; [reflexivity |]. simpl.
    rewrite app_nil_r. split; [reflexivity |]. split; [done |].
    split; [intros Hc; split; [done |];
            intros c m r Hin; by apply elem_of_nil in Hin |].
    by repeat split.
Qed.

Lemma discord_sendAlert_spec (api : Api) (cfg : DiscordConfig)
    (alertTitle message : string) (st : State) :
  ∃ b st' d,
    sendAlert api cfg alertTitle message st = (Normal b, st')
    ∧ calls st' = calls st ++ d
    ∧ isReady st' = isReady st
    ∧ channel st' = channel st
    ∧ toTextChannels d
    ∧ (isReady st = false ∨ unset (alertChannelId cfg) = true →
       b = false ∧ st' = st)
    ∧ (b = true →
         ∃ ch body,
           d = [ChannelsFetch (default EmptyString (alertChannelId cfg))
                  (Normal (Some ch));
                ChannelSend ch body None]).
Proof.
  unfold sendAlert, fetch, send.
  unfold bind, tryCatch, gets, ret, throw, modify.
  destruct st as [[|] cached cs]; simpl.
  2: { exists false. do 2 eexists. split; [reflexivity |]. simpl.
       rewrite app_nil_r. split; [reflexivity |]. split; [done |]. split; [done |].
       split; [intros c m r Hin; by apply elem_of_nil in Hin |].
       by repeat split. }
  destruct (unset (alertChannelId cfg)) eqn:Hu.
  { exists false. do 2 eexists. split; [reflexivity |]. simpl.
    rewrite app_nil_r. split; [reflexivity |]. split; [done |]. split; [done |].
    split; [intros c m r Hin; by apply elem_of_nil in Hin |].
    by repeat split. }
  simpl.
  match goal with
  | |- context [channelsFetch api cs ?x] =>
      destruct (channelsFetch api cs x) as [[ch |] | e] eqn:Hf; simpl
  end.
  - destruct (isGuildText ch) eqn:Hg; simpl.
    + match goal with
      | |- context [channelSend api ?c ch ?m] =>
          destruct (channelSend api c ch m) eqn:Hs; simpl
      end.
      all: do 3 eexists; split; [reflexivity |]; simpl.
      all: rewrite <- ?app_assoc; simpl.
      all: split; [reflexivity |]; split; [done |]; split; [done |].
      all: split; [intros c m r Hin; apply elem_of_cons in Hin as [Hin | Hin];
                   [discriminate |];
                   apply list_elem_of_singleton in Hin; by injection Hin as -> _ _ |].
      all: split; [by intros [? | ?] |].
      * done.
      * intros _. by do 2 eexists.
    + do 3 eexists. split; [reflexivity |]. simpl.
      split; [reflexivity |]. split; [done |]. split; [done |].
      split; [intros c m r Hin; apply list_elem_of_singleton in Hin; discriminate |].
      split; [by intros [? | ?] | done].
  - do 3 eexists. split; [reflexivity |]. simpl.
    split; [reflexivity |]. split; [done |]. split; [done |].
    split; [intros c m r Hin; apply list_elem_of_singleton in Hin; discriminate |].
    split; [by intros [? | ?] | done].
  - do 3 eexists. split; [reflexivity |]. simpl.
    split; [reflexivity |]. split; [done |]. split; [done |].
    split; [intros c m r Hin; apply list_elem_of_singleton in Hin; discriminate |].
    split; [by intros [? | ?] | done].
Qed.

(** X20: the chat clients keep the contract the relay relies on: [sendTweet]
    of the Telegram client, and [sendTweet] and [sendAlert] of the Discord
    client, never throw; the Telegram client makes one [sendMessage] call, to
    the configured channel with the formatted message, and returns whether it
    resolved. *)
Theorem chat_clients_resolve :
  (∀ (api : TelegramClient.Api) channel tweet cs,
     let r := api cs channel (TelegramClient.formatMessage tweet) in
     TelegramClient.sendTweet api channel tweet cs
     = (Normal (bool_decide (r = None)),
        cs ++ [TelegramClient.SendMessage channel
                 (TelegramClient.formatMessage tweet) r]))
  ∧ (∀ api cfg tweet st,
       ∃ b st', sendTweet api cfg tweet st = (Normal b, st'))
  ∧ (∀ api cfg alertTitle message st,
       ∃ b st', sendAlert api cfg alertTitle message st = (Normal b, st')).
Proof.
  split; [| split].
  - intros api ch tweet cs.
    unfold TelegramClient.sendTweet, tryCatch, bind, TelegramClient.sendMessage, ret.
    cbv zeta. by destruct (api cs ch (TelegramClient.formatMessage tweet)).
  - intros api cfg tweet st.
    destruct (discord_sendTweet_spec api cfg tweet st) as (b & st' & d & H & _).
    by exists b, st'.
  - intros api cfg a m st.
    destruct (discord_sendAlert_spec api cfg a m st) as (b & st' & d & H & _).
    by exists b, st'.
Qed.

(** X21: the Discord client fetches its channel once and posts to text
    channels only. Starting with no cached channel or a cached text channel,
    every message of [sendTweet] goes to a text channel; once a [sendTweet]
    has returned [true], the next one makes no fetch: its only call is the
    send of the formatted message to the cached channel; [sendAlert] leaves
    the cached channel alone and fetches the alert channel each time; and a
    client that is not ready, or was disconnected or closed, sends nothing. *)
Theorem discord_channel_is_fetched_once (api : Api) (cfg : DiscordConfig)
    (t1 t2 : ParsedTweet) (alertTitle message : string) (st : State) :
  cacheOk st →
  let '(c1, st1) := sendTweet api cfg t1 st in
  let '(c2, st2) := sendTweet api cfg t2 st1 in
  let '(c3, st3) := sendAlert api cfg alertTitle message st1 in
  toTextChannels (drop (length (calls st)) (calls st2))
  ∧ toTextChannels (drop (length (calls st1)) (calls st3))
  ∧ channel st3 = channel st1
  ∧ (c1 = Normal true →
       ∃ ch, channel st1 = Some ch ∧ channel st2 = Some ch
             ∧ calls st2
               = calls st1
                 ++ [ChannelSend ch (formatMessage t2)
                       (channelSend api (calls st1) ch (formatMessage t2))])
  ∧ (c3 = Normal true →
       ∃ ch body,
         calls st3
         = calls st1
           ++ [ChannelsFetch (default EmptyString (alertChannelId cfg))
                 (Normal (Some ch));
               ChannelSend ch body None])
  ∧ (isReady st = false → st2 = st ∧ st3 = st ∧ c1 = Normal false)
  ∧ sendTweet api cfg t1 (onDisconnect st) = (Normal false, onDisconnect st)
  ∧ sendTweet api cfg t1 (close st) = (Normal false, close st).
Proof.
  intros Hcache.
  destruct (discord_sendTweet_spec api cfg t1 st)
    as (b1 & st1 & d1 & -> & Hc1 & Hr1 & Hok1 & Hnot1 & Hhit1 & Htrue1).
  destruct (Hok1 Hcache) as [Hcache1 Htext1].
  destruct (discord_sendTweet_spec api cfg t2 st1)
    as (b2 & st2 & d2 & -> & Hc2 & Hr2 & Hok2 & Hnot2 & Hhit2 & Htrue2).
  destruct (Hok2 Hcache1) as [Hcache2 Htext2].
  destruct (discord_sendAlert_spec api cfg alertTitle message st1)
    as (b3 & st3 & d3 & -> & Hc3 & Hr3 & Hch3 & Htext3 & Hnot3 & Htrue3).
  assert (A1 : drop (length (calls st)) (calls st2) = d1 ++ d2)
    by (by rewrite Hc2, Hc1, <- app_assoc, drop_app_length).
  assert (A2 : drop (length (calls st1)) (calls st3) = d3)
    by (by rewrite Hc3, drop_app_length).
  rewrite A1, A2.
  split.
  { intros ch m r Hin. apply elem_of_app in Hin as [Hin | Hin];
      [by eapply Htext1 | by eapply Htext2]. }
  split; [done |]. split; [done |].
  split.
  { intros [= ->]. destruct (Htrue1 eq_refl) as (ch & Hch & _).
    assert (Hready : isReady st1 = true).
    { rewrite Hr1. destruct (isReady st) eqn:Hr; [done |].
      by destruct (Hnot1 eq_refl). }
    destruct (Hhit2 ch Hready Hch) as (Hch2 & Hd2 & _).
    exists ch. by rewrite Hc2, Hd2. }
  split.
  { intros [= ->]. destruct (Htrue3 eq_refl) as (ch & body & Hd3).
    exists ch, body. by rewrite Hc3, Hd3. }
  split.
  { intros Hr. destruct (Hnot1 Hr) as [-> ->].
    destruct (Hnot2 Hr) as [_ ->]. destruct (Hnot3 (or_introl Hr)) as [_ ->]. done. }
  done.
Qed.

Lemma discord_channel_is_fetched_once_witness :
  let general := {| ch_id := "100"; ch_type := GuildText |} in
  let api := {| channelsFetch := fun _ _ => Normal (Some general);
                channelSend := fun _ _ _ => None;
                nowIso := fun _ => "2026-01-01T00:00:00.000Z" |} in
  let cfg := {| channelId := "100"; alertChannelId := Some "200" |} in
  let st := {| isReady := true; channel := None; calls := [] |} in
  let t1 := Scenario.tweet "1" 100 in
  let t2 := Scenario.tweet "2" 200 in
  cacheOk st
  ∧ (let '(c1, st1) := sendTweet api cfg t1 st in
     let '(c2, st2) := sendTweet api cfg t2 st1 in
     c1 = Normal true
     ∧ ∃ ch, channel st1 = Some ch ∧ channel st2 = Some ch
             ∧ calls st2
               = calls st1
                 ++ [ChannelSend ch (formatMessage t2)
                       (channelSend api (calls st1) ch (formatMessage t2))]).
Proof.
  intros general api cfg st t1 t2.
  assert (Hc : cacheOk st) by (intros ch H; discriminate).
  split; [exact Hc |].
  pose proof (discord_channel_is_fetched_once api cfg t1 t2 "t" "m" st Hc) as H.
  destruct (sendTweet api cfg t1 st) as [c1 st1] eqn:H1.
  destruct (sendTweet api cfg t2 st1) as [c2 st2] eqn:H2.
  destruct (sendAlert api cfg "t" "m" st1) as [c3 st3].
  destruct H as (_ & _ & _ & Hhit & _).
  assert (Hc1 : c1 = Normal true) by (vm_compute in H1; congruence).
  split; [exact Hc1 |]. exact (Hhit Hc1).
Defined.

End DiscordFacts.

(** ** Configuration *)

Section ConfigFacts.
Import Config.

Lemma requireEnv_spec (key : string) (env : gmap string string) :
  requireEnv key env
  = (match setting env key with
     | Some v => Normal v
     | None => Throw (configError ("Missing required environment variable: " +:+ key))
     end, env).
Proof.
  unfold requireEnv, setting, bind, gets, ret, throw.
  destruct (env !! key) as [v |]; [| done]. by destruct (isEmpty v).
Qed.

Lemma optionalEnv_spec (key dflt : string) (env : gmap string string) :
  optionalEnv key dflt env = (Normal (default dflt (setting env key)), env).
Proof.
  unfold optionalEnv, setting, bind, gets, ret.
  destruct (env !! key) as [v |]; [| done]. by destruct (isEmpty v).
Qed.

Lemma parseIntEnv_spec (key : string) (dflt : Num) (env : gmap string string) :
  parseIntEnv key dflt env
  = (match setting env key with
     | None => Normal dflt
     | Some v =>
         match parseInt10 v with
         | Some n => Normal n
         | None => Throw (configError ("Invalid integer for " +:+ key +:+ ": " +:+ v))
         end
     end, env).
Proof.
  unfold parseIntEnv, setting, bind, gets, ret, throw.
  destruct (env !! key) as [v |]; [| done]. destruct (isEmpty v); [done |].
  by destruct (parseInt10 v).
Qed.

Lemma parseBoolEnv_spec (key : string) (dflt : bool) (env : gmap string string) :
  parseBoolEnv key dflt env
  = (Normal (match setting env key with
             | None => dflt
             | Some v => String.eqb (toLowerCase v) "true" || String.eqb v "1"
             end), env).
Proof.
  unfold parseBoolEnv, setting, bind, gets, ret.
  destruct (env !! key) as [v |]; [| done]. by destruct (isEmpty v).
Qed.

Lemma setting_insert_empty (env : gmap string string) (k key : string) :
  setting (<[k := EmptyString]> env) key = setting (delete k env) key.
Proof.
  unfold setting. destruct (decide (k = key)) as [-> | Hne].
  - by rewrite lookup_insert_eq, lookup_delete_eq.
  - by rewrite lookup_insert_ne, lookup_delete_ne.
Qed.

Lemma readsSettings_ret {A : Type} (a : A) : readsSettings (ret a).
Proof. by intros env1 env2 H. Qed.

Lemma readsSettings_bind {A B : Type} (m : M (gmap string string) A)
    (k : A → M (gmap string string) B) :
  readsSettings m → (∀ a, readsSettings (k a)) → readsSettings (bind m k).
Proof.
  intros Hm Hk env1 env2 H. unfold bind.
  destruct (Hm env1 env2 H) as (Hc & H1 & H2).
  destruct (m env1) as [c1 e1], (m env2) as [c2 e2]. simpl in *. subst.
  destruct c2 as [a | e]; [by apply Hk | done].
Qed.

Lemma readsSettings_requireEnv (key : string) : readsSettings (requireEnv key).
Proof. intros env1 env2 H. by rewrite !requireEnv_spec, H. Qed.

Lemma readsSettings_optionalEnv (key dflt : string) :
  readsSettings (optionalEnv key dflt).
Proof. intros env1 env2 H. by rewrite !optionalEnv_spec, H. Qed.

Lemma readsSettings_parseIntEnv (key : string) (dflt : Num) :
  readsSettings (parseIntEnv key dflt).
Proof. intros env1 env2 H. by rewrite !parseIntEnv_spec, H. Qed.

Lemma readsSettings_parseBoolEnv (key : string) (dflt : bool) :
  readsSettings (parseBoolEnv key dflt).
Proof. intros env1 env2 H. by rewrite !parseBoolEnv_spec, H. Qed.

Lemma readsSettings_validateUrl (validUrl : string → bool) (url name : string) :
  readsSettings (validateUrl validUrl url name).
Proof. intros env1 env2 H. unfold validateUrl. by destruct (validUrl url). Qed.

Lemma readsSettings_loadConfig (validUrl : string → bool) :
  readsSettings (loadConfig validUrl).
Proof.
  unfold loadConfig.
  repeat first
    [ apply readsSettings_requireEnv
    | apply readsSettings_optionalEnv
    | apply readsSettings_parseIntEnv
    | apply readsSettings_parseBoolEnv
    | apply readsSettings_validateUrl
    | apply readsSettings_ret
    | apply readsSettings_bind; [| intros ?] ].
Qed.

(** X22: for [loadConfig], a variable set to the empty string is a
    variable that is not set, whichever variable it is; and [loadConfig]
    changes no variable. *)
Theorem empty_is_unset (validUrl : string → bool) (env : gmap string string)
    (k : string) :
  (loadConfig validUrl (<[k := EmptyString]> env)).1
  = (loadConfig validUrl (delete k env)).1
  ∧ (loadConfig validUrl env).2 = env.
Proof.
  split.
  - apply readsSettings_loadConfig. intros key. apply setting_insert_empty.
  - by apply (readsSettings_loadConfig validUrl env env).
Qed.

Ltac key_in_list :=
  repeat first [apply list_elem_of_here | apply list_elem_of_further].

Ltac config_step Hrun :=
  unfold bind at 1 in Hrun;
  lazymatch type of Hrun with
  | context [optionalEnv ?k ?d ?e] =>
      rewrite (optionalEnv_spec k d e) in Hrun
  | context [parseBoolEnv ?k ?d ?e] =>
      rewrite (parseBoolEnv_spec k d e) in Hrun
  | context [requireEnv ?k ?e] =>
      rewrite (requireEnv_spec k e) in Hrun;
      destruct (setting e k) eqn:?
  | context [parseIntEnv ?k ?d ?e] =>
      rewrite (parseIntEnv_spec k d e) in Hrun;
      destruct (setting e k) as [? |] eqn:?;
      [match type of Hrun with
       | context [parseInt10 ?v] => destruct (parseInt10 v) eqn:?
       end |]
  | context [validateUrl ?f ?u ?n ?e] =>
      unfold validateUrl in Hrun; destruct (f u) eqn:?
  end;
  cbv beta iota delta [ret throw] in Hrun.

Lemma loadConfig_outcome (validUrl : string → bool) (env : gmap string string) :
  ∃ c,
    loadConfig validUrl env = (c, env)
    ∧ (∀ cfg, c = Normal cfg →
         wellFormed validUrl env
         ∧ maxRetries (retry cfg)
           = default (Finite 3) (setting env "MAX_RETRIES" ≫= parseInt10)
         ∧ retryDelayMs (retry cfg)
           = default (Finite 1000) (setting env "RETRY_DELAY_MS" ≫= parseInt10))
    ∧ (∀ e, c = Throw e →
         ¬ wellFormed validUrl env
         ∧ ∃ msg, e = ErrorObj msg ∧ complaint validUrl env msg).
Proof.
  destruct (loadConfig validUrl env) as [c env'] eqn:Hrun.
  assert (Henv : env' = env).
  { pose proof (readsSettings_loadConfig validUrl env env (fun _ => eq_refl)) as (_ & H & _).
    by rewrite Hrun in H. }
  subst env'. exists c. split; [done |].
  unfold loadConfig in Hrun.
  do 18 (try config_step Hrun).
  all: injection Hrun as <-.
  all: split; [intros cfg Hc; try discriminate | intros e He; try discriminate].
  all: try (injection He as <-; split;
            [ intros (Hreq & Hurl & Hint);
              rewrite Forall_forall in Hreq; rewrite Forall_forall in Hint;
              first
                [ match goal with
                  | H : setting _ ?k = None |- _ =>
                      destruct (Hreq k ltac:(key_in_list)) as [? ?]; congruence
                  end
                | match goal with
                  | H : setting _ ?k = Some ?v, H' : parseInt10 ?v = None |- _ =>
                      destruct (Hint k ltac:(key_in_list) v H) as [? ?]; congruence
                  end
                | match goal with
                  | H : setting _ "NITTER_BASE_URL" = Some ?v |- _ =>
                      specialize (Hurl v H); congruence
                  end ]
            | eexists; split; [reflexivity |];
              first
                [ left; eexists; split; [| split; [eassumption | reflexivity]];
                  key_in_list
                | right; left; eexists; split; [eassumption |]; split; [eassumption |];
                  reflexivity
                | right; right; do 2 eexists; split; [| split; [eassumption |];
                  split; [eassumption | reflexivity]]; key_in_list ] ]).
  all: injection Hc as <-; cbn [retry maxRetries retryDelayMs].
  all: split; [| unfold mbind, option_bind;
                 by repeat match goal with
                           | H : parseInt10 _ = _ |- _ => rewrite H; clear H
                           end].
  all: split; [| split].
  all: lazymatch goal with
       | |- Forall _ requiredKeys =>
           rewrite Forall_forall; intros k Hk; unfold requiredKeys in Hk;
           repeat (apply elem_of_cons in Hk as [-> | Hk]);
           [ .. | by apply elem_of_nil in Hk ];
           match goal with
           | H : setting _ ?k = Some _ |- is_Some (setting _ ?k) =>
               rewrite H; by eexists
           end
       | |- Forall _ integerKeys =>
           rewrite Forall_forall; intros k Hk; unfold integerKeys in Hk;
           repeat (apply elem_of_cons in Hk as [-> | Hk]);
           [ .. | by apply elem_of_nil in Hk ];
           intros v;
           match goal with
           | H : setting _ ?k = _ |- setting _ ?k = _ → _ => rewrite H
           end;
           intros Hv;
           first [ discriminate
                 | injection Hv as <-;
                   match goal with
                   | H : parseInt10 ?v = Some _ |- is_Some (parseInt10 ?v) =>
                       rewrite H; by eexists
                   end ]
       | |- _ => intros v Hv; congruence
       end.
Qed.

(** [parseInt] skips JavaScript's white space, stops at the first character
    that is no digit, and answers the nearest double; a template string prints
    a number with the fewest digits that read back as it. *)
Example numbers_of_javascript :
  parseInt10 (Sample.nbsp +:+ "7") = Some (Finite 7)
  ∧ parseInt10 "-12px" = Some (Finite (-12))
  ∧ parseInt10 "9007199254740993" = Some (Finite 9007199254740992)
  ∧ toNumber false (10 ^ 309) = Infinity false
  ∧ numberToString (2 ^ 60) = "1152921504606847000"
  ∧ numberToString (10 ^ 21) = "1e+21".
Proof. vm_compute. by repeat split. Qed.

(** X23: [loadConfig] returns a configuration exactly when every required
    variable is set, the base URL is a URL and every integer variable that is
    set reads as a number, that is, starts with a digit after white space and
    an optional sign; and what it throws otherwise is an error naming a
    variable that is at fault. *)
Theorem loadConfig_succeeds_iff_well_formed (validUrl : string → bool)
    (env : gmap string string) :
  ((∃ cfg, (loadConfig validUrl env).1 = Normal cfg) ↔ wellFormed validUrl env)
  ∧ (∀ e, (loadConfig validUrl env).1 = Throw e →
          ∃ msg, e = ErrorObj msg ∧ complaint validUrl env msg).
Proof.
  destruct (loadConfig_outcome validUrl env) as (c & -> & Hok & Hko). simpl.
  split; [split |].
  - intros [cfg ->]. by destruct (Hok cfg eq_refl).
  - intros Hwf. destruct c as [cfg | e]; [by exists cfg |].
    by destruct (Hko e eq_refl).
  - intros e ->. by destruct (Hko e eq_refl).
Qed.

Lemma loadConfig_succeeds_iff_well_formed_witness :
  let env : gmap string string :=
    list_to_map
      [ ("NITTER_BASE_URL", "http://localhost:8080"); ("NITTER_USERNAME", "btclight");
        ("DATABASE_URL", "postgres://db"); ("TELEGRAM_BOT_TOKEN", "t");
        ("TELEGRAM_CHANNEL_ID", "@c"); ("DISCORD_BOT_TOKEN", "d");
        ("DISCORD_CHANNEL_ID", "1"); ("MAX_RETRIES", "five") ] in
  (loadConfig (fun _ => true) env).1
  = Throw (ErrorObj "Invalid integer for MAX_RETRIES: five")
  ∧ ∃ msg, ErrorObj "Invalid integer for MAX_RETRIES: five" = ErrorObj msg
           ∧ complaint (fun _ => true) env msg.
Proof.
  intros env.
  assert (H : (loadConfig (fun _ => true) env).1
              = Throw (ErrorObj "Invalid integer for MAX_RETRIES: five"))
    by (vm_compute; reflexivity).
  split; [exact H |].
  exact (proj2 (loadConfig_succeeds_iff_well_formed (fun _ => true) env) _ H).
Defined.

(** X24: [loadConfig] accepts a [MAX_RETRIES] that reads as a finite number
    of zero or less, and the client built from that configuration makes no
    request in [fetchRSS] and throws at once, naming the number as a template
    string prints it; when [MAX_RETRIES] is not set the limit is three
    requests. *)
Theorem max_retries_setting (validUrl : string → bool) (env : gmap string string)
    (cfg : AppConfig) (rc : NitterClient.RetryConfig)
    (http : list NitterClient.Step → NitterClient.GetOutcome)
    (tr : list NitterClient.Step) :
  (loadConfig validUrl env).1 = Normal cfg →
  clientRetry cfg = Some rc →
  (∀ v n, setting env "MAX_RETRIES" = Some v → parseInt10 v = Some (Finite n) →
     (n ≤ 0)%Z →
     NitterClient.fetchRSS http rc tr
     = (Throw (ErrorObj ("Failed to fetch RSS after " +:+ numberToString n
                         +:+ " attempts: undefined")), tr))
  ∧ (setting env "MAX_RETRIES" = None →
     ∃ c d, NitterClient.fetchRSS http rc tr = (c, tr ++ d)
            ∧ (length (NitterClient.requests d) ≤ 3)%nat).
Proof.
  destruct (loadConfig_outcome validUrl env) as (c & -> & Hok & _). simpl.
  intros -> Hrc. destruct (Hok cfg eq_refl) as (_ & Hmax & _).
  unfold clientRetry in Hrc.
  destruct (maxRetries (retry cfg)) as [m |] eqn:Hm; [| done].
  destruct (retryDelayMs (retry cfg)) as [delay |]; [| done].
  injection Hrc as <-.
  split.
  - intros v n Hv Hn Hle. rewrite Hv in Hmax. simpl in Hmax. rewrite Hn in Hmax.
    simpl in Hmax. injection Hmax as ->. unfold NitterClient.fetchRSS.
    cbn [NitterClient.maxRetries].
    replace (Z.to_nat n) with 0%nat by lia. done.
  - intros Hnone. rewrite Hnone in Hmax. simpl in Hmax. injection Hmax as ->.
    unfold NitterClient.fetchRSS. cbn [NitterClient.maxRetries].
    destruct (attempts_spec http
                {| NitterClient.maxRetries := 3; NitterClient.retryDelayMs := delay |}
                (Z.to_nat 3) 1 None tr)
      as (gets & Hrun & Hlen & _); [simpl; lia |].
    rewrite Hrun. do 2 eexists. split; [reflexivity |].
    rewrite requests_traceOf. simpl in Hlen. lia.
Qed.

Lemma max_retries_setting_witness :
  let env : gmap string string :=
    list_to_map
      [ ("NITTER_BASE_URL", "http://localhost:8080"); ("NITTER_USERNAME", "btclight");
        ("DATABASE_URL", "postgres://db"); ("TELEGRAM_BOT_TOKEN", "t");
        ("TELEGRAM_CHANNEL_ID", "@c"); ("DISCORD_BOT_TOKEN", "d");
        ("DISCORD_CHANNEL_ID", "1"); ("MAX_RETRIES", "-2") ] in
  let cfg :=
    {| nodeEnv := "development";
       nitter := {| baseUrl := "http://localhost:8080"; username := "btclight" |};
       database := {| connectionString := "postgres://db"; poolMax := Finite 10;
                      idleTimeoutMs := Finite 30000;
                      connectionTimeoutMs := Finite 5000 |};
       telegram := {| tg_botToken := "t"; tg_channelId := "@c" |};
       discord := {| dc_botToken := "d";
                     dc_channels :=
                       {| DiscordClient.channelId := "1";
                          DiscordClient.alertChannelId := Some EmptyString |} |};
       cronExpression := "*/10 9-20 * * 1-5";
       retry := {| maxRetries := Finite (-2); retryDelayMs := Finite 1000 |};
       log := {| level := "info"; pretty := false |} |} in
  let rc := {| NitterClient.maxRetries := -2; NitterClient.retryDelayMs := 1000 |} in
  let http : list NitterClient.Step → NitterClient.GetOutcome :=
    fun _ => NitterClient.Body "<rss/>" in
  ((loadConfig (fun _ => true) env).1 = Normal cfg
   ∧ clientRetry cfg = Some rc
   ∧ setting env "MAX_RETRIES" = Some "-2"
   ∧ parseInt10 "-2" = Some (Finite (-2)) ∧ (-2 ≤ 0)%Z)
  ∧ NitterClient.fetchRSS http rc []
    = (Throw (ErrorObj "Failed to fetch RSS after -2 attempts: undefined"), []).
Proof.
  intros env cfg rc http.
  assert (H1 : (loadConfig (fun _ => true) env).1 = Normal cfg)
    by (vm_compute; reflexivity).
  assert (H2 : clientRetry cfg = Some rc) by reflexivity.
  assert (H3 : setting env "MAX_RETRIES" = Some "-2") by (vm_compute; reflexivity).
  assert (H4 : parseInt10 "-2" = Some (Finite (-2))) by (vm_compute; reflexivity).
  assert (H5 : (-2 ≤ 0)%Z) by lia.
  split; [exact (conj H1 (conj H2 (conj H3 (conj H4 H5)))) |].
  exact (proj1 (max_retries_setting (fun _ => true) env cfg rc http [] H1 H2)
           "-2" (-2)%Z H3 H4 H5).
Defined.

End ConfigFacts.

(** ** The entry point *)

Section AppFacts.
Import App.

Lemma runProcessingCycle_spec (E : Env) (other : string) (st : AppState) :
  isProcessing st = false →
  ∃ pr r w1 c st',
    poll E (world st) = (Normal pr, w1)
    ∧ PollRelay.process E (world st) = (Normal r, w1)
    ∧ runProcessingCycle E other st = (c, st')
    ∧ isProcessing st' = false
    ∧ shuttingDown st' = shuttingDown st
    ∧ (errors r = [] → c = Normal tt ∧ world st' = w1)
    ∧ (errors r ≠ [] →
         ∃ d, history (world st') = history w1 ++ d
              ∧ table (world st') = table w1
              ∧ ∃ r1, hd_error d
                      = Some (DiscordAlert "Processing Errors"
                                (errorAlertBody (errors r)) r1)
                      ∧ (alertsResolve E → c = Normal tt ∧ length d = 1%nat)).
Proof.
  intros Hidle.
  destruct (poll_cycle E (world st))
    as (pr & w1 & pre & w2 & fresh & d & w3 & post & Hpoll & _).
  assert (Hproc : ∃ r, PollRelay.process E (world st) = (Normal r, w1)).
  { unfold PollRelay.process, bind, ret. rewrite Hpoll. by eexists. }
  destruct Hproc as [r Hproc].
  exists pr, r, w1.
  unfold runProcessingCycle, tryFinally, tryCatch, bind, gets, setProcessing, modify,
    inWorld, sendAlert, logError, ret.
  rewrite Hidle. cbn [world withWorld]. rewrite Hproc.
  remember (errorAlertBody (errors r)) as body eqn:Hbody.
  destruct (errors r) as [| e1 errs] eqn:Herr.
  - simpl. do 2 eexists.
    split; [done |]. split; [done |]. split; [reflexivity |].
    simpl. by repeat split.
  - simpl.
    destruct (discordSendAlert E (history w1) "Processing Errors" body)
      as [b | e] eqn:Ha; simpl.
    + do 2 eexists. split; [done |]. split; [done |]. split; [reflexivity |].
      simpl. split; [done |]. split; [done |]. split; [done |].
      intros _. eexists. split; [reflexivity |]. split; [done |].
      eexists. split; [reflexivity |]. by intros _.
    + match goal with
      | |- context [discordSendAlert E ?h "Processing Cycle Failed" ?b2] =>
          destruct (discordSendAlert E h "Processing Cycle Failed" b2)
            as [b2' | e2] eqn:Ha2; simpl
      end.
      all: do 2 eexists; split; [done |]; split; [done |]; split; [reflexivity |].
      all: simpl; split; [done |]; split; [done |].
      all: split; [done |].
      all: intros _; eexists; split; [by rewrite <- !app_assoc |].
      all: split; [done |].
      all: eexists; split; [reflexivity |].
      all: intros Hres; destruct (Hres (history w1) "Processing Errors" body) as [? ?];
             congruence.
Qed.

Lemma poll_no_alert (E : Env) (w : World) :
  alertCalls (since (history w) (history (poll E w).2)) = 0%nat.
Proof.
  rewrite poll_eq.
  destruct (fetchTweets_outcome E w)
    as (c1 & w1 & d1 & -> & Hh1 & (_ & _ & _ & Ha1) & _).
  set (d1' := FetchRSS _ :: d1) in Hh1.
  assert (Ha1' : alertCalls d1' = 0%nat) by done. clearbody d1'. clear Ha1.
  unfold aborted.
  destruct c1 as [tweets | e]; simpl;
    [| by rewrite Hh1, <- app_assoc, since_app, alertCalls_app, Ha1'].
  destruct (length tweets =? 0)%nat; simpl; [by rewrite Hh1, since_app |].
  destruct (filterExisting_quiet E (map tw_id tweets) w1)
    as (c2 & w2 & d2 & -> & Hh2 & (_ & _ & _ & Ha2) & _).
  destruct c2 as [existing | e]; simpl;
    [| by rewrite Hh2, Hh1, <- !app_assoc, since_app, !alertCalls_app, Ha1', Ha2].
  destruct (length (notIn existing tweets) =? 0)%nat; simpl;
    [by rewrite Hh2, Hh1, <- !app_assoc, since_app, !alertCalls_app, Ha1', Ha2 |].
  destruct (processAll_spec E (notIn existing tweets) w2)
    as (c3 & w3 & d3 & -> & Hh3 & _ & _ & Ha3 & _).
  destruct c3 as [rs | e]; simpl.
  - by rewrite Hh3, Hh2, Hh1, <- !app_assoc, since_app, !alertCalls_app, Ha1', Ha2, Ha3.
  - by rewrite Hh3, Hh2, Hh1, <- !app_assoc, since_app, !alertCalls_app, Ha1', Ha2, Ha3.
Qed.

Lemma pollProcess_errors (E : Env) (w : World) :
  ∃ pr r w',
    poll E w = (Normal pr, w') ∧ PollRelay.process E w = (Normal r, w')
    ∧ (success pr = true →
         errors r
         = map (fun x => tweetId x +:+ ": Both Telegram and Discord failed")
             (List.filter
                (fun x => negb (telegram x) && negb (discord x) && negb (skipped x))
                (results pr)))
    ∧ (success pr = false →
         ∃ e, pollError pr = Some (errorMessage e)
              ∧ errors r = if isEmpty (errorMessage e) then [] else [errorMessage e]).
Proof.
  destruct (poll_cycle E w)
    as (pr & w' & pre & w2 & fresh & d & w3 & post & Hrun & _ & _ & _ & _ & _
        & _ & _ & _ & _ & Hok & Hko).
  unfold PollRelay.process, bind, ret. rewrite Hrun.
  do 3 eexists. split; [reflexivity |]. split; [reflexivity |]. simpl. split.
  - intros Hs. destruct (Hok Hs) as (_ & -> & _ & _ & _ & _ & _ & _ & _ & HF).
    by rewrite errors_of_results.
  - intros Hs. destruct (Hko Hs) as (-> & _ & _ & e & ->). by exists e.
Qed.

(** X25: the cycle guard of the entry point. A cycle that finds another one
    running does nothing at all; otherwise the running flag is released when
    the cycle ends, also when it throws, the world is only extended, and the
    cycle does not throw as long as [sendAlert] resolves; and the scheduled
    run does nothing once shutdown has begun. *)
Theorem processing_flag_is_released (E : Env) (other : string) (st : AppState) :
  (isProcessing st = true → runProcessingCycle E other st = (Normal tt, st))
  ∧ (isProcessing st = false →
     let '(c, st') := runProcessingCycle E other st in
     isProcessing st' = false
     ∧ shuttingDown st' = shuttingDown st
     ∧ (∃ added, table (world st') = table (world st) ++ added)
     ∧ (alertsResolve E → c = Normal tt))
  ∧ (shuttingDown st = true → scheduledRun E other st = (Normal tt, st)).
Proof.
  split; [| split].
  - intros Hbusy. unfold runProcessingCycle, bind, gets, ret. by rewrite Hbusy.
  - intros Hidle.
    destruct (runProcessingCycle_spec E other st Hidle)
      as (pr & r & w1 & c & st' & Hpoll & Hproc & -> & Hflag & Hshut & Hnone & Hsome).
    pose proof (poll_extends E (world st)) as Hext. rewrite Hpoll in Hext.
    destruct Hext as ([added Hadd] & _).
    split; [done |]. split; [done |].
    destruct (errors r) as [| e1 errs] eqn:Herr.
    + destruct (Hnone eq_refl) as [-> ->]. split; [by exists added | done].
    + destruct (Hsome ltac:(done)) as (d & Hh & Ht & r1 & _ & Hres).
      split; [exists added; by rewrite Ht | intros H; by apply Hres].
  - intros Hstop. unfold scheduledRun, bind, gets, ret. by rewrite Hstop.
Qed.

Lemma processing_flag_is_released_witness :
  let E := Sample.quietEnv in
  let st := {| shuttingDown := false; isProcessing := false;
               world := Scenario.emptyWorld |} in
  (isProcessing st = false ∧ alertsResolve E)
  ∧ (let '(c, st') := runProcessingCycle E "thrown" st in
     isProcessing st' = false ∧ c = Normal tt).
Proof.
  intros E st.
  assert (H1 : isProcessing st = false) by reflexivity.
  assert (H2 : alertsResolve E) by (intros h a b; eexists; reflexivity).
  split; [by split |].
  pose proof (proj1 (proj2 (processing_flag_is_released E "thrown" st)) H1) as H.
  destruct (runProcessingCycle E "thrown" st) as [c st'].
  destruct H as (Hflag & _ & _ & Hres). split; [exact Hflag | exact (Hres H2)].
Defined.

(** X26: when the entry point raises the alert. With [sendAlert] resolving,
    a cycle makes one alert call when the result of the service lists an
    error and none otherwise; after a cycle that ran to its end that is when
    some post was declined by both chats; after an aborted cycle it is when
    the message of the failure is not empty, so that a failure with an empty
    message raises no alert. *)
Theorem alert_iff_errors (E : Env) (other : string) (st : AppState) :
  isProcessing st = false → alertsResolve E →
  ∃ pr w1,
    poll E (world st) = (Normal pr, w1)
    ∧ let st' := (runProcessingCycle E other st).2 in
      let calls := alertCalls (since (history (world st)) (history (world st'))) in
      (calls ≤ 1)%nat
      ∧ (success pr = true →
           (calls = 1%nat ↔
            ∃ x, x ∈ results pr ∧ telegram x = false ∧ discord x = false
                 ∧ skipped x = false))
      ∧ (success pr = false →
           ∃ e, pollError pr = Some (errorMessage e)
                ∧ (calls = 1%nat ↔ errorMessage e ≠ EmptyString)).
Proof.
  intros Hidle Hres.
  destruct (runProcessingCycle_spec E other st Hidle)
    as (pr & r & w1 & c & st' & Hpoll & Hproc & Hrun & _ & _ & Hnone & Hsome).
  destruct (pollProcess_errors E (world st))
    as (pr' & r' & w1' & Hpoll' & Hproc' & Hok & Hko).
  rewrite Hpoll in Hpoll'. injection Hpoll' as <- <-.
  rewrite Hproc in Hproc'. injection Hproc' as <-.
  exists pr, w1. split; [done |]. rewrite Hrun. cbn [snd].
  pose proof (poll_no_alert E (world st)) as Hquiet. rewrite Hpoll in Hquiet.
  pose proof (poll_extends E (world st)) as Hext. rewrite Hpoll in Hext.
  destruct Hext as (_ & [dp Hdp] & _). cbn [snd] in *.
  rewrite Hdp, since_app in Hquiet.
  assert (Hcalls : alertCalls (since (history (world st)) (history (world st')))
                   = (if bool_decide (errors r = []) then 0 else 1)%nat).
  { destruct (decide (errors r = [])) as [Hnil | Hne].
    - destruct (Hnone Hnil) as [_ ->].
      by rewrite bool_decide_eq_true_2, Hdp, since_app.
    - destruct (Hsome Hne) as (d & Hh & _ & r1 & Hhd & Hone).
      destruct (Hone Hres) as [_ Hlen].
      destruct d as [| ev [| ? ?]]; try discriminate. injection Hhd as ->.
      by rewrite bool_decide_eq_false_2, Hh, Hdp, <- app_assoc, since_app,
        alertCalls_app, Hquiet. }
  rewrite Hcalls. split; [destruct (bool_decide (errors r = [])); lia |]. split.
  - intros Hs. rewrite (Hok Hs).
    set (g := fun x => negb (telegram x) && negb (discord x) && negb (skipped x)).
    split.
    + intros Hone. destruct (List.filter g (results pr)) as [| x xs] eqn:Hf;
        [done |].
      assert (Hin : In x (List.filter g (results pr))) by (rewrite Hf; by left).
      apply List.filter_In in Hin as [Hin Hg]. exists x. unfold g in Hg.
      apply andb_prop in Hg as [Hg Hg3]. apply andb_prop in Hg as [Hg1 Hg2].
      apply negb_true_iff in Hg1, Hg2, Hg3.
      split; [by apply list_elem_of_In | done].
    + intros (x & Hin & H1 & H2 & H3).
      assert (Hin' : In x (List.filter g (results pr))).
      { apply List.filter_In. split; [by apply list_elem_of_In |].
        unfold g. by rewrite H1, H2, H3. }
      destruct (List.filter g (results pr)); [done |]. done.
  - intros Hs. destruct (Hko Hs) as (e & He & ->). exists e. split; [done |].
    destruct (errorMessage e); simpl; split; done.
Qed.

End AppFacts.

(** ** The properties above at sample inputs *)

Ltac find_in_list :=
  repeat first [apply list_elem_of_here | apply list_elem_of_further].

Lemma stored_posts_are_not_sent_witness :
  let E := Sample.twoPosts in
  let w := Scenario.worldWith ["1"] in
  let t := Scenario.tweet "2" 200 in
  let d := since (history w) (history (poll E w).2) in
  (t ∈ telegramSends d ∨ t ∈ discordSends d) ∧ tw_id t ∉ storedIds w.
Proof.
  intros E w t d.
  assert (H : t ∈ telegramSends d ∨ t ∈ discordSends d)
    by (left; vm_compute; find_in_list).
  split; [exact H |]. exact (proj1 (stored_posts_are_not_sent E) w t H).
Defined.

Lemma delivered_posts_are_stored_witness :
  let E := Sample.twoPosts in
  let w := Scenario.worldWith ["1"] in
  let t := Scenario.tweet "2" 200 in
  (dbUp E w ∧ sinksResolve E
   ∧ sinkOk (since (history w) (history (poll E w).2)) t)
  ∧ tw_id t ∈ storedIds (poll E w).2.
Proof.
  intros E w t.
  assert (H1 : dbUp E w) by (by split).
  assert (H2 : sinksResolve E) by (intros h u; split; by eexists).
  assert (H3 : sinkOk (since (history w) (history (poll E w).2)) t)
    by (left; vm_compute; find_in_list).
  split; [exact (conj H1 (conj H2 H3)) |].
  exact (proj1 (delivered_posts_are_stored E) w t H1 H2 H3).
Defined.

Lemma delivered_posts_are_not_sent_again_witness :
  let E := Sample.picky in
  let w := Scenario.emptyWorld in
  let t := Scenario.tweet "2" 200 in
  let t' := Scenario.tweet "1" 100 in
  let w1 := (poll E w).2 in
  let later := since (history w1) (history (poll E w1).2) in
  (dbUp E w ∧ sinksResolve E
   ∧ sinkOk (since (history w) (history w1)) t
   ∧ (t' ∈ telegramSends later ∨ t' ∈ discordSends later))
  ∧ tw_id t' ≠ tw_id t.
Proof.
  intros E w t t' w1 later.
  assert (H1 : dbUp E w) by (by split).
  assert (H2 : sinksResolve E) by (intros h u; split; by eexists).
  assert (H3 : sinkOk (since (history w) (history w1)) t)
    by (left; vm_compute; find_in_list).
  assert (H4 : t' ∈ telegramSends later ∨ t' ∈ discordSends later)
    by (left; vm_compute; find_in_list).
  split; [exact (conj H1 (conj H2 (conj H3 H4))) |].
  exact (proj1 (delivered_posts_are_not_sent_again E 0) w t t' H1 H2 H3 H4).
Defined.

Lemma telegram_sends_are_paced_witness :
  let E := Sample.twoPosts in
  let w := Scenario.emptyWorld in
  let t1 := Scenario.tweet "1" 100 in
  let t2 := Scenario.tweet "2" 200 in
  let a := [FetchRSS (Normal "<rss/>");
            DbQuery (SelectIdIn ["1"; "2"]) (Normal []);
            DbQuery (SelectExists "1") (Normal [])] in
  let mid := [DiscordSend t1 (Normal true);
              DbQuery (InsertProcessed "1" 100) (Normal [RowId "1"]);
              Sleep 1000;
              DbQuery (SelectExists "2") (Normal [])] in
  let c := [DiscordSend t2 (Normal true);
            DbQuery (InsertProcessed "2" 200) (Normal [RowId "2"])] in
  since (history w) (history (poll E w).2)
  = a ++ TelegramSend t1 (Normal true) :: mid ++ TelegramSend t2 (Normal true) :: c
  ∧ ∃ ms, Sleep ms ∈ mid ∧ (1000 ≤ ms)%Z.
Proof.
  intros E w t1 t2 a mid c.
  assert (H : since (history w) (history (poll E w).2)
              = a ++ TelegramSend t1 (Normal true)
                  :: mid ++ TelegramSend t2 (Normal true) :: c)
    by (vm_compute; reflexivity).
  split; [exact H |].
  exact (proj1 (telegram_sends_are_paced E) w a t1 _ mid t2 _ c H).
Defined.

Lemma pollProcess_reports_its_events_witness :
  (let E := Sample.picky in
   let w := Scenario.emptyWorld in
   ∃ pr r w',
     poll E w = (Normal pr, w') ∧ PollRelay.process E w = (Normal r, w')
     ∧ success pr = true
     ∧ telegramSuccess r = count isTelegramOk (since (history w) (history w'))
     ∧ telegramFailed r = count isTelegramKo (since (history w) (history w')))
  ∧ (let E := Sample.feedDown in
     let w := Scenario.emptyWorld in
     let msg := "Failed to fetch RSS after 3 attempts: timeout" in
     ∃ pr r w' e,
       poll E w = (Normal pr, w') ∧ PollRelay.process E w = (Normal r, w')
       ∧ success pr = false ∧ pollFailure E w e
       ∧ errorMessage e = msg ∧ errors r = [msg]).
Proof.
  split.
  - intros E w.
    destruct (pollProcess_reports_its_events E w)
      as (pr & r & w' & Hpoll & Hproc & _ & Hok & _).
    assert (Hs : success pr = true).
    { assert (Hc : (poll E w).1 = Normal pr) by (by rewrite Hpoll).
      vm_compute in Hc. by injection Hc as <-. }
    exists pr, r, w'. split; [exact Hpoll |]. split; [exact Hproc |].
    split; [exact Hs |]. destruct (Hok Hs) as (_ & H1 & H2 & _).
    split; [exact H1 | exact H2].
  - intros E w msg.
    destruct (pollProcess_reports_its_events E w)
      as (pr & r & w' & Hpoll & Hproc & _ & _ & Hko).
    assert (Hc : (poll E w).1 = Normal pr) by (by rewrite Hpoll).
    vm_compute in Hc. injection Hc as <-.
    destruct (Hko eq_refl) as (_ & _ & _ & _ & _ & _ & e & Hfail & He & Herr).
    simpl in He. injection He as He.
    eexists. exists r, w', e. split; [exact Hpoll |]. split; [exact Hproc |].
    split; [reflexivity |]. split; [exact Hfail |]. split; [by symmetry |].
    by rewrite Herr, <- He.
Defined.

Lemma failing_feed_alerts_once_witness :
  let E := Sample.feedDown in
  let w := Scenario.emptyWorld in
  let st' := cycles E 4 (start w) in
  let d := since (history w) (history (world st')) in
  fetchKeepsFailing E 4 (start w)
  ∧ consecutiveFailures st' = 4%nat
  ∧ alertSent st' = true
  ∧ alertCalls d = 1%nat
  ∧ telegramSends d = [] ∧ discordSends d = []
  ∧ table (world st') = table w.
Proof.
  intros E w st' d.
  assert (F : ∀ v, fetchFails E v
                     (ErrorObj "Failed to fetch RSS after 3 attempts: timeout"))
    by (intros v; eexists; reflexivity).
  assert (H : fetchKeepsFailing E 4 (start w))
    by (cbn [fetchKeepsFailing]; repeat split; eexists; apply F).
  split; [exact H |]. exact (failing_feed_alerts_once E 4 w H).
Defined.

Lemma alert_exactly_when_counter_reaches_three_witness :
  let E := Sample.flaky (fun k => negb (k =? 2)%nat) in
  let st := cycles E 3 (start Scenario.emptyWorld) in
  let st' := (ProcessRelay.process E st).2 in
  let d := since (history (world st)) (history (world st')) in
  (* two failures, then a cycle that returned early without an error *)
  errors (result st) = [] ∧ consecutiveFailures st = 2%nat
  (* the next failure raises the alert *)
  ∧ consecutiveFailures st' = 3%nat ∧ alertCalls d = 1%nat.
Proof.
  intros E st st' d.
  assert (H1 : errors (result st) = []) by (vm_compute; reflexivity).
  assert (H2 : consecutiveFailures st = 2%nat) by (vm_compute; reflexivity).
  assert (H3 : consecutiveFailures st' = 3%nat) by (vm_compute; reflexivity).
  split; [exact H1 |]. split; [exact H2 |]. split; [exact H3 |].
  destruct (alert_exactly_when_counter_reaches_three E 3 Scenario.emptyWorld)
    as (_ & _ & Hiff & _).
  exact (proj2 Hiff (conj H2 H3)).
Defined.

Lemma alert_iff_errors_witness :
  let E := Sample.declined in
  let st := {| App.shuttingDown := false; App.isProcessing := false;
               App.world := Scenario.emptyWorld |} in
  (App.isProcessing st = false ∧ App.alertsResolve E)
  ∧ ∃ pr w1,
      poll E (App.world st) = (Normal pr, w1)
      ∧ let st' := (App.runProcessingCycle E "thrown" st).2 in
        let calls :=
          alertCalls (since (history (App.world st)) (history (App.world st'))) in
        (calls ≤ 1)%nat
        ∧ (success pr = true →
             (calls = 1%nat ↔
              ∃ x, x ∈ results pr ∧ telegram x = false ∧ discord x = false
                   ∧ skipped x = false))
        ∧ (success pr = false →
             ∃ e, pollError pr = Some (errorMessage e)
                  ∧ (calls = 1%nat ↔ errorMessage e ≠ EmptyString)).
Proof.
  intros E st.
  assert (H1 : App.isProcessing st = false) by reflexivity.
  assert (H2 : App.alertsResolve E) by (intros h a b; eexists; reflexivity).
  split; [exact (conj H1 H2) |]. exact (alert_iff_errors E "thrown" st H1 H2).
Defined.

Lemma fetchRSS_retries_witness :
  let http : list NitterClient.Step → NitterClient.GetOutcome :=
    fun _ => NitterClient.Failed
               {| NitterClient.cause := NitterClient.NoResponse;
                  NitterClient.message := "timeout of 30000ms exceeded" |} in
  let cfg := {| NitterClient.maxRetries := 3; NitterClient.retryDelayMs := 1000 |} in
  ∃ gets,
    NitterClient.fetchRSS http cfg []
    = (NitterClient.outcomeOf cfg gets, [] ++ NitterClient.traceOf cfg 1 gets)
    ∧ Z.of_nat (length gets) = NitterClient.maxRetries cfg.
Proof.
  intros http cfg.
  destruct (fetchRSS_retries http cfg [])
    as (gets & Hrun & Hans & Hlen & Hnil & Hall & Hfull).
  exists gets. split; [exact Hrun |].
  destruct (last gets) as [g |] eqn:Hg.
  - apply (Hfull g eq_refl).
    apply last_Some in Hg as [front ->].
    apply Forall_app in Hans as [_ Hans].
    apply Forall_singleton in Hans as [steps <-]. reflexivity.
  - apply last_None in Hg. apply Hnil in Hg. simpl in Hg. lia.
Defined.

(** ** After the database is closed *)

Lemma closed_filterExisting (E : Env) (ids : list string) (w : World) :
  isShuttingDown w = true → ids ≠ [] →
  TweetRepository.filterExisting E ids w
  = (Throw shutdownError, emit [DbQuery (SelectIdIn ids) (Throw shutdownError)] w).
Proof.
  intros Hs Hne. unfold TweetRepository.filterExisting, bind, query.
  destruct ids as [| i ids]; [done |]. simpl. by rewrite Hs.
Qed.

Lemma poolUntouched_bookkeeping (E : Env) (w : World) :
  ∃ c w1 d, fetchTweets E w = (c, w1) ∧ history w1 = history w ++ d
            ∧ (∀ q r, DbQuery q r ∉ d)
            ∧ telegramSends d = [] ∧ discordSends d = []
            ∧ table w1 = table w ∧ isShuttingDown w1 = isShuttingDown w.
Proof.
  unfold fetchTweets, fetchRSS, bind, ret.
  destruct (nitterFetch E (history w)) as [xml | e] eqn:Hf.
  - destruct (parse_spec E xml (emit [FetchRSS (Normal xml)] w))
      as [[feed ->] | [e ->]].
    + do 3 eexists. split; [done |]. simpl. split; [done |].
      split; [| done]. intros q r Hin. apply list_elem_of_singleton in Hin. discriminate.
    + do 3 eexists. split; [done |]. simpl. rewrite <- app_assoc.
      split; [done |]. split; [| done]. intros q r Hin.
      apply elem_of_cons in Hin as [Hin | Hin]; [discriminate |].
      apply list_elem_of_singleton in Hin. discriminate.
  - do 3 eexists. split; [done |]. simpl. split; [done |].
    split; [| done]. intros q r Hin. apply list_elem_of_singleton in Hin. discriminate.
Qed.

Lemma onFailure_events (E : Env) (err : Thrown) (st : State) :
  ∃ st' d,
    onFailure E err st = (Normal (pushError (errorMessage err) (result st)), st')
    ∧ consecutiveFailures st' = S (consecutiveFailures st)
    ∧ table (world st') = table (world st)
    ∧ history (world st') = history (world st) ++ d
    ∧ (∀ q r, DbQuery q r ∉ d)
    ∧ telegramSends d = [] ∧ discordSends d = [].
Proof.
  unfold onFailure, sendNitterFailureAlert, sendAlert, logError.
  unfold_monad. destruct st as [w [| [| n]] [|] r]; simpl.
  all: repeat (oracle; simpl).
  all: eexists; eexists; split; [reflexivity |]; simpl.
  all: repeat rewrite <- app_assoc; simpl.
  all: split; [reflexivity |]; split; [reflexivity |]; split; [reflexivity |].
  all: split; [intros q r' Hin; set_solver | done].
Qed.

(** X27: once [close] has raised the shutdown flag, a cycle of either
    service sends nothing to the chats, leaves the table as it is and never
    reaches the pool; when the feed has posts the cycle fails with the
    shutdown error. *)
Theorem closed_database_stops_relaying (E : Env) :
  (∀ w,
     let w0 := closeDatabase w in
     let '(c, w') := poll E w0 in
     let d := since (history w0) (history w') in
     telegramSends d = [] ∧ discordSends d = [] ∧ table w' = table w
     ∧ poolUntouched d
     ∧ (∀ tweets w1, fetchTweets E w0 = (Normal tweets, w1) → tweets ≠ [] →
          ∃ pr, c = Normal pr ∧ success pr = false
                ∧ pollError pr = Some "Database is shutting down"))
  ∧ (∀ st,
     let st0 := withWorld (closeDatabase (world st)) st in
     let '(c, st') := ProcessRelay.process E st0 in
     let d := since (history (world st0)) (history (world st')) in
     telegramSends d = [] ∧ discordSends d = []
     ∧ table (world st') = table (world st)
     ∧ poolUntouched d
     ∧ (∀ tweets w1, fetchTweets E (world st0) = (Normal tweets, w1) → tweets ≠ [] →
          consecutiveFailures st' = S (consecutiveFailures st)
          ∧ ∃ r, c = Normal r ∧ errors r = ["Database is shutting down"])).
Proof.
  split.
  - intros w. cbv zeta. rewrite poll_eq.
    destruct (poolUntouched_bookkeeping E (closeDatabase w))
      as (c1 & w1 & d1 & Hrun & Hh1 & Hdb1 & Ht1 & Hd1 & Htab1 & Hs1).
    rewrite Hrun. unfold aborted. destruct c1 as [tweets | e].
    2: { simpl. rewrite Hh1, <- app_assoc, since_app, telegramSends_app,
           discordSends_app, Ht1, Hd1.
         split; [done |]. split; [done |]. split; [done |].
         split; [| by intros tweets w2 [=]].
         intros q r Hin. apply elem_of_app in Hin as [Hin | Hin];
           [by apply Hdb1 in Hin | apply list_elem_of_singleton in Hin; discriminate]. }
    destruct (length tweets =? 0)%nat eqn:Hlen.
    { rewrite Hh1, since_app. split; [done |]. split; [done |]. split; [done |].
      split; [intros q r Hin; by apply Hdb1 in Hin |].
      intros tweets' w2 [= <- <-] Hne. destruct tweets; [done | discriminate]. }
    rewrite closed_filterExisting;
      [| done | by destruct tweets].
    simpl. rewrite Hh1, <- !app_assoc, since_app, !telegramSends_app,
      !discordSends_app, Ht1, Hd1.
    split; [done |]. split; [done |]. split; [done |]. split.
    + intros q r Hin. apply elem_of_app in Hin as [Hin | Hin];
        [by apply Hdb1 in Hin |].
      apply elem_of_cons in Hin as [Hin | Hin]; [by injection Hin as _ -> |].
      apply list_elem_of_singleton in Hin. discriminate.
    + intros tweets' w2 _ _. by eexists.
  - intros st. cbv zeta. rewrite process_eq. cbv zeta. cbn [world withWorld].
    destruct (poolUntouched_bookkeeping E (closeDatabase (world st)))
      as (c1 & w1 & d1 & Hrun & Hh1 & Hdb1 & Ht1 & Hd1 & Htab1 & Hs1).
    rewrite Hrun. destruct c1 as [tweets | e].
    2: { match goal with
         | |- context [onFailure E e ?s] =>
             destruct (onFailure_events E e s)
               as (st' & d & -> & Hc & Htab & Hh & Hdb & Ht & Hd)
         end.
         cbn [world withWorld] in *.
         rewrite Hh, Hh1, <- app_assoc, since_app, telegramSends_app, discordSends_app,
           Ht1, Hd1, Ht, Hd, Htab, Htab1.
         split; [done |]. split; [done |]. split; [done |].
         split; [| by intros tweets w2 [=]].
         intros q r Hin. apply elem_of_app in Hin as [Hin | Hin];
           [by apply Hdb1 in Hin | by apply Hdb in Hin]. }
    destruct (length tweets =? 0)%nat eqn:Hlen.
    { cbn [world withWorld withResult]. rewrite Hh1, since_app.
      split; [done |]. split; [done |]. split; [done |].
      split; [intros q r Hin; by apply Hdb1 in Hin |].
      intros tweets' w2 [= <- <-] Hne. destruct tweets; [done | discriminate]. }
    rewrite closed_filterExisting; [| done | by destruct tweets].
    match goal with
    | |- context [onFailure E ?e ?s] =>
        destruct (onFailure_events E e s)
          as (st' & d & -> & Hc & Htab & Hh & Hdb & Ht & Hd)
    end.
    cbn [world withWorld withResult emit history table consecutiveFailures] in *.
    rewrite Hh, Hh1, <- !app_assoc, since_app, !telegramSends_app, !discordSends_app,
      Ht1, Hd1, Ht, Hd, Htab, Htab1.
    split; [done |]. split; [done |]. split; [done |]. split.
    + intros q r Hin. apply elem_of_app in Hin as [Hin | Hin];
        [by apply Hdb1 in Hin |].
      apply elem_of_cons in Hin as [Hin | Hin]; [by injection Hin as _ -> |].
      by apply Hdb in Hin.
    + intros tweets' w2 _ _. split; [done |]. by eexists.
Qed.

Lemma closed_database_stops_relaying_witness :
  let E := Sample.twoPosts in
  let w0 := closeDatabase Scenario.emptyWorld in
  let tweets := [Scenario.tweet "1" 100; Scenario.tweet "2" 200] in
  let w1 := emit [FetchRSS (Normal "<rss/>")] w0 in
  (fetchTweets E w0 = (Normal tweets, w1) ∧ tweets ≠ [])
  ∧ ∃ pr, (poll E w0).1 = Normal pr ∧ success pr = false
          ∧ pollError pr = Some "Database is shutting down".
Proof.
  intros E w0 tweets w1.
  assert (H1 : fetchTweets E w0 = (Normal tweets, w1)) by reflexivity.
  assert (H2 : tweets ≠ []) by discriminate.
  split; [exact (conj H1 H2) |].
  pose proof (proj1 (closed_database_stops_relaying E) Scenario.emptyWorld) as H.
  cbv zeta in H. fold w0 in H. destruct (poll E w0) as [c w'].
  destruct H as (_ & _ & _ & _ & H). exact (H tweets w1 H1 H2).
Defined.

(** ** No new post is dropped *)

Lemma processAll_live (E : Env) (tweets : list ParsedTweet) (w : World) :
  dbUp E w → sinksResolve E →
  ∃ rs w' d,
    processAll E tweets w = (Normal rs, w')
    ∧ history w' = history w ++ d
    ∧ discordSends d = telegramSends d
    ∧ (∀ t, t ∈ tweets →
         tw_id t ∈ storedIds w ∨ ∃ t', t' ∈ telegramSends d ∧ tw_id t' = tw_id t)
    ∧ (∀ i, i ∈ storedIds w' →
         i ∈ storedIds w ∨ ∃ t', t' ∈ telegramSends d ∧ tw_id t' = i).
Proof.
  intros Hup Hres. revert w Hup.
  induction tweets as [| t rest IH]; intros w Hup; simpl.
  - exists [], w, []. rewrite app_nil_r. split; [done |]. split; [done |].
    split; [done |]. split; [intros t Ht; by apply elem_of_nil in Ht |].
    intros i Hi. by left.
  - unfold bind at 1.
    pose proof (processTweet_extends E t w) as Hext.
    destruct (processTweet_live E t w Hup Hres) as (r & w1 & d1 & Hrun & Hh & Hcase).
    rewrite Hrun in *. simpl in Hext.
    unfold bind at 1.
    set (pause := if (0 <? length rest)%nat then sleep 1000 else ret tt).
    assert (∃ p, pause w1 = (Normal tt, emit p w1)
                 ∧ telegramSends p = [] ∧ discordSends p = [])
      as (p & -> & Hp1 & Hp2).
    { subst pause. destruct (0 <? length rest)%nat.
      - by exists [Sleep 1000].
      - exists []. unfold ret, emit. simpl. rewrite app_nil_r. by destruct w1. }
    assert (Hup1 : dbUp E (emit p w1)).
    { eapply dbUp_extends; [exact Hup |].
      eapply extends_trans; [exact Hext | apply extends_emit]. }
    destruct (IH (emit p w1) Hup1) as (rs & w2 & d2 & Hrun2 & Hh2 & Hsame2 & Hatt2 & Hnew2).
    unfold bind, ret. rewrite Hrun2. simpl in Hh2.
    exists (r :: rs), w2, (d1 ++ p ++ d2).
    split; [done |]. split; [by rewrite Hh2, Hh, <- !app_assoc |].
    rewrite !telegramSends_app, !discordSends_app, Hp1, Hp2, Hsame2. simpl.
    assert (Hstored1 : ∀ i, i ∈ storedIds w1 →
              i ∈ storedIds w ∨ ∃ t', t' ∈ telegramSends d1 ∧ tw_id t' = i).
    { intros i Hi.
      destruct Hcase as [(_ & _ & _ & Htab) | (_ & Ht1 & _ & Honly)].
      - left. unfold storedIds in *. by rewrite <- Htab.
      - destruct (Honly i Hi) as [? | ->]; [by left |].
        right. exists t. rewrite Ht1. split; [apply list_elem_of_here | done]. }
    split; [| split].
    + destruct Hcase as [(_ & -> & -> & _) | (_ & -> & -> & _)]; done.
    + intros u Hu. apply elem_of_cons in Hu as [-> | Hu].
      * destruct Hcase as [(Hin & _) | (_ & Ht1 & _)]; [by left |].
        right. exists t. rewrite Ht1. split; [| done].
        apply elem_of_app. left. apply list_elem_of_here.
      * destruct (Hatt2 u Hu) as [Hin | (t' & Hin & Heq)].
        -- destruct (Hstored1 (tw_id u) Hin) as [? | (t' & Hin' & Heq)]; [by left |].
           right. exists t'. split; [| done]. apply elem_of_app. by left.
        -- right. exists t'. split; [| done]. apply elem_of_app. by right.
    + intros i Hi. destruct (Hnew2 i Hi) as [Hin | (t' & Hin & Heq)].
      * destruct (Hstored1 i Hin) as [? | (t' & Hin' & Heq)]; [by left |].
        right. exists t'. split; [| done]. apply elem_of_app. by left.
      * right. exists t'. split; [| done]. apply elem_of_app. by right.
Qed.

(** X28: [poll] drops no new post. While the database answers and the chat
    clients resolve, a cycle whose feed stage succeeds runs to its end, sends
    to Discord what it sends to Telegram, and for every fetched post whose id
    is not in the table a post with that id is sent. *)
Theorem poll_sends_every_new_post (E : Env) (w w1 : World)
    (tweets : list ParsedTweet) :
  dbUp E w → sinksResolve E → fetchTweets E w = (Normal tweets, w1) →
  let '(c, w') := poll E w in
  let d := since (history w) (history w') in
  (∃ pr, c = Normal pr ∧ success pr = true ∧ tweetsFound pr = length tweets)
  ∧ discordSends d = telegramSends d
  ∧ (∀ t, t ∈ tweets → tw_id t ∉ storedIds w →
          ∃ t', t' ∈ telegramSends d ∧ tw_id t' = tw_id t).
Proof.
  intros Hup Hres Hfetch. rewrite poll_eq, Hfetch.
  destruct (poolUntouched_bookkeeping E w)
    as (c1 & w1' & d1 & Hrun & Hh1 & _ & Ht1 & Hd1 & Htab1 & Hs1).
  rewrite Hfetch in Hrun. injection Hrun as <- <-.
  assert (Hup1 : dbUp E w1) by (destruct Hup; split; [congruence | done]).
  destruct (length tweets =? 0)%nat eqn:Hlen.
  { cbv zeta. rewrite Hh1, since_app, Ht1, Hd1. destruct tweets; [| discriminate].
    split; [by eexists |]. split; [done |]. intros t Ht. by apply elem_of_nil in Ht. }
  destruct (filterExisting_bookkeeping E (map tw_id tweets) w1)
    as (c2 & w2 & d2 & Hrun2 & Hh2 & Hb2 & Htab2 & Hs2 & Hex1 & Hex2).
  destruct (filterExisting_outcomes E (map tw_id tweets) w1)
    as [(ex & rows & Heq & _) | (e & logs & _ & _ & [Hs | Hq])];
    [by destruct tweets | | destruct Hup1; congruence
     | destruct Hup1 as [_ Hp]; rewrite Hp in Hq; discriminate].
  rewrite Hrun2 in Heq. injection Heq as -> _. rewrite Hrun2. cbv zeta.
  destruct (bookkeeping_spec d2 Hb2) as (Ht2 & Hd2 & _).
  assert (Hup2 : dbUp E w2) by (destruct Hup1; split; [congruence | done]).
  assert (Hfresh : ∀ t, t ∈ tweets → tw_id t ∉ storedIds w → t ∈ notIn ex tweets).
  { intros t Hin Hno. unfold notIn. apply list_elem_of_In, List.filter_In.
    split; [by apply list_elem_of_In |].
    apply negb_true_iff, bool_decide_eq_false. intros Hex.
    destruct (Hex1 ex eq_refl _ Hex) as [_ Hst]. apply Hno.
    unfold storedIds in *. by rewrite <- Htab1. }
  destruct (length (notIn ex tweets) =? 0)%nat eqn:Hlf.
  { cbv zeta.
    rewrite Hh2, Hh1, <- app_assoc, since_app, telegramSends_app, discordSends_app,
      Ht1, Hd1, Ht2, Hd2.
    split; [by eexists |]. split; [done |]. intros t Hin Hno.
    specialize (Hfresh t Hin Hno). destruct (notIn ex tweets); [| discriminate].
    by apply elem_of_nil in Hfresh. }
  destruct (processAll_live E (notIn ex tweets) w2 Hup2 Hres)
    as (rs & w3 & d3 & -> & Hh3 & Hsame & Hatt & _).
  cbv zeta. rewrite Hh3, Hh2, Hh1, <- !app_assoc, since_app, !telegramSends_app,
    !discordSends_app, Ht1, Hd1, Ht2, Hd2, Hsame.
  split; [by eexists |]. split; [done |]. intros t Hin Hno.
  destruct (Hatt t (Hfresh t Hin Hno)) as [Hst | Hsent]; [| done].
  exfalso. apply Hno. unfold storedIds in *. by rewrite <- Htab1, <- Htab2.
Qed.

Lemma poll_sends_every_new_post_witness :
  let E := Sample.picky in
  let w := Scenario.worldWith ["1"] in
  let tweets := [Scenario.tweet "1" 100; Scenario.tweet "2" 200] in
  let w1 := emit [FetchRSS (Normal "<rss/>")] w in
  let t := Scenario.tweet "2" 200 in
  (dbUp E w ∧ sinksResolve E ∧ fetchTweets E w = (Normal tweets, w1)
   ∧ t ∈ tweets ∧ tw_id t ∉ storedIds w)
  ∧ ∃ t', t' ∈ telegramSends (since (history w) (history (poll E w).2))
          ∧ tw_id t' = tw_id t.
Proof.
  intros E w tweets w1 t.
  assert (H1 : dbUp E w) by (by split).
  assert (H2 : sinksResolve E) by (intros h u; split; by eexists).
  assert (H3 : fetchTweets E w = (Normal tweets, w1)) by reflexivity.
  assert (H4 : t ∈ tweets) by find_in_list.
  assert (H5 : tw_id t ∉ storedIds w).
  { intros Hin. apply list_elem_of_singleton in Hin. discriminate. }
  split; [exact (conj H1 (conj H2 (conj H3 (conj H4 H5)))) |].
  pose proof (poll_sends_every_new_post E w w1 tweets H1 H2 H3) as H.
  destruct (poll E w) as [c w']. destruct H as (_ & _ & H). exact (H t H4 H5).
Defined.

(** ** The first run *)

Lemma markOlder_stores (E : Env) (tweets : list ParsedTweet) (st : State) :
  dbUp E (world st) →
  ∃ st' d,
    forEach tweets
      (fun tweet =>
         inWorld (TweetRepository.markAsProcessed E (tw_id tweet) (tw_publishedAt tweet)) ;;;
         ret tt) st = (Normal tt, st')
    ∧ history (world st') = history (world st) ++ d
    ∧ sendless d
    ∧ result st' = result st
    ∧ consecutiveFailures st' = consecutiveFailures st
    ∧ alertSent st' = alertSent st
    ∧ dbUp E (world st')
    ∧ (∀ i, i ∈ storedIds (world st) → i ∈ storedIds (world st'))
    ∧ (∀ u, u ∈ tweets → tw_id u ∈ storedIds (world st')).
Proof.
  revert st. induction tweets as [| t rest IH]; intros st Hup; simpl.
  - exists st, []. rewrite app_nil_r. repeat split; try done; try apply Hup.
    + constructor.
    + intros u Hu. by apply elem_of_nil in Hu.
  - pose proof Hup as [Hs Hp].
    assert (∃ b w1 ev,
              TweetRepository.markAsProcessed E (tw_id t) (tw_publishedAt t) (world st)
              = (Normal b, w1)
              ∧ history w1 = history (world st) ++ [ev] ∧ isSend ev = false
              ∧ isShuttingDown w1 = false
              ∧ (∀ i, i ∈ storedIds (world st) → i ∈ storedIds w1)
              ∧ tw_id t ∈ storedIds w1)
      as (b & w1 & ev & Hrun & Hh & Hev & Hs1 & Hmono & Hin).
    { destruct (decide (tw_id t ∈ storedIds (world st))) as [Hst | Hno].
      - rewrite (markAsProcessed_present E _ _ _ Hs (Hp _ _) Hst).
        do 3 eexists. split; [reflexivity |]. simpl. by repeat split.
      - rewrite (markAsProcessed_fresh E _ _ _ Hs (Hp _ _) Hno).
        do 3 eexists. split; [reflexivity |]. simpl. split; [done |].
        split; [done |]. split; [done |]. unfold storedIds. simpl.
        rewrite map_app. split; [intros i Hi | ]; apply elem_of_app;
          [by left | right; apply list_elem_of_here]. }
    unfold bind at 1, inWorld at 1, bind at 1. rewrite Hrun. unfold ret at 1.
    destruct (IH (withWorld w1 st)) as (st' & d & Hfor & Hh' & Hsl & R & F & A & Hup' & Hmono' & Hall);
      [by split |].
    exists st', (ev :: d). split; [exact Hfor |]. simpl in *.
    split; [by rewrite Hh', Hh, <- app_assoc |].
    split; [by constructor |]. split; [done |]. split; [done |]. split; [done |].
    split; [done |]. split; [intros i Hi; by apply Hmono', Hmono |].
    intros u Hu. apply elem_of_cons in Hu as [-> | Hu]; [by apply Hmono' | by apply Hall].
Qed.

Lemma notIn_empty (tweets : list ParsedTweet) : notIn ∅ tweets = tweets.
Proof.
  unfold notIn. induction tweets as [| t l IH]; simpl; [done |].
  rewrite bool_decide_eq_false_2 by set_solver. simpl. by rewrite IH.
Qed.

(** X29: the first run in general. When no fetched id is stored, more than
    one post was fetched and the database answers, [process] sends one post
    only, the first in dispatch order, which is the oldest; it stores the ids
    of all the others without sending them, reports one new post, and no
    later cycle sends any of the others. *)
Theorem first_run_relays_only_the_oldest (E : Env) (st : State)
    (tweets : list ParsedTweet) (w1 w2 : World) :
  dbUp E (world st) →
  fetchTweets E (world st) = (Normal tweets, w1) →
  TweetRepository.filterExisting E (map tw_id tweets) w1 = (Normal ∅, w2) →
  (1 < length tweets)%nat →
  ∃ first rest r st',
    tweets = first :: rest
    ∧ Forall (notNewer first) rest
    ∧ ProcessRelay.process E st = (Normal r, st')
    ∧ telegramSends (since (history (world st)) (history (world st'))) = [first]
    ∧ discordSends (since (history (world st)) (history (world st'))) = [first]
    ∧ (∀ u, u ∈ rest → tw_id u ∈ storedIds (world st'))
    ∧ totalFetched r = length tweets ∧ newTweets r = 1%nat
    ∧ (∀ n u u', u ∈ rest → tw_id u' = tw_id u →
         let stn := cycles E n st' in
         u' ∉ telegramSends (since (history (world stn))
                               (history (world (ProcessRelay.process E stn).2)))).
Proof.
  intros Hup Hf Hx Hlen.
  destruct (fetchTweets_outcome E (world st))
    as (c & w1' & d1 & Hrun & Hh1 & (Hq1 & Hq1' & _) & _ & Hs1 & Hsorted).
  rewrite Hf in Hrun. inversion Hrun; subst c w1'. clear Hrun.
  destruct (filterExisting_quiet E (map tw_id tweets) w1)
    as (c2 & w2' & d2 & Hrun2 & Hh2 & (Hq2 & Hq2' & _) & _ & Hs2).
  rewrite Hx in Hrun2. inversion Hrun2; subst c2 w2'. clear Hrun2.
  destruct tweets as [| first rest]; [simpl in Hlen; lia |].
  destruct rest as [| second rest]; [simpl in Hlen; lia |].
  exists first, (second :: rest).
  specialize (Hsorted _ eq_refl). apply StronglySorted_inv in Hsorted as [_ Hmin].
  rewrite process_eq, Hf. cbv zeta.
  change ((length (first :: second :: rest) =? 0)%nat) with false. cbv iota.
  rewrite Hx, notIn_empty.
  change ((length (first :: second :: rest) =? 0)%nat) with false. cbv iota.
  unfold dispatch. unfold_monad. cbn [result withResult withWorld totalFetched setNewTweets].
  rewrite size_empty.
  match goal with
  | |- context [if ?c then _ else _] => assert (c = true) as ->
  end.
  { cbn [totalFetched setTotalFetched]. by rewrite !Nat.eqb_refl. }
  cbv beta iota.
  match goal with
  | |- context [forEach (second :: rest) ?f ?s] =>
      destruct (markOlder_stores E (second :: rest) s)
        as (st3 & d3 & Hrun3 & Hh3 & Hsl3 & R3 & F3 & A3 & Hup3 & Hmono3 & Hall3)
  end.
  { destruct Hup as [Hs Hp]. split; [| done]. simpl. congruence. }
  unfold bind, ret, ProcessRelay.inWorld in Hrun3. rewrite Hrun3.
  destruct (sendless_spec d3 Hsl3) as (Ht3 & Hd3 & _).
  pose proof (processSingleTweet_extends E first st3) as Hext4.
  destruct (processSingleTweet_block E first st3)
    as (st4 & d4 & Hrun4 & Hh4 & Ht4 & Hd4 & _ & _ & _ & _ & _ & B3 & _).
  rewrite Hrun4 in *. cbv beta iota. cbn [snd] in Hext4.
  do 2 eexists. split; [done |]. split; [done |]. split; [reflexivity |].
  rewrite resetStreak_world. cbn [world withResult result newTweets setNewTweets totalFetched].
  cbn [world withResult withWorld] in Hh3.
  assert (Hd : since (history (world st)) (history (world st4))
               = (FetchRSS (nitterFetch E (history (world st))) :: d1) ++ d2 ++ d3 ++ d4).
  { by rewrite Hh4, Hh3, Hh2, Hh1, <- !app_assoc, since_app. }
  rewrite Hd, !telegramSends_app, !discordSends_app, Hq2, Hq2', Ht3, Hd3, Ht4, Hd4.
  simpl. rewrite Hq1, Hq1'.
  assert (Hstored : ∀ u, u ∈ second :: rest → tw_id u ∈ storedIds (world st4)).
  { intros u Hu. eapply extends_stored; [exact Hext4 | by apply Hall3]. }
  split; [done |]. split; [done |]. split; [exact Hstored |].
  split; [by rewrite B3, R3 |]. split; [done |].
  intros n u u' Hu Heq Hsent.
  apply (process_sends_unstored E _ u' (or_introl Hsent)). rewrite Heq.
  eapply extends_stored; [apply cycles_extends |].
  unfold resetStreak, withResult.
  destruct (0 <? consecutiveFailures _)%nat; cbn [world]; by apply Hstored.
Qed.

Lemma first_run_relays_only_the_oldest_witness :
  let E := Sample.twoPosts in
  let st := start Scenario.emptyWorld in
  let tweets := [Scenario.tweet "1" 100; Scenario.tweet "2" 200] in
  let w1 := emit [FetchRSS (Normal "<rss/>")] Scenario.emptyWorld in
  let w2 := emit [DbQuery (SelectIdIn ["1"; "2"]) (Normal [])] w1 in
  (dbUp E (world st)
   ∧ fetchTweets E (world st) = (Normal tweets, w1)
   ∧ TweetRepository.filterExisting E (map tw_id tweets) w1 = (Normal ∅, w2)
   ∧ (1 < length tweets)%nat)
  ∧ ∃ first rest r st',
      tweets = first :: rest
      ∧ ProcessRelay.process E st = (Normal r, st')
      ∧ telegramSends (since (history (world st)) (history (world st'))) = [first]
      ∧ (∀ u, u ∈ rest → tw_id u ∈ storedIds (world st')).
Proof.
  intros E st tweets w1 w2.
  assert (H1 : dbUp E (world st)) by (by split).
  assert (H2 : fetchTweets E (world st) = (Normal tweets, w1)) by reflexivity.
  assert (H3 : TweetRepository.filterExisting E (map tw_id tweets) w1 = (Normal ∅, w2))
    by reflexivity.
  assert (H4 : (1 < length tweets)%nat) by (simpl; lia).
  split; [exact (conj H1 (conj H2 (conj H3 H4))) |].
  destruct (first_run_relays_only_the_oldest E st tweets w1 w2 H1 H2 H3 H4)
    as (first & rest & r & st' & Heq & _ & Hrun & Ht & _ & Hst & _).
  by exists first, rest, r, st'.
Defined.

(** ** The two services against each other *)

Lemma processAll_exact (E : Env) (tweets : list ParsedTweet) (w : World) :
  dbUp E w → sinksResolve E →
  NoDup (map tw_id tweets) →
  (∀ t, t ∈ tweets → tw_id t ∉ storedIds w) →
  ∃ rs w' d,
    processAll E tweets w = (Normal rs, w')
    ∧ history w' = history w ++ d
    ∧ telegramSends d = tweets ∧ discordSends d = tweets.
Proof.
  intros Hup Hres. revert w Hup.
  induction tweets as [| t rest IH]; intros w Hup Hnd Hnew; simpl.
  - exists [], w, []. by rewrite app_nil_r.
  - unfold bind at 1.
    pose proof (processTweet_extends E t w) as Hext.
    destruct (processTweet_live E t w Hup Hres) as (r & w1 & d1 & Hrun & Hh & Hcase).
    rewrite Hrun in *. simpl in Hext.
    destruct Hcase as [(Hin & _) | (_ & Ht1 & Hd1 & Honly)];
      [exfalso; apply (Hnew t); [apply list_elem_of_here | done] |].
    unfold bind at 1.
    set (pause := if (0 <? length rest)%nat then sleep 1000 else ret tt).
    assert (∃ p, pause w1 = (Normal tt, emit p w1)
                 ∧ telegramSends p = [] ∧ discordSends p = [])
      as (p & -> & Hp1 & Hp2).
    { subst pause. destruct (0 <? length rest)%nat.
      - by exists [Sleep 1000].
      - exists []. unfold ret, emit. simpl. rewrite app_nil_r. by destruct w1. }
    assert (Hup1 : dbUp E (emit p w1)).
    { eapply dbUp_extends; [exact Hup |].
      eapply extends_trans; [exact Hext | apply extends_emit]. }
    apply NoDup_cons in Hnd as [Hhead Hnd].
    destruct (IH (emit p w1) Hup1 Hnd) as (rs & w2 & d2 & Hrun2 & Hh2 & Ht2 & Hd2).
    { intros u Hu Hst. change (storedIds (emit p w1)) with (storedIds w1) in Hst.
      destruct (Honly (tw_id u) Hst) as [Hold | Heq].
      - apply (Hnew u); [by apply list_elem_of_further | done].
      - apply Hhead. rewrite <- Heq. apply list_elem_of_fmap. by exists u. }
    unfold bind, ret. rewrite Hrun2. simpl in Hh2.
    exists (r :: rs), w2, (d1 ++ p ++ d2).
    split; [done |]. split; [by rewrite Hh2, Hh, <- !app_assoc |].
    by rewrite !telegramSends_app, !discordSends_app, Ht1, Hd1, Hp1, Hp2, Ht2, Hd2.
Qed.

(** X30: after the first run the two services relay the same posts. When
    the database answers, the chat clients resolve, the fetched ids are
    distinct and at least one of them is stored, a cycle of [poll] and a cycle
    of [process] started in the same world both send to Telegram and to
    Discord exactly the fetched posts whose id is not stored, in the order of
    the fetched list. *)
Theorem services_agree_after_first_run (E : Env) (st : State) (w1 : World)
    (tweets : list ParsedTweet) :
  dbUp E (world st) → sinksResolve E →
  fetchTweets E (world st) = (Normal tweets, w1) →
  NoDup (map tw_id tweets) →
  (∃ t, t ∈ tweets ∧ tw_id t ∈ storedIds (world st)) →
  let fresh :=
    List.filter (fun t => negb (bool_decide (tw_id t ∈ storedIds (world st)))) tweets in
  let polled := since (history (world st)) (history (poll E (world st)).2) in
  let processed :=
    since (history (world st)) (history (world (ProcessRelay.process E st).2)) in
  telegramSends polled = fresh ∧ discordSends polled = fresh
  ∧ telegramSends processed = fresh ∧ discordSends processed = fresh.
Proof.
  intros Hup Hres Hfetch Hnd (t0 & Hin0 & Hst0). cbv zeta.
  destruct (poolUntouched_bookkeeping E (world st))
    as (c1 & w1' & d1 & Hrun & Hh1 & _ & Ht1 & Hd1 & Htab1 & Hs1).
  rewrite Hfetch in Hrun. injection Hrun as <- <-.
  assert (Hup1 : dbUp E w1) by (destruct Hup; split; [congruence | done]).
  destruct (filterExisting_bookkeeping E (map tw_id tweets) w1)
    as (c2 & w2 & d2 & Hrun2 & Hh2 & Hb2 & Htab2 & Hs2 & Hex1 & Hex2).
  destruct (filterExisting_outcomes E (map tw_id tweets) w1)
    as [(ex & rows & Heq & _) | (e & logs & _ & _ & [Hs | Hq])];
    [intros Hnil; destruct tweets; [by apply elem_of_nil in Hin0 | discriminate]
    | | destruct Hup1; congruence
    | destruct Hup1 as [_ Hp]; rewrite Hp in Hq; discriminate].
  rewrite Hrun2 in Heq. injection Heq as -> _.
  destruct (bookkeeping_spec d2 Hb2) as (Ht2 & Hd2 & _).
  assert (Hup2 : dbUp E w2) by (destruct Hup1; split; [congruence | done]).
  assert (Hmem : ∀ t, t ∈ tweets → tw_id t ∈ ex ↔ tw_id t ∈ storedIds (world st)).
  { intros t Hin. unfold storedIds in *. rewrite <- Htab1. split.
    - intros Hi. by destruct (Hex1 ex eq_refl _ Hi).
    - intros Hi. apply (Hex2 ex eq_refl); [| done].
      apply list_elem_of_fmap. by exists t. }
  assert (Hfresh : notIn ex tweets
                   = List.filter
                       (fun t => negb (bool_decide (tw_id t ∈ storedIds (world st))))
                       tweets).
  { unfold notIn. apply List.filter_ext_in. intros t Hin. f_equal.
    apply bool_decide_ext, Hmem. by apply list_elem_of_In. }
  assert (Hex_ne : ex ≠ ∅).
  { intros ->. apply (Hmem t0 Hin0) in Hst0. set_solver. }
  rewrite <- Hfresh.
  assert (Hpoll : telegramSends (since (history (world st)) (history (poll E (world st)).2))
                  = notIn ex tweets
                  ∧ discordSends (since (history (world st)) (history (poll E (world st)).2))
                    = notIn ex tweets).
  { rewrite poll_eq, Hfetch.
    destruct (length tweets =? 0)%nat eqn:Hlen;
      [destruct tweets; [by apply elem_of_nil in Hin0 | discriminate] |].
    rewrite Hrun2. cbv zeta.
    destruct (length (notIn ex tweets) =? 0)%nat eqn:Hlf.
    { cbn [snd].
      rewrite Hh2, Hh1, <- app_assoc, since_app, telegramSends_app, discordSends_app,
        Ht1, Hd1, Ht2, Hd2.
      by destruct (notIn ex tweets). }
    destruct (processAll_exact E (notIn ex tweets) w2 Hup2 Hres)
      as (rs & w3 & d3 & -> & Hh3 & Ht3 & Hd3).
    { unfold notIn. clear -Hnd. induction tweets as [| t ts IH]; simpl; [constructor |].
      apply NoDup_cons in Hnd as [Hhead Hnd].
      destruct (negb _); [| by apply IH].
      simpl. apply NoDup_cons. split; [| by apply IH].
      intros Hin. apply Hhead. apply list_elem_of_fmap in Hin as (u & Hid & Hu).
      apply list_elem_of_fmap. exists u. split; [done |].
      apply list_elem_of_In. apply list_elem_of_In, List.filter_In in Hu. tauto. }
    { intros t Hin Hst. unfold notIn in Hin.
      apply list_elem_of_In, List.filter_In in Hin as [Hin Hb].
      apply negb_true_iff, bool_decide_eq_false in Hb. apply Hb.
      apply (Hex2 ex eq_refl).
      - apply list_elem_of_fmap. exists t. split; [done | by apply list_elem_of_In].
      - unfold storedIds in *. by rewrite <- Htab2. }
    cbn [snd].
    by rewrite Hh3, Hh2, Hh1, <- !app_assoc, since_app, !telegramSends_app,
      !discordSends_app, Ht1, Hd1, Ht2, Hd2, Ht3, Hd3. }
  destruct Hpoll as [Hp1 Hp2]. split; [exact Hp1 |]. split; [exact Hp2 |].
  destruct (process_normal_path E st tweets w1 w2 ex Hfetch Hrun2 (or_introl Hex_ne))
    as (r & st' & d & Hproc & Hh & Ht & Hd & _).
  rewrite Hproc. cbn [snd]. by rewrite Hh, since_app, Ht, Hd.
Qed.

Lemma services_agree_after_first_run_witness :
  let E := Sample.picky in
  let st := start (Scenario.worldWith ["1"]) in
  let tweets := [Scenario.tweet "1" 100; Scenario.tweet "2" 200] in
  let w1 := emit [FetchRSS (Normal "<rss/>")] (Scenario.worldWith ["1"]) in
  (dbUp E (world st) ∧ sinksResolve E
   ∧ fetchTweets E (world st) = (Normal tweets, w1)
   ∧ NoDup (map tw_id tweets)
   ∧ ∃ t, t ∈ tweets ∧ tw_id t ∈ storedIds (world st))
  ∧ telegramSends (since (history (world st)) (history (poll E (world st)).2))
    = [Scenario.tweet "2" 200]
  ∧ telegramSends
      (since (history (world st)) (history (world (ProcessRelay.process E st).2)))
    = [Scenario.tweet "2" 200].
Proof.
  intros E st tweets w1.
  assert (H1 : dbUp E (world st)) by (by split).
  assert (H2 : sinksResolve E) by (intros h u; split; by eexists).
  assert (H3 : fetchTweets E (world st) = (Normal tweets, w1)) by reflexivity.
  assert (H4 : NoDup (map tw_id tweets)).
  { simpl. apply NoDup_cons. split.
    - intros Hin. apply list_elem_of_singleton in Hin. discriminate.
    - apply NoDup_singleton. }
  assert (H5 : ∃ t, t ∈ tweets ∧ tw_id t ∈ storedIds (world st)).
  { exists (Scenario.tweet "1" 100). split; apply list_elem_of_here. }
  split; [exact (conj H1 (conj H2 (conj H3 (conj H4 H5)))) |].
  destruct (services_agree_after_first_run E st w1 tweets H1 H2 H3 H4 H5)
    as (Hp & _ & Hq & _).
  split; [exact Hp | exact Hq].
Defined.
